(** * VSRVC: GOP orchestration, model assembly and metrics

    A shallow embedding of the Python sources
      - [src/metrics.py]               (module [Metrics])
      - [src/models/vsrvc.py]          (module [Vsrvc])
      - [src/loader/model_loader.py]   (modules [IFrameModel], [PFrameModel],
                                        [PFrameModelWithMotion], [Loader])
    together with the fragments of the Python and torch run time these
    sources rely on (modules [Py] and [Torch]). *)

From stdpp Require Import gmap strings list fin_maps.
From Stdlib Require Import ZArith Lia.

Open Scope string_scope.
Open Scope Z_scope.
Open Scope nat_scope.
Open Scope list_scope.

(* ===================================================================== *)
(** * Python run time: exceptions and results *)
(* ===================================================================== *)

Module Py.

(** The exception classes the modelled sources raise themselves or provoke
    in the interpreter.  The payload is the message. *)
Inductive exn : Type :=
  | KeyError (msg : string)
  | ValueError (msg : string)
  | NotImplementedError (msg : string)
  | RuntimeError (msg : string)
  | AssertionError
  | ZeroDivisionError
  | IndexError
  | TypeError
  | AttributeError
  | RecursionError
  | FileNotFoundError
  | OSError
  | OverflowError.

(** A Python call either returns a value or raises. *)
Inductive result (A : Type) : Type :=
  | Ok (a : A)
  | Raise (e : exn).
Arguments Ok {A} a.
Arguments Raise {A} e.

#[global] Instance result_ret : MRet result := fun A a => Ok a.
#[global] Instance result_bind : MBind result := fun A B f r =>
  match r with
  | Ok a => f a
  | Raise e => Raise e
  end.
#[global] Instance result_fmap : FMap result := fun A B f r =>
  match r with
  | Ok a => Ok (f a)
  | Raise e => Raise e
  end.

Definition is_Ok {A} (r : result A) : bool :=
  match r with Ok _ => true | Raise _ => false end.

Definition is_NotImplementedError {A} (r : result A) : bool :=
  match r with Raise (NotImplementedError _) => true | _ => false end.

(** [seq[i]] on a Python sequence of length [n]: negative indices count from
    the end; out of range raises [IndexError]. *)
Definition norm_index (n : nat) (i : Z) : result nat :=
  let j := if (i <? 0)%Z then (i + Z.of_nat n)%Z else i in
  if ((0 <=? j)%Z && (j <? Z.of_nat n)%Z)%bool then Ok (Z.to_nat j) else Raise IndexError.

Definition getitem {A} (l : list A) (i : Z) : result A :=
  j ← norm_index (length l) i;
  match l !! j with
  | Some a => Ok a
  | None => Raise IndexError
  end.

(** Bounds of a slice [a:b] on a sequence of length [n] (step 1): negative
    bounds count from the end, and both are clamped to [0..n]. *)
Definition norm_bound (n : nat) (i : Z) : nat :=
  let j := if (i <? 0)%Z then (i + Z.of_nat n)%Z else i in
  Z.to_nat (Z.min (Z.max j 0) (Z.of_nat n)).

(** [for x in xs: s = body(x, s)], in any monad. *)
Fixpoint for_each {M : Type → Type} `{MRet M, MBind M} {X S : Type}
    (xs : list X) (body : X → S → M S) (s : S) : M S :=
  match xs with
  | [] => mret s
  | x :: xs' => s' ← body x s; for_each xs' body s'
  end.

(** [range(0, n)] and [enumerate(l)]. *)
Definition range (n : nat) : list nat := seq 0 n.
Definition enumerate {A} (l : list A) : list (nat * A) := zip (seq 0 (length l)) l.

End Py.
Export Py.

(* ===================================================================== *)
(** * The torch fragment: a tensor is its shape and its row-major content *)
(* ===================================================================== *)

Module Torch.
Section Tensor.
(** The element type is left open: no modelled function inspects a value. *)
Variable El : Type.

Record tensor : Type := Tensor { shape : list nat; data : list El }.

Definition numel (s : list nat) : nat := foldr Nat.mul 1 s.

(** The [i]-th block of [size] consecutive elements. *)
Definition block (i size : nat) (l : list El) : list El := take size (drop (i * size) l).

(** [t.size()[d]] *)
Definition size_at (t : tensor) (d : Z) : result nat := getitem (shape t) d.

(** [len(t.shape)] *)
Definition rank (t : tensor) : nat := length (shape t).

(** [t[i]]: select along dimension 0. *)
Definition index0 (t : tensor) (i : Z) : result tensor :=
  match shape t with
  | [] => Raise IndexError
  | n :: rest =>
      j ← norm_index n i;
      Ok (Tensor rest (block j (numel rest) (data t)))
  end.

(** [t[:, j]]: select along dimension 1. *)
Definition select1 (t : tensor) (j : Z) : result tensor :=
  match shape t with
  | b :: n :: rest =>
      k ← norm_index n j;
      let c := numel rest in
      Ok (Tensor (b :: rest)
            (flat_map (fun β => block k c (block β (n * c) (data t))) (seq 0 b)))
  | _ => Raise IndexError
  end.

(** [t[:, lo:hi]]: slice along dimension 1. *)
Definition narrow1 (t : tensor) (lo hi : Z) : result tensor :=
  match shape t with
  | b :: n :: rest =>
      let l := norm_bound n lo in
      let h := norm_bound n hi in
      let c := numel rest in
      Ok (Tensor (b :: (h - l) :: rest)
            (flat_map (fun β => take ((h - l) * c) (drop (l * c) (block β (n * c) (data t))))
                      (seq 0 b)))
  | _ => Raise IndexError
  end.

(** [t.unsqueeze(0)] *)
Definition unsqueeze0 (t : tensor) : tensor := Tensor (1 :: shape t) (data t).

Definition same_shape (s : list nat) (t : tensor) : bool := bool_decide (shape t = s).

(** [torch.stack(ts)] (dimension 0): refuses an empty list and tensors of
    different shapes. *)
Definition stack0 (ts : list tensor) : result tensor :=
  match ts with
  | [] => Raise (RuntimeError "stack expects a non-empty TensorList")
  | t :: _ =>
      if forallb (same_shape (shape t)) ts
      then Ok (Tensor (length ts :: shape t) (flat_map data ts))
      else Raise (RuntimeError "stack expects each tensor to be equal size")
  end.

(** [torch.stack(ts, dim=1)]: as [stack0], and dimension 1 must exist in the
    result, so the operands have at least one dimension. *)
Definition stack1 (ts : list tensor) : result tensor :=
  match ts with
  | [] => Raise (RuntimeError "stack expects a non-empty TensorList")
  | t :: _ =>
      if forallb (same_shape (shape t)) ts
      then match shape t with
           | [] => Raise IndexError
           | b :: rest =>
               let c := numel rest in
               Ok (Tensor (b :: length ts :: rest)
                     (flat_map (fun β => flat_map (fun u => block β c (data u)) ts) (seq 0 b)))
           end
      else Raise (RuntimeError "stack expects each tensor to be equal size")
  end.
End Tensor.

Arguments Tensor {El} shape data.
Arguments shape {El} t.
Arguments data {El} t.
Arguments size_at {El} t d.
Arguments rank {El} t.
Arguments index0 {El} t i.
Arguments select1 {El} t j.
Arguments narrow1 {El} t lo hi.
Arguments unsqueeze0 {El} t.
Arguments stack0 {El} ts.
Arguments stack1 {El} ts.
Arguments same_shape {El} s t.
End Torch.
Export Torch.

(* ===================================================================== *)
(** * src/metrics.py: the public metric functions *)
(* ===================================================================== *)

Module Metrics.
Section Metrics.
Variable El : Type.
Abbreviation tensor := (Torch.tensor El).

(** torchmetrics is a collaborator from outside the repository: a call
    yields one scalar or raises (on items whose shapes do not fit each other,
    on images smaller than the window of the structural similarity, ...).
    The torch reductions of a stack of such scalars yield one scalar. *)
Variable peak_signal_noise_ratio : tensor → tensor → result El.   (* data_range = 1.0 *)
Variable structural_similarity_index_measure : tensor → tensor → result El.
Variable mean_of : list El → El.
Variable sum_of : list El → El.

Definition scalar (v : El) : tensor := Tensor [] [v].
Definition torch_mean (t : tensor) : tensor := scalar (mean_of (data t)).
Definition torch_sum (t : tensor) : tensor := scalar (sum_of (data t)).

Definition dquote : string := String (Ascii.ascii_of_nat 34) EmptyString.

Definition unrecognized (aggregate : string) : exn :=
  NotImplementedError
    ("Unrecognized aggregation strategy " +:+ dquote +:+ aggregate +:+ dquote +:+ ". "
     +:+ "Possible aggregation strategies: [mean, sum, none].").

Definition strategies : list string := ["mean"; "sum"; "none"].

(** The tail of the four helpers:
    [if aggregate == "mean": return torch.mean(torch.stack(values))] ... *)
Definition aggregate_values (values : list tensor) (aggregate : string) : result tensor :=
  if bool_decide (aggregate = "mean") then t ← stack0 values; Ok (torch_mean t)
  else if bool_decide (aggregate = "sum") then t ← stack0 values; Ok (torch_sum t)
  else if bool_decide (aggregate = "none") then stack0 values
  else Raise (unrecognized aggregate).

(** [for i in range(target.size()[0]): values.append(metric(input[i], target[i]))] *)
Definition per_item (metric : tensor → tensor → result tensor)
    (input target : tensor) : result (list tensor) :=
  n ← size_at target 0;
  for_each (range n)
    (fun i values =>
       a ← index0 input (Z.of_nat i);
       b ← index0 target (Z.of_nat i);
       v ← metric a b;
       Ok (values ++ [v]))
    [].

Definition _psnr_images (input_images target_images : tensor) (aggregate : string)
    : result tensor :=
  if negb (bool_decide (rank input_images = 4))
  then Raise (NotImplementedError "Input tensors should have 4D shape B,C,H,W")
  else
    psnr_values ← per_item (fun a b => v ← peak_signal_noise_ratio a b; Ok (scalar v))
                     input_images target_images;
    aggregate_values psnr_values aggregate.

Definition _psnr_videos (input_videos target_videos : tensor) (aggregate : string)
    : result tensor :=
  if negb (bool_decide (rank input_videos = 5))
  then Raise (NotImplementedError "Input tensors should have 5D shape B,N,C,H,W")
  else
    psnr_values ← per_item (fun a b => v ← peak_signal_noise_ratio a b; Ok (scalar v))
                     input_videos target_videos;
    aggregate_values psnr_values aggregate.

Definition _ssim_images (input_images target_images : tensor) (aggregate : string)
    : result tensor :=
  if negb (bool_decide (rank input_images = 4))
  then Raise (NotImplementedError "Input tensors should have 4D shape B,C,H,W")
  else
    ssim_values ← per_item
                     (fun a b => v ← structural_similarity_index_measure
                                       (unsqueeze0 a) (unsqueeze0 b);
                                 Ok (scalar v))
                     input_images target_images;
    aggregate_values ssim_values aggregate.

Definition _ssim_videos (input_videos target_videos : tensor) (aggregate : string)
    : result tensor :=
  if negb (bool_decide (rank input_videos = 5))
  then Raise (NotImplementedError "Input tensors should have 5D shape B,N,C,H,W")
  else
    ssim_values ← per_item
                     (fun a b => v ← structural_similarity_index_measure a b; Ok (scalar v))
                     input_videos target_videos;
    aggregate_values ssim_values aggregate.

Definition psnr (input_images target_images : tensor) (aggregate : string) : result tensor :=
  if bool_decide (aggregate ∉ strategies) then Raise (unrecognized aggregate)
  else if bool_decide (rank input_images = 4)
       then _psnr_images input_images target_images aggregate
  else if bool_decide (rank input_images = 5)
       then _psnr_videos input_images target_images aggregate
  else Raise (NotImplementedError "Input tensors should be 4D or 5D").

Definition ssim (input_images target_images : tensor) (aggregate : string) : result tensor :=
  if bool_decide (aggregate ∉ strategies) then Raise (unrecognized aggregate)
  else if bool_decide (rank input_images = 4)
       then _ssim_images input_images target_images aggregate
  else if bool_decide (rank input_images = 5)
       then _ssim_videos input_images target_images aggregate
  else Raise (NotImplementedError "Input tensors should be 4D or 5D").

End Metrics.
End Metrics.

(* ===================================================================== *)
(** * Python values exchanged with the collaborators *)
(* ===================================================================== *)

Module Value.
Section Value.
Variable El : Type.
Abbreviation tensor := (Torch.tensor El).

(** The objects the orchestration code handles without knowing their class:
    representations, bitstream records, reconstructions. *)
#[warnings="-register-all"] Inductive pyval : Type :=
  | PNone
  | PInt (z : Z)
  | PStr (s : string)
  | PTensor (t : tensor)
  | PTuple (items : list pyval)
  | PList (items : list pyval).

(** [isinstance(v, list)] *)
Definition isinstance_list (v : pyval) : bool :=
  match v with PList _ => true | _ => false end.

Definition chars (s : string) : list pyval :=
  (fun c => PStr (String c EmptyString)) <$> String.list_ascii_of_string s.

(** [v[i]] *)
Definition py_getitem (v : pyval) (i : Z) : result pyval :=
  match v with
  | PTuple l | PList l => getitem l i
  | PTensor t => PTensor <$> index0 t i
  | PStr s => getitem (chars s) i
  | PNone | PInt _ => Raise TypeError
  end.

(** Iterating [v], as in a call [f( *v )]. *)
Definition py_iter (v : pyval) : result (list pyval) :=
  match v with
  | PTuple l | PList l => Ok l
  | PTensor t =>
      match shape t with
      | [] => Raise TypeError
      | n :: _ => for_each (range n)
                    (fun i acc => x ← index0 t (Z.of_nat i); Ok (acc ++ [PTensor x])) []
      end
  | PStr s => Ok (chars s)
  | PNone | PInt _ => Raise TypeError
  end.

(** [(x,) + v]: tuples concatenate with tuples only. *)
Definition tuple_cons (x v : pyval) : result pyval :=
  match v with
  | PTuple l => Ok (PTuple (x :: l))
  | _ => Raise TypeError
  end.

(** [v.append(x)]; [v.extend([x])] is the same call on a one-element list. *)
Definition py_append (v x : pyval) : result pyval :=
  match v with
  | PList l => Ok (PList (l ++ [x]))
  | _ => Raise AttributeError
  end.

(** A positional-argument method of a collaborator. *)
Definition method : Type := list pyval → pyval.

End Value.

Arguments PNone {El}.
Arguments PInt {El} z.
Arguments PStr {El} s.
Arguments PTensor {El} t.
Arguments PTuple {El} items.
Arguments PList {El} items.
Arguments isinstance_list {El} v.
Arguments py_getitem {El} v i.
Arguments py_iter {El} v.
Arguments tuple_cons {El} x v.
Arguments py_append {El} v x.
End Value.
Export Value.

(* ===================================================================== *)
(** * src/models/vsrvc.py: the two-frame-window encoders and a compression head *)
(* ===================================================================== *)

Module Vsrvc.
Section Vsrvc.
Variable El : Type.
Abbreviation tensor := (Torch.tensor El).
Abbreviation pyval := (Value.pyval El).

(** [B, N, C, H, W = x.size()] *)
Definition unpack5 (s : list nat) : result (nat * nat * nat * nat * nat) :=
  match s with
  | [B; N; C; H; W] => Ok (B, N, C, H, W)
  | _ => Raise (ValueError "wrong number of values to unpack (expected 5)")
  end.

(** [assert (c)] *)
Definition assert (c : bool) : result unit :=
  if c then Ok () else Raise AssertionError.

(** ** class VSRVCMotionResidualEncoder

    The sub-modules ([nn.Sequential], [MotionEstimator], [HyperpriorCompressAI],
    [MotionCompensator]) are defined outside the repository sources at hand;
    they are fields of the instance. *)
Record VSRVCMotionResidualEncoder : Type := {
  feat_extractor : tensor → tensor;
  motion_estimator : tensor → tensor → tensor;
  motion_train_compression_decompression : tensor → tensor * pyval * pyval;
  motion_compensator : tensor → tensor → tensor;
}.

Definition mre_extract_feats (self : VSRVCMotionResidualEncoder) (x : tensor) : tensor :=
  feat_extractor self x.

Definition mre_forward (self : VSRVCMotionResidualEncoder) (x : tensor) : result pyval :=
  '(B, N, C, H, W) ← unpack5 (shape x);
  assert (bool_decide (N = 2));;
  x0 ← select1 x 0;
  let prev_feat := mre_extract_feats self x0 in
  x1 ← select1 x 1;
  let curr_feat := mre_extract_feats self x1 in
  let offsets := motion_estimator self prev_feat curr_feat in
  let '(decompressed_offsets, p_bits, hp_bits) :=
    motion_train_compression_decompression self offsets in
  let aligned_features := motion_compensator self prev_feat decompressed_offsets in
  xlast ← select1 x (-1);
  Ok (PList [PTuple [PTensor aligned_features; PTensor curr_feat; p_bits; hp_bits];
             PTuple [PTensor aligned_features; PTensor xlast]]).

(** ** class VSRVCResidualEncoder *)
Record VSRVCResidualEncoder : Type := {
  layers : tensor → tensor;
}.

Definition re_extract_feats (self : VSRVCResidualEncoder) (x : tensor) : tensor :=
  layers self x.

Definition re_forward (self : VSRVCResidualEncoder) (x : tensor) : result pyval :=
  '(B, N, C, H, W) ← unpack5 (shape x);
  assert (bool_decide (N = 2));;
  x0 ← select1 x 0;
  let prev_feat := re_extract_feats self x0 in
  x1 ← select1 x 1;
  let curr_feat := re_extract_feats self x1 in
  xlast ← select1 x (-1);
  Ok (PList [PTuple [PTensor prev_feat; PTensor curr_feat];
             PTuple [PTensor prev_feat; PTensor curr_feat; PTensor xlast]]).

(** ** class ICDecoder

    [HyperpriorCompressAI] and [ReconstructionHead] are defined outside the
    sources at hand; they are fields of the instance. *)
Record ICDecoder : Type := {
  compressor_compress : pyval → pyval * pyval * pyval;
  compressor_decompress : pyval → pyval → pyval → pyval;
  compressor_train_compression_decompression : pyval → pyval * pyval * pyval;
  reconstruction_head : pyval → pyval;
}.

Definition ic_compress (self : ICDecoder) (x : pyval) : pyval :=
  let '(prior_string, hyperprior_string, shape) := compressor_compress self x in
  PTuple [prior_string; hyperprior_string; shape].

Definition ic_decompress (self : ICDecoder) (prior_string hyperprior_string shape : pyval)
    : pyval :=
  let reconstructed_features :=
    compressor_decompress self prior_string hyperprior_string shape in
  reconstruction_head self reconstructed_features.

Definition ic_forward (self : ICDecoder) (x : pyval) : pyval :=
  let '(decompressed_data, prior_bits, hyperprior_bits) :=
    compressor_train_compression_decompression self x in
  let reconstructed_frame := reconstruction_head self decompressed_data in
  PTuple [reconstructed_frame; PList [prior_bits; hyperprior_bits]].

End Vsrvc.
End Vsrvc.

(* ===================================================================== *)
(** * Calls into collaborators: a log of events next to the result *)
(* ===================================================================== *)

Module Trace.

(** A computation that records, in order, the events it causes; the log is
    kept when the computation raises. *)
Definition M (E A : Type) : Type := list E * result A.

#[global] Instance M_ret {E} : MRet (M E) := fun A a => ([], Ok a).
#[global] Instance M_bind {E} : MBind (M E) := fun A B f m =>
  match m with
  | (l, Ok a) => let '(l', r) := f a in (l ++ l', r)
  | (l, Raise e) => (l, Raise e)
  end.

Definition lift {E A} (r : result A) : M E A := ([], r).
Definition raise {E A} (e : exn) : M E A := ([], Raise e).
Definition emit {E} (ev : E) : M E unit := ([ev], Ok ()).

(** Rewrite the events of a sub-computation. *)
Definition relabel {E A} (f : E → E) (m : M E A) : M E A := (f <$> m.1, m.2).

Definition log_of {E A} (m : M E A) : list E := m.1.
Definition result_of {E A} (m : M E A) : result A := m.2.

End Trace.
Export Trace.

(* ===================================================================== *)
(** * Python dictionaries: insertion-ordered, keyed by strings *)
(* ===================================================================== *)

Module Dict.
Section Dict.
Context {V : Type}.

Definition dict : Type := list (string * V).

(** [d[k]] as an expression *)
Fixpoint dict_get (d : dict) (k : string) : option V :=
  match d with
  | [] => None
  | (k', v) :: d' => if bool_decide (k' = k) then Some v else dict_get d' k
  end.

(** [d[k] = v]: an existing key keeps its position. *)
Fixpoint dict_set (d : dict) (k : string) (v : V) : dict :=
  match d with
  | [] => [(k, v)]
  | (k', v') :: d' =>
      if bool_decide (k' = k) then (k, v) :: d' else (k', v') :: dict_set d' k v
  end.

Definition dict_keys (d : dict) : list string := fst <$> d.

Definition lookup_key (d : dict) (k : string) : result V :=
  match dict_get d k with
  | Some v => Ok v
  | None => Raise (KeyError k)
  end.

End Dict.
Arguments dict V : clear implicits.
End Dict.
Export Dict.

(* ===================================================================== *)
(** * src/loader/model_loader.py: the model classes *)
(* ===================================================================== *)

Module Model.

(** A Python float, as [json.load] makes one of a number with a fraction or
    an exponent and of [NaN], [Infinity] and [-Infinity]: not a number, an
    infinity, or the finite value [m * 2^e]. *)
Inductive pyfloat : Type :=
  | FNan
  | FInf (negative : bool)
  | FFinite (m e : Z).

(** Values read from [model.json]. *)
Inductive json : Type :=
  | JNull
  | JBool (b : bool)
  | JInt (z : Z)
  | JFloat (x : pyfloat)
  | JStr (s : string).

(** [if v:] *)
Definition truthy (v : json) : bool :=
  match v with
  | JNull => false
  | JBool b => b
  | JInt z => negb (z =? 0)%Z
  | JFloat (FFinite m _) => negb (m =? 0)%Z
  | JFloat _ => true
  | JStr s => negb (bool_decide (s = EmptyString))
  end.

(** [i % k] for a loop index [i] and a value [k] of the description that is
    an [int]: Python's [%] has the sign of the divisor, as [Z.modulo] has;
    [bool] is a subclass of [int].  (A float is left to [float_rem_is_zero].) *)
Definition py_mod (i : nat) (k : json) : result Z :=
  match k with
  | JInt z => if (z =? 0)%Z then Raise ZeroDivisionError else Ok (Z.of_nat i mod z)%Z
  | JBool b => if b then Ok (Z.of_nat i mod 1)%Z else Raise ZeroDivisionError
  | JNull | JStr _ | JFloat _ => Raise TypeError
  end.

(** [float(i)] for a loop index, as [int % float] converts its left operand:
    the nearest float, ties to even, as the pair [(m, e)] of the value
    [m * 2^e]; [OverflowError] from [2^1024] on. *)
Definition float_of_index (i : nat) : result (Z * Z) :=
  let z := Z.of_nat i in
  let bits := if (z =? 0)%Z then 0%Z else (Z.log2 z + 1)%Z in
  if (bits <=? 53)%Z then Ok (z, 0%Z)
  else
    let sh := (bits - 53)%Z in
    let q := Z.shiftr z sh in
    let r := Z.land z (Z.ones sh) in
    let half := Z.shiftl 1 (sh - 1) in
    let q' := if ((half <? r)%Z || ((r =? half)%Z && Z.odd q))%bool then (q + 1)%Z else q in
    if (Z.shiftl 1 1024 <=? Z.shiftl q' sh)%Z then Raise OverflowError else Ok (q', sh).

(** [i % x == 0] for a float [x].  A zero [x] raises.  The remainder of
    floats is exact, so for a finite [x] it is zero exactly when [float(i)] is
    a multiple of [x]; the remainder by an infinity is zero for the index 0
    only; the remainder by a NaN is a NaN, which equals nothing. *)
Definition float_rem_is_zero (i : nat) (x : pyfloat) : result bool :=
  '(m, e) ← float_of_index i;
  match x with
  | FNan => Ok false
  | FInf _ => Ok (m =? 0)%Z
  | FFinite mx ex =>
      if (mx =? 0)%Z then Raise ZeroDivisionError
      else
        let num := (m * 2 ^ (e + Z.max 0 (- ex)))%Z in
        let den := (mx * 2 ^ Z.max 0 ex)%Z in
        Ok (num mod den =? 0)%Z
  end.

(** [i % self.keyframe_interval == 0] *)
Definition is_keyframe (i : nat) (keyframe_interval : json) : result bool :=
  match keyframe_interval with
  | JFloat x => float_rem_is_zero i x
  | _ => r ← py_mod i keyframe_interval; Ok (r =? 0)%Z
  end.

(** The entropy sub-modules [update] looks for among [named_modules()].

    Modelled from the spec: the classes [EntropyBottleneck] and
    [GaussianConditional] belong to the entropy-coding library, which is not
    among the sources; section 4.1 gives their calibration as an [update] that
    recomputes the tables and tells whether they changed, and that changes
    nothing when not forced on tables already present. *)
Inductive nn_module : Type :=
  | EntropyBottleneck (calibrated : bool)
  | GaussianConditional (calibrated : bool)
  | OtherModule.

Definition calibrate (force calibrated : bool) : bool * bool :=
  if calibrated && negb force then (false, calibrated) else (true, true).

Definition is_calibrated (m : nn_module) : bool :=
  match m with
  | EntropyBottleneck c | GaussianConditional c => c
  | OtherModule => true
  end.

(** [get_scale_table]: [exp(linspace(log(min), log(max), levels))], kept as
    the three numbers it is computed from. *)
Record scale_table : Type := { st_min : Z * Z; st_max : Z * Z; st_levels : nat }.
Definition SCALES_MIN : Z * Z := (11, 100)%Z.
Definition SCALES_MAX : Z * Z := (256, 1)%Z.
Definition SCALES_LEVELS : nat := 64.
Definition get_scale_table : scale_table :=
  {| st_min := SCALES_MIN; st_max := SCALES_MAX; st_levels := SCALES_LEVELS |}.

(** Whose collaborator is called: the model's own, or the one of the embedded
    [iframe_model]. *)
Inductive owner : Type := Self | Iframe_model.

Inductive callee : Type :=
  | encoder_forward
  | encoder_compress
  | encoder_compress_with_prev_recon
  | encoder_decompress
  | encoder_align_features
  | encoder_extract_feats
  | decoder_forward (task : string)
  | decoder_compress (task : string)
  | decoder_decompress (task : string).

Section Model.
Variable El : Type.
Abbreviation tensor := (Torch.tensor El).
Abbreviation pyval := (Value.pyval El).
Abbreviation method := (Value.method El).

(** One call into a collaborator: the frame index of the loop iteration that
    makes it, whose collaborator, which method, and the arguments. *)
Record event : Type := Event {
  ev_frame : nat;
  ev_owner : owner;
  ev_callee : callee;
  ev_args : list pyval;
}.

Definition at_frame (i : nat) (e : event) : event :=
  Event i (ev_owner e) (ev_callee e) (ev_args e).
Definition of_iframe_model (e : event) : event :=
  Event (ev_frame e) Iframe_model (ev_callee e) (ev_args e).

(** [f(args)] on a collaborator, recorded. *)
Definition call (c : callee) (f : method) (args : list pyval) : M event pyval :=
  ([Event 0 Self c args], Ok (f args)).

(** The encoder and the decoder heads are resolved by name from a registry
    outside the sources; the orchestration code only calls these methods. *)
Record encoder : Type := {
  enc_forward : method;
  enc_compress : method;
  enc_compress_with_prev_recon : method;
  enc_decompress : method;
  enc_align_features : method;
  enc_extract_feats : method;
  enc_modules : list nn_module;
}.

Record decoder : Type := {
  dec_forward : method;
  dec_compress : method;
  dec_decompress : method;
  dec_modules : list nn_module;
}.

(** What every model class inherits: the constructor arguments and
    [_prepare_rep] of the architecture strategy. *)
Record BaseModel : Type := {
  task_name : list string;
  the_encoder : encoder;
  decoders : dict decoder;
  rep_grad : bool;
  multi_input : bool;
  lmbda : Z;
  _prepare_rep : pyval → string → bool → pyval;
}.

(** The three classes [load_model] can return. *)
Inductive model : Type :=
  | IFrame (base : BaseModel)
  | PFrame (base : BaseModel) (iframe_model : model) (keyframe_interval adaptation : json)
  | PFrameWithMotion (base : BaseModel) (iframe_model : model)
                     (keyframe_interval adaptation : json).

Definition base_of (m : model) : BaseModel :=
  match m with
  | IFrame b | PFrame b _ _ _ | PFrameWithMotion b _ _ _ => b
  end.

(** [self.decoders[task]] *)
Definition decoder_of (self : BaseModel) (task : string) : M event decoder :=
  lift (lookup_key (decoders self) task).

(** [ss_rep = s_rep[tn] if isinstance(s_rep, list) else s_rep]
    [ss_rep = self._prepare_rep(ss_rep, task, same_rep)] *)
Definition task_rep (self : BaseModel) (s_rep : pyval) (tn : nat) (task : string)
    : result pyval :=
  let same_rep := negb (isinstance_list s_rep) && negb (multi_input self) in
  ss_rep ← (if isinstance_list s_rep then py_getitem s_rep (Z.of_nat tn) else Ok s_rep);
  Ok (_prepare_rep self ss_rep task same_rep).

(** [{task: [] for task in self.task_name}] *)
Definition empty_out (self : BaseModel) : dict (list pyval) :=
  foldl (fun d task => dict_set d task []) [] (task_name self).

(** [out[task].append(value)] *)
Definition append_to (out : dict (list pyval)) (task : string) (value : pyval)
    : result (dict (list pyval)) :=
  l ← lookup_key out task;
  Ok (dict_set out task (l ++ [value])).

(** [for task, value in results.items(): out[task].append(value)] *)
Definition append_results (results : dict pyval) (out : dict (list pyval))
    : result (dict (list pyval)) :=
  for_each results (fun '(task, value) out => append_to out task value) out.

(** [torch.stack(reconstructed_video, dim=1)] *)
Definition as_tensor (v : pyval) : result tensor :=
  match v with PTensor t => Ok t | _ => Raise TypeError end.

Definition stack_frames (reconstructed_video : list pyval) : result tensor :=
  ts ← for_each reconstructed_video (fun v acc => t ← as_tensor v; Ok (acc ++ [t])) [];
  stack1 ts.

(** The sentinel [('', '', 0)] that fills the motion slot of a keyframe. *)
Definition sentinel : pyval := PTuple [PStr EmptyString; PStr EmptyString; PInt 0].

End Model.

Arguments Event {El} ev_frame ev_owner ev_callee ev_args.
Arguments ev_frame {El} e.
Arguments ev_owner {El} e.
Arguments ev_callee {El} e.
Arguments ev_args {El} e.
Arguments at_frame {El} i e.
Arguments of_iframe_model {El} e.
Arguments call {El} c f args.
Arguments enc_forward {El} e.
Arguments enc_compress {El} e.
Arguments enc_compress_with_prev_recon {El} e.
Arguments enc_decompress {El} e.
Arguments enc_align_features {El} e.
Arguments enc_extract_feats {El} e.
Arguments enc_modules {El} e.
Arguments dec_forward {El} d.
Arguments dec_compress {El} d.
Arguments dec_decompress {El} d.
Arguments dec_modules {El} d.
Arguments task_name {El} b.
Arguments the_encoder {El} b.
Arguments decoders {El} b.
Arguments rep_grad {El} b.
Arguments multi_input {El} b.
Arguments lmbda {El} b.
Arguments _prepare_rep {El} b.
Arguments IFrame {El} base.
Arguments PFrame {El} base iframe_model keyframe_interval adaptation.
Arguments PFrameWithMotion {El} base iframe_model keyframe_interval adaptation.
Arguments base_of {El} m.
Arguments decoder_of {El} self task.
Arguments task_rep {El} self s_rep tn task.
Arguments empty_out {El} self.
Arguments append_to {El} out task value.
Arguments append_results {El} results out.
Arguments as_tensor {El} v.
Arguments stack_frames {El} reconstructed_video.
Arguments sentinel {El}.
End Model.
Export Model.

(** ** class IFrameModel *)
Module IFrameModel.
Section IFrameModel.
Variable El : Type.
Abbreviation tensor := (Torch.tensor El).
Abbreviation pyval := (Value.pyval El).
Abbreviation event := (Model.event El).
Abbreviation BaseModel := (Model.BaseModel El).

Definition compress_one (self : BaseModel) (inp : pyval) : M event (dict pyval) :=
  s_rep ← call encoder_forward (enc_forward (the_encoder self)) [inp];
  for_each (enumerate (task_name self))
    (fun '(tn, task) out =>
       ss_rep ← lift (task_rep self s_rep tn task);
       d ← decoder_of self task;
       value ← (if bool_decide (task = "vc")
                then call (decoder_compress task) (dec_compress d) [ss_rep]
                else call (decoder_forward task) (dec_forward d) [ss_rep]);
       mret (dict_set out task value))
    [].

Definition decompress_one (self : BaseModel) (inputs : pyval) : M event pyval :=
  d ← decoder_of self "vc";
  args ← lift (py_iter inputs);
  call (decoder_decompress "vc") (dec_decompress d) args.

(** One iteration of the loop of [compress]. *)
Definition compress_frame (self : BaseModel) (video : tensor) (i : nat)
    (out : dict (list pyval)) : M event (dict (list pyval)) :=
  inp ← lift (narrow1 video (Z.of_nat i) (Z.of_nat i + 1));
  results ← compress_one self (PTensor inp);
  lift (append_results results out).

Definition compress (self : BaseModel) (video : tensor) : M event (dict (list pyval)) :=
  n ← lift (size_at video 1);
  for_each (range n)
    (fun i out => relabel (at_frame i) (compress_frame self video i out))
    (empty_out self).

Definition decompress (self : BaseModel) (inputs : list pyval) : M event tensor :=
  reconstructed_video ←
    for_each (enumerate inputs)
      (fun '(i, inp) reconstructed_video =>
         relabel (at_frame i)
           (recon ← decompress_one self inp;
            mret (reconstructed_video ++ [recon])))
      [];
  lift (stack_frames reconstructed_video).

End IFrameModel.
Arguments compress_one {El} self inp.
Arguments decompress_one {El} self inputs.
Arguments compress_frame {El} self video i out.
Arguments compress {El} self video.
Arguments decompress {El} self inputs.
End IFrameModel.


(** ** The loops over the tasks of a predicted frame

    [PFrameModel] and [PFrameModelWithMotion] carry the same text for them. *)
Module Predicted.
Section Predicted.
Variable El : Type.
Abbreviation pyval := (Value.pyval El).
Abbreviation event := (Model.event El).
Abbreviation BaseModel := (Model.BaseModel El).

(** In [compress_with_adaptation]. *)
Definition adapt_tasks (self : BaseModel) (s_rep : pyval)
    (st : dict (list pyval) * pyval) : M event (dict (list pyval) * pyval) :=
  for_each (enumerate (task_name self))
    (fun '(tn, task) '(out, prev_recon) =>
       ss_rep ← lift (task_rep self s_rep tn task);
       if bool_decide (task = "vc") then
         d ← decoder_of self task;
         results ← call (decoder_compress task) (dec_compress d) [ss_rep];
         ref ← lift (py_getitem ss_rep 0);
         rec ← lift (py_getitem results 0);
         inp ← lift (tuple_cons ref rec);
         d ← decoder_of self task;
         args ← lift (py_iter inp);
         prev_recon ← call (decoder_decompress task) (dec_decompress d) args;
         out ← lift (append_to out task results);
         mret (out, prev_recon)
       else
         l ← lift (lookup_key out task);
         d ← decoder_of self task;
         value ← call (decoder_forward task) (dec_forward d) [ss_rep];
         mret (dict_set out task (l ++ [value]), prev_recon))
    st.

(** In [compress_no_adaptation]. *)
Definition plain_tasks (self : BaseModel) (s_rep : pyval) (out : dict (list pyval))
    : M event (dict (list pyval)) :=
  for_each (enumerate (task_name self))
    (fun '(tn, task) out =>
       ss_rep ← lift (task_rep self s_rep tn task);
       l ← lift (lookup_key out task);
       d ← decoder_of self task;
       value ← (if bool_decide (task = "vc")
                then call (decoder_compress task) (dec_compress d) [ss_rep]
                else call (decoder_forward task) (dec_forward d) [ss_rep]);
       mret (dict_set out task (l ++ [value])))
    out.

End Predicted.
Arguments adapt_tasks {El} self s_rep st.
Arguments plain_tasks {El} self s_rep out.
End Predicted.
Export Predicted.

(** ** class PFrameModel *)
Module PFrameModel.
Section PFrameModel.
Variable El : Type.
Abbreviation tensor := (Torch.tensor El).
Abbreviation pyval := (Value.pyval El).
Abbreviation event := (Model.event El).
Abbreviation BaseModel := (Model.BaseModel El).
Abbreviation model := (Model.model El).

(** [self.iframe_model.compress_one(inp)]: only [IFrameModel] has the method. *)
Definition iframe_compress_one (iframe_model : model) (inp : pyval) : M event (dict pyval) :=
  match iframe_model with
  | IFrame b => relabel of_iframe_model (IFrameModel.compress_one b inp)
  | _ => raise AttributeError
  end.

(** [self.iframe_model.decompress_one]: the attribute is looked up before the
    argument is evaluated. *)
Definition iframe_decompress_one (iframe_model : model) (inputs : result pyval)
    : M event pyval :=
  match iframe_model with
  | IFrame b => x ← lift inputs; relabel of_iframe_model (IFrameModel.decompress_one b x)
  | _ => raise AttributeError
  end.

(** [results["vc"][0]] *)
Definition first_record (results : dict pyval) : result pyval :=
  vc ← lookup_key results "vc"; py_getitem vc 0.

(** One iteration of the loop of [compress_with_adaptation]. *)
Definition adapt_frame (self : BaseModel) (iframe_model : model) (keyframe_interval : json)
    (video : tensor) (i : nat) (st : dict (list pyval) * pyval)
    : M event (dict (list pyval) * pyval) :=
  let '(out, prev_recon) := st in
  key ← lift (is_keyframe i keyframe_interval);
  if key : bool then
    inp ← lift (narrow1 video (Z.of_nat i) (Z.of_nat i + 1));
    results ← iframe_compress_one iframe_model (PTensor inp);
    prev_recon ← iframe_decompress_one iframe_model (first_record results);
    out ← lift (append_results results out);
    mret (out, prev_recon)
  else
    inp ← lift (narrow1 video (Z.of_nat i - 1) (Z.of_nat i + 1));
    s_rep ← call encoder_compress (enc_compress (the_encoder self)) [PTensor inp; prev_recon];
    adapt_tasks self s_rep (out, prev_recon).

Definition compress_with_adaptation (self : BaseModel) (iframe_model : model)
    (keyframe_interval : json) (video : tensor) : M event (dict (list pyval)) :=
  n ← lift (size_at video 1);
  st ← for_each (range n)
         (fun i st =>
            relabel (at_frame i) (adapt_frame self iframe_model keyframe_interval video i st))
         (empty_out self, PNone);
  mret st.1.

(** One iteration of the loop of [compress_no_adaptation]. *)
Definition plain_frame (self : BaseModel) (iframe_model : model) (keyframe_interval : json)
    (video : tensor) (i : nat) (out : dict (list pyval)) : M event (dict (list pyval)) :=
  key ← lift (is_keyframe i keyframe_interval);
  if key : bool then
    inp ← lift (narrow1 video (Z.of_nat i) (Z.of_nat i + 1));
    results ← iframe_compress_one iframe_model (PTensor inp);
    lift (append_results results out)
  else
    inp ← lift (narrow1 video (Z.of_nat i - 1) (Z.of_nat i + 1));
    s_rep ← call encoder_compress (enc_compress (the_encoder self)) [PTensor inp];
    plain_tasks self s_rep out.

Definition compress_no_adaptation (self : BaseModel) (iframe_model : model)
    (keyframe_interval : json) (video : tensor) : M event (dict (list pyval)) :=
  n ← lift (size_at video 1);
  for_each (range n)
    (fun i out =>
       relabel (at_frame i) (plain_frame self iframe_model keyframe_interval video i out))
    (empty_out self).

Definition compress (self : BaseModel) (iframe_model : model)
    (keyframe_interval adaptation : json) (video : tensor) : M event (dict (list pyval)) :=
  if truthy adaptation
  then compress_with_adaptation self iframe_model keyframe_interval video
  else compress_no_adaptation self iframe_model keyframe_interval video.

(** One iteration of the loop of [decompress]. *)
Definition decompress_frame (self : BaseModel) (iframe_model : model)
    (keyframe_interval : json) (i : nat) (inp : pyval) (st : list pyval * pyval)
    : M event (list pyval * pyval) :=
  let '(reconstructed_video, prev_feat) := st in
  key ← lift (is_keyframe i keyframe_interval);
  recon ← (if key : bool then
             iframe_decompress_one iframe_model (py_getitem inp 0)
           else
             rec ← lift (py_getitem inp 0);
             inp ← lift (tuple_cons prev_feat rec);
             d ← decoder_of self "vc";
             args ← lift (py_iter inp);
             call (decoder_decompress "vc") (dec_decompress d) args);
  prev_feat ← call encoder_extract_feats (enc_extract_feats (the_encoder self)) [recon];
  mret (reconstructed_video ++ [recon], prev_feat).

Definition decompress (self : BaseModel) (iframe_model : model) (keyframe_interval : json)
    (inputs : list pyval) : M event tensor :=
  st ← for_each (enumerate inputs)
         (fun '(i, inp) st =>
            relabel (at_frame i) (decompress_frame self iframe_model keyframe_interval i inp st))
         ([], PNone);
  lift (stack_frames st.1).

End PFrameModel.
Arguments iframe_compress_one {El} iframe_model inp.
Arguments iframe_decompress_one {El} iframe_model inputs.
Arguments first_record {El} results.
Arguments adapt_frame {El} self iframe_model keyframe_interval video i st.
Arguments compress_with_adaptation {El} self iframe_model keyframe_interval video.
Arguments plain_frame {El} self iframe_model keyframe_interval video i out.
Arguments compress_no_adaptation {El} self iframe_model keyframe_interval video.
Arguments compress {El} self iframe_model keyframe_interval adaptation video.
Arguments decompress_frame {El} self iframe_model keyframe_interval i inp st.
Arguments decompress {El} self iframe_model keyframe_interval inputs.
End PFrameModel.

(** ** class PFrameModelWithMotion *)
Module PFrameModelWithMotion.
Section PFrameModelWithMotion.
Variable El : Type.
Abbreviation tensor := (Torch.tensor El).
Abbreviation pyval := (Value.pyval El).
Abbreviation event := (Model.event El).
Abbreviation BaseModel := (Model.BaseModel El).
Abbreviation model := (Model.model El).

(** [results["vc"].append(('', '', 0))], and [.extend([('', '', 0)])]: the list
    held by [results] is changed in place. *)
Definition append_sentinel (results : dict pyval) : result (dict pyval) :=
  vc ← lookup_key results "vc";
  vc' ← py_append vc sentinel;
  Ok (dict_set results "vc" vc').

(** One iteration of the loop of [compress_no_adaptation]. *)
Definition plain_frame (self : BaseModel) (iframe_model : model) (keyframe_interval : json)
    (video : tensor) (i : nat) (out : dict (list pyval)) : M event (dict (list pyval)) :=
  key ← lift (is_keyframe i keyframe_interval);
  if key : bool then
    inp ← lift (narrow1 video (Z.of_nat i) (Z.of_nat i + 1));
    results ← PFrameModel.iframe_compress_one iframe_model (PTensor inp);
    results ← lift (append_sentinel results);
    lift (append_results results out)
  else
    inp ← lift (narrow1 video (Z.of_nat i - 1) (Z.of_nat i + 1));
    s_rep ← call encoder_compress (enc_compress (the_encoder self)) [PTensor inp];
    plain_tasks self s_rep out.

Definition compress_no_adaptation (self : BaseModel) (iframe_model : model)
    (keyframe_interval : json) (video : tensor) : M event (dict (list pyval)) :=
  n ← lift (size_at video 1);
  for_each (range n)
    (fun i out =>
       relabel (at_frame i) (plain_frame self iframe_model keyframe_interval video i out))
    (empty_out self).

(** One iteration of the loop of [compress_with_adaptation]. *)
Definition adapt_frame (self : BaseModel) (iframe_model : model) (keyframe_interval : json)
    (video : tensor) (i : nat) (st : dict (list pyval) * pyval)
    : M event (dict (list pyval) * pyval) :=
  let '(out, prev_recon) := st in
  key ← lift (is_keyframe i keyframe_interval);
  if key : bool then
    inp ← lift (narrow1 video (Z.of_nat i) (Z.of_nat i + 1));
    results ← PFrameModel.iframe_compress_one iframe_model (PTensor inp);
    prev_recon ← PFrameModel.iframe_decompress_one iframe_model
                   (PFrameModel.first_record results);
    results ← lift (append_sentinel results);
    out ← lift (append_results results out);
    mret (out, prev_recon)
  else
    inp ← lift (narrow1 video (Z.of_nat i - 1) (Z.of_nat i + 1));
    s_rep ← call encoder_compress_with_prev_recon
              (enc_compress_with_prev_recon (the_encoder self)) [prev_recon; PTensor inp];
    adapt_tasks self s_rep (out, prev_recon).

Definition compress_with_adaptation (self : BaseModel) (iframe_model : model)
    (keyframe_interval : json) (video : tensor) : M event (dict (list pyval)) :=
  n ← lift (size_at video 1);
  st ← for_each (range n)
         (fun i st =>
            relabel (at_frame i) (adapt_frame self iframe_model keyframe_interval video i st))
         (empty_out self, PNone);
  mret st.1.

Definition compress (self : BaseModel) (iframe_model : model)
    (keyframe_interval adaptation : json) (video : tensor) : M event (dict (list pyval)) :=
  if truthy adaptation
  then compress_with_adaptation self iframe_model keyframe_interval video
  else compress_no_adaptation self iframe_model keyframe_interval video.

(** One iteration of the loop of [decompress]. *)
Definition decompress_frame (self : BaseModel) (iframe_model : model)
    (keyframe_interval : json) (i : nat) (inp : pyval) (st : list pyval * pyval)
    : M event (list pyval * pyval) :=
  let '(reconstructed_video, prev_feat) := st in
  key ← lift (is_keyframe i keyframe_interval);
  recon ← (if key : bool then
             PFrameModel.iframe_decompress_one iframe_model (py_getitem inp 0)
           else
             motion ← lift (py_getitem inp 1);
             margs ← lift (py_iter motion);
             recon_offsets ← call encoder_decompress
                               (enc_decompress (the_encoder self)) margs;
             align_feat ← call encoder_align_features
                            (enc_align_features (the_encoder self)) [prev_feat; recon_offsets];
             rec ← lift (py_getitem inp 0);
             inp ← lift (tuple_cons align_feat rec);
             d ← decoder_of self "vc";
             args ← lift (py_iter inp);
             call (decoder_decompress "vc") (dec_decompress d) args);
  prev_feat ← call encoder_extract_feats (enc_extract_feats (the_encoder self)) [recon];
  mret (reconstructed_video ++ [recon], prev_feat).

Definition decompress (self : BaseModel) (iframe_model : model) (keyframe_interval : json)
    (inputs : list pyval) : M event tensor :=
  st ← for_each (enumerate inputs)
         (fun '(i, inp) st =>
            relabel (at_frame i) (decompress_frame self iframe_model keyframe_interval i inp st))
         ([], PNone);
  lift (stack_frames st.1).

End PFrameModelWithMotion.
Arguments append_sentinel {El} results.
Arguments plain_frame {El} self iframe_model keyframe_interval video i out.
Arguments compress_no_adaptation {El} self iframe_model keyframe_interval video.
Arguments adapt_frame {El} self iframe_model keyframe_interval video i st.
Arguments compress_with_adaptation {El} self iframe_model keyframe_interval video.
Arguments compress {El} self iframe_model keyframe_interval adaptation video.
Arguments decompress_frame {El} self iframe_model keyframe_interval i inp st.
Arguments decompress {El} self iframe_model keyframe_interval inputs.
End PFrameModelWithMotion.

(** ** Method resolution on the class of the instance, and [BaseModel.update] *)
Module Instance.
Section Instance.
Variable El : Type.
Abbreviation tensor := (Torch.tensor El).
Abbreviation pyval := (Value.pyval El).
Abbreviation event := (Model.event El).
Abbreviation model := (Model.model El).

(** [model.compress(video)] *)
Definition compress (m : model) (video : tensor) : M event (dict (list pyval)) :=
  match m with
  | IFrame b => IFrameModel.compress b video
  | PFrame b im k a => PFrameModel.compress b im k a video
  | PFrameWithMotion b im k a => PFrameModelWithMotion.compress b im k a video
  end.

(** [model.decompress(inputs)] *)
Definition decompress (m : model) (inputs : list pyval) : M event tensor :=
  match m with
  | IFrame b => IFrameModel.decompress b inputs
  | PFrame b im k _ => PFrameModel.decompress b im k inputs
  | PFrameWithMotion b im k _ => PFrameModelWithMotion.decompress b im k inputs
  end.

(** The body of the loop of [update] on one module:
    [module.update(force=force, update_quantiles=update_quantiles)] for an
    [EntropyBottleneck], [module.update_scale_table(scale_table, force=force)]
    for a [GaussianConditional]. *)
Definition update_module (force : bool) (m : nn_module) : bool * nn_module :=
  match m with
  | EntropyBottleneck c => let '(u, c') := calibrate force c in (u, EntropyBottleneck c')
  | GaussianConditional c => let '(u, c') := calibrate force c in (u, GaussianConditional c')
  | OtherModule => (false, OtherModule)
  end.

(** [updated |= ...] along a list of modules. *)
Definition update_modules (force : bool) (ms : list nn_module) : bool * list nn_module :=
  foldr (fun m '(u, ms') => let '(u', m') := update_module force m in (u' || u, m' :: ms'))
        (false, []) ms.

Definition update_encoder (force : bool) (e : encoder El) : bool * encoder El :=
  let '(u, ms) := update_modules force (enc_modules e) in
  (u, {| enc_forward := enc_forward e; enc_compress := enc_compress e;
         enc_compress_with_prev_recon := enc_compress_with_prev_recon e;
         enc_decompress := enc_decompress e; enc_align_features := enc_align_features e;
         enc_extract_feats := enc_extract_feats e; enc_modules := ms |}).

Definition update_decoder (force : bool) (d : decoder El) : bool * decoder El :=
  let '(u, ms) := update_modules force (dec_modules d) in
  (u, {| dec_forward := dec_forward d; dec_compress := dec_compress d;
         dec_decompress := dec_decompress d; dec_modules := ms |}).

Definition update_decoders (force : bool) (ds : dict (decoder El))
    : bool * dict (decoder El) :=
  foldr (fun '(task, d) '(u, ds') =>
           let '(u', d') := update_decoder force d in (u' || u, (task, d') :: ds'))
        (false, []) ds.

Definition update_base (force : bool) (b : BaseModel El) : bool * BaseModel El :=
  let '(ue, e) := update_encoder force (the_encoder b) in
  let '(ud, ds) := update_decoders force (decoders b) in
  (ue || ud, {| task_name := task_name b; the_encoder := e; decoders := ds;
                rep_grad := rep_grad b; multi_input := multi_input b; lmbda := lmbda b;
                _prepare_rep := _prepare_rep b |}).

(** [update]: [named_modules()] reaches the modules of the encoder, of the
    decoders and, the embedded model being a sub-module, of [iframe_model]. *)
Fixpoint update (self : model) (scale_table : option scale_table)
    (force update_quantiles : bool) : bool * model :=
  let scale_table := match scale_table with None => get_scale_table | Some t => t end in
  match self with
  | IFrame b => let '(u, b') := update_base force b in (u, IFrame b')
  | PFrame b im k a =>
      let '(u, b') := update_base force b in
      let '(ui, im') := update im (Some scale_table) force update_quantiles in
      (u || ui, PFrame b' im' k a)
  | PFrameWithMotion b im k a =>
      let '(u, b') := update_base force b in
      let '(ui, im') := update im (Some scale_table) force update_quantiles in
      (u || ui, PFrameWithMotion b' im' k a)
  end.

(** [named_modules()], the entropy modules among them. *)
Fixpoint named_modules (self : model) : list nn_module :=
  let own b := enc_modules (the_encoder b) ++ flat_map (fun kv => dec_modules kv.2) (decoders b) in
  match self with
  | IFrame b => own b
  | PFrame b im _ _ | PFrameWithMotion b im _ _ => own b ++ named_modules im
  end.

End Instance.
Arguments compress {El} m video.
Arguments decompress {El} m inputs.
Arguments update {El} self scale_table force update_quantiles.
Arguments named_modules {El} self.
End Instance.

(** ** load_model *)
Module Loader.

Record decoder_desc : Type := {
  d_task : string;
  d_module : string;
  d_kwargs : gmap string json;
}.

(** The content of a [model.json]. *)
Record model_data : Type := {
  model_type : string;
  md_task_name : list string;
  encoder_class : string;
  md_decoders : list decoder_desc;
  weighting : string;
  architecture : string;
  md_rep_grad : bool;
  md_multi_input : bool;
  md_lmbda : Z;
  arch_args : gmap string json;
  checkpoint : string;
}.

(** What [load_model] does, in order; [depth] counts the enclosing calls of
    [load_model] (0 for the call at hand, 1 for the load of its
    [iframe_model], ...). *)
Inductive step : Type :=
  | Opened (json_file : string)
  | Constructed (model_type : string)
  | Torch_load (checkpoint : string)
  | Load_state_dict (strict : bool)
  | Model_eval
  | Model_update (force : bool).

Definition is_update (s : step) : bool :=
  match s with Model_update _ => true | _ => false end.

Record assembly_event : Type := Assembly { depth : nat; what : step }.

Definition deeper (e : assembly_event) : assembly_event := Assembly (S (depth e)) (what e).
Definition did (s : step) : M assembly_event unit := emit (Assembly 0 s).

Definition supported_model_types : list string := ["IFrame"; "PFrame"; "PFrameWithMotion"].

Definition unrecognized_model_type : exn :=
  ValueError ("Unrecognized model_type. Supported are ["
              +:+ String.concat ", " ((fun t => "'" +:+ t +:+ "'") <$> supported_model_types)
              +:+ "]").

(** [os.path.join(json_file, "model.json")] *)
Definition path_join (dir name : string) : string :=
  if bool_decide (dir = EmptyString) then name
  else if String.prefix "/" (String.substring (String.length dir - 1) 1 dir)
       then dir +:+ name
       else dir +:+ "/" +:+ name.

Section Loader.
Variable El : Type.
Abbreviation pyval := (Value.pyval El).
Abbreviation model := (Model.model El).

(** The names [load_model] resolves in registries outside the sources. *)
Record py_class : Type := {
  as_encoder : encoder El;
  as_decoder : gmap string json → decoder El;
}.

Record architecture_class : Type := {
  arch_prepare_rep : bool → pyval → string → bool → pyval;
}.

(** What [load_state_dict] makes of the state [torch.load] read.  The
    parameters of a module are not kept apart from the methods that compute
    with them: loading a state gives the encoder and the heads the methods
    and the entropy tables of the parameters read, and leaves every attribute
    that is no parameter (task names, [keyframe_interval], ...).  The embedded
    [iframe_model] is a sub-module: its parameters are the keys under the
    prefix [iframe_model.], and the state of the outer checkpoint is loaded
    into it too.  [depth] counts the prefixes. *)
Record state_dict : Type := {
  sd_encoder : nat → encoder El → encoder El;
  sd_decoder : nat → string → decoder El → decoder El;
}.

Definition load_base (sd : state_dict) (depth : nat) (b : BaseModel El) : BaseModel El :=
  {| task_name := task_name b;
     the_encoder := sd_encoder sd depth (the_encoder b);
     decoders := (fun '(task, d) => (task, sd_decoder sd depth task d)) <$> decoders b;
     rep_grad := rep_grad b; multi_input := multi_input b; lmbda := lmbda b;
     _prepare_rep := _prepare_rep b |}.

(** [model.load_state_dict(state, strict=strict)] *)
Fixpoint load_state_dict (sd : state_dict) (depth : nat) (m : model) : model :=
  match m with
  | IFrame b => IFrame (load_base sd depth b)
  | PFrame b im k a => PFrame (load_base sd depth b) (load_state_dict sd (S depth) im) k a
  | PFrameWithMotion b im k a =>
      PFrameWithMotion (load_base sd depth b) (load_state_dict sd (S depth) im) k a
  end.

(** The files and registries [load_model] reads; [state_dicts] gives what
    [torch.load] reads from a checkpoint that exists. *)
Record world : Type := {
  isdir : string → bool;
  files : gmap string model_data;
  modules : gmap string py_class;
  weighting_method : gset string;
  architecture_method : gmap string architecture_class;
  checkpoints : gset string;
  state_dicts : string → state_dict;
}.

Definition registered {V} (registry : gmap string V) (name : string) : result V :=
  match registry !! name with
  | Some v => Ok v
  | None => Raise (KeyError name)
  end.

(** [if "k" not in model_data["arch_args"].keys(): raise KeyError(msg)] *)
Definition require_key (args : gmap string json) (k msg : string) : result unit :=
  if bool_decide (args !! k = None) then Raise (KeyError msg) else Ok ().

Definition check_pframe_args (args : gmap string json) : result unit :=
  require_key args "iframe_model_path"
    "iframe_model_path key doesn't exist. Please provide path (str) to it manually in model.json";;
  require_key args "keyframe_interval"
    "keyframe_interval key doesn't exist. Please provide value (int) manually in model.json";;
  require_key args "adaptation"
    "adaptation key doesn't exist. Please provide value (bool) manually in model.json".

(** [{d["task"]: modules.__dict__[d["module"]]( **d["kwargs"] ) for d in ...}] *)
Definition build_decoders (w : world) (descs : list decoder_desc) : result (dict (decoder El)) :=
  for_each descs
    (fun d acc =>
       cls ← registered (modules w) (d_module d);
       Ok (dict_set acc (d_task d) (as_decoder cls (d_kwargs d))))
    [].

(** [kwargs["k"]] in the constructors of the predictive classes *)
Definition kwarg (args : gmap string json) (k : string) : result json :=
  match args !! k with
  | Some v => Ok v
  | None => Raise (KeyError k)
  end.

(** [load_model]; [fuel] bounds the depth of the recursion through
    [iframe_model_path], as the interpreter's recursion limit does.  A path
    that is an integer is taken by [open] for a file descriptor, and none of
    the process holds a description; [None] and a float are refused by
    [os.path.isdir]. *)
Fixpoint load_model (fuel : nat) (w : world) (json_file : string) : M assembly_event model :=
  match fuel with
  | 0 => raise RecursionError
  | S fuel' =>
      let json_file :=
        if isdir w json_file then path_join json_file "model.json" else json_file in
      model_data ← lift (match files w !! json_file with
                         | Some d => Ok d
                         | None => Raise FileNotFoundError
                         end);
      did (Opened json_file);;
      let model_type := model_type model_data in
      (if String.prefix "PFrame" model_type
       then lift (check_pframe_args (arch_args model_data))
       else mret ());;
      encoder_class ← lift (registered (modules w) (encoder_class model_data));
      decoders ← lift (build_decoders w (md_decoders model_data));
      (if bool_decide (weighting model_data ∈ weighting_method w)
       then mret () else raise (KeyError (weighting model_data)));;
      architecture ← lift (registered (architecture_method w) (architecture model_data));
      let base :=
        {| task_name := md_task_name model_data;
           the_encoder := as_encoder encoder_class;
           decoders := decoders;
           rep_grad := md_rep_grad model_data;
           multi_input := md_multi_input model_data;
           lmbda := md_lmbda model_data;
           _prepare_rep := arch_prepare_rep architecture (md_rep_grad model_data) |} in
      let kwargs := arch_args model_data in
      let predictive (cls : BaseModel El → model → json → json → model) :=
        did (Constructed model_type);;
        path ← lift (kwarg kwargs "iframe_model_path");
        iframe_model ← match path with
                       | JStr p => relabel deeper (load_model fuel' w p)
                       | JInt _ | JBool _ => raise OSError
                       | JNull | JFloat _ => raise TypeError
                       end;
        keyframe_interval ← lift (kwarg kwargs "keyframe_interval");
        adaptation ← lift (kwarg kwargs "adaptation");
        mret (cls base iframe_model keyframe_interval adaptation) in
      model ← (if bool_decide (model_type = "IFrame")
               then did (Constructed model_type);; mret (IFrame base)
               else if bool_decide (model_type = "PFrame") then predictive PFrame
               else if bool_decide (model_type = "PFrameWithMotion")
                    then predictive PFrameWithMotion
               else raise unrecognized_model_type);
      let strict := negb (String.prefix "PFrame" model_type) in
      (if bool_decide (checkpoint model_data ∈ checkpoints w)
       then did (Torch_load (checkpoint model_data))
       else raise FileNotFoundError);;
      did (Load_state_dict strict);;
      let model := load_state_dict (state_dicts w (checkpoint model_data)) 0 model in
      did Model_eval;;
      did (Model_update true);;
      mret (Instance.update model None true false).2
  end.

End Loader.
Arguments as_encoder {El} p.
Arguments as_decoder {El} p kwargs.
Arguments arch_prepare_rep {El} a.
Arguments isdir {El} w path.
Arguments files {El} w.
Arguments modules {El} w.
Arguments weighting_method {El} w.
Arguments architecture_method {El} w.
Arguments checkpoints {El} w.
Arguments state_dicts {El} w.
Arguments sd_encoder {El} s depth e.
Arguments sd_decoder {El} s depth task d.
Arguments load_base {El} sd depth b.
Arguments load_state_dict {El} sd depth m.
Arguments build_decoders {El} w descs.
Arguments load_model {El} fuel w json_file.
End Loader.

(* ===================================================================== *)
(** * Concrete instances: integer-valued tensors and small collaborators *)
(* ===================================================================== *)

Module Examples.

Abbreviation tensorZ := (Torch.tensor Z).

(** Stand-ins for the torchmetrics functions and the reductions.  Both
    metrics refuse items of different shapes; the structural similarity also
    refuses images with a side shorter than its window of 11 pixels. *)
Definition count_equal (a b : tensorZ) : Z :=
  Z.of_nat (length (filter (fun p => bool_decide (p.1 = p.2)) (zip (data a) (data b)))).
Definition total (l : list Z) : Z := foldr Z.add 0%Z l.
Definition average (l : list Z) : Z := (total l / Z.of_nat (length l))%Z.

Definition window : nat := 11.
Definition shape_mismatch : exn :=
  RuntimeError "Predictions and targets are expected to have the same shape".
Definition too_small : exn :=
  RuntimeError "Padding size should be less than the corresponding input dimension".

Definition peak_signal_noise_ratio (a b : tensorZ) : result Z :=
  if bool_decide (shape a = shape b) then Ok (count_equal a b) else Raise shape_mismatch.
Definition structural_similarity_index_measure (a b : tensorZ) : result Z :=
  if bool_decide (shape a = shape b) then
    match reverse (shape a) with
    | w :: h :: _ =>
        if bool_decide (window ≤ h ∧ window ≤ w) then Ok (count_equal a b)
        else Raise too_small
    | _ => Raise too_small
    end
  else Raise shape_mismatch.

Definition psnrZ := Metrics.psnr Z peak_signal_noise_ratio average total.
Definition ssimZ := Metrics.ssim Z structural_similarity_index_measure average total.

(** A batch of two 1x1x2 images, and an empty batch of 3x4x4 images. *)
Definition two_images : tensorZ := Tensor [2; 1; 1; 2] [1; 2; 3; 4]%Z.
Definition no_images : tensorZ := Tensor [0; 3; 4; 4] [].

(** A batch of two and a batch of three images of one channel and 12x12
    pixels; the first two images of the second batch are those of the first. *)
Definition two_pictures : tensorZ := Tensor [2; 1; 12; 12] (Z.of_nat <$> seq 0 288).
Definition three_pictures : tensorZ := Tensor [3; 1; 12; 12] (Z.of_nat <$> seq 0 432).

(** Instances of the two-frame-window encoders: the feature extractor halves
    nothing, the motion modules pass their first argument on. *)
Definition residual_encoder : Vsrvc.VSRVCResidualEncoder Z :=
  {| Vsrvc.layers := fun x => x |}.
Definition motion_residual_encoder : Vsrvc.VSRVCMotionResidualEncoder Z :=
  {| Vsrvc.feat_extractor := fun x => x;
     Vsrvc.motion_estimator := fun prev curr => curr;
     Vsrvc.motion_train_compression_decompression := fun o => (o, PInt 8, PInt 2);
     Vsrvc.motion_compensator := fun prev o => prev |}.

(** A window of two 1x1x1 frames, and a window of three. *)
Definition two_frames : tensorZ := Tensor [1; 2; 1; 1; 1] [5; 7]%Z.
Definition three_frames : tensorZ := Tensor [1; 3; 1; 1; 1] [5; 7; 9]%Z.

(** *** Collaborators for the model classes *)

Abbreviation pyvalZ := (Value.pyval Z).

Definition last_frame (t : tensorZ) : tensorZ :=
  match select1 t (-1) with Ok f => f | Raise _ => t end.
Definition first_frame (t : tensorZ) : tensorZ :=
  match select1 t 0 with Ok f => f | Raise _ => t end.
Definition pointwise (f : Z → Z → Z) (a b : tensorZ) : tensorZ :=
  Tensor (shape a) (zip_with f (data a) (data b)).

Definition nothing : Value.method Z := fun _ => PNone.

(** The encoder of the keyframe model: the features of a one-frame window
    are the frame. *)
Definition frame_encoder : encoder Z :=
  {| enc_forward := fun args =>
       match args with [PTensor t] => PTensor (last_frame t) | _ => PNone end;
     enc_compress := nothing; enc_compress_with_prev_recon := nothing;
     enc_decompress := nothing; enc_align_features := nothing;
     enc_extract_feats := nothing; enc_modules := [OtherModule] |}.

(** A compression head whose [compress] yields the argument tuple of its
    [decompress], and one whose [compress] yields a list holding that tuple. *)
Definition tuple_codec : decoder Z :=
  {| dec_forward := nothing;
     dec_compress := fun args => PTuple args;
     dec_decompress := fun args => match args with [x] => x | _ => PNone end;
     dec_modules := [EntropyBottleneck false; GaussianConditional false] |}.
Definition list_codec : decoder Z :=
  {| dec_forward := nothing;
     dec_compress := fun args => PList [PTuple args];
     dec_decompress := fun args => match args with [x] => x | _ => PNone end;
     dec_modules := [EntropyBottleneck false; GaussianConditional false] |}.

(** A head for an auxiliary task. *)
Definition upscaler : decoder Z :=
  {| dec_forward := fun args => match args with [x] => x | _ => PNone end;
     dec_compress := nothing; dec_decompress := nothing; dec_modules := [OtherModule] |}.

(** The encoder of the predictive models.  The features of a frame are the
    frame; the reference of [compress(inp, prev_recon)] and of
    [compress_with_prev_recon] is the reconstruction it is given, the one of
    [compress(inp)] is the first raw frame; no motion is estimated. *)
Definition window_encoder : encoder Z :=
  {| enc_forward := nothing;
     enc_compress := fun args =>
       match args with
       | [PTensor w; prev_recon] => PTuple [prev_recon; PTensor (last_frame w)]
       | [PTensor w] => PTuple [PTensor (first_frame w); PTensor (last_frame w)]
       | _ => PNone
       end;
     enc_compress_with_prev_recon := fun args =>
       match args with
       | [prev_recon; PTensor w] => PTuple [prev_recon; PTensor (last_frame w)]
       | _ => PNone
       end;
     enc_decompress := fun _ => PInt 0;
     enc_align_features := fun args => match args with [f; _] => f | _ => PNone end;
     enc_extract_feats := fun args => match args with [x] => x | _ => PNone end;
     enc_modules := [GaussianConditional false] |}.

Definition residual (rep : list pyvalZ) : pyvalZ :=
  match rep with
  | [PTuple [PTensor prev; PTensor curr]] => PTuple [PTensor (pointwise Z.sub curr prev)]
  | _ => PTuple []
  end.
Definition add_residual (args : list pyvalZ) : pyvalZ :=
  match args with
  | [PTensor prev; PTensor res] => PTensor (pointwise Z.add res prev)
  | _ => PNone
  end.

(** The compression heads of the predictive models: the content record is the
    residual; the second head adds a motion record. *)
Definition residual_codec : decoder Z :=
  {| dec_forward := nothing;
     dec_compress := fun rep => PTuple [residual rep];
     dec_decompress := add_residual;
     dec_modules := [EntropyBottleneck false] |}.
Definition motion_record : pyvalZ := PTuple [PStr "mv"; PStr "hp"; PInt 1].
Definition residual_motion_codec : decoder Z :=
  {| dec_forward := nothing;
     dec_compress := fun rep => PTuple [residual rep; motion_record];
     dec_decompress := add_residual;
     dec_modules := [EntropyBottleneck false] |}.

Definition base (e : encoder Z) (vc : decoder Z) : BaseModel Z :=
  {| task_name := ["vc"; "vsr"]; the_encoder := e;
     decoders := [("vc", vc); ("vsr", upscaler)];
     rep_grad := false; multi_input := false; lmbda := 128;
     _prepare_rep := fun rep _ _ => rep |}.

(** An independent model, alone and as the keyframe model of the others. *)
Definition iframe : model Z := IFrame (base frame_encoder tuple_codec).
Definition keyframe_model : model Z := IFrame (base frame_encoder list_codec).
Definition pframe (keyframe_interval : Z) (adaptation : bool) : model Z :=
  PFrame (base window_encoder residual_codec) keyframe_model
    (JInt keyframe_interval) (JBool adaptation).
Definition pframe_with_motion (keyframe_interval : Z) (adaptation : bool) : model Z :=
  PFrameWithMotion (base window_encoder residual_motion_codec) keyframe_model
    (JInt keyframe_interval) (JBool adaptation).

(** Videos of one batch item, frames of one channel and 1x2 pixels: four
    frames, another four frames that differ in the first two only, no frame. *)
Definition video : tensorZ := Tensor [1; 4; 1; 1; 2] [1; 2; 3; 5; 8; 13; 21; 34]%Z.
Definition other_video : tensorZ := Tensor [1; 4; 1; 1; 2] [7; 7; 7; 7; 8; 13; 21; 34]%Z.
Definition empty_video : tensorZ := Tensor [1; 0; 1; 1; 2] [].

(** *** A description store for [load_model] *)

Definition encoder_only (e : encoder Z) : Loader.py_class Z :=
  {| Loader.as_encoder := e; Loader.as_decoder := fun _ => upscaler |}.
Definition decoder_only (d : decoder Z) : Loader.py_class Z :=
  {| Loader.as_encoder := frame_encoder; Loader.as_decoder := fun _ => d |}.

Definition heads (vc : string) : list Loader.decoder_desc :=
  [ {| Loader.d_task := "vc"; Loader.d_module := vc; Loader.d_kwargs := ∅ |};
    {| Loader.d_task := "vsr"; Loader.d_module := "Upscaler"; Loader.d_kwargs := ∅ |} ].

Definition description (type enc vc ckpt : string) (args : gmap string json)
    : Loader.model_data :=
  {| Loader.model_type := type; Loader.md_task_name := ["vc"; "vsr"];
     Loader.encoder_class := enc; Loader.md_decoders := heads vc;
     Loader.weighting := "EW"; Loader.architecture := "HPS";
     Loader.md_rep_grad := false; Loader.md_multi_input := false; Loader.md_lmbda := 128;
     Loader.arch_args := args; Loader.checkpoint := ckpt |}.

Definition predictive_args (keyframe_interval : Z) : gmap string json :=
  {[ "iframe_model_path" := JStr "keyframe";
     "keyframe_interval" := JInt keyframe_interval;
     "adaptation" := JBool true ]}.

(** A checkpoint that holds the parameters the registered classes start
    with, and one whose parameters make the heads of an embedded keyframe
    model, and no other module, return [None]. *)
Definition same_parameters : Loader.state_dict Z :=
  {| Loader.sd_encoder := fun _ e => e; Loader.sd_decoder := fun _ _ d => d |}.
Definition silent_head (d : decoder Z) : decoder Z :=
  {| dec_forward := nothing; dec_compress := nothing; dec_decompress := nothing;
     dec_modules := dec_modules d |}.
Definition silent_keyframe_heads : Loader.state_dict Z :=
  {| Loader.sd_encoder := fun _ e => e;
     Loader.sd_decoder := fun depth _ d => if bool_decide (depth = 1) then silent_head d else d |}.

(** The directory [keyframe] holds an independent model; [pframe.json],
    [motion.json] and [zero.json] describe predictive models on top of it, the
    last with a keyframe interval of 0; [lite.json] and [bframe.json] name
    types that are not supported, the first without any argument. *)
Definition store : Loader.world Z :=
  {| Loader.isdir := fun p => bool_decide (p = "keyframe");
     Loader.files :=
       {[ "keyframe/model.json" := description "IFrame" "FrameEncoder" "ListCodec" "i.pth" ∅;
          "pframe.json" := description "PFrame" "WindowEncoder" "ResidualCodec" "p.pth"
                             (predictive_args 2);
          "motion.json" := description "PFrameWithMotion" "WindowEncoder"
                             "ResidualMotionCodec" "m.pth" (predictive_args 3);
          "zero.json" := description "PFrame" "WindowEncoder" "ResidualCodec" "p.pth"
                           (predictive_args 0);
          "lite.json" := description "PFrameLite" "WindowEncoder" "ResidualCodec" "p.pth" ∅;
          "bframe.json" := description "BFrame" "WindowEncoder" "ResidualCodec" "p.pth" ∅ ]};
     Loader.modules :=
       {[ "FrameEncoder" := encoder_only frame_encoder;
          "WindowEncoder" := encoder_only window_encoder;
          "ListCodec" := decoder_only list_codec;
          "ResidualCodec" := decoder_only residual_codec;
          "ResidualMotionCodec" := decoder_only residual_motion_codec;
          "Upscaler" := decoder_only upscaler ]};
     Loader.weighting_method := {[ "EW" ]};
     Loader.architecture_method :=
       {[ "HPS" := {| Loader.arch_prepare_rep := fun _ rep _ _ => rep |} ]};
     Loader.checkpoints := {[ "i.pth"; "p.pth"; "m.pth"; "q.pth" ]};
     Loader.state_dicts :=
       fun ckpt => if bool_decide (ckpt = "q.pth") then silent_keyframe_heads
                   else same_parameters |}.

(** What [load_model] returns for [pframe.json] and for [zero.json]. *)
Definition loaded (json_file : string) : model Z :=
  match (Loader.load_model 2 store json_file).2 with
  | Ok m => m
  | Raise _ => iframe
  end.
Definition steps (json_file : string) : list Loader.assembly_event :=
  (Loader.load_model 2 store json_file).1.

End Examples.

(* ===================================================================== *)
(** * Vocabulary of the statements *)
(* ===================================================================== *)

Module Spec.
Section Spec.
Variable El : Type.
Import Loader.

(** The file [load_model] opens for [json_file]. *)
Definition resolved_path (w : world El) (json_file : string) : string :=
  if isdir w json_file then path_join json_file "model.json" else json_file.

(** The names the description gives to [load_model] are all registered. *)
Definition resolves (w : world El) (d : model_data) : Prop :=
  is_Ok (registered (modules w) (encoder_class d)) = true
  ∧ is_Ok (build_decoders w (md_decoders d)) = true
  ∧ weighting d ∈ weighting_method w
  ∧ is_Ok (registered (architecture_method w) (architecture d)) = true.

(** The three arguments of a predictive description are present. *)
Definition has_pframe_args (args : gmap string json) : Prop :=
  is_Some (args !! "iframe_model_path") ∧ is_Some (args !! "keyframe_interval")
  ∧ is_Some (args !! "adaptation").

(** The steps of the call of [load_model] at hand, without those of the
    calls it nests. *)
Definition own_steps (log : list assembly_event) : list step :=
  what <$> filter (fun e => depth e = 0) log.

(** An event that is not a call of [update] by the call of [load_model] at
    hand. *)
Definition not_an_update (e : assembly_event) : Prop :=
  depth e = 0 → ∀ force, what e ≠ Model_update force.

(** The keyframe interval of a predictive model. *)
Definition interval_of (m : model El) : option json :=
  match m with
  | IFrame _ => None
  | PFrame _ _ k _ | PFrameWithMotion _ _ k _ => Some k
  end.

Definition adaptation_of (m : model El) : option json :=
  match m with
  | IFrame _ => None
  | PFrame _ _ _ a | PFrameWithMotion _ _ _ a => Some a
  end.

Definition iframe_model_of (m : model El) : option (model El) :=
  match m with
  | IFrame _ => None
  | PFrame _ im _ _ | PFrameWithMotion _ im _ _ => Some im
  end.

Definition owned (o : owner) (e : event El) : Prop := ev_owner e = o.

(** The two branches of the loops of the predictive classes.  A call on the
    embedded [iframe_model] belongs to the keyframe branch, a call on the
    model's own encoder or decoders to the predicted branch; [extract_feats]
    follows both branches of [decompress] and belongs to neither. *)
Inductive path : Type := Keyframe_path | Predicted_path.

Definition path_of (e : event El) : option path :=
  match ev_owner e with
  | Iframe_model => Some Keyframe_path
  | Self =>
      match ev_callee e with
      | encoder_extract_feats => None
      | _ => Some Predicted_path
      end
  end.

Definition on_path (p : path) (e : event El) : Prop := path_of e = Some p.

Definition takes_a_path (e : event El) : Prop := is_Some (path_of e).

(** The branch an event of frame [i] belongs to is the keyframe branch
    exactly when [i] is a multiple of the interval. *)
Definition routed_at (i : nat) (k : Z) (e : event El) : Prop :=
  ∀ p, path_of e = Some p → (p = Keyframe_path ↔ (Z.of_nat i mod k = 0)%Z).

Definition routed_by (k : Z) (e : event El) : Prop := routed_at (ev_frame e) k e.

(** Every frame index below [n] took a branch. *)
Definition covers (log : list (event El)) (n : nat) : Prop :=
  ∀ i, i < n → ∃ e, e ∈ log ∧ ev_frame e = i ∧ takes_a_path e.

(** The branch the interval [k] gives the frame index [i]. *)
Definition path_at (k : Z) (i : nat) : path :=
  if (Z.of_nat i mod k =? 0)%Z then Keyframe_path else Predicted_path.

(** Frame [i] takes the branch [p] in a log: some event of the frame is on
    the branch, and every event of the frame that belongs to a branch belongs
    to [p]. *)
Definition takes_path (log : list (event El)) (i : nat) (p : path) : Prop :=
  (∃ e, e ∈ log ∧ ev_frame e = i ∧ on_path p e)
  ∧ ∀ e, e ∈ log → ev_frame e = i → takes_a_path e → on_path p e.

(** [out'] is [out] with the values [vs] appended under [task]. *)
Definition appends (task : string) (out out' : dict (list (pyval El)))
    (vs : list (pyval El)) : Prop :=
  dict_get out' task = (fun l => l ++ vs) <$> dict_get out task.

(** The value the loops over the tasks of a predicted frame compute for
    [task] from the representation [s_rep]: the bitstream record of the
    compression head for "vc", the output of the head for another task. *)
Definition task_value (self : BaseModel El) (s_rep : pyval El) (task : string)
    (v : pyval El) : Prop :=
  ∃ tn ss_rep d,
    task_name self !! tn = Some task
    ∧ task_rep self s_rep tn task = Ok ss_rep
    ∧ lookup_key (decoders self) task = Ok d
    ∧ v = if bool_decide (task = "vc") then dec_compress d [ss_rep]
          else dec_forward d [ss_rep].

(** The decode the encoder runs on its own record in a predicted frame of
    [compress_with_adaptation]: the arguments of [decompress] are the
    reference [ss_rep[0]] followed by the content record, and the result is the
    next [prev_recon]. *)
Definition reference_decode (self : BaseModel El) (s_rep : pyval El)
    (args : list (pyval El)) (prev_recon : pyval El) : Prop :=
  ∃ tn ss_rep d ref rec inp,
    task_name self !! tn = Some "vc"
    ∧ task_rep self s_rep tn "vc" = Ok ss_rep
    ∧ lookup_key (decoders self) "vc" = Ok d
    ∧ py_getitem ss_rep 0 = Ok ref
    ∧ py_getitem (dec_compress d [ss_rep]) 0 = Ok rec
    ∧ tuple_cons ref rec = Ok inp
    ∧ py_iter inp = Ok args
    ∧ prev_recon = dec_decompress d args.

(** The calls that compute or consume a decoder-side reconstruction. *)
Definition decodes (c : callee) : bool :=
  match c with
  | decoder_decompress _ | encoder_decompress | encoder_align_features
  | encoder_extract_feats | encoder_compress_with_prev_recon => true
  | encoder_forward | encoder_compress | decoder_forward _ | decoder_compress _ => false
  end.

(** An event of an encoder that works from raw frames only: no decode, and
    [encoder.compress] gets the window of raw frames and nothing else. *)
Definition raw_only (e : event El) : Prop :=
  decodes (ev_callee e) = false
  ∧ (ev_callee e = encoder_compress → ∃ w, ev_args e = [PTensor w]).

(** [i] is the index of a predicted frame. *)
Definition predicted (k : Z) (i : nat) : Prop := (Z.of_nat i mod k ≠ 0)%Z.

(** A frame of the loop of [compress_no_adaptation] appends one value under
    [task]; for a predicted frame it is the value computed from the
    representation of the window of raw frames. *)
Definition appends_record (self : BaseModel El) (k : Z) (video : tensor El) (task : string)
    (i : nat) (out out' : dict (list (pyval El))) : Prop :=
  ∃ v, appends task out out' [v]
    ∧ (predicted k i → ∀ w,
         narrow1 video (Z.of_nat i - 1) (Z.of_nat i + 1) = Ok w →
         task_value self (enc_compress (the_encoder self) [PTensor w]) task v).

(** *** The records of [PFrameModelWithMotion] under "vc" *)

(** The record of a keyframe: what the compression head of the keyframe model
    returned, a list, with the sentinel appended. *)
Definition keyframe_record (im : model El) (r : pyval El) : Prop :=
  ∃ d args items,
    lookup_key (decoders (base_of im)) "vc" = Ok d
    ∧ dec_compress d args = PList items
    ∧ r = PList (items ++ [sentinel]).

(** The record of a predicted frame: what the model's own compression head
    returned. *)
Definition predicted_record (self : BaseModel El) (r : pyval El) : Prop :=
  ∃ d args, lookup_key (decoders self) "vc" = Ok d ∧ r = dec_compress d args.

Definition motion_record_at (self : BaseModel El) (im : model El) (k : Z) (i : nat)
    (r : pyval El) : Prop :=
  if decide (Z.of_nat i mod k = 0)%Z then keyframe_record im r else predicted_record self r.

(** Heads under which the records of a model with motion have two slots
    each: the head of the keyframe model returns a list that holds the content
    record and nothing else, the model's own head a tuple of a content record
    and a motion record that is not the sentinel.  The orchestration code
    checks neither; the heads of src/models/vsrvc.py that have a [compress]
    ([ICDecoder], [VCResidualDecoder]) return a tuple of three values and meet
    neither. *)
Definition returns_content_alone (b : BaseModel El) : Prop :=
  ∀ d args, lookup_key (decoders b) "vc" = Ok d → ∃ c, dec_compress d args = PList [c].

Definition returns_content_and_motion (b : BaseModel El) : Prop :=
  ∀ d args, lookup_key (decoders b) "vc" = Ok d →
    ∃ c mo, dec_compress d args = PTuple [c; mo] ∧ mo ≠ sentinel.

(** [for inp in out]: iterating a dictionary yields its keys. *)
Definition iterate (out : dict (list (pyval El))) : list (pyval El) :=
  PStr <$> dict_keys out.

(** *** The round trip of [IFrameModel] *)

(** The record of frame [i] of a video: the value [compress_one] holds under
    "vc" for the one-frame window [video[:, i:i+1]]. *)
Definition frame_record (self : BaseModel El) (video : tensor El) (i : nat)
    (v : pyval El) : Prop :=
  ∃ inp, narrow1 video (Z.of_nat i) (Z.of_nat i + 1) = Ok inp
    ∧ task_value self (enc_forward (the_encoder self) [PTensor inp]) "vc" v.

(** A record the compression head decodes to a frame of shape [s]. *)
Definition decodes_to (d : decoder El) (s : list nat) (r : pyval El) : Prop :=
  ∃ args t, py_iter r = Ok args ∧ dec_decompress d args = PTensor t ∧ shape t = s.

(** Modelled from the spec: the sub-modules of the frame encoder and of the
    compression head (feature extractor, hyperprior compressor, reconstruction
    head) are not among the sources.  Section 6 has [decompress] reproduce the
    video "up to the codec's designed lossy distortion": the record made of a
    one-frame window of [b] items of shape [rest] decodes to a tensor of that
    batch and shape. *)
Definition restores_frames (self : BaseModel El) (b : nat) (rest : list nat) : Prop :=
  ∀ inp v d,
    shape inp = b :: 1 :: rest →
    task_value self (enc_forward (the_encoder self) [PTensor inp]) "vc" v →
    lookup_key (decoders self) "vc" = Ok d →
    decodes_to d (b :: rest) v.

(** *** Encoder and decoder in step, with [adaptation] *)

(** The call that drives the encoder of a predicted frame with the window [w]
    and the reconstruction [recon] of the previous frame. *)
Definition driven_by (m : model El) (w : tensor El) (recon : pyval El) : event El :=
  match m with
  | PFrameWithMotion _ _ _ _ =>
      Event 0 Self encoder_compress_with_prev_recon [recon; PTensor w]
  | _ => Event 0 Self encoder_compress [PTensor w; recon]
  end.

(** The arguments [args] of a decode of the compression head start with the
    reference made of the reconstruction [recon]: its features, aligned by
    the decoded motion for a model with motion. *)
Definition reference_of (m : model El) (recon : pyval El) (args : list (pyval El)) : Prop :=
  let e := the_encoder (base_of m) in
  match m with
  | PFrameWithMotion _ _ _ _ =>
      ∃ margs rest,
        args = enc_align_features e [enc_extract_feats e [recon]; enc_decompress e margs]
               :: rest
  | _ => ∃ rest, args = enc_extract_feats e [recon] :: rest
  end.

(** Between frame [i] and the predicted frame [i+1]: the decoder extracts the
    features of its reconstruction [recon] of frame [i]; the encoder was
    driven by the same [recon] when it made frame [i+1]; the decode the encoder
    ran on its own record and the decode of the decoder are the same call, on
    arguments that start with the reference made of [recon]. *)
Definition drift_free_at (m : model El) (i : nat) (elog dlog : list (event El)) : Prop :=
  ∃ recon w args,
    Event i Self encoder_extract_feats [recon] ∈ dlog
    ∧ at_frame (S i) (driven_by m w recon) ∈ elog
    ∧ Event (S i) Self (decoder_decompress "vc") args ∈ elog
    ∧ Event (S i) Self (decoder_decompress "vc") args ∈ dlog
    ∧ reference_of m recon args.

(** Modelled from the spec: [encoder.compress(inp, prev_recon)] and
    [encoder.compress_with_prev_recon(prev_recon, inp)] are not among the
    sources.  Section 4.4 has the decoder decode "against the previous frame's
    reconstructed features (recomputed via the same feature extractor the
    encoder used)", and, with motion, "warp the previous reconstructed feature
    map by that motion to obtain an aligned reference": the reference
    [ss_rep[0]] of the representation the encoder returns for "vc" is
    [extract_feats(prev_recon)], aligned by the motion the record carries in
    its second slot for a model with motion. *)
Definition mirrors (m : model El) : Prop :=
  match m with
  | IFrame _ => True
  | PFrame b _ _ _ =>
      ∀ w prev_recon tn ss_rep ref,
        task_name b !! tn = Some "vc" →
        task_rep b (enc_compress (the_encoder b) [PTensor w; prev_recon]) tn "vc"
          = Ok ss_rep →
        py_getitem ss_rep 0 = Ok ref →
        ref = enc_extract_feats (the_encoder b) [prev_recon]
  | PFrameWithMotion b _ _ _ =>
      ∀ w prev_recon tn ss_rep d ref,
        task_name b !! tn = Some "vc" →
        task_rep b (enc_compress_with_prev_recon (the_encoder b) [prev_recon; PTensor w])
          tn "vc" = Ok ss_rep →
        lookup_key (decoders b) "vc" = Ok d →
        py_getitem ss_rep 0 = Ok ref →
        ∃ motion margs,
          py_getitem (dec_compress d [ss_rep]) 1 = Ok motion
          ∧ py_iter motion = Ok margs
          ∧ ref = enc_align_features (the_encoder b)
                    [enc_extract_feats (the_encoder b) [prev_recon];
                     enc_decompress (the_encoder b) margs]
  end.

(** One frame of the encoder loop and the same frame of the decoder loop, in
    step: the record [v] the encoder appends, given to the decoder whose
    features are those of the encoder's previous reconstruction, is decoded
    to the encoder's new reconstruction. *)
Definition in_step (m : model El) (k : Z)
    (eframe : nat → dict (list (pyval El)) * pyval El
              → M (event El) (dict (list (pyval El)) * pyval El))
    (dframe : nat → pyval El → list (pyval El) * pyval El
              → M (event El) (list (pyval El) * pyval El)) : Prop :=
  let e := the_encoder (base_of m) in
  ∀ x out pr lb out' pr' recons pf,
    eframe x (out, pr) = (lb, Ok (out', pr')) →
    (predicted k x → pf = enc_extract_feats e [pr]) →
    ∃ v ld,
      appends "vc" out out' [v]
      ∧ dframe x v (recons, pf) = (ld, Ok (recons ++ [pr'], enc_extract_feats e [pr']))
      ∧ Event 0 Self encoder_extract_feats [pr'] ∈ ld
      ∧ (predicted k x →
           ∃ w args,
             driven_by m w pr ∈ lb
             ∧ Event 0 Self (decoder_decompress "vc") args ∈ lb
             ∧ Event 0 Self (decoder_decompress "vc") args ∈ ld
             ∧ reference_of m pr args).

End Spec.
Arguments interval_of {El} m.
Arguments adaptation_of {El} m.
Arguments iframe_model_of {El} m.
Arguments raw_only {El} e.
Arguments driven_by {El} m w recon.
Arguments reference_of {El} m recon args.
Arguments drift_free_at {El} m i elog dlog.
Arguments mirrors {El} m.
Arguments in_step {El} m k eframe dframe.
Arguments frame_record {El} self video i v.
Arguments decodes_to {El} d s r.
Arguments restores_frames {El} self b rest.
Arguments keyframe_record {El} im r.
Arguments predicted_record {El} self r.
Arguments motion_record_at {El} self im k i r.
Arguments returns_content_alone {El} b.
Arguments returns_content_and_motion {El} b.
Arguments iterate {El} out.
Arguments appends_record {El} self k video task i out out'.
Arguments reference_decode {El} self s_rep args prev_recon.
Arguments appends {El} task out out' vs.
Arguments task_value {El} self s_rep task v.
Arguments owned {El} o e.
Arguments path_of {El} e.
Arguments on_path {El} p e.
Arguments takes_a_path {El} e.
Arguments routed_at {El} i k e.
Arguments routed_by {El} k e.
Arguments covers {El} log n.
Arguments takes_path {El} log i p.
Arguments resolved_path {El} w json_file.
Arguments resolves {El} w d.
End Spec.

(* ===================================================================== *)
(** * Vocabulary of further properties of the sources *)
(* ===================================================================== *)

Module Props.
Section Props.
Variable El : Type.

(** The item [t[i]] of a tensor with a leading dimension above [i]. *)
Definition item (t : tensor El) (i : nat) : tensor El :=
  Tensor (tail (shape t)) (block El i (numel (tail (shape t))) (data t)).

(** The values of a metric on the pairs [input[i]], [target[i]], for the
    indices below [n], in order; the exception of the first call that
    raises. *)
Definition item_values (f : tensor El → tensor El → result El) (input target : tensor El)
    (n : nat) : result (list El) :=
  mapM (fun i => f (item input i) (item target i)) (range n).

(** The structural similarity as the helpers call it: on images, each item
    gets a batch dimension of one first. *)
Definition ssim_of_items (ssim : tensor El → tensor El → result El) (rank : nat)
    (a b : tensor El) : result El :=
  if bool_decide (rank = 4) then ssim (unsqueeze0 a) (unsqueeze0 b) else ssim a b.

(** A collaborator that raises no [NotImplementedError] of its own. *)
Definition implemented (f : tensor El → tensor El → result El) : Prop :=
  ∀ a b, is_NotImplementedError (f a b) = false.

(** *** The windows handed to the encoders *)

(** [v] is a tensor of [count] frames of [b] items of shape [rest]. *)
Definition frames_of (b : nat) (rest : list nat) (count : nat) (v : pyval El) : Prop :=
  ∃ w, v = PTensor w ∧ shape w = b :: count :: rest.

(** A call of an encoder on a window of the video gets one frame when it is
    the [forward] of a keyframe, two frames when it is the [compress] or the
    [compress_with_prev_recon] of a predicted frame. *)
Definition window_event (b : nat) (rest : list nat) (e : event El) : Prop :=
  match ev_callee e, ev_args e with
  | encoder_forward, [inp] => frames_of b rest 1 inp
  | encoder_compress, inp :: _ => frames_of b rest 2 inp
  | encoder_compress_with_prev_recon, [_; inp] => frames_of b rest 2 inp
  | encoder_forward, _ | encoder_compress, _ | encoder_compress_with_prev_recon, _ => False
  | _, _ => True
  end.

(** The name of the class of a model, as [model_type] spells it. *)
Definition class_name (m : model El) : string :=
  match m with
  | IFrame _ => "IFrame"
  | PFrame _ _ _ _ => "PFrame"
  | PFrameWithMotion _ _ _ _ => "PFrameWithMotion"
  end.

(** Two models that make the same calls and give the same results. *)
Definition same_behaviour (m m' : model El) : Prop :=
  (∀ video, Instance.compress m video = Instance.compress m' video)
  ∧ (∀ inputs, Instance.decompress m inputs = Instance.decompress m' inputs).

(** A tensor holds as many elements as its shape says. *)
Definition well_formed (t : tensor El) : Prop := length (data t) = numel (shape t).

(** The compression head a decode call of a model goes to: the model's own,
    or the one of its keyframe model. *)
Definition head_of (m : model El) (o : owner) : option (decoder El) :=
  match o with
  | Self => dict_get (decoders (base_of m)) "vc"
  | Iframe_model => im ← Spec.iframe_model_of m; dict_get (decoders (base_of im)) "vc"
  end.

(** The event [e] is a decode call on the compression head and [recon] is
    what the head returned for it. *)
Definition decode_of (m : model El) (e : event El) (recon : pyval El) : Prop :=
  ev_callee e = decoder_decompress "vc"
  ∧ ∃ d, head_of m (ev_owner e) = Some d ∧ recon = dec_decompress d (ev_args e).

(** [recon] is what a decode call of iteration [i] in the log [l] returned. *)
Definition decoded_by (m : model El) (l : list (event El)) (i : nat) (recon : pyval El)
    : Prop :=
  ∃ e, e ∈ l ∧ ev_frame e = i ∧ decode_of m e recon.

(** Every tensor a decode call of the log returned holds as many elements as
    its shape says, as every tensor of the library does. *)
Definition decodes_well_formed (m : model El) (l : list (event El)) : Prop :=
  ∀ i u, decoded_by m l i (PTensor u) → well_formed u.

End Props.
Arguments well_formed {El} t.
Arguments head_of {El} m o.
Arguments decode_of {El} m e recon.
Arguments decoded_by {El} m l i recon.
Arguments decodes_well_formed {El} m l.
Arguments same_behaviour {El} m m'.
Arguments class_name {El} m.
Arguments frames_of {El} b rest count v.
Arguments window_event {El} b rest e.
Arguments item {El} t i.
Arguments item_values {El} f input target n.
Arguments ssim_of_items {El} ssim rank a b.
Arguments implemented {El} f.
End Props.

(* ===================================================================== *)
(** * Further concrete instances *)
(* ===================================================================== *)

Module MoreExamples.
Import Examples.

(** A batch of three 1x1x2 images whose first two are those of
    [two_images]. *)
Definition three_images : tensorZ := Tensor [3; 1; 1; 2] [1; 2; 3; 4; 9; 9]%Z.

(** A predictive model whose keyframe model is itself predictive. *)
Definition nested : model Z :=
  PFrame (base window_encoder residual_codec) (pframe 2 true) (JInt 2) (JBool false).

(** The store of [Examples] with three more descriptions: [nested.json], a
    predictive model on top of the predictive model of [pframe.json], with a
    negative interval and a string for [adaptation]; [quiet.json], with the
    same arguments on top of the keyframe model, and a checkpoint that holds
    parameters for the heads of the keyframe model; and [loop.json], whose
    keyframe model is [loop.json] itself. *)
Definition nested_args : gmap string json :=
  {[ "iframe_model_path" := JStr "pframe.json";
     "keyframe_interval" := JInt (-2);
     "adaptation" := JStr "no" ]}.
Definition quiet_args : gmap string json :=
  {[ "iframe_model_path" := JStr "keyframe";
     "keyframe_interval" := JInt (-2);
     "adaptation" := JStr "no" ]}.
Definition loop_args : gmap string json :=
  {[ "iframe_model_path" := JStr "loop.json";
     "keyframe_interval" := JInt 2;
     "adaptation" := JBool true ]}.
Definition store : Loader.world Z :=
  {| Loader.isdir := Loader.isdir Examples.store;
     Loader.files :=
       <[ "quiet.json" := description "PFrame" "WindowEncoder" "ResidualCodec" "q.pth"
                            quiet_args ]>
       (<[ "nested.json" := description "PFrame" "WindowEncoder" "ResidualCodec" "p.pth"
                             nested_args ]>
         (<[ "loop.json" := description "PFrame" "WindowEncoder" "ResidualCodec" "p.pth"
                              loop_args ]>
            (Loader.files Examples.store)));
     Loader.modules := Loader.modules Examples.store;
     Loader.weighting_method := Loader.weighting_method Examples.store;
     Loader.architecture_method := Loader.architecture_method Examples.store;
     Loader.checkpoints := Loader.checkpoints Examples.store;
     Loader.state_dicts := Loader.state_dicts Examples.store |}.

Definition loaded (json_file : string) : model Z :=
  match (Loader.load_model 3 store json_file).2 with
  | Ok m => m
  | Raise _ => iframe
  end.

(** An encoder that returns a list of two representations, the window and
    the window paired with itself, under a model of three tasks; and a model
    with a task that has no head. *)
Definition pair_encoder : encoder Z :=
  {| enc_forward := fun args =>
       match args with
       | [x] => PList [x; PTuple [x; x]]
       | _ => PNone
       end;
     enc_compress := nothing; enc_compress_with_prev_recon := nothing;
     enc_decompress := nothing; enc_align_features := nothing;
     enc_extract_feats := nothing; enc_modules := [OtherModule] |}.
Definition three_tasks : BaseModel Z :=
  {| task_name := ["vc"; "vsr"; "depth"]; the_encoder := pair_encoder;
     decoders := [("vc", tuple_codec); ("vsr", upscaler); ("depth", upscaler)];
     rep_grad := false; multi_input := false; lmbda := 128;
     _prepare_rep := fun rep _ _ => rep |}.
Definition no_depth_head : BaseModel Z :=
  {| task_name := ["vc"; "depth"; "vsr"]; the_encoder := frame_encoder;
     decoders := [("vc", tuple_codec); ("vsr", upscaler)];
     rep_grad := false; multi_input := false; lmbda := 128;
     _prepare_rep := fun rep _ _ => rep |}.

(** The records [Examples.pframe 2 true] makes of [video] under "vc", and
    what it decodes from them. *)
Definition vc_records : list pyvalZ :=
  match (Instance.compress (pframe 2 true) video).2 with
  | Ok out => match dict_get out "vc" with Some recs => recs | None => [] end
  | Raise _ => []
  end.
Definition decoded : tensorZ :=
  match (Instance.decompress (pframe 2 true) vc_records).2 with
  | Ok t => t
  | Raise _ => empty_video
  end.

(** A keyframe model that serves "vc" alone, under a predictive model that
    has the task "vsr" too; and a video that differs from [video] in its last
    two frames only. *)
Definition vc_keyframe_model : model Z :=
  IFrame {| task_name := ["vc"]; the_encoder := frame_encoder;
            decoders := [("vc", list_codec)];
            rep_grad := false; multi_input := false; lmbda := 128;
            _prepare_rep := fun rep _ _ => rep |}.
Definition pframe_on_vc_keyframe : model Z :=
  PFrame (base window_encoder residual_codec) vc_keyframe_model (JInt 2) (JBool false).
Definition late_video : tensorZ := Tensor [1; 4; 1; 1; 2] [1; 2; 3; 5; 7; 7; 7; 7]%Z.

(** An [ICDecoder] of src/models/vsrvc.py as the compression head of the
    keyframe model of a model with motion.  Its compressor yields two strings
    and a shape for whatever it is given. *)
Definition ic_decoder : Vsrvc.ICDecoder Z :=
  {| Vsrvc.compressor_compress := fun _ => (PStr "prior", PStr "hyperprior", PInt 4);
     Vsrvc.compressor_decompress := fun _ _ _ => PNone;
     Vsrvc.compressor_train_compression_decompression := fun x => (x, PInt 8, PInt 2);
     Vsrvc.reconstruction_head := fun x => x |}.
Definition ic_head : decoder Z :=
  {| dec_forward := fun args =>
       match args with [x] => Vsrvc.ic_forward Z ic_decoder x | _ => PNone end;
     dec_compress := fun args =>
       match args with [x] => Vsrvc.ic_compress Z ic_decoder x | _ => PNone end;
     dec_decompress := fun args =>
       match args with
       | [p; h; s] => Vsrvc.ic_decompress Z ic_decoder p h s
       | _ => PNone
       end;
     dec_modules := [EntropyBottleneck false; GaussianConditional false] |}.
Definition motion_on_ic_keyframe : model Z :=
  PFrameWithMotion (base window_encoder residual_motion_codec)
    (IFrame (base frame_encoder ic_head)) (JInt 2) (JBool false).

(** The same for the model with motion. *)
Definition motion_vc_records : list pyvalZ :=
  match (Instance.compress (pframe_with_motion 2 true) video).2 with
  | Ok out => match dict_get out "vc" with Some recs => recs | None => [] end
  | Raise _ => []
  end.
Definition motion_decoded : tensorZ :=
  match (Instance.decompress (pframe_with_motion 2 true) motion_vc_records).2 with
  | Ok t => t
  | Raise _ => empty_video
  end.

End MoreExamples.

(* ===================================================================== *)
(** * Properties *)
(* ===================================================================== *)

(** ** Python sequences and loops *)
Section LoopFacts.

Lemma norm_index_nat (n i : nat) : i < n → norm_index n (Z.of_nat i) = Ok i.
Proof.
  intros Hi. unfold norm_index.
  destruct (Z.of_nat i <? 0)%Z eqn:Hneg; [apply Z.ltb_lt in Hneg; lia|].
  destruct (0 <=? Z.of_nat i)%Z eqn:H0; [|apply Z.leb_gt in H0; lia].
  destruct (Z.of_nat i <? Z.of_nat n)%Z eqn:H1; [|apply Z.ltb_ge in H1; lia].
  simpl. by rewrite Nat2Z.id.
Qed.

Lemma norm_index_raises (n : nat) (i : Z) e : norm_index n i = Raise e → e = IndexError.
Proof. unfold norm_index. case_match; [done|]. by intros [= <-]. Qed.

Lemma getitem_raises {A} (l : list A) i e : getitem l i = Raise e → e = IndexError.
Proof.
  unfold getitem. destruct (norm_index (length l) i) as [j|e'] eqn:Hn; simpl.
  - destruct (l !! j); [done|]. by intros [= <-].
  - intros [= <-]. by eapply norm_index_raises.
Qed.

Lemma getitem_nat {A} (l : list A) (i : nat) a :
  l !! i = Some a → getitem l (Z.of_nat i) = Ok a.
Proof.
  intros Hl. unfold getitem. rewrite norm_index_nat; [|by eapply lookup_lt_Some].
  simpl. by rewrite Hl.
Qed.

(** [(l + [x])[-1]] *)
Lemma getitem_last {A} (l : list A) (x : A) : getitem (l ++ [x]) (-1) = Ok x.
Proof.
  unfold getitem, norm_index. rewrite length_app. cbn [length].
  replace (-1 <? 0)%Z with true by reflexivity.
  assert (-1 + Z.of_nat (length l + 1) = Z.of_nat (length l))%Z as -> by lia.
  destruct (Z.leb_spec 0 (Z.of_nat (length l))); [|lia].
  destruct (Z.ltb_spec (Z.of_nat (length l)) (Z.of_nat (length l + 1))); [|lia].
  cbn. rewrite Nat2Z.id. by rewrite list_lookup_middle.
Qed.

(** An invariant of the state carried through a loop of [result]: what holds
    of the final state when the loop returns, and of the exception when an
    iteration raises. *)
Lemma for_each_result_inv {X S} (P : S → Prop) (Q : exn → Prop)
    (xs : list X) (body : X → S → result S) (s : S) :
  P s →
  (∀ x s, x ∈ xs → P s → match body x s with Ok s' => P s' | Raise e => Q e end) →
  match for_each xs body s with Ok s' => P s' | Raise e => Q e end.
Proof.
  revert s. induction xs as [|x xs IH]; intros s Hs Hbody; simpl; [done|].
  pose proof (Hbody x s (list_elem_of_here _ _) Hs) as Hx.
  destruct (body x s) as [s'|e]; simpl; [|done].
  apply IH; [done|]. intros y t Hy. apply Hbody. by apply list_elem_of_further.
Qed.

Lemma result_bind_Ok {A B} (a : A) (f : A → result B) : (Ok a ≫= f) = f a.
Proof. reflexivity. Qed.

(** [mapM] in [result]: the values of the calls, or the exception of the
    first call that raises. *)
Lemma mapM_result_cons {A B} (f : A → result B) (x : A) (l : list A) :
  mapM f (x :: l) = (y ← f x; k ← mapM f l; Ok (y :: k)).
Proof. reflexivity. Qed.

Lemma mapM_result_length {A B} (f : A → result B) (l : list A) (k : list B) :
  mapM f l = Ok k → length k = length l.
Proof.
  revert k. induction l as [|x l IH]; intros k; [by intros [= <-]|].
  rewrite mapM_result_cons. destruct (f x) as [y|e]; [|done]. rewrite result_bind_Ok.
  destruct (mapM f l) as [k'|e]; [|done]. intros [= <-]. cbn. by rewrite (IH k').
Qed.

Lemma mapM_result_Ok {A B} (f : A → result B) (l : list A) :
  is_Ok (mapM f l) = true ↔ ∀ x, x ∈ l → is_Ok (f x) = true.
Proof.
  induction l as [|x l IH]; [split; [intros _ y Hy; by apply elem_of_nil in Hy|done]|].
  rewrite mapM_result_cons. split.
  - intros H y Hy. destruct (f x) as [v|e] eqn:Hx; [|done]. rewrite result_bind_Ok in H.
    destruct (mapM f l) as [k|e]; [|done].
    apply elem_of_cons in Hy as [->|Hy]; [by rewrite Hx|]. by apply IH.
  - intros H. pose proof (H x (list_elem_of_here _ _)) as Hx.
    destruct (f x) as [v|e]; [|done]. rewrite result_bind_Ok.
    destruct (mapM f l) as [k|e]; [done|]. apply IH. intros y Hy. apply H.
    by apply list_elem_of_further.
Qed.

(** The exception of a [mapM] is the exception of a call, all calls before
    which returned. *)
Lemma mapM_result_raises {A B} (f : A → result B) (l : list A) (e : exn) :
  mapM f l = Raise e ↔
  ∃ l1 x l2, l = l1 ++ x :: l2 ∧ f x = Raise e ∧ ∀ y, y ∈ l1 → is_Ok (f y) = true.
Proof.
  induction l as [|x l IH].
  - split; [done|]. intros (l1 & y & l2 & Hl & _). by destruct l1.
  - rewrite mapM_result_cons. destruct (f x) as [v|e'] eqn:Hx.
    + rewrite result_bind_Ok. split.
      * destruct (mapM f l) as [k|e'] eqn:Hm; [done|]. intros [= ->].
        destruct (proj1 IH eq_refl) as (l1 & y & l2 & -> & Hy & Hl1).
        exists (x :: l1), y, l2. split; [done|]. split; [done|].
        intros z Hz. apply elem_of_cons in Hz as [->|Hz]; [by rewrite Hx|by apply Hl1].
      * intros (l1 & y & l2 & Hl & Hy & Hl1). destruct l1 as [|x' l1].
        -- injection Hl as -> ->. by rewrite Hx in Hy.
        -- injection Hl as -> ->.
           assert (mapM f (l1 ++ y :: l2) = Raise e) as ->; [|done].
           apply IH. exists l1, y, l2. split; [done|]. split; [done|].
           intros z Hz. apply Hl1. by apply list_elem_of_further.
    + split.
      * intros [= ->]. exists [], x, l. split; [done|]. split; [done|].
        intros y Hy. by apply elem_of_nil in Hy.
      * intros (l1 & y & l2 & Hl & Hy & Hl1). destruct l1 as [|x' l1].
        -- injection Hl as -> ->. cbn. congruence.
        -- injection Hl as -> ->. pose proof (Hl1 x' (list_elem_of_here _ _)) as H.
           by rewrite Hx in H.
Qed.

Lemma elem_of_range (n i : nat) : i ∈ range n ↔ i < n.
Proof. unfold range. rewrite elem_of_seq. lia. Qed.

End LoopFacts.

(** ** src/metrics.py *)
Section MetricsFacts.
Variable El : Type.
Variable peak_signal_noise_ratio : tensor El → tensor El → result El.
Variable structural_similarity_index_measure : tensor El → tensor El → result El.
Variable mean_of : list El → El.
Variable sum_of : list El → El.
Import Props.

Local Abbreviation psnr :=
  (Metrics.psnr El peak_signal_noise_ratio mean_of sum_of).
Local Abbreviation ssim :=
  (Metrics.ssim El structural_similarity_index_measure mean_of sum_of).
Local Abbreviation aggregate_values := (Metrics.aggregate_values El mean_of sum_of).
Local Abbreviation scalar := (Metrics.scalar El).
Local Abbreviation per_item := (Metrics.per_item El).

(** A metric of torchmetrics as the helpers use it in their loop. *)
Local Abbreviation as_scalar f :=
  (fun a b : tensor El => mbind (M:=result) (fun v : El => Ok (scalar v)) (f a b)).
Local Abbreviation scalars r :=
  (mbind (M:=result) (fun vs : list El => Ok (scalar <$> vs)) r).

Implicit Types (f : tensor El → tensor El → result El).

Lemma index0_raises (t : tensor El) i e : index0 t i = Raise e → e = IndexError.
Proof.
  unfold index0. destruct (shape t) as [|n rest]; [by intros [= <-]|].
  destruct (norm_index n i) eqn:Hn; simpl; [done|].
  intros [= <-]. by eapply norm_index_raises.
Qed.

Lemma index0_item (t : tensor El) (n i : nat) (rest : list nat) :
  shape t = n :: rest → i < n → index0 t (Z.of_nat i) = Ok (item t i).
Proof.
  intros Hs Hi. unfold index0, item. rewrite Hs, norm_index_nat by done. reflexivity.
Qed.

Lemma index0_beyond (t : tensor El) (n : nat) (rest : list nat) :
  shape t = n :: rest → index0 t (Z.of_nat n) = Raise IndexError.
Proof.
  intros Hs. unfold index0. rewrite Hs. unfold norm_index.
  destruct (Z.ltb_spec (Z.of_nat n) 0) as [Hneg|_]; [lia|].
  destruct (Z.leb_spec 0 (Z.of_nat n)) as [_|Hneg]; [|lia].
  destruct (Z.ltb_spec (Z.of_nat n) (Z.of_nat n)) as [Hlt|_]; [lia|]. reflexivity.
Qed.

Lemma size_at_leading (t : tensor El) (n : nat) (rest : list nat) :
  shape t = n :: rest → size_at t 0 = Ok n.
Proof. intros Hs. unfold size_at. rewrite Hs. by apply (getitem_nat _ 0). Qed.

(** The loop over the items of the target, from any index on: the values of
    the metric on the pairs of items, or the exception of the first call that
    raises. *)
Lemma per_item_from f (input target : tensor El)
    (n m : nat) (rest rest' : list nat) (len start : nat) (acc : list (tensor El)) :
  shape target = n :: rest → shape input = m :: rest' →
  start + len ≤ n → start + len ≤ m →
  for_each (seq start len)
    (fun i values =>
       a ← index0 input (Z.of_nat i);
       b ← index0 target (Z.of_nat i);
       v ← (v ← f a b; Ok (scalar v));
       Ok (values ++ [v]))
    acc
  = mbind (M:=result) (fun vs : list El => Ok (acc ++ (scalar <$> vs)))
      (mapM (fun i => f (item input i) (item target i)) (seq start len)).
Proof.
  intros Ht Hi. revert start acc.
  induction len as [|len IH]; intros start acc Hn Hm; cbn [seq for_each].
  - cbn. by rewrite app_nil_r.
  - rewrite (index0_item input m start rest'), (index0_item target n start rest) by (done || lia).
    rewrite !result_bind_Ok, mapM_result_cons.
    destruct (f (item input start) (item target start)) as [v|e]; [|done].
    rewrite !result_bind_Ok, IH by lia.
    destruct (mapM _ (seq (S start) len)) as [vs|e]; [|done].
    rewrite !result_bind_Ok. cbn. by rewrite <- app_assoc.
Qed.

Lemma per_item_values f (input target : tensor El) (n m : nat) (rest rest' : list nat) :
  shape target = n :: rest → shape input = m :: rest' → n ≤ m →
  per_item (as_scalar f) input target
  = scalars (item_values f input target n).
Proof.
  intros Ht Hi Hnm. unfold Metrics.per_item. rewrite (size_at_leading target n rest Ht).
  rewrite result_bind_Ok. unfold range.
  by rewrite (per_item_from f input target n m rest rest' n 0 []) by (done || lia).
Qed.

(** The loop stops with [IndexError] at the first index the input lacks, when
    the calls on the items before it return. *)
Lemma per_item_short f (input target : tensor El)
    (n m : nat) (rest rest' : list nat) (len start : nat) (acc : list (tensor El)) :
  shape target = n :: rest → shape input = m :: rest' →
  start ≤ m → m < start + len → start + len ≤ n →
  (∀ i, start ≤ i < m → is_Ok (f (item input i) (item target i)) = true) →
  for_each (seq start len)
    (fun i values =>
       a ← index0 input (Z.of_nat i);
       b ← index0 target (Z.of_nat i);
       v ← (v ← f a b; Ok (scalar v));
       Ok (values ++ [v]))
    acc
  = Raise IndexError.
Proof.
  intros Ht Hi. revert start acc.
  induction len as [|len IH]; intros start acc Hlo Hhi Hn Hok; [lia|]. cbn [seq for_each].
  destruct (decide (start = m)) as [->|Hne].
  - by rewrite (index0_beyond input m rest').
  - rewrite (index0_item input m start rest'), (index0_item target n start rest) by (done || lia).
    rewrite !result_bind_Ok. pose proof (Hok start ltac:(lia)) as Hs.
    destruct (f (item input start) (item target start)) as [v|e]; [|done].
    rewrite !result_bind_Ok. apply IH; [lia|lia|lia|]. intros i Hi'. apply Hok. lia.
Qed.

Lemma item_values_length f (input target : tensor El) (n : nat) (p : list El) :
  item_values f input target n = Ok p → length p = n.
Proof.
  intros H. apply mapM_result_length in H. unfold range in H. by rewrite length_seq in H.
Qed.

Lemma item_values_Ok f (input target : tensor El) (n : nat) :
  is_Ok (item_values f input target n) = true
  ↔ ∀ i, i < n → is_Ok (f (item input i) (item target i)) = true.
Proof.
  unfold item_values. rewrite mapM_result_Ok. split.
  - intros H i Hi. apply (H i). by apply elem_of_range.
  - intros H i Hi. apply H. by apply elem_of_range.
Qed.

(** The loop over the batch raises [IndexError] or what the metric raises. *)
Lemma per_item_raises (g : tensor El → tensor El → result (tensor El))
    (input target : tensor El) e :
  per_item g input target = Raise e → e = IndexError ∨ ∃ a b, g a b = Raise e.
Proof.
  unfold Metrics.per_item, size_at.
  destruct (getitem (shape target) 0) as [n|e'] eqn:Hn; simpl.
  - intros Hloop.
    match type of Hloop with
    | for_each ?xs ?body ?s = _ =>
        pose proof (for_each_result_inv (fun _ => True)
                      (fun e => e = IndexError ∨ ∃ a b, g a b = Raise e)
                      xs body s I) as Hinv
    end.
    rewrite Hloop in Hinv. apply Hinv. intros i values _ _.
    destruct (index0 input (Z.of_nat i)) as [a|e1] eqn:Ha; simpl;
      [|left; by eapply index0_raises].
    destruct (index0 target (Z.of_nat i)) as [b|e1] eqn:Hb; simpl;
      [|left; by eapply index0_raises].
    destruct (g a b) as [v|e1] eqn:Hg; simpl; [done|]. right. eauto.
  - intros [= <-]. left. by eapply getitem_raises.
Qed.

Lemma stack0_raises (ts : list (tensor El)) e :
  stack0 ts = Raise e → ∃ msg, e = RuntimeError msg.
Proof.
  unfold stack0. destruct ts as [|t ts]; [intros [= <-]; eauto|].
  case_match; [done|]. intros [= <-]. eauto.
Qed.

Lemma stack0_scalar_values (vals : list El) :
  vals ≠ [] → stack0 (scalar <$> vals) = Ok (Tensor [length vals] vals).
Proof.
  intros Hne. destruct vals as [|v vals]; [done|]. unfold stack0. cbn [fmap list_fmap].
  assert (forallb (same_shape (shape (scalar v))) (scalar v :: (scalar <$> vals)) = true) as ->.
  { apply forallb_forall. intros u Hu. apply list_elem_of_In in Hu.
    apply bool_decide_eq_true. apply elem_of_cons in Hu as [->|Hu]; [done|].
    apply list_elem_of_fmap in Hu as (x & -> & _). done. }
  cbn [shape Metrics.scalar]. f_equal. f_equal.
  - cbn. by rewrite length_fmap.
  - cbn [flat_map data Metrics.scalar app]. f_equal.
    induction vals as [|x vals IH]; [done|]. cbn. by rewrite IH.
Qed.

Lemma aggregate_values_raises values aggregate e :
  aggregate ∈ Metrics.strategies → aggregate_values values aggregate = Raise e →
  ∃ msg, e = RuntimeError msg.
Proof.
  intros Hin. unfold Metrics.aggregate_values.
  repeat case_bool_decide.
  - destruct (stack0 values) eqn:Hs; simpl; [done|]. intros [= <-]. by eapply stack0_raises.
  - destruct (stack0 values) eqn:Hs; simpl; [done|]. intros [= <-]. by eapply stack0_raises.
  - apply stack0_raises.
  - exfalso. unfold Metrics.strategies in Hin.
    rewrite !elem_of_cons, elem_of_nil in Hin. destruct Hin as [->|[->|[->|[]]]]; done.
Qed.

Lemma aggregate_scalar_values (vals : list El) :
  vals ≠ [] →
  aggregate_values (scalar <$> vals) "none" = Ok (Tensor [length vals] vals)
  ∧ aggregate_values (scalar <$> vals) "mean" = Ok (scalar (mean_of vals))
  ∧ aggregate_values (scalar <$> vals) "sum" = Ok (scalar (sum_of vals)).
Proof.
  intros Hne. unfold Metrics.aggregate_values. rewrite (stack0_scalar_values vals Hne).
  split; [|split]; repeat case_bool_decide; done.
Qed.

Lemma aggregate_scalars_returns (vals : list El) aggregate :
  aggregate ∈ Metrics.strategies → vals ≠ [] →
  is_Ok (aggregate_values (scalar <$> vals) aggregate) = true.
Proof.
  intros Hin Hne. destruct (aggregate_scalar_values vals Hne) as (H1 & H2 & H3).
  unfold Metrics.strategies in Hin.
  rewrite !elem_of_cons, elem_of_nil in Hin.
  destruct Hin as [->|[->|[->|[]]]]; [by rewrite H2|by rewrite H3|by rewrite H1].
Qed.

Lemma not_refused (aggregate : string) :
  aggregate ∈ Metrics.strategies → bool_decide (aggregate ∉ Metrics.strategies) = false.
Proof. intros Hin. apply bool_decide_eq_false_2. intros H. by apply H. Qed.

Lemma strategies_elem (aggregate : string) :
  aggregate = "mean" ∨ aggregate = "sum" ∨ aggregate = "none" →
  aggregate ∈ Metrics.strategies.
Proof.
  unfold Metrics.strategies. rewrite !elem_of_cons. intros [H|[H|H]]; subst; auto.
Qed.

(** Past the two checks, a public function is the loop over the items
    followed by the aggregation. *)
Lemma psnr_unfolds (input target : tensor El) (aggregate : string) :
  aggregate ∈ Metrics.strategies → rank input = 4 ∨ rank input = 5 →
  psnr input target aggregate
  = (values ← per_item (as_scalar peak_signal_noise_ratio) input target;
     aggregate_values values aggregate).
Proof.
  intros Hin Hr. unfold Metrics.psnr, Metrics._psnr_images, Metrics._psnr_videos.
  rewrite (not_refused aggregate Hin). destruct Hr as [Hr|Hr].
  - by rewrite !(bool_decide_eq_true_2 (rank input = 4)) by done.
  - rewrite !(bool_decide_eq_false_2 (rank input = 4)) by lia.
    by rewrite !(bool_decide_eq_true_2 (rank input = 5)) by done.
Qed.

Lemma ssim_unfolds (input target : tensor El) (aggregate : string) :
  aggregate ∈ Metrics.strategies → rank input = 4 ∨ rank input = 5 →
  ssim input target aggregate
  = (values ← per_item
                (as_scalar (ssim_of_items structural_similarity_index_measure (rank input)))
                input target;
     aggregate_values values aggregate).
Proof.
  intros Hin Hr. unfold Metrics.ssim, Metrics._ssim_images, Metrics._ssim_videos,
    ssim_of_items.
  rewrite (not_refused aggregate Hin). destruct Hr as [Hr|Hr].
  - by rewrite !(bool_decide_eq_true_2 (rank input = 4)) by done.
  - rewrite !(bool_decide_eq_false_2 (rank input = 4)) by lia.
    by rewrite !(bool_decide_eq_true_2 (rank input = 5)) by done.
Qed.

Lemma ssim_of_items_implemented (r : nat) :
  implemented structural_similarity_index_measure →
  implemented (ssim_of_items structural_similarity_index_measure r).
Proof. intros H a b. unfold ssim_of_items. case_bool_decide; apply H. Qed.

(** The body of a helper past its rank check, for a metric that raises no
    [NotImplementedError] of its own: no [NotImplementedError]; and, for a
    target with at least one item and no more items than the input, a tensor
    exactly when the metric returns on every pair of items. *)
Lemma helper_contract f (input target : tensor El) (aggregate : string) :
  aggregate ∈ Metrics.strategies → implemented f →
  let helper :=
    values ← per_item (as_scalar f) input target;
    aggregate_values values aggregate in
  is_NotImplementedError helper = false
  ∧ (∀ (n m : nat) (rest rest' : list nat),
       shape target = n :: rest → shape input = m :: rest' → 0 < n → n ≤ m →
       is_Ok helper = is_Ok (item_values f input target n)).
Proof.
  intros Hin Himpl helper. subst helper. split.
  - destruct (per_item _ _ _) as [values|e] eqn:Hp; simpl.
    + destruct (aggregate_values values aggregate) as [t|e] eqn:Ha; [done|].
      by destruct (aggregate_values_raises _ _ _ Hin Ha) as [m ->].
    + apply per_item_raises in Hp as [->|(a & b & Hab)]; [done|].
      specialize (Himpl a b). destruct (f a b) as [v|e']; [done|].
      injection Hab as ->. exact Himpl.
  - intros n m rest rest' Ht Hi Hn Hnm.
    rewrite (per_item_values f input target n m rest rest' Ht Hi Hnm).
    destruct (item_values f input target n) as [p|e] eqn:Hp; [|done].
    rewrite !result_bind_Ok. apply aggregate_scalars_returns; [done|].
    apply item_values_length in Hp. intros ->. cbn in Hp. lia.
Qed.

Lemma rank_4_or_5_dec (t : tensor El) :
  {rank t = 4} + {rank t = 5} + {rank t ≠ 4 ∧ rank t ≠ 5}.
Proof.
  destruct (decide (rank t = 4)); [by left; left|].
  destruct (decide (rank t = 5)); [by left; right|]. by right.
Qed.

(** C10, as amended.  The torchmetrics functions raising no
    [NotImplementedError] of their own, [psnr] and [ssim] raise
    [NotImplementedError] exactly when [aggregate] is not one of "mean", "sum",
    "none" or the rank of the input is neither 4 nor 5; the aggregate is
    checked first (its message is the one raised whatever the rank); and with
    a valid aggregate, an input of rank 4 or 5 and a target whose leading
    dimension is at least 1 and at most that of the input, a tensor is returned
    exactly when the torchmetrics function returns on every pair of items
    [input[i]], [target[i]] (for [ssim] on images, on the two items with a
    batch dimension of one). *)
Theorem psnr_ssim_error_contract (input target : tensor El) (aggregate : string) :
  implemented peak_signal_noise_ratio →
  implemented structural_similarity_index_measure →
  let refused := aggregate ∉ Metrics.strategies ∨ (rank input ≠ 4 ∧ rank input ≠ 5) in
  (is_NotImplementedError (psnr input target aggregate) = true ↔ refused)
  ∧ (is_NotImplementedError (ssim input target aggregate) = true ↔ refused)
  ∧ (aggregate ∉ Metrics.strategies →
       psnr input target aggregate = Raise (Metrics.unrecognized aggregate)
       ∧ ssim input target aggregate = Raise (Metrics.unrecognized aggregate))
  ∧ (¬ refused →
       ∀ (n m : nat) (rest rest' : list nat),
         shape target = n :: rest → shape input = m :: rest' → 0 < n → n ≤ m →
         (is_Ok (psnr input target aggregate) = true
          ↔ ∀ i, i < n →
              is_Ok (peak_signal_noise_ratio (item input i) (item target i)) = true)
         ∧ (is_Ok (ssim input target aggregate) = true
            ↔ ∀ i, i < n →
                is_Ok (ssim_of_items structural_similarity_index_measure (rank input)
                         (item input i) (item target i)) = true)).
Proof.
  intros Hpi Hsi refused. subst refused.
  destruct (decide (aggregate ∈ Metrics.strategies)) as [Hin|Hout].
  - pose proof (helper_contract peak_signal_noise_ratio input target aggregate Hin Hpi)
      as [Hp1 Hp2].
    pose proof (helper_contract
      (ssim_of_items structural_similarity_index_measure (rank input))
      input target aggregate Hin (ssim_of_items_implemented _ Hsi)) as [Hs1 Hs2].
    destruct (rank_4_or_5_dec input) as [Hr|[H4 H5]].
    + assert (rank input = 4 ∨ rank input = 5) as Hr' by (destruct Hr; auto).
      rewrite (psnr_unfolds input target aggregate Hin Hr').
      rewrite (ssim_unfolds input target aggregate Hin Hr').
      cbv zeta in Hp1, Hp2, Hs1, Hs2. rewrite Hp1, Hs1.
      split; [|split; [|split]].
      * split; [done|]. intros [?|[? ?]]; [done|]. destruct Hr; done.
      * split; [done|]. intros [?|[? ?]]; [done|]. destruct Hr; done.
      * done.
      * intros _ n m rest rest' Ht Hi Hn Hnm.
        rewrite (Hp2 n m rest rest' Ht Hi Hn Hnm), (Hs2 n m rest rest' Ht Hi Hn Hnm).
        split; apply item_values_Ok.
    + unfold Metrics.psnr, Metrics.ssim. rewrite (not_refused aggregate Hin).
      rewrite !(bool_decide_eq_false_2 (rank input = 4)) by done.
      rewrite !(bool_decide_eq_false_2 (rank input = 5)) by done. simpl.
      split; [|split; [|split]].
      * split; [by right|done].
      * split; [by right|done].
      * done.
      * intros Hno. exfalso. apply Hno. by right.
  - unfold Metrics.psnr, Metrics.ssim.
    rewrite !(bool_decide_eq_true_2 (aggregate ∉ _)) by done. simpl.
    split; [|split; [|split]].
    + split; [by left|done].
    + split; [by left|done].
    + done.
    + intros Hno. exfalso. apply Hno. by left.
Qed.

End MetricsFacts.

(** The stand-ins of the examples raise [RuntimeError] only. *)
Lemma examples_implemented :
  Props.implemented Examples.peak_signal_noise_ratio
  ∧ Props.implemented Examples.structural_similarity_index_measure.
Proof.
  split; intros a b.
  - unfold Examples.peak_signal_noise_ratio. by case_bool_decide.
  - unfold Examples.structural_similarity_index_measure. case_bool_decide; [|done].
    destruct (reverse (shape a)) as [|w [|h ?]]; [done|done|]. by case_bool_decide.
Qed.

(** C10, witness: a batch of two images of 12x12 pixels against itself,
    aggregated by "mean". *)
Lemma psnr_ssim_error_contract_witness :
  is_Ok (Examples.psnrZ Examples.two_pictures Examples.two_pictures "mean") = true
  ∧ is_Ok (Examples.ssimZ Examples.two_pictures Examples.two_pictures "mean") = true.
Proof.
  destruct (proj2 (proj2 (proj2 (psnr_ssim_error_contract Z
    Examples.peak_signal_noise_ratio Examples.structural_similarity_index_measure
    Examples.average Examples.total
    Examples.two_pictures Examples.two_pictures "mean"
    (proj1 examples_implemented) (proj2 examples_implemented))))
    ltac:(intros [H|[H _]]; [apply H; apply list_elem_of_here|vm_compute in H; done])
    2 2 [1; 12; 12] [1; 12; 12] eq_refl eq_refl ltac:(lia) ltac:(lia)) as [Hp Hs].
  split.
  - apply Hp. intros i Hi. destruct i as [|[|i]]; [vm_compute; reflexivity..|lia].
  - apply Hs. intros i Hi. destruct i as [|[|i]]; [vm_compute; reflexivity..|lia].
Defined.

(** C10, counterexample: "mean" is a valid aggregate and the input has rank
    4, but the batch is empty: [torch.stack] refuses the empty list of values
    and no tensor is returned. *)
Lemma psnr_empty_batch_raises :
  "mean" ∈ Metrics.strategies
  ∧ rank Examples.no_images = 4
  ∧ Examples.psnrZ Examples.no_images Examples.no_images "mean"
    = Raise (RuntimeError "stack expects a non-empty TensorList")
  ∧ Examples.ssimZ Examples.no_images Examples.no_images "mean"
    = Raise (RuntimeError "stack expects a non-empty TensorList").
Proof.
  split; [apply list_elem_of_here|]. split; [reflexivity|]. split; vm_compute; reflexivity.
Qed.

(** ** src/models/vsrvc.py *)
Section VsrvcFacts.
Variable El : Type.

Lemma select1_two (x : tensor El) (B C H W : nat) (j : Z) :
  shape x = [B; 2; C; H; W] → (j = 0 ∨ j = 1 ∨ j = -1)%Z → ∃ t, select1 x j = Ok t.
Proof.
  intros Hs Hj. unfold select1. rewrite Hs.
  destruct Hj as [->|[->| ->]]; simpl; eauto.
Qed.

(** C8.  On a 5-dimensional input of shape (B, N, C, H, W) the forward passes
    of [VSRVCMotionResidualEncoder] and [VSRVCResidualEncoder] raise
    [AssertionError] exactly when N is not 2, and return when N is 2. *)
Theorem forward_asserts_two_frames (mre : Vsrvc.VSRVCMotionResidualEncoder El)
    (re : Vsrvc.VSRVCResidualEncoder El) (x : tensor El) (B N C H W : nat) :
  shape x = [B; N; C; H; W] →
  (Vsrvc.mre_forward El mre x = Raise AssertionError ↔ N ≠ 2)
  ∧ (Vsrvc.re_forward El re x = Raise AssertionError ↔ N ≠ 2)
  ∧ (N = 2 → is_Ok (Vsrvc.mre_forward El mre x) = true
             ∧ is_Ok (Vsrvc.re_forward El re x) = true).
Proof.
  intros Hs. unfold Vsrvc.mre_forward, Vsrvc.re_forward. rewrite Hs. simpl.
  destruct (decide (N = 2)) as [->|Hne].
  - destruct (select1_two x B C H W 0 Hs ltac:(auto)) as [x0 H0].
    destruct (select1_two x B C H W 1 Hs ltac:(auto)) as [x1 H1].
    destruct (select1_two x B C H W (-1) Hs ltac:(auto)) as [xl Hl].
    rewrite !bool_decide_eq_true_2 by done. simpl. rewrite H0, H1. simpl.
    destruct (Vsrvc.motion_train_compression_decompression _ _ _) as [[d p] hp].
    rewrite Hl. simpl. repeat split; try done; intros _; done.
  - rewrite bool_decide_eq_false_2 by done. simpl. repeat split; try done.
Qed.

End VsrvcFacts.

(** C8, witness: a window of two frames passes the check. *)
Lemma forward_asserts_two_frames_witness :
  is_Ok (Vsrvc.mre_forward Z Examples.motion_residual_encoder Examples.two_frames) = true
  ∧ is_Ok (Vsrvc.re_forward Z Examples.residual_encoder Examples.two_frames) = true.
Proof.
  exact (proj2 (proj2 (forward_asserts_two_frames Z Examples.motion_residual_encoder
    Examples.residual_encoder Examples.two_frames 1 2 1 1 1 eq_refl)) eq_refl).
Defined.

(** ** Computations with a log *)
Section TraceFacts.
Context {E : Type}.

Lemma bind_Ok {A B} (f : A → M E B) (l : list E) (a : A) :
  (l, Ok a) ≫= f = (l ++ (f a).1, (f a).2).
Proof. unfold mbind, M_bind. by destruct (f a). Qed.

Lemma bind_Raise {A B} (f : A → M E B) (l : list E) (e : exn) :
  (l, Raise e) ≫= f = (l, Raise e).
Proof. done. Qed.

Lemma bind_lift_Ok {A B} (f : A → M E B) (a : A) : lift (Ok a) ≫= f = f a.
Proof. unfold lift. rewrite bind_Ok. simpl. by destruct (f a). Qed.

Lemma bind_lift_Raise {A B} (f : A → M E B) (e : exn) :
  lift (Raise e) ≫= f = ([], Raise e).
Proof. done. Qed.

Lemma bind_ret {A B} (f : A → M E B) (a : A) : mret a ≫= f = f a.
Proof. apply (bind_lift_Ok f a). Qed.

Lemma bind_emit {B} (f : unit → M E B) (ev : E) :
  emit ev ≫= f = (ev :: (f ()).1, (f ()).2).
Proof. unfold emit. by rewrite bind_Ok. Qed.

(** A bind returns only if both parts return. *)
Lemma bind_returns {A B} (m : M E A) (f : A → M E B) (l : list E) (b : B) :
  m ≫= f = (l, Ok b) →
  ∃ l1 a l2, m = (l1, Ok a) ∧ f a = (l2, Ok b) ∧ l = l1 ++ l2.
Proof.
  destruct m as [l1 [a|e]]; [|done]. rewrite bind_Ok.
  destruct (f a) as [l2 r] eqn:Hf. simpl. intros [= <- ->]. eauto 6.
Qed.

(** What holds of every event of both parts holds of every event of a bind. *)
Lemma bind_log_Forall {A B} (P : E → Prop) (m : M E A) (f : A → M E B) :
  Forall P m.1 → (∀ a, m.2 = Ok a → Forall P (f a).1) → Forall P (m ≫= f).1.
Proof.
  destruct m as [l [a|e]]; intros Hl Hf; [|done].
  rewrite bind_Ok. simpl in *. apply Forall_app. split; [done|]. by apply Hf.
Qed.

(** The events of the first part are events of a bind, whatever the result. *)
Lemma bind_log_l {A B} (m : M E A) (f : A → M E B) (e : E) :
  e ∈ m.1 → e ∈ (m ≫= f).1.
Proof.
  destruct m as [l [a|x]]; intros He; [|done].
  rewrite bind_Ok. cbn [fst] in *. apply elem_of_app. by left.
Qed.

Lemma relabel_Ok {A} (g : E → E) (m : M E A) (l : list E) (a : A) :
  relabel g m = (l, Ok a) → ∃ l0, m = (l0, Ok a) ∧ l = g <$> l0.
Proof. destruct m as [l0 r]. unfold relabel. simpl. intros [= <- ->]. eauto. Qed.

Lemma relabel_log_Forall {A} (P : E → Prop) (g : E → E) (m : M E A) :
  (∀ e, P (g e)) → Forall P (relabel g m).1.
Proof. intros Hg. unfold relabel. simpl. apply Forall_fmap, Forall_true. exact Hg. Qed.

Lemma bind_ret_r {A} (m : M E A) : m ≫= mret = m.
Proof.
  destruct m as [l [a|e]]; [|done]. rewrite bind_Ok. simpl. by rewrite app_nil_r.
Qed.

Lemma bind_ext {A B} (m : M E A) (f g : A → M E B) :
  (∀ a, f a = g a) → m ≫= f = m ≫= g.
Proof. intros Hfg. destruct m as [l [a|e]]; [|done]. by rewrite !bind_Ok, Hfg. Qed.

Lemma bind_assoc {A B C} (m : M E A) (f : A → M E B) (g : B → M E C) :
  (m ≫= f) ≫= g = m ≫= (fun a => f a ≫= g).
Proof.
  destruct m as [l [a|e]]; [|done]. rewrite !bind_Ok.
  destruct (f a) as [l' [b|e]]; cbn [fst snd]; [|done].
  rewrite !bind_Ok. cbn [fst snd]. by rewrite app_assoc.
Qed.

(** The loop, one more iteration at the end. *)
Lemma for_each_snoc {X S} (xs : list X) (x : X) (body : X → S → M E S) (s : S) :
  for_each (xs ++ [x]) body s = (s' ← for_each xs body s; body x s').
Proof.
  revert s. induction xs as [|y ys IH]; intros s; cbn [app for_each].
  - by rewrite bind_ret, bind_ret_r.
  - rewrite bind_assoc. apply bind_ext. intros s'. apply IH.
Qed.

(** What holds of the events of every iteration holds of the events of the
    loop, also when it raises. *)
Lemma for_each_log_Forall {X S} (P : E → Prop) (xs : list X) (body : X → S → M E S) (s : S) :
  (∀ x s, x ∈ xs → Forall P (body x s).1) → Forall P (for_each xs body s).1.
Proof.
  revert s. induction xs as [|x xs IH]; intros s Hbody; cbn [for_each]; [done|].
  apply bind_log_Forall.
  - apply Hbody, list_elem_of_here.
  - intros s' _. apply IH. intros y t Hy. apply Hbody. by apply list_elem_of_further.
Qed.

(** An event of a part is an event of the whole. *)
Lemma bind_emits_l {A B} (Q : E → Prop) (m : M E A) (f : A → M E B) (l : list E) (b : B) :
  m ≫= f = (l, Ok b) →
  (∀ l1 a, m = (l1, Ok a) → ∃ e, e ∈ l1 ∧ Q e) → ∃ e, e ∈ l ∧ Q e.
Proof.
  intros H Hm. apply bind_returns in H as (l1 & a & l2 & H1 & _ & ->).
  destruct (Hm l1 a H1) as (e & He & HQ). exists e. split; [|done].
  apply elem_of_app. by left.
Qed.

Lemma bind_emits_r {A B} (Q : E → Prop) (m : M E A) (f : A → M E B) (l : list E) (b : B) :
  m ≫= f = (l, Ok b) →
  (∀ a l2, f a = (l2, Ok b) → ∃ e, e ∈ l2 ∧ Q e) → ∃ e, e ∈ l ∧ Q e.
Proof.
  intros H Hf. apply bind_returns in H as (l1 & a & l2 & _ & H2 & ->).
  destruct (Hf a l2 H2) as (e & He & HQ). exists e. split; [|done].
  apply elem_of_app. by right.
Qed.

Lemma relabel_log_impl {A} (P Q : E → Prop) (g : E → E) (m : M E A) :
  (∀ e, Q e → P (g e)) → Forall Q m.1 → Forall P (relabel g m).1.
Proof.
  intros Hg Hm. unfold relabel. cbn [fst]. apply Forall_fmap.
  eapply Forall_impl; [exact Hm|]. exact Hg.
Qed.

Lemma lift_returns {A} (r : result A) (l : list E) (a : A) :
  @lift E A r = (l, Ok a) → r = Ok a ∧ l = [].
Proof. unfold lift. by intros [= <- ->]. Qed.

Lemma emit_returns (ev : E) (l : list E) (u : unit) : emit ev = (l, Ok u) → l = [ev].
Proof. unfold emit. by intros [= <-]. Qed.

Lemma ret_returns {A} (a b : A) (l : list E) : @mret (M E) _ A a = (l, Ok b) → a = b ∧ l = [].
Proof. by intros [= <- <-]. Qed.

End TraceFacts.

(** Invert a computation that returned, bind by bind: the first part
    returned [a] with the log [l], as [Ha] says, and [H] is left for the rest. *)
Tactic Notation "invert_bind" hyp(H) "as" ident(l) ident(a) ident(Ha) :=
  let l2 := fresh "rest" in
  apply bind_returns in H as (l & a & l2 & Ha & H & ->).

(** Run the part of a computation that is made of known results. *)
Ltac run_M :=
  repeat (first [rewrite bind_lift_Ok | rewrite bind_ret | rewrite bind_emit
                | rewrite bind_Ok | rewrite bind_lift_Raise | rewrite bind_Raise];
          cbn [fst snd]).

(** Find an event in a log made of appended parts. *)
Ltac in_log :=
  first [ assumption
        | apply list_elem_of_here
        | apply list_elem_of_further; in_log
        | apply elem_of_app; first [left; in_log | right; in_log] ].

(** ** load_model *)
Section LoaderFacts.
Variable El : Type.
Import Loader Spec.


Lemma check_pframe_args_present (args : gmap string json) :
  has_pframe_args args → check_pframe_args args = Ok ().
Proof.
  intros ([v1 H1] & [v2 H2] & [v3 H3]). unfold check_pframe_args, require_key.
  by rewrite H1, H2, H3.
Qed.








(** *** A call that returns *)

Lemma deeper_not_an_update (e : assembly_event) : not_an_update (deeper e).
Proof. intros Hd. done. Qed.

(** The entropy modules after a forced [update]. *)
Lemma update_modules_calibrated (ms : list nn_module) :
  Forall (fun m => is_calibrated m = true) (Instance.update_modules true ms).2.
Proof.
  induction ms as [|m ms IH]; [constructor|]. unfold Instance.update_modules in *.
  cbn [foldr]. destruct (foldr _ _ ms) as [u ms']. simpl in IH.
  destruct m as [c|c|]; simpl.
  - unfold calibrate. rewrite andb_false_r. simpl. by constructor.
  - unfold calibrate. rewrite andb_false_r. simpl. by constructor.
  - by constructor.
Qed.

Lemma update_decoders_calibrated (ds : dict (decoder El)) :
  Forall (fun m => is_calibrated m = true)
    (flat_map (fun kv => dec_modules kv.2) (Instance.update_decoders El true ds).2).
Proof.
  induction ds as [|[task d] ds IH]; [constructor|]. unfold Instance.update_decoders in *.
  cbn [foldr]. destruct (foldr _ _ ds) as [u ds']. simpl in IH.
  unfold Instance.update_decoder.
  pose proof (update_modules_calibrated (dec_modules d)) as Hd.
  destruct (Instance.update_modules true (dec_modules d)) as [u' ms]. simpl in *.
  apply Forall_app. by split.
Qed.

Lemma update_calibrates (m : model El) (t : option scale_table) (q : bool) :
  Forall (fun md => is_calibrated md = true)
    (Instance.named_modules (Instance.update m t true q).2).
Proof.
  assert (Hbase : ∀ b, Forall (fun md => is_calibrated md = true)
            (enc_modules (the_encoder (Instance.update_base El true b).2)
             ++ flat_map (fun kv => dec_modules kv.2)
                  (decoders (Instance.update_base El true b).2))).
  { intros b. unfold Instance.update_base, Instance.update_encoder.
    pose proof (update_modules_calibrated (enc_modules (the_encoder b))) as He.
    pose proof (update_decoders_calibrated (decoders b)) as Hd.
    destruct (Instance.update_modules true _) as [ue ms].
    destruct (Instance.update_decoders El true _) as [ud ds]. simpl in *.
    apply Forall_app. by split. }
  revert t. induction m as [b|b im IH k a|b im IH k a]; intros t; cbn [Instance.update].
  - specialize (Hbase b). destruct (Instance.update_base El true b) as [u b']. apply Hbase.
  - specialize (Hbase b). destruct (Instance.update_base El true b) as [u b'].
    specialize (IH (Some match t with None => get_scale_table | Some t => t end)).
    destruct (Instance.update im _ true q) as [ui im']. simpl in *.
    apply Forall_app. by split.
  - specialize (Hbase b). destruct (Instance.update_base El true b) as [u b'].
    specialize (IH (Some match t with None => get_scale_table | Some t => t end)).
    destruct (Instance.update im _ true q) as [ui im']. simpl in *.
    apply Forall_app. by split.
Qed.


(** The steps of a call that returns: whatever came first, then the load of
    the checkpoint, [eval] and the forced [update]; the model returned is the
    one [update] leaves. *)
Lemma load_model_returns (w : world El) (fuel : nat) (json_file : string)
    (log : list assembly_event) (m : model El) :
  load_model fuel w json_file = (log, Ok m) →
  ∃ d pre m0,
    files w !! resolved_path w json_file = Some d
    ∧ log = pre ++ [Assembly 0 (Torch_load (checkpoint d));
                    Assembly 0 (Load_state_dict (negb (String.prefix "PFrame" (model_type d))));
                    Assembly 0 Model_eval;
                    Assembly 0 (Model_update true)]
    ∧ Forall not_an_update pre
    ∧ m = (Instance.update m0 None true false).2.
Proof.
  destruct fuel as [|fuel]; [done|]. cbn [load_model]. intros H.
  invert_bind H as l_f d' Hfile. apply lift_returns in Hfile as [Hfile ->].
  destruct (files w !! _) as [d|] eqn:Hd; [|done]. injection Hfile as <-.
  invert_bind H as l_o u Ho. apply emit_returns in Ho as ->.
  invert_bind H as l_check u1 Hcheck.
  invert_bind H as l_e cls He. apply lift_returns in He as [_ ->].
  invert_bind H as l_d ds Hds. apply lift_returns in Hds as [_ ->].
  invert_bind H as l_w u2 Hw.
  invert_bind H as l_a arch Ha. apply lift_returns in Ha as [_ ->].
  invert_bind H as l_m built Hm.
  invert_bind H as l_c u3 Hc.
  invert_bind H as l_s u4 Hs. apply emit_returns in Hs as ->.
  invert_bind H as l_v u5 Hv. apply emit_returns in Hv as ->.
  invert_bind H as l_u u6 Hu. apply emit_returns in Hu as ->.
  apply ret_returns in H as [<- ->].
  assert (l_check = []) as ->.
  { destruct (String.prefix _ _); [by apply lift_returns in Hcheck as [_ ->]|].
    by apply ret_returns in Hcheck as [_ ->]. }
  assert (l_w = []) as ->.
  { destruct (bool_decide (weighting d ∈ _)); [|done]. by apply ret_returns in Hw as [_ ->]. }
  assert (l_c = [Assembly 0 (Torch_load (checkpoint d))]) as ->.
  { destruct (bool_decide (checkpoint d ∈ _)); [|done]. by apply emit_returns in Hc as ->. }
  assert (Forall not_an_update l_m) as Hl_m.
  { assert (Hpred : ∀ (cls : model El → json → json → model El)
                      (l : list assembly_event) (m0 : model El),
      (did (Constructed (model_type d));;
       path ← lift (kwarg (arch_args d) "iframe_model_path");
       iframe_model ← match path with
                      | JStr p => relabel deeper (load_model fuel w p)
                      | JInt _ | JBool _ => raise OSError
                      | JNull | JFloat _ => raise TypeError
                      end;
       keyframe_interval ← lift (kwarg (arch_args d) "keyframe_interval");
       adaptation ← lift (kwarg (arch_args d) "adaptation");
       mret (cls iframe_model keyframe_interval adaptation)) = (l, Ok m0) →
      Forall not_an_update l).
    { intros mk l m1 Hp.
      invert_bind Hp as l_k v0 Hk. apply emit_returns in Hk as ->.
      invert_bind Hp as l_p path Hpath. apply lift_returns in Hpath as [_ ->].
      invert_bind Hp as l_i im Hi.
      invert_bind Hp as l_ki ki Hki. apply lift_returns in Hki as [_ ->].
      invert_bind Hp as l_ad ad Had. apply lift_returns in Had as [_ ->].
      apply ret_returns in Hp as [_ ->].
      apply Forall_app. split; [by repeat constructor|].
      rewrite !app_nil_l, !app_nil_r.
      destruct path; try done. apply relabel_Ok in Hi as (l0 & _ & ->).
      apply Forall_fmap, Forall_true. intros e. apply deeper_not_an_update. }
    destruct (bool_decide (model_type d = "IFrame")).
    - invert_bind Hm as l_k v0 Hk. apply emit_returns in Hk as ->.
      apply ret_returns in Hm as [_ ->]. by repeat constructor.
    - destruct (bool_decide (model_type d = "PFrame")); [by eapply Hpred|].
      destruct (bool_decide (model_type d = "PFrameWithMotion")); [by eapply Hpred|done]. }
  exists d, ([Assembly 0 (Opened (resolved_path w json_file))] ++ l_m),
    (load_state_dict (state_dicts w (checkpoint d)) 0 built).
  split; [done|]. split; [|split; [|done]].
  - unfold resolved_path. reflexivity.
  - apply Forall_app. split; [by repeat constructor|done].
Qed.

(** C6.  When [load_model] returns a model, the steps of that call end with
    the load of the checkpoint, [eval] and [update(force=True)], no other call
    of [update] belongs to it, and every entropy module of the model
    returned, the ones of an embedded [iframe_model] included, is calibrated. *)
Theorem load_model_updates_once (w : world El) (fuel : nat) (json_file : string)
    (log : list assembly_event) (m : model El) :
  load_model fuel w json_file = (log, Ok m) →
  (∃ d pre,
     files w !! resolved_path w json_file = Some d
     ∧ log = pre ++ [Assembly 0 (Torch_load (checkpoint d));
                     Assembly 0 (Load_state_dict (negb (String.prefix "PFrame" (model_type d))));
                     Assembly 0 Model_eval;
                     Assembly 0 (Model_update true)]
     ∧ Forall not_an_update pre)
  ∧ length (filter (fun s => is_update s = true) (own_steps log)) = 1
  ∧ Forall (fun md => is_calibrated md = true) (Instance.named_modules m).
Proof.
  intros H. destruct (load_model_returns _ _ _ _ _ H) as (d & pre & m0 & Hd & -> & Hpre & ->).
  split; [eauto 6|]. split; [|apply update_calibrates].
  unfold own_steps. rewrite filter_app, fmap_app, filter_app, length_app.
  assert (filter (fun s => is_update s = true)
            (what <$> filter (fun e => depth e = 0) pre) = []) as ->.
  { clear H. induction pre as [|e pre IH]; [done|].
    apply Forall_cons in Hpre as [He Hpre]. rewrite filter_cons.
    destruct (decide (depth e = 0)) as [H0|H0]; [|by apply IH].
    rewrite fmap_cons, filter_cons.
    destruct (decide (is_update (what e) = true)) as [Hf|_]; [|by apply IH].
    destruct (what e) eqn:Hwhat; try done. by destruct (He H0 force). }
  reflexivity.
Qed.

End LoaderFacts.

Section LoaderReturns.
Variable El : Type.
Import Loader Spec.

Lemma update_interval_of (m : model El) (t : option scale_table) (f q : bool) :
  interval_of (Instance.update m t f q).2 = interval_of m.
Proof.
  destruct m as [b|b im k a|b im k a]; cbn [Instance.update].
  - by destruct (Instance.update_base El f b).
  - destruct (Instance.update_base El f b). by destruct (Instance.update im _ f q).
  - destruct (Instance.update_base El f b). by destruct (Instance.update im _ f q).
Qed.

(** A predictive description with its three arguments, registered names, a
    checkpoint and a keyframe model that loads is assembled, whatever the
    value of [keyframe_interval]. *)
Lemma load_model_predictive_returns (w : world El) (fuel : nat) (json_file : string)
    (d : model_data) (path : string) (interval adaptation : json)
    (log_i : list assembly_event) (im : model El) :
  files w !! resolved_path w json_file = Some d →
  model_type d = "PFrame" ∨ model_type d = "PFrameWithMotion" →
  arch_args d !! "iframe_model_path" = Some (JStr path) →
  arch_args d !! "keyframe_interval" = Some interval →
  arch_args d !! "adaptation" = Some adaptation →
  resolves w d →
  checkpoint d ∈ checkpoints w →
  load_model fuel w path = (log_i, Ok im) →
  ∃ log m, load_model (S fuel) w json_file = (log, Ok m) ∧ interval_of m = Some interval.
Proof.
  intros Hfile Htype Hpath Hint Had (Henc & Hdec & Hw & Harch) Hckpt Him.
  unfold resolved_path in Hfile.
  cbn [load_model]. rewrite Hfile, bind_lift_Ok. unfold did. rewrite bind_emit.
  assert (String.prefix "PFrame" (model_type d) = true) as ->
    by (destruct Htype as [-> | ->]; reflexivity).
  rewrite check_pframe_args_present by (unfold has_pframe_args; rewrite Hpath, Hint, Had; eauto).
  rewrite bind_lift_Ok.
  destruct (registered (modules w) (encoder_class d)) as [cls|]; [|done].
  destruct (build_decoders w (md_decoders d)) as [ds|]; [|done].
  destruct (registered (architecture_method w) (architecture d)) as [arch|]; [|done].
  rewrite !bind_lift_Ok. rewrite (bool_decide_eq_true_2 _ Hw), bind_ret.
  rewrite (bool_decide_eq_true_2 _ Hckpt).
  unfold kwarg. rewrite Hpath, Hint, Had.
  assert (Hnested : relabel deeper (load_model fuel w path) = (deeper <$> log_i, Ok im))
    by (by rewrite Him).
  destruct Htype as [Ht|Ht]; rewrite Ht; simpl bool_decide; cbn iota;
    run_M; rewrite Hnested; run_M;
    eexists _, _; (split; [reflexivity|]); by rewrite update_interval_of.
Qed.

End LoaderReturns.



(** C6, witness: the load of [pframe.json], which nests the load of the
    keyframe model. *)
Lemma load_model_updates_once_witness :
  length (filter (fun s => Loader.is_update s = true)
            (Spec.own_steps (Examples.steps "pframe.json"))) = 1
  ∧ Forall (fun md => is_calibrated md = true)
      (Instance.named_modules (Examples.loaded "pframe.json")).
Proof.
  refine (proj2 (load_model_updates_once Z Examples.store 2 "pframe.json"
    (Examples.steps "pframe.json") (Examples.loaded "pframe.json") _)).
  vm_compute. reflexivity.
Defined.

(** ** Dictionaries and the loops over them *)
Section DictFacts.
Context {V : Type}.
Implicit Types (d : dict V) (k : string) (v : V).

Lemma dict_get_set_eq d k v : dict_get (dict_set d k v) k = Some v.
Proof.
  induction d as [|[k' v'] d IH]; simpl.
  - by rewrite bool_decide_eq_true_2.
  - case_bool_decide as Hk; simpl.
    + by rewrite bool_decide_eq_true_2.
    + by rewrite bool_decide_eq_false_2.
Qed.

Lemma dict_get_set_ne d k k' v : k ≠ k' → dict_get (dict_set d k v) k' = dict_get d k'.
Proof.
  intros Hne. induction d as [|[k0 v0] d IH]; simpl.
  - by rewrite bool_decide_eq_false_2.
  - case_bool_decide as Hk; simpl.
    + subst k0. by rewrite !bool_decide_eq_false_2.
    + case_bool_decide; [done|apply IH].
Qed.

Lemma dict_get_set d k k' v :
  dict_get (dict_set d k v) k' = if bool_decide (k = k') then Some v else dict_get d k'.
Proof.
  case_bool_decide as Hk; [subst; apply dict_get_set_eq|by apply dict_get_set_ne].
Qed.

Lemma dict_get_Some_keys d k v : dict_get d k = Some v → k ∈ dict_keys d.
Proof.
  induction d as [|[k' v'] d IH]; simpl; [done|].
  case_bool_decide as Hk; [subst; intros _; apply list_elem_of_here|].
  intros H. apply list_elem_of_further. by apply IH.
Qed.

Lemma dict_get_None_keys d k : dict_get d k = None ↔ k ∉ dict_keys d.
Proof.
  induction d as [|[k' v'] d IH]; simpl.
  - split; [intros _; apply not_elem_of_nil|done].
  - unfold dict_keys in *. rewrite not_elem_of_cons. simpl.
    case_bool_decide as Hk; [subst; split; [done|intros [? _]; done]|].
    rewrite IH. split; [intros ?; split; [congruence|done]|intros [_ ?]; done].
Qed.

Lemma dict_keys_set d k v :
  dict_keys (dict_set d k v) = if bool_decide (k ∈ dict_keys d) then dict_keys d
                               else dict_keys d ++ [k].
Proof.
  induction d as [|[k' v'] d IH]; [done|].
  cbn [dict_set]. destruct (decide (k' = k)) as [->|Hne].
  - rewrite bool_decide_eq_true_2 by done.
    change (dict_keys ((k, v') :: d)) with (k :: dict_keys d).
    rewrite bool_decide_eq_true_2; [done|apply list_elem_of_here].
  - rewrite bool_decide_eq_false_2 by done.
    change (dict_keys ((k', v') :: dict_set d k v)) with (k' :: dict_keys (dict_set d k v)).
    change (dict_keys ((k', v') :: d)) with (k' :: dict_keys d).
    rewrite IH. destruct (decide (k ∈ dict_keys d)) as [Hin|Hin].
    + rewrite !bool_decide_eq_true_2; [done|by apply list_elem_of_further|done].
    + rewrite !bool_decide_eq_false_2; [done| |done].
      rewrite not_elem_of_cons. split; [congruence|done].
Qed.

Lemma dict_set_NoDup d k v : NoDup (dict_keys d) → NoDup (dict_keys (dict_set d k v)).
Proof.
  intros Hd. rewrite dict_keys_set. case_bool_decide as Hin; [done|].
  apply NoDup_app. split; [done|]. split; [|apply NoDup_singleton].
  intros x Hx Hx'. apply list_elem_of_singleton in Hx'. by subst.
Qed.

(** In a dictionary without a repeated key, an item is what [dict_get] finds. *)
Lemma dict_get_elem_of d k v : NoDup (dict_keys d) → (k, v) ∈ d → dict_get d k = Some v.
Proof.
  induction d as [|[k' v'] d IH]; intros Hnd Hin; [by apply elem_of_nil in Hin|].
  unfold dict_keys in *. simpl in *. apply NoDup_cons in Hnd as [Hk' Hnd].
  apply elem_of_cons in Hin as [[= -> ->]|Hin].
  - by rewrite bool_decide_eq_true_2.
  - rewrite bool_decide_eq_false_2; [by apply IH|].
    intros ->. apply Hk'. apply list_elem_of_fmap. by exists (k, v).
Qed.

Lemma dict_get_Some_elem_of d k v : dict_get d k = Some v → (k, v) ∈ d.
Proof.
  induction d as [|[k' v'] d IH]; simpl; [done|].
  case_bool_decide as Hk.
  - intros [= ->]. subst. apply list_elem_of_here.
  - intros H. apply list_elem_of_further. by apply IH.
Qed.

End DictFacts.

(** ** Invariants of loops with a log *)
Section LoopInvariants.
Context {E : Type}.

(** An invariant of the items gone through, the state and the log, kept by
    every iteration that returns, holds when the loop returns. *)
Lemma for_each_inv {X S} (I : list X → S → list E → Prop)
    (xs : list X) (body : X → S → M E S) (s : S) :
  I [] s [] →
  (∀ done x rest s l lb s',
     xs = done ++ x :: rest → I done s l → body x s = (lb, Ok s') →
     I (done ++ [x]) s' (l ++ lb)) →
  ∀ l s', for_each xs body s = (l, Ok s') → I xs s' l.
Proof.
  intros Hinit Hstep.
  assert (Hgen : ∀ todo done s l0 l s',
    xs = done ++ todo → I done s l0 → for_each todo body s = (l, Ok s') →
    I xs s' (l0 ++ l)).
  { induction todo as [|x todo IH]; intros done t l0 l t' Hxs HI Hloop.
    - apply ret_returns in Hloop as [<- ->]. rewrite app_nil_r in *. by subst.
    - cbn [for_each] in Hloop. invert_bind Hloop as lb t1 Hb.
      rewrite app_assoc. eapply (IH (done ++ [x])); [|by eapply (Hstep done x todo)|done].
      by rewrite <- app_assoc. }
  intros l s' Hloop. by apply (Hgen xs [] s [] l s').
Qed.

(** A loop that returns went through every iteration. *)
Lemma for_each_app_returns {X S} (xs ys : list X) (body : X → S → M E S) (s : S) l s' :
  for_each (xs ++ ys) body s = (l, Ok s') →
  ∃ l1 s1 l2, for_each xs body s = (l1, Ok s1) ∧ for_each ys body s1 = (l2, Ok s')
              ∧ l = l1 ++ l2.
Proof.
  revert s l. induction xs as [|x xs IH]; intros s l Hloop.
  - by exists [], s, l.
  - cbn [app for_each] in Hloop. invert_bind Hloop as lb s1 Hb.
    destruct (IH _ _ Hloop) as (l1 & s2 & l2 & H1 & H2 & ->).
    exists (lb ++ l1), s2, l2. split; [|split; [done|by rewrite app_assoc]].
    cbn [for_each]. rewrite Hb, bind_Ok, H1. done.
Qed.

(** When every iteration that returns leaves an event of its own, the log of
    a loop that returns has one for every item. *)
Lemma for_each_emits {X S} (Q : X → E → Prop) (xs : list X) (body : X → S → M E S)
    (s : S) (l : list E) (s' : S) :
  (∀ x s lb s', body x s = (lb, Ok s') → ∃ e, e ∈ lb ∧ Q x e) →
  for_each xs body s = (l, Ok s') →
  ∀ x, x ∈ xs → ∃ e, e ∈ l ∧ Q x e.
Proof.
  intros Hbody Hloop.
  apply (for_each_inv (fun done _ l => ∀ x, x ∈ done → ∃ e, e ∈ l ∧ Q x e)
           xs body s) with (s' := s'); [| |done].
  - intros x Hx. by apply elem_of_nil in Hx.
  - intros done x rest t l0 lb t' _ HI Hb y Hy.
    apply elem_of_app in Hy as [Hy|Hy].
    + destruct (HI y Hy) as (e & He & HQ). exists e. split; [|done].
      apply elem_of_app. by left.
    + apply list_elem_of_singleton in Hy as ->.
      destruct (Hbody _ _ _ _ Hb) as (e & He & HQ). exists e. split; [|done].
      apply elem_of_app. by right.
Qed.

End LoopInvariants.

Section SequenceFacts.

Lemma enumerate_snoc {A} (l : list A) (x : A) :
  enumerate (l ++ [x]) = enumerate l ++ [(length l, x)].
Proof.
  unfold enumerate. rewrite length_app. simpl.
  rewrite seq_app. simpl. rewrite zip_with_app; [done|by rewrite length_seq].
Qed.

Lemma range_S (n : nat) : range (S n) = range n ++ [n].
Proof. unfold range. by rewrite seq_S. Qed.

Lemma range_split (n : nat) (done : list nat) (x : nat) (rest : list nat) :
  range n = done ++ x :: rest → done = range x ∧ x < n.
Proof.
  unfold range. intros H.
  assert (Hlen : length (done ++ x :: rest) = n) by by rewrite <- H, length_seq.
  rewrite length_app in Hlen. simpl in Hlen.
  assert (Hx : seq 0 n !! length done = Some x).
  { rewrite H. rewrite lookup_app_r by lia. by rewrite Nat.sub_diag. }
  apply lookup_seq in Hx as [Hx _]. simpl in Hx. subst x. split; [|lia].
  apply (f_equal (take (length done))) in H.
  rewrite take_app_length, take_seq, Nat.min_l in H by lia. done.
Qed.

Lemma enumerate_split {A} (l : list A) (done : list (nat * A)) (i : nat) (x : A)
    (rest : list (nat * A)) :
  enumerate l = done ++ (i, x) :: rest →
  done = enumerate (take i l) ∧ l !! i = Some x ∧ i = length done.
Proof.
  unfold enumerate. intros H.
  assert (Hi : zip (seq 0 (length l)) l !! length done = Some (i, x)).
  { rewrite H. rewrite lookup_app_r by lia. by rewrite Nat.sub_diag. }
  apply lookup_zip_with_Some in Hi as (j & y & [= -> ->] & Hj & Hy).
  apply lookup_seq in Hj as [Hj Hlt]. simpl in Hj. subst j.
  split; [|done].
  apply (f_equal (take (length done))) in H. rewrite take_app_length in H.
  rewrite zip_with_take, take_seq in H. apply lookup_lt_Some in Hy.
  rewrite Nat.min_l in H by lia. rewrite <- H at 1.
  by rewrite length_take, Nat.min_l by lia.
Qed.

Lemma snd_enumerate {A} (l : list A) : (enumerate l).*2 = l.
Proof. unfold enumerate. apply snd_zip. by rewrite length_seq. Qed.

(** The items of an enumeration of a list without repetition. *)
Lemma enumerate_split_NoDup {A} (l : list A) (done : list (nat * A)) (i : nat) (x : A)
    (rest : list (nat * A)) :
  NoDup l → enumerate l = done ++ (i, x) :: rest → x ∉ done.*2.
Proof.
  intros Hnd H. rewrite <- (snd_enumerate l), H, fmap_app in Hnd.
  apply NoDup_app in Hnd as (_ & Hnd & _). intros Hx. apply (Hnd x Hx).
  apply list_elem_of_here.
Qed.

End SequenceFacts.

(** ** The model classes: a keyframe interval of 0 *)
Section ZeroInterval.
Variable El : Type.
Import Spec.

Lemma compress_interval_0 (m : model El) (video : tensor El) (n : nat) :
  interval_of m = Some (JInt 0) → size_at video 1 = Ok (S n) →
  Instance.compress m video = ([], Raise ZeroDivisionError).
Proof.
  intros Hk Hn. destruct m as [b|b im k a|b im k a]; [done| |];
    injection Hk as ->; cbn [Instance.compress];
    unfold PFrameModel.compress, PFrameModelWithMotion.compress,
      PFrameModel.compress_with_adaptation, PFrameModel.compress_no_adaptation,
      PFrameModelWithMotion.compress_with_adaptation,
      PFrameModelWithMotion.compress_no_adaptation;
    rewrite Hn; destruct (truthy a); reflexivity.
Qed.

Lemma decompress_interval_0 (m : model El) (inp : pyval El) (inputs : list (pyval El)) :
  interval_of m = Some (JInt 0) →
  Instance.decompress m (inp :: inputs) = ([], Raise ZeroDivisionError).
Proof.
  intros Hk. destruct m as [b|b im k a|b im k a]; [done| |];
    injection Hk as ->; reflexivity.
Qed.

(** C9, as amended.  A PFrame or PFrameWithMotion description whose
    [keyframe_interval] is 0 is assembled like any other ([load_model] looks
    for the key, not at the value); on the model returned, every [compress] of
    a video with at least one frame and every [decompress] of at least one
    record raises [ZeroDivisionError] at frame index 0, before any collaborator
    is called. *)
Theorem zero_keyframe_interval_fails_at_first_frame (w : Loader.world El) (fuel : nat)
    (json_file : string) (d : Loader.model_data) (path : string) (adaptation : json)
    (log_i : list Loader.assembly_event) (im : model El) :
  Loader.files w !! resolved_path w json_file = Some d →
  Loader.model_type d = "PFrame" ∨ Loader.model_type d = "PFrameWithMotion" →
  Loader.arch_args d !! "iframe_model_path" = Some (JStr path) →
  Loader.arch_args d !! "keyframe_interval" = Some (JInt 0) →
  Loader.arch_args d !! "adaptation" = Some adaptation →
  resolves w d →
  Loader.checkpoint d ∈ Loader.checkpoints w →
  Loader.load_model fuel w path = (log_i, Ok im) →
  ∃ log m,
    Loader.load_model (S fuel) w json_file = (log, Ok m)
    ∧ (∀ (video : tensor El) (n : nat),
         size_at video 1 = Ok (S n) →
         Instance.compress m video = ([], Raise ZeroDivisionError))
    ∧ (∀ (inp : pyval El) (inputs : list (pyval El)),
         Instance.decompress m (inp :: inputs) = ([], Raise ZeroDivisionError)).
Proof.
  intros Hfile Htype Hpath Hint Had Hres Hckpt Him.
  destruct (load_model_predictive_returns El w fuel json_file d path (JInt 0) adaptation
              log_i im Hfile Htype Hpath Hint Had Hres Hckpt Him) as (log & m & Hload & Hk).
  exists log, m. split; [done|]. split.
  - intros video n Hn. by eapply compress_interval_0.
  - intros inp inputs. by apply decompress_interval_0.
Qed.

End ZeroInterval.

(** C9, witness: [zero.json] in the store of examples. *)
Lemma zero_keyframe_interval_fails_at_first_frame_witness :
  ∃ log m,
    Loader.load_model 2 Examples.store "zero.json" = (log, Ok m)
    ∧ (∀ (video : tensor Z) (n : nat),
         size_at video 1 = Ok (S n) →
         Instance.compress m video = ([], Raise ZeroDivisionError))
    ∧ (∀ (inp : pyval Z) (inputs : list (pyval Z)),
         Instance.decompress m (inp :: inputs) = ([], Raise ZeroDivisionError)).
Proof.
  refine (zero_keyframe_interval_fails_at_first_frame Z Examples.store 1 "zero.json"
    (Examples.description "PFrame" "WindowEncoder" "ResidualCodec" "p.pth"
       (Examples.predictive_args 0))
    "keyframe" (JBool true) (Loader.load_model 1 Examples.store "keyframe").1
    (match (Loader.load_model 1 Examples.store "keyframe").2 with
     | Ok m => m | Raise _ => Examples.iframe end) _ _ _ _ _ _ _ _).
  - vm_compute. reflexivity.
  - left. reflexivity.
  - vm_compute. reflexivity.
  - vm_compute. reflexivity.
  - vm_compute. reflexivity.
  - repeat split; vm_compute; reflexivity.
  - vm_compute. reflexivity.
  - vm_compute. reflexivity.
Defined.

(** C9, counterexample: on the model assembled from [zero.json], [compress]
    of a video without frames returns; no modulo is evaluated. *)
Lemma zero_keyframe_interval_empty_video :
  Spec.interval_of (Examples.loaded "zero.json") = Some (JInt 0)
  ∧ Loader.load_model 2 Examples.store "zero.json"
    = (Examples.steps "zero.json", Ok (Examples.loaded "zero.json"))
  ∧ Instance.compress (Examples.loaded "zero.json") Examples.empty_video
    = ([], Ok [("vc", []); ("vsr", [])]).
Proof. repeat split; vm_compute; reflexivity. Qed.

(** ** The events of the model classes *)

(** Break the log of a computation into the logs of its parts. *)
Ltac log_step :=
  lazymatch goal with
  | |- Forall _ (fst (mbind _ _)) => apply bind_log_Forall; [|intros ? _]
  | |- Forall _ (fst (lift _)) => apply Forall_nil_2
  | |- Forall _ (fst (mret _)) => apply Forall_nil_2
  | |- Forall _ (fst (raise _)) => apply Forall_nil_2
  | |- Forall _ (fst (decoder_of _ _)) => apply Forall_nil_2
  | |- Forall _ (fst (call _ _ _)) => apply Forall_singleton
  | |- Forall _ (fst (for_each _ _ _)) => apply for_each_log_Forall; intros ? ? _; cbn beta
  | |- Forall _ (fst (if ?b then _ else _)) => destruct b
  | |- Forall _ (fst (match ?x with _ => _ end)) => destruct x
  | |- Forall _ (fst ((match ?x with _ => _ end) _)) => destruct x; cbn beta iota
  end.

Section Owners.
Variable El : Type.
Import Spec.

Lemma compress_one_owned (self : BaseModel El) (inp : pyval El) :
  Forall (owned Self) (IFrameModel.compress_one self inp).1.
Proof. unfold IFrameModel.compress_one. repeat log_step; reflexivity. Qed.

Lemma decompress_one_owned (self : BaseModel El) (inputs : pyval El) :
  Forall (owned Self) (IFrameModel.decompress_one self inputs).1.
Proof. unfold IFrameModel.decompress_one. repeat log_step; reflexivity. Qed.

Lemma relabel_owned {A} (m : M (event El) A) :
  Forall (owned Iframe_model) (relabel of_iframe_model m).1.
Proof. by apply relabel_log_Forall. Qed.

Lemma iframe_compress_one_owned (im : model El) (inp : pyval El) :
  Forall (owned Iframe_model) (PFrameModel.iframe_compress_one im inp).1.
Proof. destruct im; try apply Forall_nil_2. apply relabel_owned. Qed.

Lemma iframe_decompress_one_owned (im : model El) (inputs : result (pyval El)) :
  Forall (owned Iframe_model) (PFrameModel.iframe_decompress_one im inputs).1.
Proof.
  destruct im; try apply Forall_nil_2. cbn [PFrameModel.iframe_decompress_one].
  repeat log_step. apply relabel_owned.
Qed.

Lemma adapt_tasks_owned (self : BaseModel El) (s_rep : pyval El)
    (st : dict (list (pyval El)) * pyval El) :
  Forall (owned Self) (adapt_tasks self s_rep st).1.
Proof. unfold adapt_tasks. repeat log_step; reflexivity. Qed.

Lemma plain_tasks_owned (self : BaseModel El) (s_rep : pyval El)
    (out : dict (list (pyval El))) :
  Forall (owned Self) (plain_tasks self s_rep out).1.
Proof. unfold plain_tasks. repeat log_step; reflexivity. Qed.

Lemma is_keyframe_int (i : nat) (k : Z) :
  k ≠ 0%Z → is_keyframe i (JInt k) = Ok (Z.of_nat i mod k =? 0)%Z.
Proof.
  intros Hk. unfold is_keyframe, py_mod.
  destruct (Z.eqb_spec k 0) as [?|_]; [done|reflexivity].
Qed.

Lemma routed_keyframe (i : nat) (k : Z) (e : event El) :
  (Z.of_nat i mod k = 0)%Z → owned Iframe_model e → routed_at i k e.
Proof.
  intros Hi He p. unfold path_of. rewrite He. intros [= <-]. done.
Qed.

Lemma routed_predicted (i : nat) (k : Z) (e : event El) :
  (Z.of_nat i mod k ≠ 0)%Z → owned Self e → routed_at i k e.
Proof.
  intros Hi He p. unfold path_of. rewrite He.
  destruct (ev_callee e); intros [= <-]; done.
Qed.

Lemma routed_extract_feats (i : nat) (k : Z) (args : list (pyval El)) :
  routed_at i k (Event 0 Self encoder_extract_feats args).
Proof. intros p. done. Qed.

End Owners.

(** The logs of the methods whose events all have one owner. *)
Ltac log_known :=
  eapply Forall_impl;
  [first [apply iframe_compress_one_owned | apply iframe_decompress_one_owned
         | apply adapt_tasks_owned | apply plain_tasks_owned]
  |intros ? ?].

Section Routing.
Variable El : Type.
Import Spec.

Ltac frame_routed :=
  intros Hk; rewrite is_keyframe_int by done; rewrite bind_lift_Ok;
  match goal with
  | |- context [(?a mod ?b =? 0)%Z] => destruct (Z.eqb_spec (a mod b) 0) as [Hi|Hi]
  end;
  repeat first [log_step | log_known];
  first [by apply routed_extract_feats | by apply routed_keyframe | by apply routed_predicted].

Lemma adapt_frame_routed (self : BaseModel El) (im : model El) (k : Z) (video : tensor El)
    (i : nat) (st : dict (list (pyval El)) * pyval El) :
  k ≠ 0%Z → Forall (routed_at i k) (PFrameModel.adapt_frame self im (JInt k) video i st).1.
Proof. unfold PFrameModel.adapt_frame. destruct st. frame_routed. Qed.

Lemma plain_frame_routed (self : BaseModel El) (im : model El) (k : Z) (video : tensor El)
    (i : nat) (out : dict (list (pyval El))) :
  k ≠ 0%Z → Forall (routed_at i k) (PFrameModel.plain_frame self im (JInt k) video i out).1.
Proof. unfold PFrameModel.plain_frame. frame_routed. Qed.

Lemma decompress_frame_routed (self : BaseModel El) (im : model El) (k : Z)
    (i : nat) (inp : pyval El) (st : list (pyval El) * pyval El) :
  k ≠ 0%Z → Forall (routed_at i k) (PFrameModel.decompress_frame self im (JInt k) i inp st).1.
Proof. unfold PFrameModel.decompress_frame. destruct st. frame_routed. Qed.

Lemma motion_adapt_frame_routed (self : BaseModel El) (im : model El) (k : Z)
    (video : tensor El) (i : nat) (st : dict (list (pyval El)) * pyval El) :
  k ≠ 0%Z →
  Forall (routed_at i k) (PFrameModelWithMotion.adapt_frame self im (JInt k) video i st).1.
Proof. unfold PFrameModelWithMotion.adapt_frame. destruct st. frame_routed. Qed.

Lemma motion_plain_frame_routed (self : BaseModel El) (im : model El) (k : Z)
    (video : tensor El) (i : nat) (out : dict (list (pyval El))) :
  k ≠ 0%Z →
  Forall (routed_at i k) (PFrameModelWithMotion.plain_frame self im (JInt k) video i out).1.
Proof. unfold PFrameModelWithMotion.plain_frame. frame_routed. Qed.

Lemma motion_decompress_frame_routed (self : BaseModel El) (im : model El) (k : Z)
    (i : nat) (inp : pyval El) (st : list (pyval El) * pyval El) :
  k ≠ 0%Z →
  Forall (routed_at i k)
    (PFrameModelWithMotion.decompress_frame self im (JInt k) i inp st).1.
Proof. unfold PFrameModelWithMotion.decompress_frame. destruct st. frame_routed. Qed.

Lemma relabel_routed {A} (m : M (event El) A) (i : nat) (k : Z) :
  Forall (routed_at i k) m.1 → Forall (routed_by k) (relabel (at_frame i) m).1.
Proof.
  intros Hm. unfold relabel. cbn [fst]. apply Forall_fmap.
  eapply Forall_impl; [exact Hm|]. intros e He. exact He.
Qed.

(** *** Every frame takes a branch *)

Lemma call_returns (c : callee) (f : Value.method El) (args : list (pyval El))
    (l : list (event El)) (v : pyval El) :
  call c f args = (l, Ok v) → l = [Event 0 Self c args] ∧ v = f args.
Proof. unfold call. by intros [= <- <-]. Qed.

Lemma compress_one_emits (self : BaseModel El) (inp : pyval El) l results :
  IFrameModel.compress_one self inp = (l, Ok results) → ∃ e, e ∈ l.
Proof.
  unfold IFrameModel.compress_one. intros H.
  eapply (bind_emits_l (fun _ => True)) in H as (e & He & _); [by exists e|].
  intros l1 a [-> _]%call_returns. eexists. split; [apply list_elem_of_here|done].
Qed.

Lemma decompress_one_emits (self : BaseModel El) (inputs : pyval El) l v :
  IFrameModel.decompress_one self inputs = (l, Ok v) → ∃ e, e ∈ l.
Proof.
  unfold IFrameModel.decompress_one. intros H.
  invert_bind H as l1 d Hd. invert_bind H as l2 args Hargs.
  apply call_returns in H as [-> _]. eexists.
  apply elem_of_app. right. apply elem_of_app. right. apply list_elem_of_here.
Qed.

Lemma iframe_compress_one_emits (im : model El) (inp : pyval El) l results :
  PFrameModel.iframe_compress_one im inp = (l, Ok results) →
  ∃ e, e ∈ l ∧ on_path Keyframe_path e.
Proof.
  intros H. pose proof (iframe_compress_one_owned El im inp) as Hown.
  rewrite H in Hown. cbn [fst] in Hown.
  destruct im as [b| |]; try done. cbn [PFrameModel.iframe_compress_one] in H.
  apply relabel_Ok in H as (l0 & H & ->).
  apply compress_one_emits in H as [e He].
  exists (of_iframe_model e). split; [by apply list_elem_of_fmap_2|done].
Qed.

Lemma iframe_decompress_one_emits (im : model El) (inputs : result (pyval El)) l v :
  PFrameModel.iframe_decompress_one im inputs = (l, Ok v) →
  ∃ e, e ∈ l ∧ on_path Keyframe_path e.
Proof.
  intros H. destruct im as [b| |]; try done. cbn [PFrameModel.iframe_decompress_one] in H.
  invert_bind H as l1 x Hx. apply relabel_Ok in H as (l0 & H & ->).
  apply decompress_one_emits in H as [e He].
  exists (of_iframe_model e). split; [|done].
  apply elem_of_app. right. by apply list_elem_of_fmap_2.
Qed.

(** Go to the part after the first bind, or to the first part. *)
Ltac emits_after H :=
  let a := fresh "a" in let l := fresh "l" in
  apply (bind_emits_r _ _ _ _ _ H); clear H; intros a l H.
Ltac emits_first H :=
  let a := fresh "a" in let l := fresh "l" in
  apply (bind_emits_l _ _ _ _ _ H); clear H; intros l a H.
Ltac emits_done H :=
  first
    [ apply iframe_compress_one_emits in H as (? & ? & ?); eexists; split; [eassumption|];
      by eexists
    | apply iframe_decompress_one_emits in H as (? & ? & ?); eexists; split; [eassumption|];
      by eexists
    | apply call_returns in H as [-> _]; eexists; split; [apply list_elem_of_here|];
      by eexists ].
Ltac frame_emits H :=
  rewrite is_keyframe_int, bind_lift_Ok in H by done;
  match type of H with
  | context [(?a mod ?b =? 0)%Z] => destruct (a mod b =? 0)%Z
  end.

Lemma adapt_frame_emits (self : BaseModel El) (im : model El) (k : Z) (video : tensor El)
    (i : nat) st lb st' :
  k ≠ 0%Z → PFrameModel.adapt_frame self im (JInt k) video i st = (lb, Ok st') →
  ∃ e, e ∈ lb ∧ takes_a_path e.
Proof.
  intros Hk H. unfold PFrameModel.adapt_frame in H. destruct st. frame_emits H.
  - emits_after H. emits_first H. emits_done H.
  - emits_after H. emits_first H. emits_done H.
Qed.

Lemma plain_frame_emits (self : BaseModel El) (im : model El) (k : Z) (video : tensor El)
    (i : nat) out lb out' :
  k ≠ 0%Z → PFrameModel.plain_frame self im (JInt k) video i out = (lb, Ok out') →
  ∃ e, e ∈ lb ∧ takes_a_path e.
Proof.
  intros Hk H. unfold PFrameModel.plain_frame in H. frame_emits H.
  - emits_after H. emits_first H. emits_done H.
  - emits_after H. emits_first H. emits_done H.
Qed.

Lemma decompress_frame_emits (self : BaseModel El) (im : model El) (k : Z)
    (i : nat) (inp : pyval El) st lb st' :
  k ≠ 0%Z → PFrameModel.decompress_frame self im (JInt k) i inp st = (lb, Ok st') →
  ∃ e, e ∈ lb ∧ takes_a_path e.
Proof.
  intros Hk H. unfold PFrameModel.decompress_frame in H. destruct st. frame_emits H.
  - emits_first H. emits_done H.
  - emits_first H. do 4 emits_after H. emits_done H.
Qed.

Lemma motion_adapt_frame_emits (self : BaseModel El) (im : model El) (k : Z)
    (video : tensor El) (i : nat) st lb st' :
  k ≠ 0%Z → PFrameModelWithMotion.adapt_frame self im (JInt k) video i st = (lb, Ok st') →
  ∃ e, e ∈ lb ∧ takes_a_path e.
Proof.
  intros Hk H. unfold PFrameModelWithMotion.adapt_frame in H. destruct st. frame_emits H.
  - emits_after H. emits_first H. emits_done H.
  - emits_after H. emits_first H. emits_done H.
Qed.

Lemma motion_plain_frame_emits (self : BaseModel El) (im : model El) (k : Z)
    (video : tensor El) (i : nat) out lb out' :
  k ≠ 0%Z → PFrameModelWithMotion.plain_frame self im (JInt k) video i out = (lb, Ok out') →
  ∃ e, e ∈ lb ∧ takes_a_path e.
Proof.
  intros Hk H. unfold PFrameModelWithMotion.plain_frame in H. frame_emits H.
  - emits_after H. emits_first H. emits_done H.
  - emits_after H. emits_first H. emits_done H.
Qed.

Lemma motion_decompress_frame_emits (self : BaseModel El) (im : model El) (k : Z)
    (i : nat) (inp : pyval El) st lb st' :
  k ≠ 0%Z →
  PFrameModelWithMotion.decompress_frame self im (JInt k) i inp st = (lb, Ok st') →
  ∃ e, e ∈ lb ∧ takes_a_path e.
Proof.
  intros Hk H. unfold PFrameModelWithMotion.decompress_frame in H. destruct st. frame_emits H.
  - emits_first H. emits_done H.
  - emits_first H. do 2 emits_after H. emits_first H. emits_done H.
Qed.

Lemma relabel_emits {A} (m : M (event El) A) (i : nat) lb (a : A) :
  relabel (at_frame i) m = (lb, Ok a) →
  (∀ l0, m = (l0, Ok a) → ∃ e, e ∈ l0 ∧ takes_a_path e) →
  ∃ e, e ∈ lb ∧ ev_frame e = i ∧ takes_a_path e.
Proof.
  intros H Hm. apply relabel_Ok in H as (l0 & H & ->).
  destruct (Hm l0 H) as (e & He & Hp). exists (at_frame i e).
  split; [by apply list_elem_of_fmap_2|]. split; [done|exact Hp].
Qed.

(** *** The loops *)

Lemma compress_routed (m : model El) (k : Z) (video : tensor El) :
  interval_of m = Some (JInt k) → k ≠ 0%Z →
  Forall (routed_by k) (Instance.compress m video).1.
Proof.
  intros Hm Hk. destruct m as [b|b im k' a|b im k' a]; [done| |]; injection Hm as ->;
    cbn [Instance.compress];
    unfold PFrameModel.compress, PFrameModelWithMotion.compress,
      PFrameModel.compress_with_adaptation, PFrameModel.compress_no_adaptation,
      PFrameModelWithMotion.compress_with_adaptation,
      PFrameModelWithMotion.compress_no_adaptation;
    destruct (truthy a); repeat log_step; apply relabel_routed;
    auto using adapt_frame_routed, plain_frame_routed, motion_adapt_frame_routed,
      motion_plain_frame_routed.
Qed.

Lemma decompress_routed (m : model El) (k : Z) (inputs : list (pyval El)) :
  interval_of m = Some (JInt k) → k ≠ 0%Z →
  Forall (routed_by k) (Instance.decompress m inputs).1.
Proof.
  intros Hm Hk. destruct m as [b|b im k' a|b im k' a]; [done| |]; injection Hm as ->;
    cbn [Instance.decompress];
    unfold PFrameModel.decompress, PFrameModelWithMotion.decompress;
    repeat log_step; apply relabel_routed;
    auto using decompress_frame_routed, motion_decompress_frame_routed.
Qed.

Lemma compress_covers (m : model El) (k : Z) (video : tensor El) (n : nat) log out :
  interval_of m = Some (JInt k) → k ≠ 0%Z →
  size_at video 1 = Ok n → Instance.compress m video = (log, Ok out) → covers log n.
Proof.
  intros Hm Hk Hn H i Hi. apply elem_of_range in Hi.
  destruct m as [b|b im k' a|b im k' a]; [done| |]; injection Hm as ->;
    cbn [Instance.compress] in H;
    unfold PFrameModel.compress, PFrameModelWithMotion.compress,
      PFrameModel.compress_with_adaptation, PFrameModel.compress_no_adaptation,
      PFrameModelWithMotion.compress_with_adaptation,
      PFrameModelWithMotion.compress_no_adaptation in H;
    destruct (truthy a); rewrite Hn, bind_lift_Ok in H;
    try (invert_bind H as l st Hloop; apply ret_returns in H as [_ ->];
         rewrite app_nil_r; rename Hloop into H);
    (eapply (for_each_emits (fun x e => ev_frame e = x ∧ takes_a_path e)); [|exact H|exact Hi]);
    intros x s lb s' Hb; (eapply relabel_emits; [exact Hb|]); intros l0 H0;
    eauto using adapt_frame_emits, plain_frame_emits, motion_adapt_frame_emits,
      motion_plain_frame_emits.
Qed.

Lemma decompress_covers (m : model El) (k : Z) (inputs : list (pyval El)) log t :
  interval_of m = Some (JInt k) → k ≠ 0%Z →
  Instance.decompress m inputs = (log, Ok t) → covers log (length inputs).
Proof.
  intros Hm Hk H i Hi.
  destruct (lookup_lt_is_Some_2 inputs i Hi) as [inp Hinp].
  assert (Hin : (i, inp) ∈ enumerate inputs).
  { unfold enumerate. apply list_elem_of_lookup. exists i.
    apply lookup_zip_with_Some. exists i, inp. split; [done|]. split; [|done].
    by apply lookup_seq. }
  destruct m as [b|b im k' a|b im k' a]; [done| |]; injection Hm as ->;
    cbn [Instance.decompress] in H;
    unfold PFrameModel.decompress, PFrameModelWithMotion.decompress in H;
    invert_bind H as l st Hloop; apply lift_returns in H as [_ ->]; rewrite app_nil_r;
    change (∃ e, e ∈ l ∧ (fun (x : nat * pyval El) e => ev_frame e = x.1 ∧ takes_a_path e)
                           (i, inp) e);
    (eapply for_each_emits; [|exact Hloop|exact Hin]);
    intros [j x] s lb s' Hb; (eapply relabel_emits; [exact Hb|]); intros l0 H0;
    eauto using decompress_frame_emits, motion_decompress_frame_emits.
Qed.

Lemma routed_first_or_every (k : Z) (e : event El) :
  routed_by k e → takes_a_path e → ev_frame e = 0 ∨ k = 1%Z → on_path Keyframe_path e.
Proof.
  intros Hr [p Hp] Hcase. unfold on_path. rewrite Hp. f_equal.
  apply (Hr p Hp). destruct Hcase as [-> | ->]; [done|apply Z.mod_1_r].
Qed.

(** A frame that took a branch in a log all of whose events are routed by
    their index took the branch of its index. *)
Lemma covered_takes_path (k : Z) (log : list (event El)) (n i : nat) :
  Forall (routed_by k) log → covers log n → i < n → takes_path log i (path_at k i).
Proof.
  intros Hall Hcov Hi. rewrite Forall_forall in Hall.
  assert (Hon : ∀ e, e ∈ log → ev_frame e = i → takes_a_path e →
            on_path (path_at k i) e).
  { intros e He Hf [p Hp]. specialize (Hall e He p Hp). unfold routed_by in Hall.
    rewrite Hf in Hall. unfold on_path, path_at. rewrite Hp. f_equal.
    destruct (Z.eqb_spec (Z.of_nat i mod k) 0) as [Hz|Hz].
    - by apply Hall.
    - destruct p; [|done]. by destruct Hz; apply Hall. }
  split; [|exact Hon]. destruct (Hcov i Hi) as (e & He & Hf & Hp). exists e. auto.
Qed.

Lemma path_at_first (k : Z) : path_at k 0 = Keyframe_path.
Proof. unfold path_at. by rewrite Zmod_0_l. Qed.

Lemma path_at_every (i : nat) : path_at 1 i = Keyframe_path.
Proof. unfold path_at. by rewrite Z.mod_1_r. Qed.

Lemma decompress_returns_nonempty (m : model El) (inputs : list (pyval El)) log t :
  Instance.decompress m inputs = (log, Ok t) → 0 < length inputs.
Proof. destruct inputs; [by destruct m|cbn; lia]. Qed.

(** *** The first frame *)

Lemma is_keyframe_first (k : Z) : k ≠ 0%Z → is_keyframe 0 (JInt k) = Ok true.
Proof. intros Hk. rewrite is_keyframe_int by done. cbn. by rewrite Zmod_0_l. Qed.

Lemma iframe_decompress_one_calls (b : BaseModel El) (x : pyval El) (d : decoder El)
    (args : list (pyval El)) :
  lookup_key (decoders b) "vc" = Ok d → py_iter x = Ok args →
  PFrameModel.iframe_decompress_one (IFrame b) (Ok x)
  = ([Event 0 Iframe_model (decoder_decompress "vc") args], Ok (dec_decompress d args)).
Proof.
  intros Hd Hargs. cbn [PFrameModel.iframe_decompress_one]. rewrite bind_lift_Ok.
  unfold IFrameModel.decompress_one, decoder_of.
  by rewrite Hd, bind_lift_Ok, Hargs, bind_lift_Ok.
Qed.

(** The first record is decoded by the compression head of the keyframe
    model, whatever follows. *)
Lemma decompress_first_record (m : model El) (k : Z) (b : BaseModel El)
    (inp x : pyval El) (inputs : list (pyval El)) (d : decoder El)
    (args : list (pyval El)) :
  interval_of m = Some (JInt k) → k ≠ 0%Z → iframe_model_of m = Some (IFrame b) →
  py_getitem inp 0 = Ok x → lookup_key (decoders b) "vc" = Ok d → py_iter x = Ok args →
  Event 0 Iframe_model (decoder_decompress "vc") args
  ∈ (Instance.decompress m (inp :: inputs)).1.
Proof.
  intros Hm Hk Him Hx Hd Hargs.
  destruct m as [self|self im k' a|self im k' a]; [done| |];
    injection Hm as ->; injection Him as ->; cbn [Instance.decompress];
    unfold PFrameModel.decompress, PFrameModelWithMotion.decompress, enumerate;
    cbn [length seq zip zip_with for_each];
    apply bind_log_l, bind_log_l; unfold relabel; cbn [fst];
    apply (list_elem_of_fmap_2' (at_frame 0) _
             (Event 0 Iframe_model (decoder_decompress "vc") args)); [|done| |done];
    unfold PFrameModel.decompress_frame, PFrameModelWithMotion.decompress_frame;
    rewrite (is_keyframe_first k Hk), bind_lift_Ok, Hx;
    apply bind_log_l; rewrite (iframe_decompress_one_calls b x d args Hd Hargs);
    apply list_elem_of_here.
Qed.

(** The first frame goes to the encoder of the keyframe model, whatever
    follows. *)
Lemma compress_first_frame (m : model El) (k : Z) (b : BaseModel El)
    (video w : tensor El) (n : nat) :
  interval_of m = Some (JInt k) → k ≠ 0%Z → iframe_model_of m = Some (IFrame b) →
  size_at video 1 = Ok (S n) → narrow1 video (Z.of_nat 0) (Z.of_nat 0 + 1) = Ok w →
  Event 0 Iframe_model encoder_forward [PTensor w] ∈ (Instance.compress m video).1.
Proof.
  intros Hm Hk Him Hn Hw.
  destruct m as [self|self im k' a|self im k' a]; [done| |];
    injection Hm as ->; injection Him as ->; cbn [Instance.compress];
    unfold PFrameModel.compress, PFrameModelWithMotion.compress,
      PFrameModel.compress_with_adaptation, PFrameModel.compress_no_adaptation,
      PFrameModelWithMotion.compress_with_adaptation,
      PFrameModelWithMotion.compress_no_adaptation;
    destruct (truthy a); rewrite Hn, bind_lift_Ok; unfold range; cbn [seq for_each];
    repeat apply bind_log_l; unfold relabel; cbn [fst];
    apply (list_elem_of_fmap_2' (at_frame 0) _
             (Event 0 Iframe_model encoder_forward [PTensor w]));
    try done;
    unfold PFrameModel.adapt_frame, PFrameModel.plain_frame,
      PFrameModelWithMotion.adapt_frame, PFrameModelWithMotion.plain_frame;
    rewrite (is_keyframe_first k Hk), bind_lift_Ok, Hw, bind_lift_Ok;
    apply bind_log_l; cbn [PFrameModel.iframe_compress_one]; unfold relabel; cbn [fst];
    apply (list_elem_of_fmap_2' of_iframe_model _
             (Event 0 Self encoder_forward [PTensor w])); try done;
    unfold IFrameModel.compress_one; apply bind_log_l; apply list_elem_of_here.
Qed.

(** C2.  For a predictive model with keyframe interval k, k at least 1, a
    [compress] that returns on a video with at least one frame and a
    [decompress] that returns: every frame index of the video and every index
    of the records takes a branch, the keyframe branch (calls on the embedded
    [iframe_model]) exactly when i mod k is 0 and the predicted branch (calls
    on the model's own encoder and decoders) otherwise; so frame 0 takes the
    keyframe branch, and with k = 1 every frame does.  In a call that raises,
    the events made before are routed in the same way; and whatever the call
    ends with, the first frame of a video is given to the encoder of the
    keyframe model and the first record to its compression head. *)
Theorem keyframe_routing (m : model El) (k : Z) (video : tensor El) (n : nat)
    (elog : list (event El)) (out : dict (list (pyval El)))
    (inputs : list (pyval El)) (dlog : list (event El)) (t : tensor El) :
  interval_of m = Some (JInt k) → (1 ≤ k)%Z →
  size_at video 1 = Ok n → 1 ≤ n →
  Instance.compress m video = (elog, Ok out) →
  Instance.decompress m inputs = (dlog, Ok t) →
  (∀ i, i < n → takes_path elog i (path_at k i))
  ∧ (∀ i, i < length inputs → takes_path dlog i (path_at k i))
  ∧ takes_path elog 0 Keyframe_path
  ∧ takes_path dlog 0 Keyframe_path
  ∧ (k = 1%Z →
       (∀ i, i < n → takes_path elog i Keyframe_path)
       ∧ (∀ i, i < length inputs → takes_path dlog i Keyframe_path))
  ∧ (∀ video', Forall (routed_by k) (Instance.compress m video').1)
  ∧ (∀ inputs', Forall (routed_by k) (Instance.decompress m inputs').1)
  ∧ (∀ b video' n' w,
       iframe_model_of m = Some (IFrame b) → size_at video' 1 = Ok (S n') →
       narrow1 video' (Z.of_nat 0) (Z.of_nat 0 + 1) = Ok w →
       Event 0 Iframe_model encoder_forward [PTensor w] ∈ (Instance.compress m video').1)
  ∧ (∀ b inp inputs' x d args,
       iframe_model_of m = Some (IFrame b) → py_getitem inp 0 = Ok x →
       lookup_key (decoders b) "vc" = Ok d → py_iter x = Ok args →
       Event 0 Iframe_model (decoder_decompress "vc") args
       ∈ (Instance.decompress m (inp :: inputs')).1).
Proof.
  intros Hm Hk Hn Hn1 He Hd. assert (k ≠ 0%Z) as Hk0 by lia.
  pose proof (compress_routed m k video Hm Hk0) as Her. rewrite He in Her.
  pose proof (decompress_routed m k inputs Hm Hk0) as Hdr. rewrite Hd in Hdr.
  cbn [fst] in Her, Hdr.
  pose proof (compress_covers m k video n elog out Hm Hk0 Hn He) as Hec.
  pose proof (decompress_covers m k inputs dlog t Hm Hk0 Hd) as Hdc.
  pose proof (decompress_returns_nonempty m inputs dlog t Hd) as Hlen.
  assert (Hea : ∀ i, i < n → takes_path elog i (path_at k i))
    by (intros i Hi; by apply (covered_takes_path k elog n)).
  assert (Hda : ∀ i, i < length inputs → takes_path dlog i (path_at k i))
    by (intros i Hi; by apply (covered_takes_path k dlog (length inputs))).
  split; [done|]. split; [done|].
  split; [rewrite <- (path_at_first k); apply Hea; lia|].
  split; [rewrite <- (path_at_first k); apply Hda; lia|].
  split.
  - intros ->. split; intros i Hi; rewrite <- (path_at_every i); auto.
  - split; [intros video'; by apply compress_routed|].
    split; [intros inputs'; by apply decompress_routed|]. split.
    + intros b video' n' w. by apply (compress_first_frame m k).
    + intros b inp inputs' x d args. by apply (decompress_first_record m k).
Qed.

End Routing.

(** C2, witness: the two predictive models of the examples, with interval 2,
    each on a video of four frames and on the four records it makes of it. *)
Lemma keyframe_routing_witness :
  (let m := Examples.pframe 2 true in
   let elog := (Instance.compress m Examples.video).1 in
   let dlog := (Instance.decompress m MoreExamples.vc_records).1 in
   (∀ i, i < 4 → Spec.takes_path elog i (Spec.path_at 2 i))
   ∧ (∀ i, i < length MoreExamples.vc_records → Spec.takes_path dlog i (Spec.path_at 2 i))
   ∧ Spec.takes_path elog 0 Spec.Keyframe_path
   ∧ Spec.takes_path dlog 0 Spec.Keyframe_path
   ∧ (2%Z = 1%Z →
        (∀ i, i < 4 → Spec.takes_path elog i Spec.Keyframe_path)
        ∧ (∀ i, i < length MoreExamples.vc_records →
             Spec.takes_path dlog i Spec.Keyframe_path))
   ∧ (∀ video', Forall (Spec.routed_by 2) (Instance.compress m video').1)
   ∧ (∀ inputs', Forall (Spec.routed_by 2) (Instance.decompress m inputs').1)
   ∧ (∀ b video' n' w,
        Spec.iframe_model_of m = Some (IFrame b) → size_at video' 1 = Ok (S n') →
        narrow1 video' (Z.of_nat 0) (Z.of_nat 0 + 1) = Ok w →
        Event 0 Iframe_model encoder_forward [PTensor w] ∈ (Instance.compress m video').1)
   ∧ (∀ b inp inputs' x d args,
        Spec.iframe_model_of m = Some (IFrame b) → py_getitem inp 0 = Ok x →
        lookup_key (decoders b) "vc" = Ok d → py_iter x = Ok args →
        Event 0 Iframe_model (decoder_decompress "vc") args
        ∈ (Instance.decompress m (inp :: inputs')).1))
  ∧ (let m := Examples.pframe_with_motion 2 false in
     let elog := (Instance.compress m Examples.video).1 in
     let dlog := (Instance.decompress m MoreExamples.motion_vc_records).1 in
     (∀ i, i < 4 → Spec.takes_path elog i (Spec.path_at 2 i))
     ∧ (∀ i, i < length MoreExamples.motion_vc_records →
          Spec.takes_path dlog i (Spec.path_at 2 i))
     ∧ Spec.takes_path elog 0 Spec.Keyframe_path
     ∧ Spec.takes_path dlog 0 Spec.Keyframe_path
     ∧ (2%Z = 1%Z →
          (∀ i, i < 4 → Spec.takes_path elog i Spec.Keyframe_path)
          ∧ (∀ i, i < length MoreExamples.motion_vc_records →
               Spec.takes_path dlog i Spec.Keyframe_path))
     ∧ (∀ video', Forall (Spec.routed_by 2) (Instance.compress m video').1)
     ∧ (∀ inputs', Forall (Spec.routed_by 2) (Instance.decompress m inputs').1)
     ∧ (∀ b video' n' w,
          Spec.iframe_model_of m = Some (IFrame b) → size_at video' 1 = Ok (S n') →
          narrow1 video' (Z.of_nat 0) (Z.of_nat 0 + 1) = Ok w →
          Event 0 Iframe_model encoder_forward [PTensor w]
          ∈ (Instance.compress m video').1)
     ∧ (∀ b inp inputs' x d args,
          Spec.iframe_model_of m = Some (IFrame b) → py_getitem inp 0 = Ok x →
          lookup_key (decoders b) "vc" = Ok d → py_iter x = Ok args →
          Event 0 Iframe_model (decoder_decompress "vc") args
          ∈ (Instance.decompress m (inp :: inputs')).1)).
Proof.
  split.
  - apply (keyframe_routing Z (Examples.pframe 2 true) 2 Examples.video 4
             (Instance.compress (Examples.pframe 2 true) Examples.video).1
             (match (Instance.compress (Examples.pframe 2 true) Examples.video).2 with
              | Ok out => out | Raise _ => [] end)
             MoreExamples.vc_records
             (Instance.decompress (Examples.pframe 2 true) MoreExamples.vc_records).1
             MoreExamples.decoded);
      [reflexivity|lia|reflexivity|lia|vm_compute; reflexivity|vm_compute; reflexivity].
  - apply (keyframe_routing Z (Examples.pframe_with_motion 2 false) 2 Examples.video 4
             (Instance.compress (Examples.pframe_with_motion 2 false) Examples.video).1
             (match (Instance.compress (Examples.pframe_with_motion 2 false)
                       Examples.video).2 with
              | Ok out => out | Raise _ => [] end)
             MoreExamples.motion_vc_records
             (Instance.decompress (Examples.pframe_with_motion 2 false)
                MoreExamples.motion_vc_records).1
             MoreExamples.motion_decoded);
      [reflexivity|lia|reflexivity|lia|vm_compute; reflexivity|vm_compute; reflexivity].
Defined.

(** The first scenario of the specification: four frames, interval 2. *)
Example four_frames_interval_2 :
  omap (fun e => match Spec.path_of e with
                 | Some p => Some (ev_frame e, ev_callee e, p)
                 | None => None
                 end)
    (Instance.decompress (Examples.pframe 2 true)
       [PList [PTuple [PInt 1]]; PTuple [PTuple [PInt 2]];
        PList [PTuple [PInt 3]]; PTuple [PTuple [PInt 4]]]).1
  = [(0, decoder_decompress "vc", Spec.Keyframe_path);
     (1, decoder_decompress "vc", Spec.Predicted_path);
     (2, decoder_decompress "vc", Spec.Keyframe_path);
     (3, decoder_decompress "vc", Spec.Predicted_path)].
Proof. reflexivity. Qed.


(** ** What the loops append to the output *)
Section OutputFacts.
Variable El : Type.
Import Spec.
Implicit Types (out : dict (list (pyval El))) (results : dict (pyval El)).

Lemma appends_nil task out : appends task out out [].
Proof. unfold appends. destruct (dict_get out task); simpl; [by rewrite app_nil_r|done]. Qed.

Lemma appends_trans task out1 out2 out3 vs ws :
  appends task out1 out2 vs → appends task out2 out3 ws → appends task out1 out3 (vs ++ ws).
Proof.
  unfold appends. intros -> ->. destruct (dict_get out1 task); simpl; [|done].
  by rewrite app_assoc.
Qed.

Lemma appends_set task out l v :
  dict_get out task = Some l → appends task out (dict_set out task (l ++ [v])) [v].
Proof. intros H. unfold appends. by rewrite dict_get_set_eq, H. Qed.

Lemma appends_set_ne task task' out l :
  task' ≠ task → appends task out (dict_set out task' l) [].
Proof.
  intros H. unfold appends. rewrite dict_get_set_ne by done.
  destruct (dict_get out task); simpl; [by rewrite app_nil_r|done].
Qed.

Lemma append_to_appends task out v out' :
  append_to out task v = Ok out' → appends task out out' [v].
Proof.
  unfold append_to, lookup_key. destruct (dict_get out task) as [l|] eqn:Hl; [|done].
  simpl. intros [= <-]. by apply appends_set.
Qed.

Lemma append_to_appends_ne task task' out v out' :
  task' ≠ task → append_to out task' v = Ok out' → appends task out out' [].
Proof.
  intros Hne. unfold append_to, lookup_key. destruct (dict_get out task'); [|done].
  simpl. intros [= <-]. by apply appends_set_ne.
Qed.

(** [for task, value in results.items(): out[task].append(value)] appends,
    under every key, what [results] holds for it. *)
Lemma append_results_appends task results out out' :
  NoDup (dict_keys results) → append_results results out = Ok out' →
  appends task out out' (option_list (dict_get results task)).
Proof.
  unfold append_results. revert out.
  induction results as [|[t v] results IH]; intros out Hnd H.
  - injection H as <-. apply appends_nil.
  - unfold dict_keys in Hnd. cbn [fmap list_fmap fst] in Hnd.
    apply NoDup_cons in Hnd as [Ht Hnd].
    cbn [for_each] in H. destruct (append_to out t v) as [out1|] eqn:H1; [|done].
    cbn [mbind result_bind] in H. specialize (IH out1 Hnd H).
    cbn [dict_get]. case_bool_decide as Heq.
    + subst t. apply dict_get_None_keys in Ht. rewrite Ht in IH.
      pose proof (appends_trans task out out1 out' [v] []
                    (append_to_appends _ _ _ _ H1) IH) as Hr.
      by rewrite app_nil_r in Hr.
    + exact (appends_trans task out out1 out' [] _
               (append_to_appends_ne _ _ _ _ _ Heq H1) IH).
Qed.

(** The results of [compress_one]: one value for every task of the model. *)
Lemma compress_one_results (self : BaseModel El) (inp : pyval El) l results :
  IFrameModel.compress_one self inp = (l, Ok results) →
  NoDup (dict_keys results)
  ∧ (∀ task, task ∈ task_name self →
       ∃ v, dict_get results task = Some v
            ∧ task_value self (enc_forward (the_encoder self) [inp]) task v)
  ∧ (∀ task, task ∉ task_name self → dict_get results task = None).
Proof.
  unfold IFrameModel.compress_one. intros H.
  invert_bind H as l0 s_rep Hs. apply call_returns in Hs as [-> ->].
  set (s_rep := enc_forward (the_encoder self) [inp]) in *.
  assert (HI : NoDup (dict_keys results)
    ∧ ∀ task,
        (task ∈ (enumerate (task_name self)).*2 →
           ∃ v, dict_get results task = Some v ∧ task_value self s_rep task v)
        ∧ (task ∉ (enumerate (task_name self)).*2 → dict_get results task = None)).
  { eapply (for_each_inv (fun done (results : dict (pyval El)) (_ : list (event El)) =>
      NoDup (dict_keys results)
      ∧ ∀ task,
          (task ∈ done.*2 →
             ∃ v, dict_get results task = Some v ∧ task_value self s_rep task v)
          ∧ (task ∉ done.*2 → dict_get results task = None)));
      [| |exact H].
    - split; [apply NoDup_nil_2|]. intros task. split; [|done].
      intros Hin. by apply elem_of_nil in Hin.
    - intros done [tn t] todo res lg lb res' Hsplit [Hnd HI] Hb.
      apply enumerate_split in Hsplit as (_ & Htn & _).
      invert_bind Hb as l1 ss_rep Hss. apply lift_returns in Hss as [Hss ->].
      invert_bind Hb as l2 d Hd. apply lift_returns in Hd as [Hd ->].
      invert_bind Hb as l3 value Hv. apply ret_returns in Hb as [<- ->].
      assert (Hvalue : task_value self s_rep t value).
      { exists tn, ss_rep, d. repeat split; try done.
        case_bool_decide; by apply call_returns in Hv as [_ ->]. }
      split; [by apply dict_set_NoDup|]. intros task.
      rewrite fmap_app, elem_of_app.
      change ([(tn, t)].*2) with [t]. rewrite list_elem_of_singleton.
      destruct (decide (task = t)) as [->|Hne].
      + split; [|intros Hno; exfalso; apply Hno; by right].
        intros _. exists value. by rewrite dict_get_set_eq.
      + rewrite dict_get_set_ne by done. split.
        * intros [Hin|?]; [|done]. by apply HI.
        * intros Hno. apply HI. intros Hin. apply Hno. by left. }
  rewrite snd_enumerate in HI. destruct HI as [Hnd HI].
  split; [done|]. split; intros task; apply HI.
Qed.

(** The loop over the tasks of a predicted frame without adaptation appends
    one value under every task of the model. *)
Lemma plain_tasks_appends (self : BaseModel El) (s_rep : pyval El) out l out' :
  NoDup (task_name self) →
  plain_tasks self s_rep out = (l, Ok out') →
  ∀ task,
    (task ∈ task_name self → ∃ v, task_value self s_rep task v ∧ appends task out out' [v])
    ∧ (task ∉ task_name self → appends task out out' []).
Proof.
  unfold plain_tasks. intros Hnd H.
  assert (HI : ∀ task,
    (task ∈ (enumerate (task_name self)).*2 →
       ∃ v, task_value self s_rep task v ∧ appends task out out' [v])
    ∧ (task ∉ (enumerate (task_name self)).*2 → appends task out out' [])).
  { eapply (for_each_inv (fun done (cur : dict (list (pyval El))) (_ : list (event El)) =>
      ∀ task,
        (task ∈ done.*2 → ∃ v, task_value self s_rep task v ∧ appends task out cur [v])
        ∧ (task ∉ done.*2 → appends task out cur [])));
      [| |exact H].
    - intros task. split; [|intros _; apply appends_nil].
      intros Hin. by apply elem_of_nil in Hin.
    - intros done [tn t] todo cur lg lb cur' Hsplit HI Hb.
      pose proof (enumerate_split_NoDup _ _ _ _ _ Hnd Hsplit) as Hfresh.
      apply enumerate_split in Hsplit as (_ & Htn & _).
      invert_bind Hb as l1 ss_rep Hss. apply lift_returns in Hss as [Hss ->].
      invert_bind Hb as l2 l0 Hl0. apply lift_returns in Hl0 as [Hl0 ->].
      invert_bind Hb as l3 d Hd. apply lift_returns in Hd as [Hd ->].
      invert_bind Hb as l4 value Hv. apply ret_returns in Hb as [<- ->].
      assert (Hvalue : task_value self s_rep t value).
      { exists tn, ss_rep, d. repeat split; try done.
        case_bool_decide; by apply call_returns in Hv as [_ ->]. }
      unfold lookup_key in Hl0. destruct (dict_get cur t) as [l0'|] eqn:Hcur; [|done].
      injection Hl0 as ->.
      intros task. rewrite fmap_app, elem_of_app.
      change ([(tn, t)].*2) with [t]. rewrite list_elem_of_singleton.
      destruct (decide (task = t)) as [->|Hne].
      + split; [|intros Hno; exfalso; apply Hno; by right].
        intros _. exists value. split; [done|].
        apply (appends_trans t out cur _ [] [value]); [by apply HI|by apply appends_set].
      + pose proof (appends_set_ne task t cur (l0 ++ [value]) ltac:(done)) as Hstep.
        split.
        * intros [Hin|?]; [|done]. destruct (proj1 (HI task) Hin) as (v & Hv' & Happ).
          exists v. split; [done|].
          pose proof (appends_trans task out cur _ [v] [] Happ Hstep) as Hr.
          by rewrite app_nil_r in Hr.
        * intros Hno.
          apply (appends_trans task out cur _ [] []); [|done].
          apply HI. intros Hin. apply Hno. by left. }
  rewrite snd_enumerate in HI. exact HI.
Qed.

(** The loop over the tasks of a predicted frame with adaptation: the same
    values are appended, and the "vc" iteration decodes its own record against
    the reference of the representation. *)
Lemma adapt_tasks_appends (self : BaseModel El) (s_rep : pyval El) out pr l out' pr' :
  NoDup (task_name self) →
  adapt_tasks self s_rep (out, pr) = (l, Ok (out', pr')) →
  (∀ task,
     (task ∈ task_name self → ∃ v, task_value self s_rep task v ∧ appends task out out' [v])
     ∧ (task ∉ task_name self → appends task out out' []))
  ∧ ("vc" ∈ task_name self →
       ∃ args, reference_decode self s_rep args pr'
               ∧ Event 0 Self (decoder_decompress "vc") args ∈ l)
  ∧ ("vc" ∉ task_name self → pr' = pr).
Proof.
  unfold adapt_tasks. intros Hnd H.
  assert (HI :
    (∀ task,
       (task ∈ (enumerate (task_name self)).*2 →
          ∃ v, task_value self s_rep task v ∧ appends task out out' [v])
       ∧ (task ∉ (enumerate (task_name self)).*2 → appends task out out' []))
    ∧ ("vc" ∈ (enumerate (task_name self)).*2 →
         ∃ args, reference_decode self s_rep args pr'
                 ∧ Event 0 Self (decoder_decompress "vc") args ∈ l)
    ∧ ("vc" ∉ (enumerate (task_name self)).*2 → pr' = pr)).
  { eapply (for_each_inv
      (fun done (st : dict (list (pyval El)) * pyval El) (lg : list (event El)) =>
         (∀ task,
            (task ∈ done.*2 →
               ∃ v, task_value self s_rep task v ∧ appends task out st.1 [v])
            ∧ (task ∉ done.*2 → appends task out st.1 []))
         ∧ ("vc" ∈ done.*2 →
              ∃ args, reference_decode self s_rep args st.2
                      ∧ Event 0 Self (decoder_decompress "vc") args ∈ lg)
         ∧ ("vc" ∉ done.*2 → st.2 = pr))
      _ _ _ _ _ _ (out', pr') H).
    Unshelve.
    - split; [|split; [|done]].
      + intros task. split; [|intros _; apply appends_nil].
        intros Hin. by apply elem_of_nil in Hin.
      + intros Hin. by apply elem_of_nil in Hin.
    - intros done [tn t] todo [cur pc] lg lb [cur' pc'] Hsplit (HI & Hvc & Hno) Hb.
      pose proof (enumerate_split_NoDup _ _ _ _ _ Hnd Hsplit) as Hfresh.
      apply enumerate_split in Hsplit as (_ & Htn & _).
      cbn [fst snd] in *.
      invert_bind Hb as l1 ss_rep Hss. apply lift_returns in Hss as [Hss ->].
      assert (Hsnoc : ∀ task, task ∈ (done ++ [(tn, t)]).*2 ↔ task ∈ done.*2 ∨ task = t).
      { intros task. rewrite fmap_app, elem_of_app. change ([(tn, t)].*2) with [t].
        by rewrite list_elem_of_singleton. }
      assert (Hout : ∀ value,
        task_value self s_rep t value → appends t cur cur' [value] →
        (∀ task, task ≠ t → appends task cur cur' []) →
        ∀ task,
          (task ∈ (done ++ [(tn, t)]).*2 →
             ∃ v, task_value self s_rep task v ∧ appends task out cur' [v])
          ∧ (task ∉ (done ++ [(tn, t)]).*2 → appends task out cur' [])).
      { intros value Hvalue Happ Hother task. rewrite Hsnoc.
        destruct (decide (task = t)) as [->|Hne].
        - split; [|intros Hf; exfalso; apply Hf; by right].
          intros _. exists value. split; [done|].
          apply (appends_trans t out cur _ [] [value]); [by apply HI|done].
        - split.
          + intros [Hin|?]; [|done]. destruct (proj1 (HI task) Hin) as (v & Hv' & Ha).
            exists v. split; [done|].
            pose proof (appends_trans task out cur _ [v] [] Ha (Hother task Hne)) as Hr.
            by rewrite app_nil_r in Hr.
          + intros Hf. apply (appends_trans task out cur _ [] []); [|by apply Hother].
            apply HI. intros Hin. apply Hf. by left. }
      case_bool_decide as Ht.
      + subst t.
        invert_bind Hb as l2 d Hd. apply lift_returns in Hd as [Hd ->].
        invert_bind Hb as l3 results Hr. apply call_returns in Hr as [-> ->].
        invert_bind Hb as l4 ref Href. apply lift_returns in Href as [Href ->].
        invert_bind Hb as l5 rec Hrec. apply lift_returns in Hrec as [Hrec ->].
        invert_bind Hb as l6 inp Hinp. apply lift_returns in Hinp as [Hinp ->].
        invert_bind Hb as l7 d' Hd'. apply lift_returns in Hd' as [Hd' ->].
        invert_bind Hb as l8 args Hargs. apply lift_returns in Hargs as [Hargs ->].
        invert_bind Hb as l9 pr1 Hp. apply call_returns in Hp as [-> ->].
        invert_bind Hb as l10 out1 Ho. apply lift_returns in Ho as [Ho ->].
        apply ret_returns in Hb as [[= <- <-] ->].
        rewrite Hd in Hd'. injection Hd' as <-.
        rewrite Hsnoc. split; [|split].
        * apply (Hout (dec_compress d [ss_rep])).
          -- exists tn, ss_rep, d. repeat split; done.
          -- by apply append_to_appends.
          -- intros task Hne. eapply append_to_appends_ne; [|exact Ho]. done.
        * intros _. exists args. split.
          -- by exists tn, ss_rep, d, ref, rec, inp.
          -- in_log.
        * intros Hf. exfalso. apply Hf. by right.
      + invert_bind Hb as l2 l0 Hl0. apply lift_returns in Hl0 as [Hl0 ->].
        invert_bind Hb as l3 d Hd. apply lift_returns in Hd as [Hd ->].
        invert_bind Hb as l4 value Hv. apply call_returns in Hv as [-> ->].
        apply ret_returns in Hb as [[= <- <-] ->].
        unfold lookup_key in Hl0. destruct (dict_get cur t) as [l0'|] eqn:Hcur; [|done].
        injection Hl0 as ->.
        rewrite Hsnoc. split; [|split].
        * apply (Hout (dec_forward d [ss_rep])).
          -- exists tn, ss_rep, d. repeat split; try done.
             by rewrite bool_decide_eq_false_2.
          -- by apply appends_set.
          -- intros task Hne. by apply appends_set_ne.
        * intros [Hin|?]; [|congruence]. destruct (Hvc Hin) as (args & Hdec & Hev).
          exists args. split; [done|]. in_log.
        * intros Hf. apply Hno. intros Hin. apply Hf. by left. }
  rewrite snd_enumerate in HI. exact HI.
Qed.

Lemma empty_out_get (self : BaseModel El) (task : string) :
  dict_get (empty_out self) task = if bool_decide (task ∈ task_name self) then Some [] else None.
Proof.
  unfold empty_out.
  assert (Hgen : ∀ (tasks : list string) (d : dict (list (pyval El))),
    (∀ t l, dict_get d t = Some l → l = []) →
    dict_get (foldl (fun d task => dict_set d task []) d tasks) task
    = if bool_decide (task ∈ tasks) then Some [] else dict_get d task).
  { induction tasks as [|t tasks IH]; intros d Hd; cbn [foldl].
    - rewrite bool_decide_eq_false_2; [done|apply not_elem_of_nil].
    - rewrite IH.
      + destruct (decide (task ∈ tasks)) as [Hin|Hin].
        * rewrite !bool_decide_eq_true_2; [done|by apply list_elem_of_further|done].
        * rewrite (bool_decide_eq_false_2 _ Hin). rewrite dict_get_set.
          destruct (decide (t = task)) as [->|Hne].
          -- rewrite !bool_decide_eq_true_2; [done|apply list_elem_of_here|done].
          -- rewrite !bool_decide_eq_false_2; [done| |done].
             rewrite not_elem_of_cons. split; [congruence|done].
      + intros t' l. rewrite dict_get_set. destruct (bool_decide (t = t')); [intros [= Hl]; symmetry; exact Hl|apply Hd]. }
  rewrite Hgen; [|done]. by case_bool_decide.
Qed.

(** *** The frames of [compress_no_adaptation] *)

Lemma iframe_compress_one_returns (im : model El) (inp : pyval El) l results :
  PFrameModel.iframe_compress_one im inp = (l, Ok results) →
  ∃ b l0, im = IFrame b ∧ IFrameModel.compress_one b inp = (l0, Ok results)
          ∧ l = of_iframe_model <$> l0.
Proof.
  destruct im as [b| |]; try done. cbn [PFrameModel.iframe_compress_one]. intros H.
  apply relabel_Ok in H as (l0 & H & ->). by exists b, l0.
Qed.

(** What a keyframe appends under [task]: the value the keyframe model holds
    for it. *)
Lemma keyframe_appends (im : model El) (inp : pyval El) l results out out' (task : string) :
  PFrameModel.iframe_compress_one im inp = (l, Ok results) →
  append_results results out = Ok out' →
  (task ∈ task_name (base_of im) →
     ∃ v, dict_get results task = Some v ∧ appends task out out' [v])
  ∧ (task ∉ task_name (base_of im) → appends task out out' []).
Proof.
  intros Hc Ha. apply iframe_compress_one_returns in Hc as (b & l0 & -> & Hc & _).
  apply compress_one_results in Hc as (Hnd & Hin & Hout).
  pose proof (append_results_appends task results out out' Hnd Ha) as Happ.
  cbn [base_of]. split.
  - intros Ht. destruct (Hin task Ht) as (v & Hv & _). exists v. split; [done|].
    by rewrite Hv in Happ.
  - intros Ht. by rewrite (Hout task Ht) in Happ.
Qed.

Lemma appends_one task out out' v recs :
  appends task out out' [v] → dict_get out task = Some recs →
  dict_get out' task = Some (recs ++ [v]).
Proof. unfold appends. intros -> ->. done. Qed.

(** The records under [task] after a loop over the frames whose iterations
    append one value each: one record for every frame index. *)
Lemma loop_records {S} (get : S → dict (list (pyval El))) (P : nat → pyval El → Prop)
    (task : string) (frame : nat → S → M (event El) S) (n : nat) (s0 : S) l s :
  dict_get (get s0) task = Some [] →
  (∀ i s lb s', i < n → frame i s = (lb, Ok s') →
     ∃ v, appends task (get s) (get s') [v] ∧ P i v) →
  for_each (range n) (fun i s => relabel (at_frame i) (frame i s)) s0 = (l, Ok s) →
  ∃ recs, dict_get (get s) task = Some recs ∧ length recs = n
    ∧ ∀ i v, recs !! i = Some v → P i v.
Proof.
  intros H0 Hframe Hloop.
  apply (for_each_inv
    (fun done s (_ : list (event El)) =>
       ∃ recs, dict_get (get s) task = Some recs ∧ length recs = length done
         ∧ ∀ i v, recs !! i = Some v → P i v)) in Hloop.
  - destruct Hloop as (recs & Hget & Hlen & Hrec). exists recs.
    split; [done|]. split; [|done]. rewrite Hlen. unfold range. apply length_seq.
  - exists []. split; [done|]. split; [done|]. intros i v Hi. by rewrite lookup_nil in Hi.
  - intros done x todo t l0 lb t' Hxs (recs & Hget & Hlen & Hrec) Hb.
    apply range_split in Hxs as [-> Hx].
    apply relabel_Ok in Hb as (lb0 & Hb & ->).
    destruct (Hframe _ _ _ _ Hx Hb) as (v & Happ & Hv).
    exists (recs ++ [v]). split; [by apply (appends_one task (get t) (get t') v recs)|].
    split; [rewrite !length_app; cbn; lia|].
    intros i v' Hi. apply lookup_app_Some in Hi as [Hi|[Hge Hi]].
    + by eapply Hrec.
    + apply list_lookup_singleton_Some in Hi as [Hi <-].
      unfold range in Hlen. rewrite length_seq in Hlen.
      assert (i = x) as -> by lia. done.
Qed.

End OutputFacts.

(** ** The loops of [decompress] *)
Section DecodeLoops.
Variable El : Type.

Lemma as_tensors_length (vs : list (pyval El)) (acc ts : list (tensor El)) :
  for_each vs (fun v acc => t ← as_tensor v; Ok (acc ++ [t])) acc = Ok ts →
  length ts = length acc + length vs.
Proof.
  revert acc. induction vs as [|v vs IH]; intros acc H; cbn [for_each] in H.
  - injection H as <-. cbn. lia.
  - destruct (as_tensor v) as [t|e]; [|discriminate H]. rewrite !result_bind_Ok in H.
    apply IH in H. rewrite length_app in H. cbn in *. lia.
Qed.

Lemma stack1_returns (ts : list (tensor El)) (t : tensor El) :
  stack1 ts = Ok t → ts ≠ [] ∧ ∃ b rest, shape t = b :: length ts :: rest.
Proof.
  unfold stack1. destruct ts as [|t0 ts]; [done|].
  destruct (forallb _ _); [|done]. destruct (shape t0) as [|b rest]; [done|].
  intros [= <-]. split; [done|]. by exists b, rest.
Qed.

Lemma stack_frames_returns (vs : list (pyval El)) (t : tensor El) :
  stack_frames vs = Ok t → vs ≠ [] ∧ ∃ b rest, shape t = b :: length vs :: rest.
Proof.
  unfold stack_frames.
  destruct (for_each vs _ []) as [ts|e] eqn:Hts; [|done]. rewrite result_bind_Ok.
  apply as_tensors_length in Hts. cbn in Hts. intros Hs.
  apply stack1_returns in Hs as (Hne & b & rest & Hshape). rewrite Hts in Hshape.
  split; [|by exists b, rest]. intros ->. by destruct ts.
Qed.

Lemma enumerate_length {A} (l : list A) : length (enumerate l) = length l.
Proof. unfold enumerate. rewrite length_zip_with, length_seq. lia. Qed.

(** A loop over the records whose iterations add one reconstruction each. *)
Lemma decode_loop_length {St} (recons : St → list (pyval El))
    (frame : nat → pyval El → St → M (event El) St) (inputs : list (pyval El))
    (s0 : St) l s :
  recons s0 = [] →
  (∀ i inp s lb s', frame i inp s = (lb, Ok s') →
     length (recons s') = S (length (recons s))) →
  for_each (enumerate inputs) (fun '(i, inp) s => relabel (at_frame i) (frame i inp s)) s0
    = (l, Ok s) →
  length (recons s) = length inputs.
Proof.
  intros H0 Hframe Hloop.
  apply (for_each_inv
    (fun done s (_ : list (event El)) => length (recons s) = length done)) in Hloop.
  - by rewrite enumerate_length in Hloop.
  - by rewrite H0.
  - intros done [i inp] todo t l0 lb t' _ Hlen Hb.
    apply relabel_Ok in Hb as (lb0 & Hb & ->).
    rewrite (Hframe _ _ _ _ _ Hb), Hlen, length_app. cbn. lia.
Qed.

(** [decompress] of the independent model returns as many frames as it is
    given records. *)
Lemma iframe_decompress_frames (self : BaseModel El) (inputs : list (pyval El)) l
    (t : tensor El) :
  IFrameModel.decompress self inputs = (l, Ok t) →
  ∃ b rest, shape t = b :: length inputs :: rest.
Proof.
  intros H. unfold IFrameModel.decompress in H. invert_bind H as l1 rv Hloop.
  apply lift_returns in H as [H ->].
  apply stack_frames_returns in H as (_ & b & rest & Hs).
  eapply (decode_loop_length id) in Hloop; [| done |].
  - unfold id in Hloop. rewrite Hloop in Hs. by exists b, rest.
  - intros i inp s lb s' Hf. invert_bind Hf as l2 recon Hr.
    apply ret_returns in Hf as [<- ->]. unfold id. rewrite length_app. cbn. lia.
Qed.

End DecodeLoops.

(** ** [compress_no_adaptation]: records made from raw frames only *)
Section NoAdaptation.
Variable El : Type.
Import Spec.
Implicit Types (out : dict (list (pyval El))) (results : dict (pyval El)).

(** *** No decode among the calls *)

Ltac raw_call := split; [reflexivity|try discriminate].

Lemma compress_one_raw (self : BaseModel El) (inp : pyval El) :
  Forall raw_only (IFrameModel.compress_one self inp).1.
Proof. unfold IFrameModel.compress_one. repeat log_step; raw_call. Qed.

Lemma iframe_compress_one_raw (im : model El) (inp : pyval El) :
  Forall raw_only (PFrameModel.iframe_compress_one im inp).1.
Proof.
  destruct im; try apply Forall_nil_2. cbn [PFrameModel.iframe_compress_one].
  apply (relabel_log_impl _ raw_only); [|apply compress_one_raw].
  intros e He. exact He.
Qed.

Lemma plain_tasks_raw (self : BaseModel El) (s_rep : pyval El) out :
  Forall raw_only (plain_tasks self s_rep out).1.
Proof. unfold plain_tasks. repeat log_step; raw_call. Qed.

Ltac frame_raw :=
  repeat first
    [ log_step
    | lazymatch goal with
      | |- Forall _ (fst (PFrameModel.iframe_compress_one _ _)) =>
          apply iframe_compress_one_raw
      | |- Forall _ (fst (plain_tasks _ _ _)) => apply plain_tasks_raw
      end ];
  (split; [reflexivity|intros _; by eexists]).

Lemma plain_frame_raw (self : BaseModel El) (im : model El) (k : json) (video : tensor El)
    (i : nat) out :
  Forall raw_only (PFrameModel.plain_frame self im k video i out).1.
Proof. unfold PFrameModel.plain_frame. frame_raw. Qed.

Lemma motion_plain_frame_raw (self : BaseModel El) (im : model El) (k : json)
    (video : tensor El) (i : nat) out :
  Forall raw_only (PFrameModelWithMotion.plain_frame self im k video i out).1.
Proof. unfold PFrameModelWithMotion.plain_frame. frame_raw. Qed.

Lemma relabel_raw {A} (m : M (event El) A) (i : nat) :
  Forall raw_only m.1 → Forall raw_only (relabel (at_frame i) m).1.
Proof. apply relabel_log_impl. intros e He. exact He. Qed.

Lemma compress_no_adaptation_raw (m : model El) (a : json) (video : tensor El) :
  adaptation_of m = Some a → truthy a = false →
  Forall raw_only (Instance.compress m video).1.
Proof.
  intros Ha Hf. destruct m as [b|b im k a'|b im k a']; [done| |];
    injection Ha as ->; cbn [Instance.compress];
    unfold PFrameModel.compress, PFrameModelWithMotion.compress; rewrite Hf;
    unfold PFrameModel.compress_no_adaptation, PFrameModelWithMotion.compress_no_adaptation;
    repeat log_step; apply relabel_raw;
    [apply plain_frame_raw|apply motion_plain_frame_raw].
Qed.

(** *** The record of a frame *)

(** The value of a task is determined by the representation. *)
Lemma task_value_functional (self : BaseModel El) (s_rep : pyval El) (task : string) v v' :
  NoDup (task_name self) →
  task_value self s_rep task v → task_value self s_rep task v' → v = v'.
Proof.
  intros Hnd (tn & ss & d & Htn & Hss & Hd & ->) (tn' & ss' & d' & Htn' & Hss' & Hd' & ->).
  assert (tn = tn') as <- by exact (NoDup_lookup _ _ _ _ Hnd Htn Htn').
  rewrite Hss in Hss'. injection Hss' as <-.
  rewrite Hd in Hd'. by injection Hd' as <-.
Qed.

(** What [append_sentinel] changes: the value under "vc", a list, gets one
    more item. *)
Lemma append_sentinel_results results results' :
  PFrameModelWithMotion.append_sentinel results = Ok results' →
  ∃ items, dict_get results "vc" = Some (PList items)
    ∧ dict_get results' "vc" = Some (PList (items ++ [sentinel]))
    ∧ (∀ task, task ≠ "vc" → dict_get results' task = dict_get results task)
    ∧ (NoDup (dict_keys results) → NoDup (dict_keys results')).
Proof.
  unfold PFrameModelWithMotion.append_sentinel, lookup_key. intros H.
  destruct (dict_get results "vc") as [vc|] eqn:Hvc; [|done]. cbn in H.
  destruct vc as [| | | | |items]; try done. cbn in H. injection H as <-.
  exists items. split; [done|]. split; [apply dict_get_set_eq|]. split.
  - intros task Hne. apply dict_get_set_ne. congruence.
  - apply dict_set_NoDup.
Qed.

Lemma predicted_frame_record (self : BaseModel El) (k : Z) (video : tensor El)
    (task : string) (i : nat) (w : tensor El) out l out' :
  NoDup (task_name self) → task ∈ task_name self →
  narrow1 video (Z.of_nat i - 1) (Z.of_nat i + 1) = Ok w →
  plain_tasks self (enc_compress (the_encoder self) [PTensor w]) out = (l, Ok out') →
  appends_record self k video task i out out'.
Proof.
  intros Hnd Ht Hw H.
  destruct (plain_tasks_appends El self _ out l out' Hnd H task) as [Hin _].
  destruct (Hin Ht) as (v & Hv & Happ). exists v. split; [done|].
  intros _ w' Hw'. rewrite Hw in Hw'. by injection Hw' as <-.
Qed.

Lemma plain_frame_record (self : BaseModel El) (im : model El) (k : Z) (video : tensor El)
    (task : string) (i : nat) out l out' :
  k ≠ 0%Z → NoDup (task_name self) →
  task ∈ task_name self → task ∈ task_name (base_of im) →
  PFrameModel.plain_frame self im (JInt k) video i out = (l, Ok out') →
  appends_record self k video task i out out'.
Proof.
  intros Hk Hnd Ht Hti H. unfold PFrameModel.plain_frame in H.
  rewrite is_keyframe_int, bind_lift_Ok in H by done.
  destruct (Z.eqb_spec (Z.of_nat i mod k) 0) as [Hi|Hi].
  - invert_bind H as l1 inp Hinp. invert_bind H as l2 results Hres.
    apply lift_returns in H as [H ->].
    destruct (keyframe_appends El im _ _ results out out' task Hres H) as [Hin _].
    destruct (Hin Hti) as (v & _ & Happ). exists v. split; [done|].
    intros Hp. by destruct Hp.
  - invert_bind H as l1 inp Hinp. apply lift_returns in Hinp as [Hinp ->].
    invert_bind H as l2 s_rep Hs. apply call_returns in Hs as [-> ->].
    by eapply predicted_frame_record.
Qed.

Lemma motion_plain_frame_record (self : BaseModel El) (im : model El) (k : Z)
    (video : tensor El) (task : string) (i : nat) out l out' :
  k ≠ 0%Z → NoDup (task_name self) →
  task ∈ task_name self → task ∈ task_name (base_of im) →
  PFrameModelWithMotion.plain_frame self im (JInt k) video i out = (l, Ok out') →
  appends_record self k video task i out out'.
Proof.
  intros Hk Hnd Ht Hti H. unfold PFrameModelWithMotion.plain_frame in H.
  rewrite is_keyframe_int, bind_lift_Ok in H by done.
  destruct (Z.eqb_spec (Z.of_nat i mod k) 0) as [Hi|Hi].
  - invert_bind H as l1 inp Hinp. invert_bind H as l2 results Hres.
    invert_bind H as l3 results' Hs. apply lift_returns in Hs as [Hs ->].
    apply lift_returns in H as [H ->].
    apply iframe_compress_one_returns in Hres as (b & l0 & -> & Hres & _).
    apply compress_one_results in Hres as (Hndr & Hin & _).
    apply append_sentinel_results in Hs as (items & Hvc & Hvc' & Hne & Hnd').
    pose proof (append_results_appends El task results' out out' (Hnd' Hndr) H) as Happ.
    cbn [base_of] in Hti. destruct (Hin task Hti) as (v & Hv & _).
    assert (∃ v', dict_get results' task = Some v') as [v' Hv'].
    { destruct (decide (task = "vc")) as [->|Hn]; [by eexists|].
      rewrite (Hne task Hn). by eexists. }
    rewrite Hv' in Happ. exists v'. split; [done|].
    intros Hp. by destruct Hp.
  - invert_bind H as l1 inp Hinp. apply lift_returns in Hinp as [Hinp ->].
    invert_bind H as l2 s_rep Hs. apply call_returns in Hs as [-> ->].
    by eapply predicted_frame_record.
Qed.

(** *** The records of a video *)

(** The records under [task] after the loop: one for every frame, the one of
    a predicted frame computed from its window of raw frames. *)
Lemma plain_loop_records (self : BaseModel El) (k : Z) (video : tensor El) (task : string)
    (frame : nat → dict (list (pyval El)) → M (event El) (dict (list (pyval El))))
    (n : nat) l out :
  (∀ i out0 lb out1, frame i out0 = (lb, Ok out1) →
     appends_record self k video task i out0 out1) →
  task ∈ task_name self →
  for_each (range n) (fun i out => relabel (at_frame i) (frame i out)) (empty_out self)
    = (l, Ok out) →
  ∃ recs, dict_get out task = Some recs ∧ length recs = n
    ∧ ∀ i v w, recs !! i = Some v → predicted k i →
        narrow1 video (Z.of_nat i - 1) (Z.of_nat i + 1) = Ok w →
        task_value self (enc_compress (the_encoder self) [PTensor w]) task v.
Proof.
  intros Hframe Ht Hloop.
  apply (for_each_inv
    (fun done out (_ : list (event El)) =>
       ∃ recs, dict_get out task = Some recs ∧ length recs = length done
         ∧ ∀ i v w, recs !! i = Some v → predicted k i →
             narrow1 video (Z.of_nat i - 1) (Z.of_nat i + 1) = Ok w →
             task_value self (enc_compress (the_encoder self) [PTensor w]) task v))
    in Hloop.
  - destruct Hloop as (recs & Hget & Hlen & Hrec). exists recs.
    split; [done|]. split; [|done]. rewrite Hlen. unfold range. apply length_seq.
  - exists []. rewrite empty_out_get, bool_decide_eq_true_2 by done.
    split; [done|]. split; [done|]. intros i v w Hi. by rewrite lookup_nil in Hi.
  - intros done x todo s l0 lb s' Hxs (recs & Hget & Hlen & Hrec) Hb.
    apply range_split in Hxs as [-> _].
    apply relabel_Ok in Hb as (lb0 & Hb & ->).
    destruct (Hframe _ _ _ _ Hb) as (v & Happ & Hv).
    exists (recs ++ [v]). split; [by apply (appends_one El task s s' v recs)|].
    split; [rewrite !length_app; cbn; lia|].
    intros i v' w Hi Hp Hw. apply lookup_app_Some in Hi as [Hi|[Hge Hi]].
    + by eapply Hrec.
    + apply list_lookup_singleton_Some in Hi as [Hi <-].
      unfold range in Hlen. rewrite length_seq in Hlen.
      assert (i = x) as -> by lia. by apply Hv.
Qed.

Lemma compress_no_adaptation_records (m im : model El) (k : Z) (a : json)
    (video : tensor El) (task : string) (n : nat) l out :
  interval_of m = Some (JInt k) → adaptation_of m = Some a →
  iframe_model_of m = Some im → truthy a = false → k ≠ 0%Z →
  NoDup (task_name (base_of m)) →
  task ∈ task_name (base_of m) → task ∈ task_name (base_of im) →
  size_at video 1 = Ok n →
  Instance.compress m video = (l, Ok out) →
  ∃ recs, dict_get out task = Some recs ∧ length recs = n
    ∧ ∀ i v w, recs !! i = Some v → predicted k i →
        narrow1 video (Z.of_nat i - 1) (Z.of_nat i + 1) = Ok w →
        task_value (base_of m) (enc_compress (the_encoder (base_of m)) [PTensor w]) task v.
Proof.
  intros Hm Ha Him Hf Hk Hnd Ht Hti Hn H.
  destruct m as [b|b im' k' a'|b im' k' a']; [done| |];
    injection Hm as ->; injection Ha as ->; injection Him as ->;
    cbn [Instance.compress base_of] in *.
  - unfold PFrameModel.compress in H. rewrite Hf in H.
    unfold PFrameModel.compress_no_adaptation in H. rewrite Hn, bind_lift_Ok in H.
    eapply plain_loop_records; [|done|exact H].
    intros i out0 lb out1. by apply plain_frame_record.
  - unfold PFrameModelWithMotion.compress in H. rewrite Hf in H.
    unfold PFrameModelWithMotion.compress_no_adaptation in H.
    rewrite Hn, bind_lift_Ok in H.
    eapply plain_loop_records; [|done|exact H].
    intros i out0 lb out1. by apply motion_plain_frame_record.
Qed.

(** C7, as amended.  With [adaptation] false, [compress] of a predictive
    model makes no call that computes or consumes a reconstruction (no
    [decompress], no [extract_feats], no [align_features], no
    [compress_with_prev_recon]), and [encoder.compress] is given the window of
    raw frames alone.  The task names being unique, under a task that the
    keyframe model serves too (so that the index in the list is the index of
    the frame), the value it records at a predicted index i is the one
    computed from the window [video[:, i-1:i+1]], so two videos with the same
    window at i have the same record at i, whatever their other frames. *)
Theorem no_adaptation_raw_frames_only (m im : model El) (k : Z) (a : json) :
  interval_of m = Some (JInt k) → adaptation_of m = Some a →
  iframe_model_of m = Some im → truthy a = false →
  (∀ video, Forall raw_only (Instance.compress m video).1)
  ∧ (∀ task video video' n n' l l' out out' i w,
       NoDup (task_name (base_of m)) →
       task ∈ task_name (base_of m) → task ∈ task_name (base_of im) →
       size_at video 1 = Ok n → size_at video' 1 = Ok n' → i < n → i < n' →
       Instance.compress m video = (l, Ok out) →
       Instance.compress m video' = (l', Ok out') →
       predicted k i →
       narrow1 video (Z.of_nat i - 1) (Z.of_nat i + 1) = Ok w →
       narrow1 video' (Z.of_nat i - 1) (Z.of_nat i + 1) = Ok w →
       ∃ recs recs' v,
         dict_get out task = Some recs ∧ dict_get out' task = Some recs'
         ∧ recs !! i = Some v ∧ recs' !! i = Some v
         ∧ task_value (base_of m) (enc_compress (the_encoder (base_of m)) [PTensor w])
             task v).
Proof.
  intros Hm Ha Him Hf. split; [intros video; by eapply compress_no_adaptation_raw|].
  intros task video video' n n' l l' out out' i w Hnd Ht Hti Hn Hn' Hi Hi' H H' Hp Hw Hw'.
  assert (k ≠ 0%Z) as Hk.
  { intros ->. destruct n as [|n]; [lia|].
    rewrite (compress_interval_0 El m video n Hm Hn) in H. discriminate. }
  destruct (compress_no_adaptation_records m im k a video task n l out)
    as (recs & Hget & Hlen & Hrec); try done.
  destruct (compress_no_adaptation_records m im k a video' task n' l' out')
    as (recs' & Hget' & Hlen' & Hrec'); try done.
  destruct (lookup_lt_is_Some_2 recs i) as [v Hv]; [lia|].
  destruct (lookup_lt_is_Some_2 recs' i) as [v' Hv']; [lia|].
  pose proof (Hrec i v w Hv Hp Hw) as Htv.
  pose proof (Hrec' i v' w Hv' Hp Hw') as Htv'.
  assert (v' = v) as -> by by eapply task_value_functional.
  by exists recs, recs', v.
Qed.

End NoAdaptation.

(** C7, witness: the model [Examples.pframe 2 false] on two videos that
    differ in their first two frames only has the same record at index 3. *)
Lemma no_adaptation_raw_frames_only_witness :
  (∀ video, Forall Spec.raw_only (Instance.compress (Examples.pframe 2 false) video).1)
  ∧ ∃ recs recs' v,
      dict_get (match (Instance.compress (Examples.pframe 2 false) Examples.video).2 with
                | Ok out => out | Raise _ => [] end) "vc" = Some recs
      ∧ dict_get (match (Instance.compress (Examples.pframe 2 false)
                           Examples.other_video).2 with
                  | Ok out => out | Raise _ => [] end) "vc" = Some recs'
      ∧ recs !! 3 = Some v ∧ recs' !! 3 = Some v
      ∧ Spec.task_value (base_of (Examples.pframe 2 false))
          (enc_compress (the_encoder (base_of (Examples.pframe 2 false)))
             [PTensor (Tensor [1; 2; 1; 1; 2] [8; 13; 21; 34]%Z)])
          "vc" v.
Proof.
  destruct (no_adaptation_raw_frames_only Z (Examples.pframe 2 false)
              Examples.keyframe_model 2 (JBool false) eq_refl eq_refl eq_refl eq_refl)
    as [Hraw Hrec].
  split; [exact Hraw|].
  apply (Hrec "vc" Examples.video Examples.other_video 4 4
           (Instance.compress (Examples.pframe 2 false) Examples.video).1
           (Instance.compress (Examples.pframe 2 false) Examples.other_video).1).
  - apply (bool_decide_unpack _). vm_compute. exact I.
  - apply (bool_decide_unpack _). vm_compute. exact I.
  - apply (bool_decide_unpack _). vm_compute. exact I.
  - reflexivity.
  - reflexivity.
  - lia.
  - lia.
  - vm_compute. reflexivity.
  - vm_compute. reflexivity.
  - unfold Spec.predicted. vm_compute. discriminate.
  - vm_compute. reflexivity.
  - vm_compute. reflexivity.
Defined.

(** C7, counterexample: a predictive model with the tasks "vc" and "vsr" on a
    keyframe model that serves "vc" alone, interval 2, no adaptation.  The
    keyframes append nothing under "vsr", so the list under "vsr" holds the
    records of the predicted frames 1 and 3 at the indices 0 and 1.  Two videos
    with the same frames 0 and 1, index 1 being a predicted frame, have
    different records at index 1 under "vsr": that record is made of the frames
    2 and 3. *)
Lemma auxiliary_task_records_shift :
  Spec.predicted 2 1
  ∧ narrow1 Examples.video (Z.of_nat 1 - 1) (Z.of_nat 1 + 1)
    = narrow1 MoreExamples.late_video (Z.of_nat 1 - 1) (Z.of_nat 1 + 1)
  ∧ ∃ out out' v v',
      (Instance.compress MoreExamples.pframe_on_vc_keyframe Examples.video).2 = Ok out
      ∧ (Instance.compress MoreExamples.pframe_on_vc_keyframe MoreExamples.late_video).2
        = Ok out'
      ∧ dict_get out "vsr" = Some [PTuple [PTensor (Tensor [1; 1; 1; 2] [1; 2]%Z);
                                           PTensor (Tensor [1; 1; 1; 2] [3; 5]%Z)]; v]
      ∧ dict_get out' "vsr" = Some [PTuple [PTensor (Tensor [1; 1; 1; 2] [1; 2]%Z);
                                            PTensor (Tensor [1; 1; 1; 2] [3; 5]%Z)]; v']
      ∧ v = PTuple [PTensor (Tensor [1; 1; 1; 2] [8; 13]%Z);
                    PTensor (Tensor [1; 1; 1; 2] [21; 34]%Z)]
      ∧ v' = PTuple [PTensor (Tensor [1; 1; 1; 2] [7; 7]%Z);
                     PTensor (Tensor [1; 1; 1; 2] [7; 7]%Z)]
      ∧ v ≠ v'.
Proof.
  split; [unfold Spec.predicted; vm_compute; discriminate|].
  split; [vm_compute; reflexivity|].
  eexists _, _, _, _. split; [vm_compute; reflexivity|]. split; [vm_compute; reflexivity|].
  split; [vm_compute; reflexivity|]. split; [vm_compute; reflexivity|].
  split; [reflexivity|]. split; [reflexivity|]. discriminate.
Qed.

(** ** [PFrameModelWithMotion]: the motion slot of every record *)
Section MotionRecords.
Variable El : Type.
Import Spec.
Implicit Types (out : dict (list (pyval El))) (results : dict (pyval El)).

(** The value under "vc" is what the compression head returned. *)
Lemma task_value_vc (self : BaseModel El) (s_rep v : pyval El) :
  task_value self s_rep "vc" v → predicted_record self v.
Proof. intros (tn & ss & d & _ & _ & Hd & ->). by exists d, [ss]. Qed.

Lemma motion_record_at_keyframe (self : BaseModel El) (im : model El) (k : Z) (i : nat) v :
  (Z.of_nat i mod k = 0)%Z → keyframe_record im v → motion_record_at self im k i v.
Proof. intros Hi Hv. unfold motion_record_at. by rewrite decide_True. Qed.

Lemma motion_record_at_predicted (self : BaseModel El) (im : model El) (k : Z) (i : nat) v :
  (Z.of_nat i mod k ≠ 0)%Z → predicted_record self v → motion_record_at self im k i v.
Proof. intros Hi Hv. unfold motion_record_at. by rewrite decide_False. Qed.

(** The keyframe branch of both loops: the results of the keyframe model,
    with the sentinel appended under "vc", are appended to the output. *)
Lemma keyframe_with_sentinel (im : model El) (inp : pyval El) l results results' out out' :
  PFrameModel.iframe_compress_one im inp = (l, Ok results) →
  PFrameModelWithMotion.append_sentinel results = Ok results' →
  append_results results' out = Ok out' →
  ∃ v, appends "vc" out out' [v] ∧ keyframe_record im v.
Proof.
  intros Hres Hs H.
  apply iframe_compress_one_returns in Hres as (b & l0 & -> & Hres & _).
  apply compress_one_results in Hres as (Hndr & Hin & Hout).
  apply append_sentinel_results in Hs as (items & Hvc & Hvc' & _ & Hnd').
  pose proof (append_results_appends El "vc" results' out out' (Hnd' Hndr) H) as Happ.
  rewrite Hvc' in Happ. eexists. split; [exact Happ|].
  destruct (decide ("vc" ∈ task_name b)) as [Ht|Ht].
  - destruct (Hin "vc" Ht) as (v & Hv & Htv). rewrite Hvc in Hv. injection Hv as <-.
    destruct (task_value_vc b _ _ Htv) as (d & args & Hd & Hr).
    by exists d, args, items.
  - rewrite (Hout "vc" Ht) in Hvc. discriminate.
Qed.

Lemma motion_plain_frame_vc (self : BaseModel El) (im : model El) (k : Z)
    (video : tensor El) (i : nat) out l out' :
  k ≠ 0%Z → NoDup (task_name self) → "vc" ∈ task_name self →
  PFrameModelWithMotion.plain_frame self im (JInt k) video i out = (l, Ok out') →
  ∃ v, appends "vc" out out' [v] ∧ motion_record_at self im k i v.
Proof.
  intros Hk Hnd Ht H. unfold PFrameModelWithMotion.plain_frame in H.
  rewrite is_keyframe_int, bind_lift_Ok in H by done.
  destruct (Z.eqb_spec (Z.of_nat i mod k) 0) as [Hi|Hi].
  - invert_bind H as l1 inp Hinp. invert_bind H as l2 results Hres.
    invert_bind H as l3 results' Hs. apply lift_returns in Hs as [Hs ->].
    apply lift_returns in H as [H ->].
    destruct (keyframe_with_sentinel im _ _ _ _ _ _ Hres Hs H) as (v & Happ & Hv).
    exists v. split; [done|]. by apply motion_record_at_keyframe.
  - invert_bind H as l1 inp Hinp. invert_bind H as l2 s_rep Hs.
    destruct (plain_tasks_appends El self _ out _ out' Hnd H "vc") as [Hin _].
    destruct (Hin Ht) as (v & Hv & Happ). exists v. split; [done|].
    apply motion_record_at_predicted; [done|]. by eapply task_value_vc.
Qed.

Lemma motion_adapt_frame_vc (self : BaseModel El) (im : model El) (k : Z)
    (video : tensor El) (i : nat) (st st' : dict (list (pyval El)) * pyval El) l :
  k ≠ 0%Z → NoDup (task_name self) → "vc" ∈ task_name self →
  PFrameModelWithMotion.adapt_frame self im (JInt k) video i st = (l, Ok st') →
  ∃ v, appends "vc" st.1 st'.1 [v] ∧ motion_record_at self im k i v.
Proof.
  intros Hk Hnd Ht H. destruct st as [out pr]. destruct st' as [out' pr'].
  unfold PFrameModelWithMotion.adapt_frame in H.
  rewrite is_keyframe_int, bind_lift_Ok in H by done.
  cbn [fst]. destruct (Z.eqb_spec (Z.of_nat i mod k) 0) as [Hi|Hi].
  - invert_bind H as l1 inp Hinp. invert_bind H as l2 results Hres.
    invert_bind H as l3 pr1 Hpr.
    invert_bind H as l4 results' Hs. apply lift_returns in Hs as [Hs ->].
    invert_bind H as l5 out1 Ha. apply lift_returns in Ha as [Ha ->].
    apply ret_returns in H as [[= <- <-] ->].
    destruct (keyframe_with_sentinel im _ _ _ _ _ _ Hres Hs Ha) as (v & Happ & Hv).
    exists v. split; [done|]. by apply motion_record_at_keyframe.
  - invert_bind H as l1 inp Hinp. invert_bind H as l2 s_rep Hs.
    destruct (adapt_tasks_appends El self _ out pr _ out' pr' Hnd H) as [Htasks _].
    destruct (Htasks "vc") as [Hin _].
    destruct (Hin Ht) as (v & Hv & Happ). exists v. split; [done|].
    apply motion_record_at_predicted; [done|]. by eapply task_value_vc.
Qed.

(** The records under "vc" of a video: one for every frame, made by the
    keyframe branch at the multiples of the interval and by the model's own
    head elsewhere. *)
Lemma motion_records (b : BaseModel El) (im : model El) (k : Z) (a : json)
    (video : tensor El) (n : nat) l out :
  k ≠ 0%Z → NoDup (task_name b) → "vc" ∈ task_name b →
  size_at video 1 = Ok n →
  PFrameModelWithMotion.compress b im (JInt k) a video = (l, Ok out) →
  ∃ recs, dict_get out "vc" = Some recs ∧ length recs = n
    ∧ ∀ i v, recs !! i = Some v → motion_record_at b im k i v.
Proof.
  intros Hk Hnd Ht Hn H. unfold PFrameModelWithMotion.compress in H.
  destruct (truthy a).
  - unfold PFrameModelWithMotion.compress_with_adaptation in H.
    rewrite Hn, bind_lift_Ok in H. invert_bind H as l1 st Hloop.
    apply ret_returns in H as [<- ->].
    eapply (loop_records El fst (motion_record_at b im k) "vc") in Hloop; [done| |].
    + cbn [fst]. by rewrite empty_out_get, bool_decide_eq_true_2.
    + intros i s lb s' _. by apply motion_adapt_frame_vc.
  - unfold PFrameModelWithMotion.compress_no_adaptation in H.
    rewrite Hn, bind_lift_Ok in H.
    eapply (loop_records El id (motion_record_at b im k) "vc") in H; [done| |].
    + unfold id. by rewrite empty_out_get, bool_decide_eq_true_2.
    + intros i s lb s' _. by apply motion_plain_frame_vc.
Qed.

(** C4, as amended.  When [compress] of a model with motion returns (task
    names unique, "vc" among them), the "vc" entry holds one record for every
    frame.  At a keyframe index (i mod keyframe_interval = 0) the record is the
    list the compression head of the keyframe model returned with the sentinel
    ('', '', 0) appended: a list and no tuple, whose last slot is the sentinel,
    and a record of the two slots content and sentinel exactly when that head
    returned a list of one item.  At every other index the record is what the
    model's own compression head returned, as it is.  So the records have two
    slots each, content and motion, with the sentinel for motion exactly at the
    keyframe indices, when the head of the keyframe model returns a list that
    holds the content record alone and the model's own head a tuple of a
    content record and a motion record; the code checks neither. *)
Theorem motion_slot_as_coded (b : BaseModel El) (im : model El) (k : Z) (a : json)
    (video : tensor El) (n : nat) l out :
  NoDup (task_name b) → "vc" ∈ task_name b →
  size_at video 1 = Ok n →
  Instance.compress (PFrameWithMotion b im (JInt k) a) video = (l, Ok out) →
  ∃ recs, dict_get out "vc" = Some recs ∧ length recs = n
    ∧ (∀ i r, recs !! i = Some r → (Z.of_nat i mod k = 0)%Z →
         ∃ d args items,
           lookup_key (decoders (base_of im)) "vc" = Ok d
           ∧ dec_compress d args = PList items
           ∧ r = PList (items ++ [sentinel])
           ∧ (∀ slots, r ≠ PTuple slots)
           ∧ py_getitem r (-1) = Ok sentinel
           ∧ (∀ c, r = PList [c; sentinel] ↔ items = [c]))
    ∧ (∀ i r, recs !! i = Some r → (Z.of_nat i mod k ≠ 0)%Z →
         ∃ d args, lookup_key (decoders b) "vc" = Ok d ∧ r = dec_compress d args)
    ∧ (returns_content_alone (base_of im) → returns_content_and_motion b →
       ∀ i, i < n →
         ∃ r c mo, recs !! i = Some r
           ∧ py_getitem r 0 = Ok c ∧ py_getitem r 1 = Ok mo
           ∧ (mo = sentinel ↔ (Z.of_nat i mod k = 0)%Z)
           ∧ r = if decide (Z.of_nat i mod k = 0)%Z then PList [c; mo] else PTuple [c; mo]).
Proof.
  intros Hnd Ht Hn H.
  destruct (decide (k = 0%Z)) as [->|Hk].
  { destruct n as [|n].
    - exists []. cbn [Instance.compress] in H.
      unfold PFrameModelWithMotion.compress,
        PFrameModelWithMotion.compress_with_adaptation,
        PFrameModelWithMotion.compress_no_adaptation in H.
      rewrite Hn in H. destruct (truthy a); injection H as _ <-;
        (split; [by rewrite empty_out_get, bool_decide_eq_true_2|]);
        (split; [done|]);
        (split; [intros i r Hr; by rewrite lookup_nil in Hr|]);
        (split; [intros i r Hr; by rewrite lookup_nil in Hr|]);
        intros _ _ i Hi; lia.
    - by rewrite (compress_interval_0 El (PFrameWithMotion b im (JInt 0) a) video n
                    eq_refl Hn) in H. }
  cbn [Instance.compress] in H.
  destruct (motion_records b im k a video n l out Hk Hnd Ht Hn H)
    as (recs & Hget & Hlen & Hrec).
  assert (Hkey : ∀ i r, recs !! i = Some r → (Z.of_nat i mod k = 0)%Z →
            keyframe_record im r).
  { intros i r Hr Hi. specialize (Hrec i r Hr). unfold motion_record_at in Hrec.
    by rewrite decide_True in Hrec. }
  assert (Hpred : ∀ i r, recs !! i = Some r → (Z.of_nat i mod k ≠ 0)%Z →
            predicted_record b r).
  { intros i r Hr Hi. specialize (Hrec i r Hr). unfold motion_record_at in Hrec.
    by rewrite decide_False in Hrec. }
  exists recs. split; [done|]. split; [done|]. split; [|split].
  - intros i r Hr Hi. destruct (Hkey i r Hr Hi) as (d & args & items & Hd & Hc & ->).
    exists d, args, items. split; [done|]. split; [done|]. split; [done|].
    split; [done|]. split.
    + cbn [py_getitem]. apply getitem_last.
    + intros c. split.
      * intros [= Heq]. change [c; sentinel] with ([c] ++ [@sentinel El]) in Heq.
        by apply app_inj_tail in Heq as [-> _].
      * by intros ->.
  - intros i r Hr Hi. exact (Hpred i r Hr Hi).
  - intros Hone Hown i Hi.
    destruct (lookup_lt_is_Some_2 recs i) as [r Hr]; [lia|].
    destruct (decide (Z.of_nat i mod k = 0)%Z) as [Hmod|Hmod].
    + destruct (Hkey i r Hr Hmod) as (d & args & items & Hd & Hc & ->).
      destruct (Hone d args Hd) as [c Hc']. rewrite Hc in Hc'. injection Hc' as ->.
      exists (PList [c; sentinel]), c, sentinel. done.
    + destruct (Hpred i r Hr Hmod) as (d & args & Hd & ->).
      destruct (Hown d args Hd) as (c & mo & Hcm & Hmo). rewrite Hcm in Hr.
      exists (PTuple [c; mo]), c, mo. split; [done|]. split; [done|]. split; [done|].
      split; [|done]. split; [intros ->; by destruct Hmo|intros Hz; by destruct Hmod].
Qed.

End MotionRecords.

(** C4, witness: [Examples.pframe_with_motion 2 true] on a video of four
    frames; the head of its keyframe model returns a list of one item, its own
    head a content record and a motion record. *)
Lemma motion_slot_as_coded_witness :
  ∃ recs,
    dict_get (match (Instance.compress (Examples.pframe_with_motion 2 true)
                       Examples.video).2 with
              | Ok out => out | Raise _ => [] end) "vc" = Some recs
    ∧ length recs = 4
    ∧ (∀ i r, recs !! i = Some r → (Z.of_nat i mod 2 = 0)%Z →
         ∃ d args items,
           lookup_key (decoders (base_of Examples.keyframe_model)) "vc" = Ok d
           ∧ dec_compress d args = PList items
           ∧ r = PList (items ++ [sentinel])
           ∧ (∀ slots, r ≠ PTuple slots)
           ∧ py_getitem r (-1) = Ok sentinel
           ∧ (∀ c, r = PList [c; sentinel] ↔ items = [c]))
    ∧ (∀ i r, recs !! i = Some r → (Z.of_nat i mod 2 ≠ 0)%Z →
         ∃ d args,
           lookup_key (decoders (Examples.base Examples.window_encoder
                                   Examples.residual_motion_codec)) "vc" = Ok d
           ∧ r = dec_compress d args)
    ∧ ∀ i, i < 4 →
        ∃ r c mo, recs !! i = Some r
          ∧ py_getitem r 0 = Ok c ∧ py_getitem r 1 = Ok mo
          ∧ (mo = sentinel ↔ (Z.of_nat i mod 2 = 0)%Z)
          ∧ r = if decide (Z.of_nat i mod 2 = 0)%Z then PList [c; mo] else PTuple [c; mo].
Proof.
  destruct (motion_slot_as_coded Z
              (Examples.base Examples.window_encoder Examples.residual_motion_codec)
              Examples.keyframe_model 2 (JBool true) Examples.video 4
              (Instance.compress (Examples.pframe_with_motion 2 true) Examples.video).1
              (match (Instance.compress (Examples.pframe_with_motion 2 true)
                        Examples.video).2 with
               | Ok out => out | Raise _ => [] end))
    as (recs & Hget & Hlen & Hkey & Hpred & Hboth).
  - apply (bool_decide_unpack _). vm_compute. exact I.
  - apply (bool_decide_unpack _). vm_compute. exact I.
  - reflexivity.
  - vm_compute. reflexivity.
  - exists recs. split; [exact Hget|]. split; [exact Hlen|]. split; [exact Hkey|].
    split; [exact Hpred|]. apply Hboth.
    + intros d args Hd. vm_compute in Hd. injection Hd as <-. eexists. reflexivity.
    + intros d args Hd. vm_compute in Hd. injection Hd as <-.
      eexists _, _. split; [reflexivity|discriminate].
Defined.

(** C4, counterexample: the record of frame 0 that
    [Examples.pframe_with_motion 2 true] makes under "vc" is a list of two
    items, not a tuple; and with an [ICDecoder] for the compression head of the
    keyframe model, whose [compress] returns a tuple, [compress] without
    adaptation raises [AttributeError] at frame 0, at [results["vc"].append],
    after the calls of the keyframe model and before any other. *)
Lemma keyframe_record_is_no_tuple :
  (∃ out recs c,
     (Instance.compress (Examples.pframe_with_motion 2 true) Examples.video).2 = Ok out
     ∧ dict_get out "vc" = Some recs
     ∧ recs !! 0 = Some (PList [c; sentinel])
     ∧ ∀ mo, PList [c; sentinel] ≠ PTuple [c; mo])
  ∧ Instance.compress MoreExamples.motion_on_ic_keyframe Examples.video
    = ([Event 0 Iframe_model encoder_forward
          [PTensor (Tensor [1; 1; 1; 1; 2] [1; 2]%Z)];
        Event 0 Iframe_model (decoder_compress "vc") [PTensor (Tensor [1; 1; 1; 2] [1; 2]%Z)];
        Event 0 Iframe_model (decoder_forward "vsr")
          [PTensor (Tensor [1; 1; 1; 2] [1; 2]%Z)]],
       Raise AttributeError).
Proof.
  split; [|vm_compute; reflexivity].
  eexists _, _, _. split; [vm_compute; reflexivity|]. split; [reflexivity|].
  split; [reflexivity|]. intros mo. discriminate.
Qed.

(** ** [IFrameModel]: decompress after compress *)
Section RoundTrip.
Variable El : Type.
Import Spec.
Implicit Types (out : dict (list (pyval El))) (results : dict (pyval El)).

(** *** The records [compress] makes *)

Lemma compress_frame_record (self : BaseModel El) (video : tensor El) (i : nat) out l out' :
  "vc" ∈ task_name self →
  IFrameModel.compress_frame self video i out = (l, Ok out') →
  ∃ v, appends "vc" out out' [v] ∧ frame_record self video i v.
Proof.
  intros Ht H. unfold IFrameModel.compress_frame in H.
  invert_bind H as l1 inp Hinp. apply lift_returns in Hinp as [Hinp ->].
  invert_bind H as l2 results Hres. apply lift_returns in H as [H ->].
  apply compress_one_results in Hres as (Hnd & Hin & _).
  destruct (Hin "vc" Ht) as (v & Hv & Htv).
  pose proof (append_results_appends El "vc" results out out' Hnd H) as Happ.
  rewrite Hv in Happ. exists v. split; [done|]. by exists inp.
Qed.

Lemma compress_records (self : BaseModel El) (video : tensor El) (n : nat) l out :
  "vc" ∈ task_name self → size_at video 1 = Ok n →
  IFrameModel.compress self video = (l, Ok out) →
  ∃ recs, dict_get out "vc" = Some recs ∧ length recs = n
    ∧ ∀ i v, recs !! i = Some v → frame_record self video i v.
Proof.
  intros Ht Hn H. unfold IFrameModel.compress in H. rewrite Hn, bind_lift_Ok in H.
  eapply (loop_records El id (frame_record self video) "vc") in H; [done| |].
  - unfold id. by rewrite empty_out_get, bool_decide_eq_true_2.
  - intros i s lb s' _. by apply compress_frame_record.
Qed.

(** The window of one frame. *)
Lemma narrow1_frame_shape (video inp : tensor El) (b n : nat) (rest : list nat) (i : nat) :
  shape video = b :: n :: rest → i < n →
  narrow1 video (Z.of_nat i) (Z.of_nat i + 1) = Ok inp →
  shape inp = b :: 1 :: rest.
Proof.
  intros Hs Hi. unfold narrow1. rewrite Hs. intros [= <-]. cbn [shape].
  f_equal. f_equal. unfold norm_bound.
  destruct (Z.ltb_spec (Z.of_nat i) 0); [lia|].
  destruct (Z.ltb_spec (Z.of_nat i + 1) 0); lia.
Qed.

(** *** [decompress] on records that decode *)

Lemma decompress_one_decodes (self : BaseModel El) (d : decoder El) (s : list nat)
    (r : pyval El) :
  lookup_key (decoders self) "vc" = Ok d → decodes_to d s r →
  ∃ l t, IFrameModel.decompress_one self r = (l, Ok (PTensor t)) ∧ shape t = s.
Proof.
  intros Hd (args & t & Hargs & Ht & Hs). unfold IFrameModel.decompress_one, decoder_of.
  rewrite Hd, bind_lift_Ok, Hargs, bind_lift_Ok. unfold call. rewrite Ht. by eexists _, t.
Qed.

Lemma decompress_loop_decodes (self : BaseModel El) (d : decoder El) (s : list nat)
    (recs : list (pyval El)) :
  lookup_key (decoders self) "vc" = Ok d → Forall (decodes_to d s) recs →
  ∃ l ts,
    for_each (enumerate recs)
      (fun '(i, inp) reconstructed_video =>
         relabel (at_frame i)
           (recon ← IFrameModel.decompress_one self inp;
            mret (reconstructed_video ++ [recon])))
      [] = (l, Ok (PTensor <$> ts))
    ∧ length ts = length recs ∧ Forall (fun t => shape t = s) ts.
Proof.
  intros Hd. induction recs as [|r recs IH] using rev_ind; intros Hall.
  - exists [], []. done.
  - apply Forall_app in Hall as [Hall Hr]. rewrite Forall_singleton in Hr.
    destruct (IH Hall) as (l & ts & Hloop & Hlen & Hts).
    destruct (decompress_one_decodes self d s r Hd Hr) as (lr & t & Hone & Hs).
    rewrite enumerate_snoc, for_each_snoc, Hloop, bind_Ok, Hone, bind_Ok.
    eexists _, (ts ++ [t]). split; [|split].
    + rewrite fmap_app. reflexivity.
    + rewrite !length_app. cbn. lia.
    + apply Forall_app. split; [done|]. by apply Forall_singleton.
Qed.

Lemma stack_frames_tensors (ts : list (tensor El)) :
  stack_frames (PTensor <$> ts) = stack1 ts.
Proof.
  unfold stack_frames.
  assert (Hgen : ∀ (us acc : list (tensor El)),
    for_each (PTensor <$> us) (fun v acc => t ← as_tensor v; Ok (acc ++ [t])) acc
    = Ok (acc ++ us)).
  { induction us as [|u us IH]; intros acc; cbn.
    - by rewrite app_nil_r.
    - rewrite IH. by rewrite <- app_assoc. }
  rewrite Hgen. done.
Qed.

Lemma stack1_shape (ts : list (tensor El)) (b : nat) (rest : list nat) :
  ts ≠ [] → Forall (fun t => shape t = b :: rest) ts →
  ∃ t, stack1 ts = Ok t ∧ shape t = b :: length ts :: rest.
Proof.
  intros Hne Hall. destruct ts as [|t0 ts]; [done|]. unfold stack1.
  pose proof (Forall_inv Hall) as H0. cbn beta in H0.
  assert (forallb (same_shape (shape t0)) (t0 :: ts) = true) as ->.
  { apply forallb_forall. intros t Ht. apply list_elem_of_In in Ht.
    rewrite Forall_forall in Hall. unfold same_shape.
    apply bool_decide_eq_true_2. rewrite H0. by apply Hall. }
  rewrite H0. eexists. split; [reflexivity|done].
Qed.

(** C3, as amended.  For an independent model with the task "vc" and a video
    with at least one frame, [compress] returns a mapping whose entry "vc" is
    the sequence of the records, one for every frame.  [decompress] is given
    that sequence, not the mapping: whenever it returns, the tensor has the
    frame count of the video; and when the encoder and the compression head
    restore the shape of a frame, it does return, and the tensor has the shape
    of the video. *)
Theorem iframe_round_trip_shape (self : BaseModel El) (video : tensor El)
    (b n : nat) (rest : list nat) l out :
  shape video = b :: n :: rest → 1 ≤ n →
  "vc" ∈ task_name self →
  IFrameModel.compress self video = (l, Ok out) →
  ∃ recs,
    dict_get out "vc" = Some recs
    ∧ length recs = n
    ∧ (∀ l' t, IFrameModel.decompress self recs = (l', Ok t) →
         size_at t 1 = size_at video 1)
    ∧ (restores_frames self b rest →
       ∃ l' t,
         IFrameModel.decompress self recs = (l', Ok t)
         ∧ size_at t 1 = size_at video 1
         ∧ shape t = shape video).
Proof.
  intros Hs Hn Ht H.
  assert (size_at video 1 = Ok n) as Hsize.
  { unfold size_at. rewrite Hs. by apply (getitem_nat _ 1). }
  destruct (compress_records self video n l out Ht Hsize H) as (recs & Hget & Hlen & Hrec).
  exists recs. split; [done|]. split; [done|]. split.
  - intros l' t Hd. apply iframe_decompress_frames in Hd as (b' & rest' & Hshape).
    rewrite Hsize. unfold size_at. rewrite Hshape, Hlen. by apply (getitem_nat _ 1).
  - intros Hcodec.
    assert (∃ d, lookup_key (decoders self) "vc" = Ok d) as [d Hd].
    { destruct (lookup_lt_is_Some_2 recs 0) as [v Hv]; [lia|].
      destruct (Hrec 0 v Hv) as (inp & _ & tn & ss & d & _ & _ & Hd & _). by exists d. }
    assert (Forall (decodes_to d (b :: rest)) recs) as Hall.
    { apply Forall_lookup. intros i v Hv.
      destruct (Hrec i v Hv) as (inp & Hinp & Htv).
      apply (Hcodec inp v d); [|done|done].
      apply (narrow1_frame_shape video inp b n rest i Hs); [|done].
      apply lookup_lt_Some in Hv. lia. }
    destruct (decompress_loop_decodes self d (b :: rest) recs Hd Hall)
      as (l' & ts & Hloop & Hlts & Hts).
    destruct (stack1_shape ts b rest) as (t & Hstack & Hshape); [|done|].
    { intros ->. cbn in Hlts. lia. }
    exists l', t. split.
    + unfold IFrameModel.decompress. rewrite Hloop, bind_Ok.
      rewrite stack_frames_tensors, Hstack. unfold lift. cbn. by rewrite app_nil_r.
    + split; [|by rewrite Hshape, Hs, Hlts, Hlen].
      rewrite Hsize. unfold size_at. rewrite Hshape, Hlts, Hlen.
      by apply (getitem_nat _ 1).
Qed.

End RoundTrip.

(** C3, witness: [Examples.iframe] on a video of four frames. *)
Lemma iframe_round_trip_shape_witness :
  ∃ recs,
    dict_get (match (Instance.compress Examples.iframe Examples.video).2 with
              | Ok out => out | Raise _ => [] end) "vc" = Some recs
    ∧ length recs = 4
    ∧ (∀ l' t, IFrameModel.decompress (base_of Examples.iframe) recs = (l', Ok t) →
         size_at t 1 = size_at Examples.video 1)
    ∧ ∃ l' t,
        IFrameModel.decompress (base_of Examples.iframe) recs = (l', Ok t)
        ∧ size_at t 1 = size_at Examples.video 1
        ∧ shape t = shape Examples.video.
Proof.
  destruct (iframe_round_trip_shape Z (base_of Examples.iframe) Examples.video 1 4 [1; 1; 2]
              (Instance.compress Examples.iframe Examples.video).1
              (match (Instance.compress Examples.iframe Examples.video).2 with
               | Ok out => out | Raise _ => [] end))
    as (recs & Hget & Hlen & Hcount & Hshape).
  - reflexivity.
  - lia.
  - apply (bool_decide_unpack _). vm_compute. exact I.
  - vm_compute. reflexivity.
  - exists recs. split; [exact Hget|]. split; [exact Hlen|]. split; [exact Hcount|].
    apply Hshape.
    intros [sh dt] v d Hs (tn & ss & d' & Htn & Hss & Hd' & ->) Hd.
    cbn [shape] in Hs. subst sh.
    destruct tn as [|[|tn]]; [|discriminate Htn|discriminate Htn].
    vm_compute in Hd'. injection Hd' as <-. vm_compute in Hd. injection Hd as <-.
    injection Hss as <-. eexists _, _. split; [reflexivity|]. split; reflexivity.
Defined.

(** C3, counterexample: [decompress] applied to the output of [compress] as
    it is.  The output is a mapping, and the loop of [decompress] runs over its
    keys: the compression head is called on the characters of "vc" and of
    "vsr", two calls for a video of four frames, and no tensor is returned. *)
Lemma decompress_of_compress_output :
  ∃ out,
    Instance.compress Examples.iframe Examples.video
    = ((Instance.compress Examples.iframe Examples.video).1, Ok out)
    ∧ size_at Examples.video 1 = Ok 4
    ∧ Spec.iterate out = [PStr "vc"; PStr "vsr"]
    ∧ Instance.decompress Examples.iframe (Spec.iterate out)
      = ([Event 0 Self (decoder_decompress "vc") [PStr "v"; PStr "c"];
          Event 1 Self (decoder_decompress "vc") [PStr "v"; PStr "s"; PStr "r"]],
         Raise TypeError).
Proof.
  eexists. split; [vm_compute; reflexivity|]. split; [reflexivity|].
  split; vm_compute; reflexivity.
Qed.

(** ** [compress_with_adaptation] and [decompress] in step *)
Section DriftFree.
Variable El : Type.
Import Spec.
Implicit Types (out : dict (list (pyval El))) (results : dict (pyval El)).

Lemma drift_free_at_mono (m : model El) (i : nat) (el dl el' dl' : list (event El)) :
  drift_free_at m i el dl → drift_free_at m i (el ++ el') (dl ++ dl').
Proof.
  intros (recon & w & args & H1 & H2 & H3 & H4 & H5). exists recon, w, args.
  split; [apply elem_of_app; by left|]. split; [apply elem_of_app; by left|].
  split; [apply elem_of_app; by left|]. split; [apply elem_of_app; by left|]. done.
Qed.

Lemma predicted_pos (k : Z) (x : nat) : predicted k x → ∃ j, x = S j.
Proof.
  unfold predicted. destruct x as [|j]; [|by exists j].
  intros H. destruct H. apply Zmod_0_l.
Qed.

(** The decoder loop on the records of the encoder loop: when every frame of
    the two loops is in step, the decoder loop goes through all the records,
    and at every predicted frame the two sides decode from the same
    reference. *)
Lemma lockstep (m : model El) (k : Z)
    (eframe : nat → dict (list (pyval El)) * pyval El
              → M (event El) (dict (list (pyval El)) * pyval El))
    (dframe : nat → pyval El → list (pyval El) * pyval El
              → M (event El) (list (pyval El) * pyval El))
    (n : nat) s0 elog s :
  dict_get s0.1 "vc" = Some [] →
  in_step m k eframe dframe →
  for_each (range n) (fun i st => relabel (at_frame i) (eframe i st)) s0 = (elog, Ok s) →
  ∃ recs dl st,
    dict_get s.1 "vc" = Some recs ∧ length recs = n
    ∧ for_each (enumerate recs)
        (fun '(i, inp) st => relabel (at_frame i) (dframe i inp st)) ([], PNone)
      = (dl, Ok st)
    ∧ ∀ i, S i < n → predicted k (S i) → drift_free_at m i elog dl.
Proof.
  intros H0 Hstep Hloop.
  set (e := the_encoder (base_of m)).
  apply (for_each_inv
    (fun done s el =>
       ∃ recs dl recons pf,
         dict_get s.1 "vc" = Some recs ∧ length recs = length done
         ∧ for_each (enumerate recs)
             (fun '(i, inp) st => relabel (at_frame i) (dframe i inp st)) ([], PNone)
           = (dl, Ok (recons, pf))
         ∧ (∀ j, length done = S j →
              pf = enc_extract_feats e [s.2]
              ∧ Event j Self encoder_extract_feats [s.2] ∈ dl)
         ∧ ∀ i, S i < length done → predicted k (S i) → drift_free_at m i el dl))
    in Hloop.
  - destruct Hloop as (recs & dl & recons & pf & Hget & Hlen & Hdec & _ & Hall).
    unfold range in Hlen, Hall. rewrite length_seq in Hlen, Hall.
    by exists recs, dl, (recons, pf).
  - exists [], [], [], PNone. split; [done|]. split; [done|]. split; [done|].
    split; [intros j Hj; discriminate Hj|]. intros i Hi. cbn in Hi. lia.
  - intros done x todo [o p] el lb [o' p'] Hxs
      (recs & dl & recons & pf & Hget & Hlen & Hdec & Hprev & Hall) Hb.
    apply range_split in Hxs as [-> Hx]. unfold range in Hlen, Hprev, Hall.
    rewrite length_seq in Hlen, Hprev, Hall.
    apply relabel_Ok in Hb as (lb0 & Hb & ->). cbn [fst snd] in *.
    destruct (Hstep x o p lb0 o' p' recons pf Hb) as (v & ld & Happ & Hd & Hext & Hpred).
    { intros Hp. destruct (predicted_pos k x Hp) as [j ->].
      by destruct (Hprev j eq_refl). }
    exists (recs ++ [v]), (dl ++ (at_frame x <$> ld)), (recons ++ [p']),
      (enc_extract_feats e [p']).
    split; [by apply (appends_one El "vc" o o' v recs)|].
    split; [rewrite !length_app; unfold range; rewrite length_seq; cbn; lia|].
    split; [|split].
    + rewrite enumerate_snoc, for_each_snoc, Hdec, bind_Ok, Hlen, Hd. reflexivity.
    + intros j Hj. unfold range in Hj. rewrite length_app, length_seq in Hj. cbn in Hj.
      assert (j = x) as -> by lia. split; [done|].
      apply elem_of_app. right.
      by apply (list_elem_of_fmap_2 (at_frame x) _ _ Hext).
    + intros i Hi Hp. unfold range in Hi. rewrite length_app, length_seq in Hi. cbn in Hi.
      destruct (decide (S i = x)) as [<-|Hne].
      * destruct (Hpred Hp) as (w & args & Hdr & He & Hdd & Href).
        destruct (Hprev i eq_refl) as [_ Hfeat].
        exists p, w, args.
        split; [apply elem_of_app; by left|].
        split; [apply elem_of_app; right;
                by apply (list_elem_of_fmap_2 (at_frame (S i)) _ _ Hdr)|].
        split; [apply elem_of_app; right;
                by apply (list_elem_of_fmap_2 (at_frame (S i)) _ _ He)|].
        split; [apply elem_of_app; right;
                by apply (list_elem_of_fmap_2 (at_frame (S i)) _ _ Hdd)|].
        done.
      * apply drift_free_at_mono. apply Hall; [lia|done].
Qed.

(** *** The frames of the two loops *)

(** The predicted branch of the encoder: the record appended under "vc", and
    the decode the encoder runs on it. *)
Lemma adapt_tasks_vc (self : BaseModel El) (s_rep : pyval El) out pr l out' pr' :
  NoDup (task_name self) → "vc" ∈ task_name self →
  adapt_tasks self s_rep (out, pr) = (l, Ok (out', pr')) →
  ∃ tn ss d ref rest,
    task_name self !! tn = Some "vc"
    ∧ task_rep self s_rep tn "vc" = Ok ss
    ∧ lookup_key (decoders self) "vc" = Ok d
    ∧ py_getitem ss 0 = Ok ref
    ∧ py_getitem (dec_compress d [ss]) 0 = Ok (PTuple rest)
    ∧ appends "vc" out out' [dec_compress d [ss]]
    ∧ pr' = dec_decompress d (ref :: rest)
    ∧ Event 0 Self (decoder_decompress "vc") (ref :: rest) ∈ l.
Proof.
  intros Hnd Ht H.
  destruct (adapt_tasks_appends El self s_rep out pr l out' pr' Hnd H)
    as (Htasks & Hvc & _).
  destruct (Htasks "vc") as [Hin _].
  destruct (Hin Ht) as (v & (tn' & ss' & d' & Htn' & Hss' & Hd' & Hv) & Happ).
  destruct (Hvc Ht)
    as (args & (tn & ss & d & ref & rec & inp & Htn & Hss & Hd & Href & Hrec & Hinp
                & Hargs & Hpr) & Hev).
  assert (tn' = tn) as -> by exact (NoDup_lookup _ _ _ _ Hnd Htn' Htn).
  rewrite Hss in Hss'. injection Hss' as <-. rewrite Hd in Hd'. injection Hd' as <-.
  rewrite bool_decide_eq_true_2 in Hv by done. subst v.
  destruct rec as [| | | |rest|]; try discriminate Hinp.
  injection Hinp as <-. injection Hargs as <-.
  by exists tn, ss, d, ref, rest.
Qed.

(** The keyframe branch of the encoder: the reconstruction it keeps is the
    decode of the first item of the record under "vc". *)
Lemma keyframe_reference (im : model El) (inp : pyval El) l1 results l2 pr :
  PFrameModel.iframe_compress_one im inp = (l1, Ok results) →
  PFrameModel.iframe_decompress_one im (PFrameModel.first_record results) = (l2, Ok pr) →
  ∃ vc, dict_get results "vc" = Some vc
    ∧ PFrameModel.iframe_decompress_one im (py_getitem vc 0) = (l2, Ok pr)
    ∧ is_Ok (py_getitem vc 0)
    ∧ NoDup (dict_keys results).
Proof.
  intros Hres Hpr.
  apply iframe_compress_one_returns in Hres as (b & l0 & -> & Hres & _).
  apply compress_one_results in Hres as (Hnd & _ & _).
  unfold PFrameModel.first_record, lookup_key in Hpr.
  destruct (dict_get results "vc") as [vc|] eqn:Hvc; [|done].
  exists vc. split; [done|]. split; [exact Hpr|]. split; [|done].
  cbn [PFrameModel.iframe_decompress_one] in Hpr.
  change (Ok vc ≫= λ vc0, py_getitem vc0 0) with (py_getitem vc 0) in Hpr.
  destruct (py_getitem vc 0); [done|discriminate Hpr].
Qed.

(** The two branches of a frame of [PFrameModel.decompress]. *)
Lemma decompress_frame_keyframe (b : BaseModel El) (im : model El) (k : Z) (x : nat)
    (v : pyval El) (recons : list (pyval El)) (pf : pyval El) l pr :
  k ≠ 0%Z → (Z.of_nat x mod k = 0)%Z →
  PFrameModel.iframe_decompress_one im (py_getitem v 0) = (l, Ok pr) →
  ∃ ld,
    PFrameModel.decompress_frame b im (JInt k) x v (recons, pf)
    = (ld, Ok (recons ++ [pr], enc_extract_feats (the_encoder b) [pr]))
    ∧ Event 0 Self encoder_extract_feats [pr] ∈ ld.
Proof.
  intros Hk Hx Hdec. unfold PFrameModel.decompress_frame.
  rewrite is_keyframe_int, bind_lift_Ok by done.
  destruct (Z.eqb_spec (Z.of_nat x mod k) 0) as [_|Hne]; [|done].
  rewrite Hdec, bind_Ok. unfold call. rewrite bind_Ok. cbn.
  eexists. split; [reflexivity|]. in_log.
Qed.

Lemma decompress_frame_predicted (b : BaseModel El) (im : model El) (k : Z) (x : nat)
    (v : pyval El) (recons : list (pyval El)) (pf : pyval El) (d : decoder El)
    (items : list (pyval El)) :
  k ≠ 0%Z → (Z.of_nat x mod k ≠ 0)%Z →
  py_getitem v 0 = Ok (PTuple items) →
  lookup_key (decoders b) "vc" = Ok d →
  ∃ ld,
    PFrameModel.decompress_frame b im (JInt k) x v (recons, pf)
    = (ld, Ok (recons ++ [dec_decompress d (pf :: items)],
               enc_extract_feats (the_encoder b) [dec_decompress d (pf :: items)]))
    ∧ Event 0 Self encoder_extract_feats [dec_decompress d (pf :: items)] ∈ ld
    ∧ Event 0 Self (decoder_decompress "vc") (pf :: items) ∈ ld.
Proof.
  intros Hk Hx Hrec Hd. unfold PFrameModel.decompress_frame.
  rewrite is_keyframe_int, bind_lift_Ok by done.
  destruct (Z.eqb_spec (Z.of_nat x mod k) 0) as [Heq|_]; [done|].
  rewrite Hrec, bind_lift_Ok. cbn [tuple_cons]. rewrite bind_lift_Ok.
  unfold decoder_of. rewrite Hd, bind_lift_Ok. cbn [py_iter]. rewrite bind_lift_Ok.
  unfold call. rewrite !bind_Ok. cbn.
  eexists. split; [reflexivity|]. split; in_log.
Qed.

Lemma pframe_in_step (b : BaseModel El) (im : model El) (k : Z) (a : json)
    (video : tensor El) :
  k ≠ 0%Z → NoDup (task_name b) → "vc" ∈ task_name b →
  mirrors (PFrame b im (JInt k) a) →
  in_step (PFrame b im (JInt k) a) k
    (PFrameModel.adapt_frame b im (JInt k) video)
    (PFrameModel.decompress_frame b im (JInt k)).
Proof.
  intros Hk Hnd Ht Hmir x out pr lb out' pr' recons pf He Hpf.
  cbn [base_of] in *. unfold PFrameModel.adapt_frame in He.
  rewrite is_keyframe_int, bind_lift_Ok in He by done.
  unfold predicted in *.
  destruct (Z.eqb_spec (Z.of_nat x mod k) 0) as [Hx|Hx].
  - invert_bind He as l1 inp Hinp. invert_bind He as l2 results Hres.
    invert_bind He as l3 pr1 Hpr. invert_bind He as l4 out1 Ha.
    apply lift_returns in Ha as [Ha ->]. apply ret_returns in He as [[= <- <-] ->].
    destruct (keyframe_reference im _ _ _ _ _ Hres Hpr) as (vc & Hvc & Hdec & _ & Hndr).
    pose proof (append_results_appends El "vc" results out out1 Hndr Ha) as Happ.
    rewrite Hvc in Happ.
    destruct (decompress_frame_keyframe b im k x vc recons pf l3 pr1 Hk Hx Hdec)
      as (ld & Hframe & Hext).
    exists vc, ld. split; [exact Happ|]. split; [exact Hframe|]. split; [exact Hext|].
    intros Hp. by destruct Hp.
  - invert_bind He as l1 inp Hinp. invert_bind He as l2 s_rep Hs.
    apply call_returns in Hs as [-> ->].
    destruct (adapt_tasks_vc b _ out pr _ out' pr' Hnd Ht He)
      as (tn & ss & d & ref & items & Htn & Hss & Hd & Href & Hrec & Happ & Hpr & Hev).
    pose proof (Hmir inp pr tn ss ref Htn Hss Href) as Hmirror.
    rewrite <- (Hpf Hx) in Hmirror. subst ref.
    destruct (decompress_frame_predicted b im k x (dec_compress d [ss]) recons pf d items
                Hk Hx Hrec Hd) as (ld & Hframe & Hext & Hdd).
    rewrite <- Hpr in Hframe, Hext.
    exists (dec_compress d [ss]), ld. split; [exact Happ|]. split; [exact Hframe|].
    split; [exact Hext|]. intros _.
    exists inp, (pf :: items). split; [cbn [driven_by]; in_log|].
    split; [in_log|]. split; [exact Hdd|].
    cbn [reference_of base_of]. exists items. by rewrite (Hpf Hx).
Qed.

(** The two branches of a frame of [PFrameModelWithMotion.decompress]. *)
Lemma motion_decompress_frame_keyframe (b : BaseModel El) (im : model El) (k : Z) (x : nat)
    (v : pyval El) (recons : list (pyval El)) (pf : pyval El) l pr :
  k ≠ 0%Z → (Z.of_nat x mod k = 0)%Z →
  PFrameModel.iframe_decompress_one im (py_getitem v 0) = (l, Ok pr) →
  ∃ ld,
    PFrameModelWithMotion.decompress_frame b im (JInt k) x v (recons, pf)
    = (ld, Ok (recons ++ [pr], enc_extract_feats (the_encoder b) [pr]))
    ∧ Event 0 Self encoder_extract_feats [pr] ∈ ld.
Proof.
  intros Hk Hx Hdec. unfold PFrameModelWithMotion.decompress_frame.
  rewrite is_keyframe_int, bind_lift_Ok by done.
  destruct (Z.eqb_spec (Z.of_nat x mod k) 0) as [_|Hne]; [|done].
  rewrite Hdec, bind_Ok. unfold call. rewrite bind_Ok. cbn.
  eexists. split; [reflexivity|]. in_log.
Qed.

Lemma motion_decompress_frame_predicted (b : BaseModel El) (im : model El) (k : Z)
    (x : nat) (v : pyval El) (recons : list (pyval El)) (pf : pyval El) (d : decoder El)
    (items : list (pyval El)) (motion : pyval El) (margs : list (pyval El)) :
  let e := the_encoder b in
  let ref := enc_align_features e [pf; enc_decompress e margs] in
  k ≠ 0%Z → (Z.of_nat x mod k ≠ 0)%Z →
  py_getitem v 1 = Ok motion → py_iter motion = Ok margs →
  py_getitem v 0 = Ok (PTuple items) →
  lookup_key (decoders b) "vc" = Ok d →
  ∃ ld,
    PFrameModelWithMotion.decompress_frame b im (JInt k) x v (recons, pf)
    = (ld, Ok (recons ++ [dec_decompress d (ref :: items)],
               enc_extract_feats e [dec_decompress d (ref :: items)]))
    ∧ Event 0 Self encoder_extract_feats [dec_decompress d (ref :: items)] ∈ ld
    ∧ Event 0 Self (decoder_decompress "vc") (ref :: items) ∈ ld.
Proof.
  intros e ref Hk Hx Hmo Hmargs Hrec Hd. unfold PFrameModelWithMotion.decompress_frame.
  rewrite is_keyframe_int, bind_lift_Ok by done.
  destruct (Z.eqb_spec (Z.of_nat x mod k) 0) as [Heq|_]; [done|].
  rewrite Hmo, bind_lift_Ok, Hmargs, bind_lift_Ok. unfold call. rewrite !bind_Ok.
  cbn [fst snd]. rewrite Hrec, bind_lift_Ok. cbn [tuple_cons]. rewrite bind_lift_Ok.
  unfold decoder_of. rewrite Hd, bind_lift_Ok. cbn [py_iter]. rewrite bind_lift_Ok.
  cbn [fst snd]. rewrite ?bind_Ok. cbn.
  eexists. split; [reflexivity|]. split; in_log.
Qed.

(** Appending the motion slot leaves the first item of the list. *)
Lemma first_item_app (items : list (pyval El)) (x : pyval El) :
  is_Ok (py_getitem (PList items) 0) →
  py_getitem (PList (items ++ [x])) 0 = py_getitem (PList items) 0.
Proof.
  destruct items as [|y items]; [done|]. intros _. cbn [py_getitem app].
  change 0%Z with (Z.of_nat 0).
  by rewrite (getitem_nat (y :: items ++ [x]) 0 y), (getitem_nat (y :: items) 0 y).
Qed.

Lemma motion_in_step (b : BaseModel El) (im : model El) (k : Z) (a : json)
    (video : tensor El) :
  k ≠ 0%Z → NoDup (task_name b) → "vc" ∈ task_name b →
  mirrors (PFrameWithMotion b im (JInt k) a) →
  in_step (PFrameWithMotion b im (JInt k) a) k
    (PFrameModelWithMotion.adapt_frame b im (JInt k) video)
    (PFrameModelWithMotion.decompress_frame b im (JInt k)).
Proof.
  intros Hk Hnd Ht Hmir x out pr lb out' pr' recons pf He Hpf.
  cbn [base_of] in *. unfold PFrameModelWithMotion.adapt_frame in He.
  rewrite is_keyframe_int, bind_lift_Ok in He by done.
  unfold predicted in *.
  destruct (Z.eqb_spec (Z.of_nat x mod k) 0) as [Hx|Hx].
  - invert_bind He as l1 inp Hinp. invert_bind He as l2 results Hres.
    invert_bind He as l3 pr1 Hpr.
    invert_bind He as l4 results' Hs. apply lift_returns in Hs as [Hs ->].
    invert_bind He as l5 out1 Ha.
    apply lift_returns in Ha as [Ha ->]. apply ret_returns in He as [[= <- <-] ->].
    destruct (keyframe_reference im _ _ _ _ _ Hres Hpr) as (vc & Hvc & Hdec & Hok & Hndr).
    apply (append_sentinel_results El) in Hs as (items & Hvc0 & Hvc' & _ & Hnd').
    rewrite Hvc in Hvc0. injection Hvc0 as ->.
    pose proof (append_results_appends El "vc" results' out out1 (Hnd' Hndr) Ha) as Happ.
    rewrite Hvc' in Happ. rewrite <- (first_item_app items sentinel Hok) in Hdec.
    destruct (motion_decompress_frame_keyframe b im k x _ recons pf l3 pr1 Hk Hx Hdec)
      as (ld & Hframe & Hext).
    eexists _, ld. split; [exact Happ|]. split; [exact Hframe|]. split; [exact Hext|].
    intros Hp. by destruct Hp.
  - invert_bind He as l1 inp Hinp. invert_bind He as l2 s_rep Hs.
    apply call_returns in Hs as [-> ->].
    destruct (adapt_tasks_vc b _ out pr _ out' pr' Hnd Ht He)
      as (tn & ss & d & ref & items & Htn & Hss & Hd & Href & Hrec & Happ & Hpr & Hev).
    destruct (Hmir inp pr tn ss d ref Htn Hss Hd Href)
      as (motion & margs & Hmo & Hmargs & Hmirror).
    rewrite <- (Hpf Hx) in Hmirror. subst ref.
    destruct (motion_decompress_frame_predicted b im k x (dec_compress d [ss]) recons pf
                d items motion margs Hk Hx Hmo Hmargs Hrec Hd)
      as (ld & Hframe & Hext & Hdd).
    cbv zeta in Hframe, Hext, Hdd. rewrite <- Hpr in Hframe, Hext.
    exists (dec_compress d [ss]), ld. split; [exact Happ|]. split; [exact Hframe|].
    split; [exact Hext|]. intros _.
    exists inp, (enc_align_features (the_encoder b)
                   [pf; enc_decompress (the_encoder b) margs] :: items).
    split; [cbn [driven_by]; in_log|].
    split; [in_log|]. split; [exact Hdd|].
    cbn [reference_of base_of]. exists margs, items. by rewrite (Hpf Hx).
Qed.

(** C1.  For a predictive model with [adaptation] true whose encoder takes
    its reference from the reconstruction it is given, and every predicted
    frame index i+1 of a video: in [decompress] of the records of
    [compress], the reconstruction of frame i whose features the decoder
    extracts ([prev_feat = encoder.extract_feats(recon)]) is the [prev_recon]
    the encoder was driven by when it made frame i+1, and the decoder decodes
    frame i+1 by the very call the encoder made when it re-ran the decode: the
    same arguments, the first of them the reference made of those features. *)
Theorem adaptation_drift_free (m : model El) (k : Z) (a : json) (video : tensor El)
    (n : nat) elog out :
  interval_of m = Some (JInt k) → adaptation_of m = Some a → truthy a = true →
  NoDup (task_name (base_of m)) → "vc" ∈ task_name (base_of m) →
  mirrors m →
  size_at video 1 = Ok n →
  Instance.compress m video = (elog, Ok out) →
  ∃ recs, dict_get out "vc" = Some recs ∧ length recs = n
    ∧ ∀ i, S i < n → predicted k (S i) →
        drift_free_at m i elog (Instance.decompress m recs).1.
Proof.
  intros Hm Ha Hadapt Hnd Ht Hmir Hn H.
  destruct (decide (k = 0%Z)) as [->|Hk].
  { destruct n as [|n]; [|by rewrite (compress_interval_0 El m video n Hm Hn) in H].
    exists []. destruct m as [b|b im k' a'|b im k' a']; [done| |];
      injection Ha as ->; cbn [Instance.compress base_of] in *;
      unfold PFrameModel.compress, PFrameModelWithMotion.compress,
        PFrameModel.compress_with_adaptation,
        PFrameModelWithMotion.compress_with_adaptation in H;
      rewrite Hadapt, Hn in H; injection H as _ <-;
      (split; [cbn [fst]; by rewrite empty_out_get, bool_decide_eq_true_2|]);
      (split; [done|intros i Hi; lia]). }
  destruct m as [b|b im k' a'|b im k' a']; [done| |];
    injection Hm as ->; injection Ha as ->; cbn [Instance.compress base_of] in *.
  - unfold PFrameModel.compress in H. rewrite Hadapt in H.
    unfold PFrameModel.compress_with_adaptation in H. rewrite Hn, bind_lift_Ok in H.
    invert_bind H as l1 st Hloop. apply ret_returns in H as [<- ->].
    eapply (lockstep (PFrame b im (JInt k) a) k) in Hloop
      as (recs & dl & st' & Hget & Hlen & Hdec & Hall);
      [| |by apply pframe_in_step].
    + exists recs. split; [done|]. split; [done|]. intros i Hi Hp.
      cbn [Instance.decompress]. unfold PFrameModel.decompress.
      rewrite Hdec, bind_Ok. cbn [fst]. apply drift_free_at_mono. by apply Hall.
    + cbn [fst]. by rewrite empty_out_get, bool_decide_eq_true_2.
  - unfold PFrameModelWithMotion.compress in H. rewrite Hadapt in H.
    unfold PFrameModelWithMotion.compress_with_adaptation in H.
    rewrite Hn, bind_lift_Ok in H.
    invert_bind H as l1 st Hloop. apply ret_returns in H as [<- ->].
    eapply (lockstep (PFrameWithMotion b im (JInt k) a) k) in Hloop
      as (recs & dl & st' & Hget & Hlen & Hdec & Hall);
      [| |by apply motion_in_step].
    + exists recs. split; [done|]. split; [done|]. intros i Hi Hp.
      cbn [Instance.decompress]. unfold PFrameModelWithMotion.decompress.
      rewrite Hdec, bind_Ok. cbn [fst]. apply drift_free_at_mono. by apply Hall.
    + cbn [fst]. by rewrite empty_out_get, bool_decide_eq_true_2.
Qed.

End DriftFree.

(** C1, witness: [Examples.pframe_with_motion 2 true] on a video of four
    frames. *)
Lemma adaptation_drift_free_witness :
  ∃ recs,
    dict_get (match (Instance.compress (Examples.pframe_with_motion 2 true)
                       Examples.video).2 with
              | Ok out => out | Raise _ => [] end) "vc" = Some recs
    ∧ length recs = 4
    ∧ ∀ i, S i < 4 → Spec.predicted 2 (S i) →
        Spec.drift_free_at (Examples.pframe_with_motion 2 true) i
          (Instance.compress (Examples.pframe_with_motion 2 true) Examples.video).1
          (Instance.decompress (Examples.pframe_with_motion 2 true) recs).1.
Proof.
  apply (adaptation_drift_free Z (Examples.pframe_with_motion 2 true) 2 (JBool true)
           Examples.video 4).
  - reflexivity.
  - reflexivity.
  - reflexivity.
  - apply (bool_decide_unpack _). vm_compute. exact I.
  - apply (bool_decide_unpack _). vm_compute. exact I.
  - intros w pr tn ss d ref Htn Hss Hd Href.
    destruct tn as [|[|tn]]; [|discriminate Htn|discriminate Htn].
    vm_compute in Hd. injection Hd as <-. injection Hss as <-.
    vm_compute in Href. injection Href as <-.
    eexists _, _. split; [reflexivity|]. split; reflexivity.
  - reflexivity.
  - vm_compute. reflexivity.
Defined.
(** ** src/metrics.py: what the metric functions compute *)
Section MetricValues.
Variable El : Type.
Variable peak_signal_noise_ratio : tensor El → tensor El → result El.
Variable structural_similarity_index_measure : tensor El → tensor El → result El.
Variable mean_of : list El → El.
Variable sum_of : list El → El.
Import Props.

Local Abbreviation psnr :=
  (Metrics.psnr El peak_signal_noise_ratio mean_of sum_of).
Local Abbreviation ssim :=
  (Metrics.ssim El structural_similarity_index_measure mean_of sum_of).
Local Abbreviation aggregate_values := (Metrics.aggregate_values El mean_of sum_of).
Local Abbreviation scalar := (Metrics.scalar El).

Lemma for_each_result_ext {X S} (xs : list X) (body body' : X → S → result S) (s : S) :
  (∀ x t, x ∈ xs → body x t = body' x t) → for_each xs body s = for_each xs body' s.
Proof.
  revert s. induction xs as [|x xs IH]; intros s Hext; [done|]. cbn [for_each].
  rewrite (Hext x s (list_elem_of_here _ _)). destruct (body' x s) as [t|e]; [|done].
  cbn. apply IH. intros y u Hy. apply Hext. by apply list_elem_of_further.
Qed.

(** Past the two checks and for a target with no more items than the input,
    a helper aggregates the values of the metric on the pairs of items, or
    raises what the first failing call of the metric raised. *)
Lemma helper_values (f : tensor El → tensor El → result El) (input target : tensor El)
    (n m : nat) (rest rest' : list nat) (aggregate : string) :
  shape target = n :: rest → shape input = m :: rest' → n ≤ m →
  (values ← Metrics.per_item El
              (fun a b => mbind (M:=result) (fun v : El => Ok (scalar v)) (f a b))
              input target;
   aggregate_values values aggregate)
  = (mbind (M:=result) (fun p : list El => aggregate_values (scalar <$> p) aggregate)
       (item_values f input target n)).
Proof.
  intros Ht Hi Hnm. rewrite (per_item_values El f input target n m rest rest' Ht Hi Hnm).
  by destruct (item_values f input target n).
Qed.

Lemma helper_aggregates (f : tensor El → tensor El → result El) (input target : tensor El)
    (n : nat) (p : list El) :
  0 < n → item_values f input target n = Ok p →
  aggregate_values (scalar <$> p) "none" = Ok (Tensor [n] p)
  ∧ aggregate_values (scalar <$> p) "mean" = Ok (scalar (mean_of p))
  ∧ aggregate_values (scalar <$> p) "sum" = Ok (scalar (sum_of p)).
Proof.
  intros Hn Hp. apply item_values_length in Hp.
  assert (p ≠ []) as Hne by (intros ->; cbn in Hp; lia).
  destruct (aggregate_scalar_values El mean_of sum_of p Hne) as (H1 & H2 & H3).
  rewrite Hp in H1. done.
Qed.

(** X1.  On an input of rank 4 or 5 and a target with at least one item and
    no more items than the input, [psnr] and [ssim] call the torchmetrics
    function on every pair [input[i]], [target[i]] of items (for [ssim] on
    images, on the two items with a batch dimension of one).  When every call
    returns, "none" returns the values as a tensor of one dimension, "mean" and
    "sum" their mean and their sum as a tensor without dimension; when a call
    raises, the exception of the first such call is what [psnr] or [ssim]
    raises, whatever the aggregate. *)
Theorem metric_values (input target : tensor El) (n m : nat) (rest rest' : list nat) :
  shape target = n :: rest → shape input = m :: rest' → 0 < n → n ≤ m →
  rank input = 4 ∨ rank input = 5 →
  let psnr_items := item_values peak_signal_noise_ratio input target n in
  let ssim_items :=
    item_values (ssim_of_items structural_similarity_index_measure (rank input))
      input target n in
  (∀ p, psnr_items = Ok p →
     psnr input target "none" = Ok (Tensor [n] p)
     ∧ psnr input target "mean" = Ok (scalar (mean_of p))
     ∧ psnr input target "sum" = Ok (scalar (sum_of p)))
  ∧ (∀ s, ssim_items = Ok s →
       ssim input target "none" = Ok (Tensor [n] s)
       ∧ ssim input target "mean" = Ok (scalar (mean_of s))
       ∧ ssim input target "sum" = Ok (scalar (sum_of s)))
  ∧ (∀ aggregate e, aggregate ∈ Metrics.strategies →
       (psnr_items = Raise e → psnr input target aggregate = Raise e)
       ∧ (ssim_items = Raise e → ssim input target aggregate = Raise e)).
Proof.
  intros Ht Hi Hn Hnm Hr psnr_items ssim_items.
  assert (Hpsnr : ∀ aggregate, aggregate ∈ Metrics.strategies →
    psnr input target aggregate
    = mbind (M:=result) (fun p : list El => aggregate_values (scalar <$> p) aggregate)
        psnr_items).
  { intros aggregate Hin. rewrite (psnr_unfolds El) by done.
    by apply (helper_values _ input target n m rest rest'). }
  assert (Hssim : ∀ aggregate, aggregate ∈ Metrics.strategies →
    ssim input target aggregate
    = mbind (M:=result) (fun p : list El => aggregate_values (scalar <$> p) aggregate)
        ssim_items).
  { intros aggregate Hin. rewrite (ssim_unfolds El) by done.
    by apply (helper_values _ input target n m rest rest'). }
  split; [|split].
  - intros p Hp. rewrite !Hpsnr by (apply strategies_elem; auto).
    rewrite Hp, result_bind_Ok.
    by apply (helper_aggregates peak_signal_noise_ratio input target).
  - intros s Hs. rewrite !Hssim by (apply strategies_elem; auto).
    rewrite Hs, result_bind_Ok.
    by apply (helper_aggregates
                (ssim_of_items structural_similarity_index_measure (rank input))
                input target).
  - intros aggregate e Hin. rewrite Hpsnr, Hssim by done. split; by intros ->.
Qed.

(** X2.  When the target has more items than the input, the loop over the
    items of the target runs past the input: [psnr] and [ssim] raise
    [IndexError], the torchmetrics function having returned on the pairs of
    items the input has. *)
Theorem metric_target_longer (input target : tensor El) (aggregate : string)
    (n m : nat) (rest rest' : list nat) :
  aggregate ∈ Metrics.strategies → rank input = 4 ∨ rank input = 5 →
  shape target = n :: rest → shape input = m :: rest' → m < n →
  ((∀ i, i < m → is_Ok (peak_signal_noise_ratio (item input i) (item target i)) = true) →
   psnr input target aggregate = Raise IndexError)
  ∧ ((∀ i, i < m →
        is_Ok (ssim_of_items structural_similarity_index_measure (rank input)
                 (item input i) (item target i)) = true) →
     ssim input target aggregate = Raise IndexError).
Proof.
  intros Hin Hr Ht Hi Hmn. rewrite (psnr_unfolds El), (ssim_unfolds El) by done.
  unfold Metrics.per_item. rewrite (size_at_leading El target n rest Ht), !result_bind_Ok.
  unfold range. split; intros Hok.
  - rewrite (per_item_short El _ input target n m rest rest' n 0 []); [done..| |lia|lia|];
      [lia|]. intros i Hi'. apply Hok. lia.
  - rewrite (per_item_short El _ input target n m rest rest' n 0 []); [done..| |lia|lia|];
      [lia|]. intros i Hi'. apply Hok. lia.
Qed.

(** X3.  The loop runs over the items of the target: [psnr] and [ssim] look
    at no item of the input beyond the batch size of the target, so two inputs
    of the same rank with the same items below that size give the same result,
    whatever items follow. *)
Theorem metric_ignores_extra_items (input input' target : tensor El) (aggregate : string)
    (n : nat) (rest : list nat) :
  shape target = n :: rest → rank input = rank input' →
  (∀ i, i < n → index0 input (Z.of_nat i) = index0 input' (Z.of_nat i)) →
  psnr input target aggregate = psnr input' target aggregate
  ∧ ssim input target aggregate = ssim input' target aggregate.
Proof.
  intros Ht Hr Hitems.
  assert (Hloop : ∀ metric,
    Metrics.per_item El metric input target = Metrics.per_item El metric input' target).
  { intros metric. unfold Metrics.per_item.
    rewrite (size_at_leading El target n rest Ht), !result_bind_Ok.
    apply for_each_result_ext. intros i values Hi. apply elem_of_range in Hi.
    by rewrite (Hitems i Hi). }
  unfold Metrics.psnr, Metrics.ssim, Metrics._psnr_images, Metrics._psnr_videos,
    Metrics._ssim_images, Metrics._ssim_videos.
  rewrite <- Hr, !Hloop. done.
Qed.

End MetricValues.

(** X1, witness: a batch of two images of 12x12 pixels against itself; each
    image agrees with itself on its 144 pixels. *)
Lemma metric_values_witness :
  (Examples.psnrZ Examples.two_pictures Examples.two_pictures "none"
     = Ok (Tensor [2] [144; 144]%Z)
   ∧ Examples.psnrZ Examples.two_pictures Examples.two_pictures "mean"
     = Ok (Metrics.scalar Z (Examples.average [144; 144]%Z))
   ∧ Examples.psnrZ Examples.two_pictures Examples.two_pictures "sum"
     = Ok (Metrics.scalar Z (Examples.total [144; 144]%Z)))
  ∧ (Examples.ssimZ Examples.two_pictures Examples.two_pictures "none"
       = Ok (Tensor [2] [144; 144]%Z)
     ∧ Examples.ssimZ Examples.two_pictures Examples.two_pictures "mean"
       = Ok (Metrics.scalar Z (Examples.average [144; 144]%Z))
     ∧ Examples.ssimZ Examples.two_pictures Examples.two_pictures "sum"
       = Ok (Metrics.scalar Z (Examples.total [144; 144]%Z))).
Proof.
  destruct (metric_values Z Examples.peak_signal_noise_ratio
              Examples.structural_similarity_index_measure Examples.average Examples.total
              Examples.two_pictures Examples.two_pictures 2 2 [1; 12; 12] [1; 12; 12]
              eq_refl eq_refl ltac:(lia) ltac:(lia) (or_introl eq_refl))
    as (Hp & Hs & _).
  split; [apply Hp|apply Hs]; vm_compute; reflexivity.
Defined.

(** X2, witness: two images of 12x12 pixels against a target of three. *)
Lemma metric_target_longer_witness :
  Examples.psnrZ Examples.two_pictures Examples.three_pictures "mean" = Raise IndexError
  ∧ Examples.ssimZ Examples.two_pictures Examples.three_pictures "mean" = Raise IndexError.
Proof.
  destruct (metric_target_longer Z Examples.peak_signal_noise_ratio
              Examples.structural_similarity_index_measure Examples.average Examples.total
              Examples.two_pictures Examples.three_pictures "mean" 3 2
              [1; 12; 12] [1; 12; 12]
              ltac:(apply (bool_decide_unpack _); vm_compute; exact I)
              (or_introl eq_refl) eq_refl eq_refl ltac:(lia)) as [Hp Hs].
  split; [apply Hp|apply Hs]; intros i Hi;
    (destruct i as [|[|i]]; [vm_compute; reflexivity..|lia]).
Defined.

(** X3, witness: three images, of which the target's two are looked at. *)
Lemma metric_ignores_extra_items_witness :
  Examples.psnrZ Examples.two_images Examples.two_images "sum"
  = Examples.psnrZ MoreExamples.three_images Examples.two_images "sum"
  ∧ Examples.ssimZ Examples.two_images Examples.two_images "sum"
    = Examples.ssimZ MoreExamples.three_images Examples.two_images "sum".
Proof.
  apply (metric_ignores_extra_items Z Examples.peak_signal_noise_ratio
           Examples.structural_similarity_index_measure
           Examples.average Examples.total Examples.two_images MoreExamples.three_images
           Examples.two_images "sum" 2 [1; 1; 2]).
  - reflexivity.
  - reflexivity.
  - intros i Hi. destruct i as [|[|i]]; [reflexivity|reflexivity|lia].
Defined.

(** ** The windows of [compress] *)
Section Windows.
Variable El : Type.
Import Spec Props.
Implicit Types (out : dict (list (pyval El))) (results : dict (pyval El)).

(** The window of a predicted frame and the frame before it. *)
Lemma narrow1_pair_shape (video inp : tensor El) (b n : nat) (rest : list nat) (i : nat) :
  shape video = b :: n :: rest → 0 < i → i < n →
  narrow1 video (Z.of_nat i - 1) (Z.of_nat i + 1) = Ok inp →
  shape inp = b :: 2 :: rest.
Proof.
  intros Hs H0 Hi. unfold narrow1. rewrite Hs. intros [= <-]. cbn [shape].
  f_equal. f_equal. unfold norm_bound.
  destruct (Z.ltb_spec (Z.of_nat i - 1) 0); [lia|].
  destruct (Z.ltb_spec (Z.of_nat i + 1) 0); lia.
Qed.

Lemma size_at_frames (video : tensor El) (b n : nat) (rest : list nat) :
  shape video = b :: n :: rest → size_at video 1 = Ok n.
Proof. intros Hs. unfold size_at. rewrite Hs. by apply (getitem_nat _ 1). Qed.

(** Index 0 is no predicted frame, unless the interval is a NaN (zero is a
    multiple of every number, and of an infinity). *)
Lemma is_keyframe_false_pos (i : nat) (k : json) :
  k ≠ JFloat FNan → is_keyframe i k = Ok false → 0 < i.
Proof.
  intros Hk. destruct i as [|i]; [|lia]. unfold is_keyframe, py_mod.
  destruct k as [|[|]|z|[|neg|mx ex]|s]; try done.
  - destruct (z =? 0)%Z; [done|]. cbn. by rewrite Zmod_0_l.
  - unfold float_rem_is_zero.
    change (float_of_index 0) with (Ok (0%Z, 0%Z) : result (Z * Z)).
    rewrite result_bind_Ok. destruct (mx =? 0)%Z; [done|].
    by rewrite Z.mul_0_l, Zmod_0_l.
Qed.

Ltac no_window := first [exact I | done].

Lemma compress_one_windows (self : BaseModel El) (w : tensor El) (b : nat) (rest : list nat) :
  shape w = b :: 1 :: rest →
  Forall (window_event b rest) (IFrameModel.compress_one self (PTensor w)).1.
Proof.
  intros Hs. unfold IFrameModel.compress_one. repeat log_step; try no_window.
  by exists w.
Qed.

Lemma iframe_compress_one_windows (im : model El) (w : tensor El) (b : nat)
    (rest : list nat) :
  shape w = b :: 1 :: rest →
  Forall (window_event b rest) (PFrameModel.iframe_compress_one im (PTensor w)).1.
Proof.
  intros Hs. destruct im; try apply Forall_nil_2. cbn [PFrameModel.iframe_compress_one].
  apply (relabel_log_impl _ (window_event b rest)); [|by apply compress_one_windows].
  intros e He. exact He.
Qed.

Lemma decompress_one_windows (self : BaseModel El) (inputs : pyval El) (b : nat)
    (rest : list nat) :
  Forall (window_event b rest) (IFrameModel.decompress_one self inputs).1.
Proof. unfold IFrameModel.decompress_one. repeat log_step; no_window. Qed.

Lemma iframe_decompress_one_windows (im : model El) (inputs : result (pyval El)) (b : nat)
    (rest : list nat) :
  Forall (window_event b rest) (PFrameModel.iframe_decompress_one im inputs).1.
Proof.
  destruct im; try apply Forall_nil_2. cbn [PFrameModel.iframe_decompress_one].
  repeat log_step. apply (relabel_log_impl _ (window_event b rest));
    [|by apply decompress_one_windows].
  intros e He. exact He.
Qed.

Lemma plain_tasks_windows (self : BaseModel El) (s_rep : pyval El) out (b : nat)
    (rest : list nat) :
  Forall (window_event b rest) (plain_tasks self s_rep out).1.
Proof. unfold plain_tasks. repeat log_step; no_window. Qed.

Lemma adapt_tasks_windows (self : BaseModel El) (s_rep : pyval El)
    (st : dict (list (pyval El)) * pyval El) (b : nat) (rest : list nat) :
  Forall (window_event b rest) (adapt_tasks self s_rep st).1.
Proof. unfold adapt_tasks. repeat log_step; no_window. Qed.

(** The events of a frame, once the branch and the window are known. *)
Ltac window_rest :=
  repeat first
    [ log_step
    | lazymatch goal with
      | |- Forall _ (fst (PFrameModel.iframe_compress_one _ _)) =>
          by apply iframe_compress_one_windows
      | |- Forall _ (fst (PFrameModel.iframe_decompress_one _ _)) =>
          apply iframe_decompress_one_windows
      | |- Forall _ (fst (plain_tasks _ _ _)) => apply plain_tasks_windows
      | |- Forall _ (fst (adapt_tasks _ _ _)) => apply adapt_tasks_windows
      end ];
  try (eexists; split; [reflexivity|eassumption]).

Ltac window_branch Hshape :=
  apply bind_log_Forall; [apply Forall_nil_2|];
  let inp := fresh "inp" in let Hinp := fresh "Hinp" in
  intros inp Hinp; cbn [snd lift] in Hinp;
  pose proof (Hshape inp Hinp); window_rest.

Ltac frame_windows Hk Hs Hi :=
  apply bind_log_Forall; [apply Forall_nil_2|];
  let key := fresh "key" in let Hkey := fresh "Hkey" in
  intros key Hkey; cbn [snd lift] in Hkey; destruct key;
  [ window_branch (fun inp => narrow1_frame_shape El _ inp _ _ _ _ Hs Hi)
  | window_branch (fun inp => narrow1_pair_shape _ inp _ _ _ _ Hs
                                (is_keyframe_false_pos _ _ Hk Hkey) Hi) ].

Lemma plain_frame_windows (self : BaseModel El) (im : model El) (k : json)
    (video : tensor El) (b n : nat) (rest : list nat) (i : nat) out :
  k ≠ JFloat FNan → shape video = b :: n :: rest → i < n →
  Forall (window_event b rest) (PFrameModel.plain_frame self im k video i out).1.
Proof. intros Hk Hs Hi. unfold PFrameModel.plain_frame. frame_windows Hk Hs Hi. Qed.

Lemma adapt_frame_windows (self : BaseModel El) (im : model El) (k : json)
    (video : tensor El) (b n : nat) (rest : list nat) (i : nat)
    (st : dict (list (pyval El)) * pyval El) :
  k ≠ JFloat FNan → shape video = b :: n :: rest → i < n →
  Forall (window_event b rest) (PFrameModel.adapt_frame self im k video i st).1.
Proof.
  intros Hk Hs Hi. unfold PFrameModel.adapt_frame. destruct st. frame_windows Hk Hs Hi.
Qed.

Lemma motion_plain_frame_windows (self : BaseModel El) (im : model El) (k : json)
    (video : tensor El) (b n : nat) (rest : list nat) (i : nat) out :
  k ≠ JFloat FNan → shape video = b :: n :: rest → i < n →
  Forall (window_event b rest) (PFrameModelWithMotion.plain_frame self im k video i out).1.
Proof.
  intros Hk Hs Hi. unfold PFrameModelWithMotion.plain_frame. frame_windows Hk Hs Hi.
Qed.

Lemma motion_adapt_frame_windows (self : BaseModel El) (im : model El) (k : json)
    (video : tensor El) (b n : nat) (rest : list nat) (i : nat)
    (st : dict (list (pyval El)) * pyval El) :
  k ≠ JFloat FNan → shape video = b :: n :: rest → i < n →
  Forall (window_event b rest) (PFrameModelWithMotion.adapt_frame self im k video i st).1.
Proof.
  intros Hk Hs Hi. unfold PFrameModelWithMotion.adapt_frame. destruct st.
  frame_windows Hk Hs Hi.
Qed.

Lemma compress_frame_windows (self : BaseModel El) (video : tensor El) (b n : nat)
    (rest : list nat) (i : nat) out :
  shape video = b :: n :: rest → i < n →
  Forall (window_event b rest) (IFrameModel.compress_frame self video i out).1.
Proof.
  intros Hs Hi. unfold IFrameModel.compress_frame.
  apply bind_log_Forall; [apply Forall_nil_2|]. intros inp Hinp. cbn [snd lift] in Hinp.
  pose proof (narrow1_frame_shape El _ _ _ _ _ _ Hs Hi Hinp).
  apply bind_log_Forall; [by apply compress_one_windows|]. intros results _.
  apply Forall_nil_2.
Qed.

Lemma relabel_windows {A} (m : M (event El) A) (i : nat) (b : nat) (rest : list nat) :
  Forall (window_event b rest) m.1 → Forall (window_event b rest) (relabel (at_frame i) m).1.
Proof. apply relabel_log_impl. intros e He. exact He. Qed.

(** X5.  Of a video of any number of frames, [compress] of every model class
    hands one frame at a time to the encoder of the independent model
    ([video[:, i:i+1]]) and two frames at a time to the encoder of a
    predictive model ([video[:, i-1:i+1]]): the two-frame-window check of the
    encoders is met by every call.  The window is never cut short at the start
    of the video, index 0 being a keyframe for every keyframe interval but a
    NaN, which [json.load] reads and [load_model] lets through; with a NaN
    every frame is a predicted frame, the first one included. *)
Theorem compress_windows (m : model El) (video : tensor El) (b n : nat) (rest : list nat) :
  interval_of m ≠ Some (JFloat FNan) →
  shape video = b :: n :: rest →
  Forall (window_event b rest) (Instance.compress m video).1.
Proof.
  intros Hnan Hs.
  assert (Hk : ∀ k, interval_of m = Some k → k ≠ JFloat FNan) by (by intros k Hm ->).
  destruct m as [self|self im k a|self im k a]; cbn [Instance.compress];
    try specialize (Hk k eq_refl);
    unfold IFrameModel.compress, PFrameModel.compress, PFrameModelWithMotion.compress,
      PFrameModel.compress_with_adaptation, PFrameModel.compress_no_adaptation,
      PFrameModelWithMotion.compress_with_adaptation,
      PFrameModelWithMotion.compress_no_adaptation;
    try destruct (truthy a);
    (apply bind_log_Forall; [apply Forall_nil_2|]); intros n' Hn; cbn [snd lift] in Hn;
    assert (n' = n) as ->
      by (rewrite (size_at_frames video b n rest Hs) in Hn; by injection Hn);
    repeat (apply bind_log_Forall; [|intros ? _; apply Forall_nil_2]);
    apply for_each_log_Forall; intros i st Hi; apply elem_of_range in Hi;
    apply relabel_windows.
  - by eapply compress_frame_windows.
  - by eapply adapt_frame_windows.
  - by eapply plain_frame_windows.
  - by eapply motion_adapt_frame_windows.
  - by eapply motion_plain_frame_windows.
Qed.

(** With a NaN for interval the first window of a video of two frames or more
    is [video[:, -1:1]], which holds no frame. *)
Lemma nan_first_window (video : tensor El) (b n : nat) (rest : list nat) :
  shape video = b :: S (S n) :: rest →
  is_keyframe 0 (JFloat FNan) = Ok false
  ∧ ∃ w, narrow1 video (Z.of_nat 0 - 1) (Z.of_nat 0 + 1) = Ok w
         ∧ shape w = b :: 0 :: rest.
Proof.
  intros Hs. split; [reflexivity|]. unfold narrow1. rewrite Hs. eexists. split; [reflexivity|].
  cbn [shape]. f_equal. f_equal. unfold norm_bound.
  destruct (Z.ltb_spec (Z.of_nat 0 + 1) 0); [lia|].
  destruct (Z.ltb_spec (Z.of_nat 0 - 1) 0); lia.
Qed.

End Windows.

(** X5, witness: [Examples.pframe 2 true] on a video of four frames. *)
Lemma compress_windows_witness :
  Forall (Props.window_event 1 [1; 1; 2])
    (Instance.compress (Examples.pframe 2 true) Examples.video).1.
Proof.
  apply (compress_windows Z (Examples.pframe 2 true) Examples.video 1 4 [1; 1; 2]).
  - discriminate.
  - reflexivity.
Defined.

(** ** The output of [compress]: one record per frame and task *)

(** Invert the binds of a branch of a frame that returned. *)
Ltac frame_appends_branch H :=
  repeat match type of H with
         | lift _ ≫= _ = (_, Ok _) =>
             let l := fresh "l" in let a := fresh "a" in let Ha := fresh "Ha" in
             invert_bind H as l a Ha; apply lift_returns in Ha as [Ha ->]
         | call _ _ _ ≫= _ = (_, Ok _) =>
             let l := fresh "l" in let a := fresh "a" in let Ha := fresh "Ha" in
             invert_bind H as l a Ha
         | PFrameModel.iframe_compress_one _ _ ≫= _ = (_, Ok _) =>
             let l := fresh "l" in let a := fresh "results" in let Ha := fresh "Hres" in
             invert_bind H as l a Ha
         | PFrameModel.iframe_decompress_one _ _ ≫= _ = (_, Ok _) =>
             let l := fresh "l" in let a := fresh "a" in let Ha := fresh "Ha" in
             invert_bind H as l a Ha
         | lift _ = (_, Ok _) => apply lift_returns in H as [H ->]
         | mret _ = (_, Ok _) => apply ret_returns in H as [H ->]
         end.

Section OutputStructure.
Variable El : Type.
Import Spec Props.
Implicit Types (out : dict (list (pyval El))) (results : dict (pyval El)).

(** [out[task].append(value)] for every item of [results] needs every key of
    [results] in [out]. *)
Lemma append_results_keys results out out' :
  append_results results out = Ok out' →
  ∀ t v, (t, v) ∈ results → is_Some (dict_get out t).
Proof.
  unfold append_results. revert out.
  induction results as [|[t0 v0] results IH]; intros out H t v Hin.
  - by apply elem_of_nil in Hin.
  - cbn [for_each] in H.
    destruct (append_to out t0 v0) as [out1|e] eqn:Hap; [|discriminate H].
    rewrite result_bind_Ok in H. unfold append_to, lookup_key in Hap.
    destruct (dict_get out t0) as [l0|] eqn:Hget; [|discriminate Hap].
    rewrite result_bind_Ok in Hap. injection Hap as <-.
    apply elem_of_cons in Hin as [[= -> ->]|Hin]; [by eexists|].
    destruct (IH _ H t v Hin) as [l Hl]. rewrite dict_get_set in Hl.
    destruct (decide (t0 = t)) as [<-|Hne]; [by eexists|].
    rewrite bool_decide_eq_false_2 in Hl by done. by eexists.
Qed.

(** What one frame appends under a task: at most one value, and one when the
    model that makes the frame serves the task. *)
Lemma keyframe_frame_appends (im : model El) (inp : pyval El) l results out out'
    (task : string) :
  PFrameModel.iframe_compress_one im inp = (l, Ok results) →
  append_results results out = Ok out' →
  ∃ vs, appends task out out' vs ∧ (task ∈ task_name (base_of im) → length vs = 1).
Proof.
  intros Hres Ha.
  destruct (keyframe_appends El im inp l results out out' task Hres Ha) as [Hin Hout].
  destruct (decide (task ∈ task_name (base_of im))) as [Ht|Ht].
  - destruct (Hin Ht) as (v & _ & Happ). by exists [v].
  - exists []. split; [by apply Hout|done].
Qed.

Lemma keyframe_sentinel_frame_appends (im : model El) (inp : pyval El) l results results'
    out out' (task : string) :
  PFrameModel.iframe_compress_one im inp = (l, Ok results) →
  PFrameModelWithMotion.append_sentinel results = Ok results' →
  append_results results' out = Ok out' →
  ∃ vs, appends task out out' vs ∧ (task ∈ task_name (base_of im) → length vs = 1).
Proof.
  intros Hres Hs Ha.
  apply iframe_compress_one_returns in Hres as (b & l0 & -> & Hres & _).
  apply compress_one_results in Hres as (Hndr & Hin & _).
  apply (append_sentinel_results El) in Hs as (items & Hvc & Hvc' & Hne & Hnd').
  pose proof (append_results_appends El task results' out out' (Hnd' Hndr) Ha) as Happ.
  eexists. split; [exact Happ|]. cbn [base_of]. intros Ht.
  destruct (Hin task Ht) as (v & Hv & _).
  destruct (decide (task = "vc")) as [->|Hn]; [by rewrite Hvc'|].
  by rewrite (Hne task Hn), Hv.
Qed.

Lemma plain_tasks_frame_appends (self : BaseModel El) (s_rep : pyval El) out l out'
    (task : string) :
  NoDup (task_name self) →
  plain_tasks self s_rep out = (l, Ok out') →
  ∃ vs, appends task out out' vs ∧ (task ∈ task_name self → length vs = 1).
Proof.
  intros Hnd H. destruct (plain_tasks_appends El self s_rep out l out' Hnd H task)
    as [Hin Hout].
  destruct (decide (task ∈ task_name self)) as [Ht|Ht].
  - destruct (Hin Ht) as (v & _ & Happ). by exists [v].
  - exists []. split; [by apply Hout|done].
Qed.

Lemma adapt_tasks_frame_appends (self : BaseModel El) (s_rep : pyval El) out pr l out' pr'
    (task : string) :
  NoDup (task_name self) →
  adapt_tasks self s_rep (out, pr) = (l, Ok (out', pr')) →
  ∃ vs, appends task out out' vs ∧ (task ∈ task_name self → length vs = 1).
Proof.
  intros Hnd H.
  destruct (adapt_tasks_appends El self s_rep out pr l out' pr' Hnd H) as [Htasks _].
  destruct (Htasks task) as [Hin Hout].
  destruct (decide (task ∈ task_name self)) as [Ht|Ht].
  - destruct (Hin Ht) as (v & _ & Happ). by exists [v].
  - exists []. split; [by apply Hout|done].
Qed.

Lemma compress_frame_appends (self : BaseModel El) (video : tensor El) (i : nat)
    out l out' (task : string) :
  IFrameModel.compress_frame self video i out = (l, Ok out') →
  ∃ vs, appends task out out' vs ∧ (task ∈ task_name self → length vs = 1).
Proof.
  intros H. unfold IFrameModel.compress_frame in H.
  invert_bind H as l1 inp Hinp. invert_bind H as l2 results Hres.
  apply lift_returns in H as [H ->].
  apply compress_one_results in Hres as (Hnd & Hin & _).
  pose proof (append_results_appends El task results out out' Hnd H) as Happ.
  eexists. split; [exact Happ|]. intros Ht. destruct (Hin task Ht) as (v & -> & _). done.
Qed.

Lemma plain_frame_appends (self : BaseModel El) (im : model El) (k : json)
    (video : tensor El) (i : nat) out l out' (task : string) :
  NoDup (task_name self) →
  PFrameModel.plain_frame self im k video i out = (l, Ok out') →
  ∃ vs, appends task out out' vs
    ∧ (task ∈ task_name self → task ∈ task_name (base_of im) → length vs = 1).
Proof.
  intros Hnd H. unfold PFrameModel.plain_frame in H.
  invert_bind H as l0 key Hkey. destruct key; frame_appends_branch H.
  - destruct (keyframe_frame_appends im _ _ _ out out' task Hres H) as (vs & Happ & Hlen).
    exists vs. split; [done|]. intros _. exact Hlen.
  - destruct (plain_tasks_frame_appends self _ out _ out' task Hnd H) as (vs & Happ & Hlen).
    exists vs. split; [done|]. intros Ht _. by apply Hlen.
Qed.

Lemma motion_plain_frame_appends (self : BaseModel El) (im : model El) (k : json)
    (video : tensor El) (i : nat) out l out' (task : string) :
  NoDup (task_name self) →
  PFrameModelWithMotion.plain_frame self im k video i out = (l, Ok out') →
  ∃ vs, appends task out out' vs
    ∧ (task ∈ task_name self → task ∈ task_name (base_of im) → length vs = 1).
Proof.
  intros Hnd H. unfold PFrameModelWithMotion.plain_frame in H.
  invert_bind H as l0 key Hkey. destruct key; frame_appends_branch H.
  - destruct (keyframe_sentinel_frame_appends im _ _ _ _ out out' task Hres Ha0 H)
      as (vs & Happ & Hlen).
    exists vs. split; [done|]. intros _. exact Hlen.
  - destruct (plain_tasks_frame_appends self _ out _ out' task Hnd H) as (vs & Happ & Hlen).
    exists vs. split; [done|]. intros Ht _. by apply Hlen.
Qed.

Lemma adapt_frame_appends (self : BaseModel El) (im : model El) (k : json)
    (video : tensor El) (i : nat) (st st' : dict (list (pyval El)) * pyval El) l
    (task : string) :
  NoDup (task_name self) →
  PFrameModel.adapt_frame self im k video i st = (l, Ok st') →
  ∃ vs, appends task st.1 st'.1 vs
    ∧ (task ∈ task_name self → task ∈ task_name (base_of im) → length vs = 1).
Proof.
  intros Hnd H. destruct st as [out pr]. destruct st' as [out' pr']. cbn [fst].
  unfold PFrameModel.adapt_frame in H.
  invert_bind H as l0 key Hkey. destruct key; frame_appends_branch H.
  - injection H as <- <-.
    destruct (keyframe_frame_appends im _ _ _ out _ task Hres Ha1) as (vs & Happ & Hlen).
    exists vs. split; [done|]. intros _. exact Hlen.
  - destruct (adapt_tasks_frame_appends self _ out pr _ out' pr' task Hnd H)
      as (vs & Happ & Hlen).
    exists vs. split; [done|]. intros Ht _. by apply Hlen.
Qed.

Lemma motion_adapt_frame_appends (self : BaseModel El) (im : model El) (k : json)
    (video : tensor El) (i : nat) (st st' : dict (list (pyval El)) * pyval El) l
    (task : string) :
  NoDup (task_name self) →
  PFrameModelWithMotion.adapt_frame self im k video i st = (l, Ok st') →
  ∃ vs, appends task st.1 st'.1 vs
    ∧ (task ∈ task_name self → task ∈ task_name (base_of im) → length vs = 1).
Proof.
  intros Hnd H. destruct st as [out pr]. destruct st' as [out' pr']. cbn [fst].
  unfold PFrameModelWithMotion.adapt_frame in H.
  invert_bind H as l0 key Hkey. destruct key; frame_appends_branch H.
  - injection H as <- <-.
    destruct (keyframe_sentinel_frame_appends im _ _ _ _ out _ task Hres Ha1 Ha2)
      as (vs & Happ & Hlen).
    exists vs. split; [done|]. intros _. exact Hlen.
  - destruct (adapt_tasks_frame_appends self _ out pr _ out' pr' task Hnd H)
      as (vs & Happ & Hlen).
    exists vs. split; [done|]. intros Ht _. by apply Hlen.
Qed.

(** Along a loop whose frames append at most one value under [task]: a key
    the output lacks stays out, and a task served in every frame gets one
    record per frame. *)
Lemma loop_lengths {S} (get : S → dict (list (pyval El))) (shared : Prop) (task : string)
    (frame : nat → S → M (event El) S) (n : nat) (s0 : S) l s :
  (∀ i s lb s', frame i s = (lb, Ok s') →
     ∃ vs, appends task (get s) (get s') vs ∧ (shared → length vs = 1)) →
  for_each (range n) (fun i s => relabel (at_frame i) (frame i s)) s0 = (l, Ok s) →
  (dict_get (get s0) task = None → dict_get (get s) task = None)
  ∧ (shared → ∀ recs0, dict_get (get s0) task = Some recs0 →
       ∃ recs, dict_get (get s) task = Some recs ∧ length recs = length recs0 + n).
Proof.
  intros Hframe Hloop.
  apply (for_each_inv
    (fun done s (_ : list (event El)) =>
       (dict_get (get s0) task = None → dict_get (get s) task = None)
       ∧ (shared → ∀ recs0, dict_get (get s0) task = Some recs0 →
            ∃ recs, dict_get (get s) task = Some recs
                    ∧ length recs = length recs0 + length done))) in Hloop.
  - unfold range in Hloop. by rewrite length_seq in Hloop.
  - split; [done|]. intros _ recs0 H0. exists recs0. split; [done|]. cbn. lia.
  - intros done x todo t l0 lb t' _ [Hnone Hsome] Hb.
    apply relabel_Ok in Hb as (lb0 & Hb & ->).
    destruct (Hframe _ _ _ _ Hb) as (vs & Happ & Hlen). unfold appends in Happ. split.
    + intros H0. by rewrite Happ, (Hnone H0).
    + intros Hsh recs0 H0. destruct (Hsome Hsh recs0 H0) as (recs & Hget & Hl).
      exists (recs ++ vs). rewrite Happ, Hget. split; [done|].
      rewrite !length_app, (Hlen Hsh), Hl. cbn. lia.
Qed.

(** X6.  The output of [compress] has the tasks of the model as its keys and
    no other; under a task that the keyframe model serves as well (every task,
    for an independent model) it holds one record per frame of the video. *)
Theorem compress_one_record_per_frame (m : model El) (video : tensor El) (n : nat) l out :
  size_at video 1 = Ok n →
  iframe_model_of m = None ∨ NoDup (task_name (base_of m)) →
  Instance.compress m video = (l, Ok out) →
  ∀ task,
    (task ∉ task_name (base_of m) → dict_get out task = None)
    ∧ (task ∈ task_name (base_of m) →
       (∀ im, iframe_model_of m = Some im → task ∈ task_name (base_of im)) →
       ∃ recs, dict_get out task = Some recs ∧ length recs = n).
Proof.
  intros Hn Hnd H task.
  assert (Hfinish : ∀ {S} (get : S → dict (list (pyval El))) (shared : Prop) s,
    ((dict_get (empty_out (base_of m)) task = None → dict_get (get s) task = None)
     ∧ (shared → ∀ recs0, dict_get (empty_out (base_of m)) task = Some recs0 →
          ∃ recs, dict_get (get s) task = Some recs ∧ length recs = length recs0 + n)) →
    (task ∉ task_name (base_of m) → dict_get (get s) task = None)
    ∧ (task ∈ task_name (base_of m) → shared →
       ∃ recs, dict_get (get s) task = Some recs ∧ length recs = n)).
  { intros S get shared s [Hnone Hsome]. split.
    - intros Ht. apply Hnone. by rewrite empty_out_get, bool_decide_eq_false_2.
    - intros Ht Hsh. destruct (Hsome Hsh []) as (recs & Hget & Hlen); [|by exists recs].
      by rewrite empty_out_get, bool_decide_eq_true_2. }
  destruct m as [self|self im k a|self im k a]; cbn [Instance.compress base_of] in *.
  - unfold IFrameModel.compress in H. rewrite Hn, bind_lift_Ok in H.
    eapply (loop_lengths id (task ∈ task_name self) task) in H;
      [|intros i s lb s'; apply compress_frame_appends].
    destruct (Hfinish _ id (task ∈ task_name self) out H) as [H1 H2].
    split; [exact H1|]. intros Ht _. by apply H2.
  - destruct Hnd as [Hnd|Hnd]; [done|]. unfold PFrameModel.compress in H.
    destruct (truthy a).
    + unfold PFrameModel.compress_with_adaptation in H. rewrite Hn, bind_lift_Ok in H.
      invert_bind H as l1 st Hloop. apply ret_returns in H as [<- ->].
      eapply (loop_lengths fst (task ∈ task_name self ∧ task ∈ task_name (base_of im))
                task) in Hloop.
      * destruct (Hfinish _ fst _ st Hloop) as [H1 H2].
        split; [exact H1|]. intros Ht Him. apply H2; [done|]. split; [done|]. by apply Him.
      * intros i s lb s' Hf.
        destruct (adapt_frame_appends self im k video i s s' lb task Hnd Hf)
          as (vs & Happ & Hlen).
        exists vs. split; [done|]. intros [? ?]. by apply Hlen.
    + unfold PFrameModel.compress_no_adaptation in H. rewrite Hn, bind_lift_Ok in H.
      eapply (loop_lengths id (task ∈ task_name self ∧ task ∈ task_name (base_of im))
                task) in H.
      * destruct (Hfinish _ id _ out H) as [H1 H2].
        split; [exact H1|]. intros Ht Him. apply H2; [done|]. split; [done|]. by apply Him.
      * intros i s lb s' Hf.
        destruct (plain_frame_appends self im k video i s lb s' task Hnd Hf)
          as (vs & Happ & Hlen).
        exists vs. split; [done|]. intros [? ?]. by apply Hlen.
  - destruct Hnd as [Hnd|Hnd]; [done|]. unfold PFrameModelWithMotion.compress in H.
    destruct (truthy a).
    + unfold PFrameModelWithMotion.compress_with_adaptation in H.
      rewrite Hn, bind_lift_Ok in H.
      invert_bind H as l1 st Hloop. apply ret_returns in H as [<- ->].
      eapply (loop_lengths fst (task ∈ task_name self ∧ task ∈ task_name (base_of im))
                task) in Hloop.
      * destruct (Hfinish _ fst _ st Hloop) as [H1 H2].
        split; [exact H1|]. intros Ht Him. apply H2; [done|]. split; [done|]. by apply Him.
      * intros i s lb s' Hf.
        destruct (motion_adapt_frame_appends self im k video i s s' lb task Hnd Hf)
          as (vs & Happ & Hlen).
        exists vs. split; [done|]. intros [? ?]. by apply Hlen.
    + unfold PFrameModelWithMotion.compress_no_adaptation in H.
      rewrite Hn, bind_lift_Ok in H.
      eapply (loop_lengths id (task ∈ task_name self ∧ task ∈ task_name (base_of im))
                task) in H.
      * destruct (Hfinish _ id _ out H) as [H1 H2].
        split; [exact H1|]. intros Ht Him. apply H2; [done|]. split; [done|]. by apply Him.
      * intros i s lb s' Hf.
        destruct (motion_plain_frame_appends self im k video i s lb s' task Hnd Hf)
          as (vs & Happ & Hlen).
        exists vs. split; [done|]. intros [? ?]. by apply Hlen.
Qed.

End OutputStructure.

(** X6, witness: [Examples.pframe 2 true] on a video of four frames, the task
    "vsr" and a name that is no task. *)
Lemma compress_one_record_per_frame_witness :
  dict_get (match (Instance.compress (Examples.pframe 2 true) Examples.video).2 with
            | Ok out => out | Raise _ => [] end) "bits" = None
  ∧ ∃ recs,
      dict_get (match (Instance.compress (Examples.pframe 2 true) Examples.video).2 with
                | Ok out => out | Raise _ => [] end) "vsr" = Some recs
      ∧ length recs = 4.
Proof.
  assert (NoDup (task_name (base_of (Examples.pframe 2 true)))) as Hnd.
  { apply (bool_decide_unpack _). vm_compute. exact I. }
  pose proof (compress_one_record_per_frame Z (Examples.pframe 2 true) Examples.video 4
                (Instance.compress (Examples.pframe 2 true) Examples.video).1
                (match (Instance.compress (Examples.pframe 2 true) Examples.video).2 with
                 | Ok out => out | Raise _ => [] end)
                eq_refl (or_intror Hnd) eq_refl) as H.
  split.
  - apply (proj1 (H "bits")). apply (bool_decide_unpack _). vm_compute. exact I.
  - apply (proj2 (H "vsr")).
    + apply (bool_decide_unpack _). vm_compute. exact I.
    + intros im [= <-]. apply (bool_decide_unpack _). vm_compute. exact I.
Defined.

(** ** What [compress] needs of the keyframe model *)
Section KeyframeModel.
Variable El : Type.
Import Spec Props.
Implicit Types (out : dict (list (pyval El))) (results : dict (pyval El)).

Lemma keyframe_branch_needs (im : model El) (inp : pyval El) l results out out' :
  PFrameModel.iframe_compress_one im inp = (l, Ok results) →
  append_results results out = Ok out' →
  ∃ b_i, im = IFrame b_i ∧ ∀ t, t ∈ task_name b_i → is_Some (dict_get out t).
Proof.
  intros Hres Ha.
  apply iframe_compress_one_returns in Hres as (b & l0 & -> & Hres & _).
  apply compress_one_results in Hres as (_ & Hin & _).
  exists b. split; [done|]. intros t Ht. destruct (Hin t Ht) as (v & Hv & _).
  apply dict_get_Some_elem_of in Hv. by eapply append_results_keys.
Qed.

Lemma keyframe_sentinel_branch_needs (im : model El) (inp : pyval El) l results results'
    out out' :
  PFrameModel.iframe_compress_one im inp = (l, Ok results) →
  PFrameModelWithMotion.append_sentinel results = Ok results' →
  append_results results' out = Ok out' →
  ∃ b_i, im = IFrame b_i ∧ ∀ t, t ∈ task_name b_i → is_Some (dict_get out t).
Proof.
  intros Hres Hs Ha.
  apply iframe_compress_one_returns in Hres as (b & l0 & -> & Hres & _).
  apply compress_one_results in Hres as (_ & Hin & _).
  apply (append_sentinel_results El) in Hs as (items & Hvc & Hvc' & Hne & _).
  exists b. split; [done|]. intros t Ht. destruct (Hin t Ht) as (v & Hv & _).
  assert (∃ v', dict_get results' t = Some v') as [v' Hv'].
  { destruct (decide (t = "vc")) as [->|Hn]; [by eexists|].
    rewrite (Hne t Hn). by eexists. }
  apply dict_get_Some_elem_of in Hv'. by eapply append_results_keys.
Qed.

Lemma size_at_frames_inv (video : tensor El) (n : nat) :
  size_at video 1 = Ok n → ∃ b rest, shape video = b :: n :: rest.
Proof.
  unfold size_at, getitem. destruct (shape video) as [|b [|n' rest]]; try done.
  intros H. exists b, rest. change 1%Z with (Z.of_nat 1) in H.
  rewrite norm_index_nat in H by (cbn; lia). cbn in H. by injection H as ->.
Qed.

Lemma narrow1_returns (video : tensor El) (n : nat) (lo hi : Z) :
  size_at video 1 = Ok n → ∃ w, narrow1 video lo hi = Ok w.
Proof.
  intros Hn. destruct (size_at_frames_inv video n Hn) as (b & rest & Hs).
  unfold narrow1. rewrite Hs. by eexists.
Qed.

(** The first iteration of a loop over the frames. *)
Lemma first_frame_returns {St} (frame : nat → St → M (event El) St) (n : nat) (s0 : St)
    l s :
  for_each (range (S n)) (fun i s => relabel (at_frame i) (frame i s)) s0 = (l, Ok s) →
  ∃ l0 s1, frame 0 s0 = (l0, Ok s1).
Proof.
  unfold range. cbn [seq for_each]. intros H. invert_bind H as l1 s1 Hf.
  apply relabel_Ok in Hf as (l0 & Hf & _). by exists l0, s1.
Qed.

Lemma empty_out_key (self : BaseModel El) (t : string) :
  is_Some (dict_get (empty_out self) t) → t ∈ task_name self.
Proof.
  rewrite empty_out_get. case_bool_decide; [done|]. by intros [? ?].
Qed.

(** X8.  [compress] appends what the keyframe model returns for a keyframe
    under the keys of the output, which are the tasks of the model: on a video
    with at least one frame, and with a keyframe interval that is not a NaN (so
    that frame 0 is a keyframe), it returns only if the keyframe model is an
    [IFrameModel] all of whose tasks are tasks of the model (another task
    ends the call with [KeyError] at the first frame). *)
Theorem compress_needs_keyframe_tasks (m im : model El) (video : tensor El) (n : nat) l out :
  iframe_model_of m = Some im → interval_of m ≠ Some (JFloat FNan) →
  size_at video 1 = Ok (S n) →
  Instance.compress m video = (l, Ok out) →
  ∃ b_i, im = IFrame b_i ∧ ∀ t, t ∈ task_name b_i → t ∈ task_name (base_of m).
Proof.
  intros Him Hnan Hn H.
  destruct m as [self|self im' k a|self im' k a]; [done| |];
    injection Him as ->;
    (assert (Hk : k ≠ JFloat FNan) by (intros ->; by apply Hnan));
    cbn [Instance.compress base_of] in *;
    unfold PFrameModel.compress, PFrameModelWithMotion.compress,
      PFrameModel.compress_with_adaptation, PFrameModel.compress_no_adaptation,
      PFrameModelWithMotion.compress_with_adaptation,
      PFrameModelWithMotion.compress_no_adaptation in H;
    destruct (truthy a); rewrite Hn, bind_lift_Ok in H;
    [ invert_bind H as l1 st H'; clear H | rename H into H'
    | invert_bind H as l1 st H'; clear H | rename H into H' ];
    apply first_frame_returns in H' as (l0 & s1 & Hf);
    try unfold PFrameModel.adapt_frame in Hf;
    try unfold PFrameModel.plain_frame in Hf;
    try unfold PFrameModelWithMotion.adapt_frame in Hf;
    try unfold PFrameModelWithMotion.plain_frame in Hf;
    invert_bind Hf as lk key Hkey; apply lift_returns in Hkey as [Hkey ->];
    (destruct key; [|apply (is_keyframe_false_pos _ _ Hk) in Hkey; lia]);
    frame_appends_branch Hf.
  - destruct (keyframe_branch_needs im _ _ _ _ _ Hres Ha1) as (b_i & -> & Hkeys).
    exists b_i. split; [done|]. intros t Ht. by apply empty_out_key, Hkeys.
  - destruct (keyframe_branch_needs im _ _ _ _ _ Hres Hf) as (b_i & -> & Hkeys).
    exists b_i. split; [done|]. intros t Ht. by apply empty_out_key, Hkeys.
  - destruct (keyframe_sentinel_branch_needs im _ _ _ _ _ _ Hres Ha1 Ha2)
      as (b_i & -> & Hkeys).
    exists b_i. split; [done|]. intros t Ht. by apply empty_out_key, Hkeys.
  - destruct (keyframe_sentinel_branch_needs im _ _ _ _ _ _ Hres Ha0 Hf)
      as (b_i & -> & Hkeys).
    exists b_i. split; [done|]. intros t Ht. by apply empty_out_key, Hkeys.
Qed.

(** X7.  The keyframe branch calls [compress_one] and [decompress_one] on
    [iframe_model], methods of [IFrameModel] alone: with a keyframe model of
    another class, [compress] of a video with at least one frame and
    [decompress] of at least one record raise [AttributeError] at frame 0,
    before any call of an encoder or a decoder. *)
Theorem keyframe_model_not_independent (m im : model El) (k : Z) :
  iframe_model_of m = Some im → interval_of m = Some (JInt k) → k ≠ 0%Z →
  (∀ b, im ≠ IFrame b) →
  (∀ video n, size_at video 1 = Ok (S n) →
     Instance.compress m video = ([], Raise AttributeError))
  ∧ (∀ inp inputs, Instance.decompress m (inp :: inputs) = ([], Raise AttributeError)).
Proof.
  intros Him Hk Hk0 Hcls.
  assert (Hc : ∀ inp, PFrameModel.iframe_compress_one im inp = raise AttributeError).
  { intros inp. destruct im as [b| |]; [by destruct (Hcls b)|done|done]. }
  assert (Hd : ∀ inputs, PFrameModel.iframe_decompress_one im inputs = raise AttributeError).
  { intros inputs. destruct im as [b| |]; [by destruct (Hcls b)|done|done]. }
  assert (Hkey : is_keyframe 0 (JInt k) = Ok true).
  { rewrite is_keyframe_int by done. cbn. by rewrite Zmod_0_l. }
  split.
  - intros video n Hn. destruct (narrow1_returns video (S n) (Z.of_nat 0) (Z.of_nat 0 + 1) Hn) as [w Hw].
    destruct m as [self|self im' k' a|self im' k' a]; [done| |];
      injection Him as ->; injection Hk as ->; cbn [Instance.compress];
      unfold PFrameModel.compress, PFrameModelWithMotion.compress,
        PFrameModel.compress_with_adaptation, PFrameModel.compress_no_adaptation,
        PFrameModelWithMotion.compress_with_adaptation,
        PFrameModelWithMotion.compress_no_adaptation;
      destruct (truthy a); rewrite Hn, bind_lift_Ok; unfold range; cbn [seq for_each];
      unfold PFrameModel.adapt_frame, PFrameModel.plain_frame,
        PFrameModelWithMotion.adapt_frame, PFrameModelWithMotion.plain_frame;
      rewrite Hkey, bind_lift_Ok, Hw, bind_lift_Ok, Hc; reflexivity.
  - intros inp inputs.
    destruct m as [self|self im' k' a|self im' k' a]; [done| |];
      injection Him as ->; injection Hk as ->; cbn [Instance.decompress];
      unfold PFrameModel.decompress, PFrameModelWithMotion.decompress, enumerate;
      cbn [length seq zip zip_with for_each];
      unfold PFrameModel.decompress_frame, PFrameModelWithMotion.decompress_frame;
      rewrite Hkey, bind_lift_Ok, Hd; reflexivity.
Qed.

End KeyframeModel.

(** X7, witness: a predictive model on top of a predictive model. *)
Lemma keyframe_model_not_independent_witness :
  (∀ video n, size_at video 1 = Ok (S n) →
     Instance.compress MoreExamples.nested video = ([], Raise AttributeError))
  ∧ (∀ inp inputs,
       Instance.decompress MoreExamples.nested (inp :: inputs) = ([], Raise AttributeError)).
Proof.
  apply (keyframe_model_not_independent Z MoreExamples.nested (Examples.pframe 2 true) 2).
  - reflexivity.
  - reflexivity.
  - lia.
  - intros b. discriminate.
Defined.

(** X8, witness: [Examples.pframe 2 true] on a video of four frames. *)
Lemma compress_needs_keyframe_tasks_witness :
  ∃ b_i, Examples.keyframe_model = IFrame b_i
    ∧ ∀ t, t ∈ task_name b_i → t ∈ task_name (base_of (Examples.pframe 2 true)).
Proof.
  apply (compress_needs_keyframe_tasks Z (Examples.pframe 2 true) Examples.keyframe_model
           Examples.video 3
           (Instance.compress (Examples.pframe 2 true) Examples.video).1
           (match (Instance.compress (Examples.pframe 2 true) Examples.video).2 with
            | Ok out => out | Raise _ => [] end)).
  - reflexivity.
  - discriminate.
  - reflexivity.
  - vm_compute. reflexivity.
Defined.

(** ** [IFrameModel.compress]: every frame on its own *)
Section Independent.
Variable El : Type.
Import Spec Props.
Implicit Types (out : dict (list (pyval El))) (results : dict (pyval El)).

Lemma compress_frame_task_record (self : BaseModel El) (video : tensor El) (i : nat)
    out l out' (task : string) :
  task ∈ task_name self →
  IFrameModel.compress_frame self video i out = (l, Ok out') →
  ∃ v inp, appends task out out' [v]
    ∧ narrow1 video (Z.of_nat i) (Z.of_nat i + 1) = Ok inp
    ∧ task_value self (enc_forward (the_encoder self) [PTensor inp]) task v.
Proof.
  intros Ht H. unfold IFrameModel.compress_frame in H.
  invert_bind H as l1 inp Hinp. apply lift_returns in Hinp as [Hinp ->].
  invert_bind H as l2 results Hres. apply lift_returns in H as [H ->].
  apply compress_one_results in Hres as (Hnd & Hin & _).
  destruct (Hin task Ht) as (v & Hv & Htv).
  pose proof (append_results_appends El task results out out' Hnd H) as Happ.
  rewrite Hv in Happ. by exists v, inp.
Qed.

(** X9.  [IFrameModel.compress] keeps nothing from one frame to the next:
    the record at index i under a task is the value [compress_one] computes
    from the one-frame window [video[:, i:i+1]], so two videos with the same
    frame at index i have the same record there, whatever their other
    frames and their lengths. *)
Theorem iframe_frames_independent (self : BaseModel El) (task : string)
    (video video' : tensor El) (n n' : nat) l l' out out' (i : nat) (w : tensor El) :
  NoDup (task_name self) → task ∈ task_name self →
  size_at video 1 = Ok n → size_at video' 1 = Ok n' → i < n → i < n' →
  IFrameModel.compress self video = (l, Ok out) →
  IFrameModel.compress self video' = (l', Ok out') →
  narrow1 video (Z.of_nat i) (Z.of_nat i + 1) = Ok w →
  narrow1 video' (Z.of_nat i) (Z.of_nat i + 1) = Ok w →
  ∃ recs recs' v,
    dict_get out task = Some recs ∧ dict_get out' task = Some recs'
    ∧ recs !! i = Some v ∧ recs' !! i = Some v
    ∧ task_value self (enc_forward (the_encoder self) [PTensor w]) task v.
Proof.
  intros Hnd Ht Hn Hn' Hi Hi' H H' Hw Hw'.
  assert (Hrecords : ∀ vid m lg o,
    size_at vid 1 = Ok m → IFrameModel.compress self vid = (lg, Ok o) →
    ∃ recs, dict_get o task = Some recs ∧ length recs = m
      ∧ ∀ j v, recs !! j = Some v →
          ∀ u, narrow1 vid (Z.of_nat j) (Z.of_nat j + 1) = Ok u →
               task_value self (enc_forward (the_encoder self) [PTensor u]) task v).
  { intros vid m lg o Hm Hc. unfold IFrameModel.compress in Hc.
    rewrite Hm, bind_lift_Ok in Hc.
    eapply (loop_records El id
              (fun j v => ∀ u, narrow1 vid (Z.of_nat j) (Z.of_nat j + 1) = Ok u →
                 task_value self (enc_forward (the_encoder self) [PTensor u]) task v)
              task) in Hc; [done| |].
    - unfold id. by rewrite empty_out_get, bool_decide_eq_true_2.
    - intros j s lb s' _ Hf.
      destruct (compress_frame_task_record self vid j s lb s' task Ht Hf)
        as (v & inp & Happ & Hinp & Htv).
      exists v. split; [done|]. intros u Hu. rewrite Hinp in Hu. by injection Hu as <-. }
  destruct (Hrecords video n l out Hn H) as (recs & Hget & Hlen & Hrec).
  destruct (Hrecords video' n' l' out' Hn' H') as (recs' & Hget' & Hlen' & Hrec').
  destruct (lookup_lt_is_Some_2 recs i) as [v Hv]; [lia|].
  destruct (lookup_lt_is_Some_2 recs' i) as [v' Hv']; [lia|].
  pose proof (Hrec i v Hv w Hw) as Htv. pose proof (Hrec' i v' Hv' w Hw') as Htv'.
  assert (v' = v) as -> by by eapply (task_value_functional El).
  by exists recs, recs', v.
Qed.

(** X10.  A video without frame: [compress] of every model class makes no
    call and returns the empty sequence under every task, also with a
    keyframe interval of 0; [decompress] of the empty sequence raises the
    [RuntimeError] of [torch.stack] on an empty list, so the round trip is
    not defined there. *)
Theorem no_frame (m : model El) (video : tensor El) :
  size_at video 1 = Ok 0 →
  Instance.compress m video = ([], Ok (empty_out (base_of m)))
  ∧ (∀ task, task ∈ task_name (base_of m) →
       dict_get (empty_out (base_of m)) task = Some [])
  ∧ Instance.decompress m []
    = ([], Raise (RuntimeError "stack expects a non-empty TensorList")).
Proof.
  intros Hn. split; [|split].
  - destruct m as [self|self im k a|self im k a]; cbn [Instance.compress base_of];
      unfold IFrameModel.compress, PFrameModel.compress, PFrameModelWithMotion.compress,
        PFrameModel.compress_with_adaptation, PFrameModel.compress_no_adaptation,
        PFrameModelWithMotion.compress_with_adaptation,
        PFrameModelWithMotion.compress_no_adaptation;
      try destruct (truthy a); by rewrite Hn.
  - intros task Ht. by rewrite empty_out_get, bool_decide_eq_true_2.
  - by destruct m.
Qed.

End Independent.

(** X9, witness: two videos whose last two frames are the same, at index 3. *)
Lemma iframe_frames_independent_witness :
  ∃ recs recs' v,
    dict_get (match (Instance.compress Examples.iframe Examples.video).2 with
              | Ok out => out | Raise _ => [] end) "vsr" = Some recs
    ∧ dict_get (match (Instance.compress Examples.iframe Examples.other_video).2 with
                | Ok out => out | Raise _ => [] end) "vsr" = Some recs'
    ∧ recs !! 3 = Some v ∧ recs' !! 3 = Some v
    ∧ Spec.task_value (base_of Examples.iframe)
        (enc_forward (the_encoder (base_of Examples.iframe))
           [PTensor (Tensor [1; 1; 1; 1; 2] [21; 34]%Z)]) "vsr" v.
Proof.
  apply (iframe_frames_independent Z (base_of Examples.iframe) "vsr"
           Examples.video Examples.other_video 4 4
           (Instance.compress Examples.iframe Examples.video).1
           (Instance.compress Examples.iframe Examples.other_video).1).
  - apply (bool_decide_unpack _). vm_compute. exact I.
  - apply (bool_decide_unpack _). vm_compute. exact I.
  - reflexivity.
  - reflexivity.
  - lia.
  - lia.
  - vm_compute. reflexivity.
  - vm_compute. reflexivity.
  - vm_compute. reflexivity.
  - vm_compute. reflexivity.
Defined.

(** X10, witness: [Examples.pframe 0 true] on a video without frame. *)
Lemma no_frame_witness :
  Instance.compress (Examples.pframe 0 true) Examples.empty_video
  = ([], Ok (empty_out (base_of (Examples.pframe 0 true))))
  ∧ (∀ task, task ∈ task_name (base_of (Examples.pframe 0 true)) →
       dict_get (empty_out (base_of (Examples.pframe 0 true))) task = Some [])
  ∧ Instance.decompress (Examples.pframe 0 true) []
    = ([], Raise (RuntimeError "stack expects a non-empty TensorList")).
Proof.
  apply (no_frame Z (Examples.pframe 0 true) Examples.empty_video). reflexivity.
Defined.

(** ** load_model: what the model keeps of the description *)
Section LoaderMore.
Variable El : Type.
Import Loader Spec Props.

Lemma update_keeps (m : model El) (t : option scale_table) (f q : bool) :
  let m' := (Instance.update m t f q).2 in
  class_name m' = class_name m
  ∧ interval_of m' = interval_of m
  ∧ adaptation_of m' = adaptation_of m
  ∧ task_name (base_of m') = task_name (base_of m)
  ∧ iframe_model_of m'
    = (fun im => (Instance.update im
                    (Some (match t with None => get_scale_table | Some t => t end)) f q).2)
      <$> iframe_model_of m.
Proof.
  destruct m as [b|b im k a|b im k a]; cbn [Instance.update].
  - unfold Instance.update_base.
    destruct (Instance.update_encoder El f (the_encoder b)).
    by destruct (Instance.update_decoders El f (decoders b)).
  - unfold Instance.update_base.
    destruct (Instance.update_encoder El f (the_encoder b)).
    destruct (Instance.update_decoders El f (decoders b)).
    cbn [iframe_model_of fmap option_fmap option_map].
    by destruct (Instance.update im _ f q).
  - unfold Instance.update_base.
    destruct (Instance.update_encoder El f (the_encoder b)).
    destruct (Instance.update_decoders El f (decoders b)).
    cbn [iframe_model_of fmap option_fmap option_map].
    by destruct (Instance.update im _ f q).
Qed.

Lemma load_state_dict_keeps (sd : state_dict El) (depth : nat) (m : model El) :
  let m' := load_state_dict sd depth m in
  class_name m' = class_name m
  ∧ interval_of m' = interval_of m
  ∧ adaptation_of m' = adaptation_of m
  ∧ task_name (base_of m') = task_name (base_of m)
  ∧ iframe_model_of m' = load_state_dict sd (S depth) <$> iframe_model_of m.
Proof. by destruct m. Qed.

(** X11.  For a predictive description with its three arguments, registered
    names and a checkpoint: [load_model] returns a model of the class
    [model_type] names, with the task names of the description, and with
    [keyframe_interval] and [adaptation] as the description gives them, of
    whatever type and value.  Its keyframe model is the model the nested
    [load_model] returned for [iframe_model_path], of whatever class, with the
    state of the outer checkpoint loaded over it (its keys under
    [iframe_model.]) and calibrated once more by the final [update]: it keeps
    the class, the task names, the interval and the adaptation the nested
    load gave it, not necessarily its parameters. *)
Theorem load_model_keeps_description (w : world El) (fuel : nat) (json_file : string)
    (d : model_data) (path : string) (interval adaptation : json)
    (log_i : list assembly_event) (im : model El) :
  files w !! resolved_path w json_file = Some d →
  model_type d = "PFrame" ∨ model_type d = "PFrameWithMotion" →
  arch_args d !! "iframe_model_path" = Some (JStr path) →
  arch_args d !! "keyframe_interval" = Some interval →
  arch_args d !! "adaptation" = Some adaptation →
  resolves w d →
  checkpoint d ∈ checkpoints w →
  load_model fuel w path = (log_i, Ok im) →
  ∃ log m im',
    load_model (S fuel) w json_file = (log, Ok m)
    ∧ class_name m = model_type d
    ∧ task_name (base_of m) = md_task_name d
    ∧ interval_of m = Some interval
    ∧ adaptation_of m = Some adaptation
    ∧ iframe_model_of m = Some im'
    ∧ im' = (Instance.update (load_state_dict (state_dicts w (checkpoint d)) 1 im)
               (Some get_scale_table) true false).2
    ∧ class_name im' = class_name im
    ∧ task_name (base_of im') = task_name (base_of im)
    ∧ interval_of im' = interval_of im
    ∧ adaptation_of im' = adaptation_of im.
Proof.
  intros Hfile Htype Hpath Hint Had (Henc & Hdec & Hw & Harch) Hckpt Him.
  unfold resolved_path in Hfile.
  cbn [load_model]. rewrite Hfile, bind_lift_Ok. unfold did. rewrite bind_emit.
  assert (String.prefix "PFrame" (model_type d) = true) as ->
    by (destruct Htype as [-> | ->]; reflexivity).
  rewrite (check_pframe_args_present)
    by (unfold has_pframe_args; rewrite Hpath, Hint, Had; eauto).
  rewrite bind_lift_Ok.
  destruct (registered (modules w) (encoder_class d)) as [cls|]; [|done].
  destruct (build_decoders w (md_decoders d)) as [ds|]; [|done].
  destruct (registered (architecture_method w) (architecture d)) as [arch|]; [|done].
  rewrite !bind_lift_Ok. rewrite (bool_decide_eq_true_2 _ Hw), bind_ret.
  rewrite (bool_decide_eq_true_2 _ Hckpt).
  unfold kwarg. rewrite Hpath, Hint, Had.
  assert (Hnested : relabel deeper (load_model fuel w path) = (deeper <$> log_i, Ok im))
    by (by rewrite Him).
  set (sd := state_dicts w (checkpoint d)).
  destruct (update_keeps (load_state_dict sd 1 im) (Some get_scale_table) true false)
    as (Hc' & Hi' & Ha' & Htn' & _).
  destruct (load_state_dict_keeps sd 1 im) as (Hc'' & Hi'' & Ha'' & Htn'' & _).
  cbv zeta in Hc', Hi', Ha', Htn', Hc'', Hi'', Ha'', Htn''.
  destruct Htype as [Ht|Ht]; rewrite Ht; simpl bool_decide; cbn iota;
    run_M; rewrite Hnested; run_M;
    eexists _, _, _; (split; [reflexivity|]);
    match goal with
    | |- context [Instance.update ?m0 None true false] =>
        destruct (update_keeps m0 None true false) as (Hc & Hi & Ha & Htn & Hk)
    end;
    cbv zeta in Hc, Hi, Ha, Htn, Hk; rewrite Hc, Hi, Ha, Htn, Hk;
    cbn [load_state_dict class_name interval_of adaptation_of base_of task_name load_base
         iframe_model_of fmap option_fmap option_map];
    (split; [done|]); (split; [done|]); (split; [done|]); (split; [done|]);
    (split; [reflexivity|]); (split; [reflexivity|]);
    by rewrite Hc', Hi', Ha', Htn', Hc'', Hi'', Ha'', Htn''.
Qed.

(** [load_model] looks at [json_file] through the path it resolves to. *)
Lemma load_model_resolved (w : world El) (fuel : nat) (p q : string) :
  resolved_path w p = resolved_path w q → load_model fuel w p = load_model fuel w q.
Proof.
  intros Hpq. destruct fuel as [|fuel]; [done|]. cbn [load_model].
  change (if isdir w p then path_join p "model.json" else p) with (resolved_path w p).
  change (if isdir w q then path_join q "model.json" else q) with (resolved_path w q).
  by rewrite Hpq.
Qed.

(** X12.  A predictive description whose [iframe_model_path] resolves to the
    description itself: every call of [load_model] nests another one on the
    same file, and no model is ever returned; the call ends when the
    interpreter gives up the recursion, whatever its limit. *)
Theorem load_model_self_reference (w : world El) (json_file path : string)
    (d : model_data) :
  files w !! resolved_path w json_file = Some d →
  model_type d = "PFrame" ∨ model_type d = "PFrameWithMotion" →
  arch_args d !! "iframe_model_path" = Some (JStr path) →
  resolved_path w path = resolved_path w json_file →
  is_Some (arch_args d !! "keyframe_interval") →
  is_Some (arch_args d !! "adaptation") →
  resolves w d →
  ∀ fuel, ∃ log, load_model fuel w json_file = (log, Raise RecursionError).
Proof.
  intros Hfile Htype Hpath Hsame [interval Hint] [adaptation Had] (Henc & Hdec & Hw & Harch).
  induction fuel as [|fuel [log IH]]; [by exists []|].
  unfold resolved_path in Hfile.
  cbn [load_model]. rewrite Hfile, bind_lift_Ok. unfold did. rewrite bind_emit.
  assert (String.prefix "PFrame" (model_type d) = true) as ->
    by (destruct Htype as [-> | ->]; reflexivity).
  rewrite (check_pframe_args_present)
    by (unfold has_pframe_args; rewrite Hpath, Hint, Had; eauto).
  rewrite bind_lift_Ok.
  destruct (registered (modules w) (encoder_class d)) as [cls|]; [|done].
  destruct (build_decoders w (md_decoders d)) as [ds|]; [|done].
  destruct (registered (architecture_method w) (architecture d)) as [arch|]; [|done].
  rewrite !bind_lift_Ok. rewrite (bool_decide_eq_true_2 _ Hw), bind_ret.
  unfold kwarg. rewrite Hpath.
  assert (Hnested : relabel deeper (load_model fuel w path)
                    = (deeper <$> log, Raise RecursionError)).
  { by rewrite (load_model_resolved w fuel path json_file Hsame), IH. }
  destruct Htype as [Ht|Ht]; rewrite Ht; simpl bool_decide; cbn iota;
    run_M; rewrite Hnested; run_M; by eexists.
Qed.

End LoaderMore.

(** X11, witness: [quiet.json], a predictive model on top of the keyframe
    model of the examples, with the interval -2 and the string "no" for
    [adaptation]; its checkpoint holds parameters for the heads of the
    keyframe model, which answer [None] in the model returned. *)
Lemma load_model_keeps_description_witness :
  ∃ log m im',
    Loader.load_model 3 MoreExamples.store "quiet.json" = (log, Ok m)
    ∧ Props.class_name m = "PFrame"
    ∧ task_name (base_of m) = ["vc"; "vsr"]
    ∧ Spec.interval_of m = Some (JInt (-2))
    ∧ Spec.adaptation_of m = Some (JStr "no")
    ∧ Spec.iframe_model_of m = Some im'
    ∧ im' = (Instance.update
               (Loader.load_state_dict Examples.silent_keyframe_heads 1
                  (Examples.loaded "keyframe"))
               (Some get_scale_table) true false).2
    ∧ Props.class_name im' = Props.class_name (Examples.loaded "keyframe")
    ∧ task_name (base_of im') = task_name (base_of (Examples.loaded "keyframe"))
    ∧ Spec.interval_of im' = Spec.interval_of (Examples.loaded "keyframe")
    ∧ Spec.adaptation_of im' = Spec.adaptation_of (Examples.loaded "keyframe").
Proof.
  refine (load_model_keeps_description Z MoreExamples.store 2 "quiet.json"
    (Examples.description "PFrame" "WindowEncoder" "ResidualCodec" "q.pth"
       MoreExamples.quiet_args)
    "keyframe" (JInt (-2)) (JStr "no")
    (Loader.load_model 2 MoreExamples.store "keyframe").1
    (Examples.loaded "keyframe") _ _ _ _ _ _ _ _).
  - vm_compute. reflexivity.
  - left. reflexivity.
  - vm_compute. reflexivity.
  - vm_compute. reflexivity.
  - vm_compute. reflexivity.
  - repeat split; vm_compute; reflexivity.
  - vm_compute. reflexivity.
  - vm_compute. reflexivity.
Defined.

(** The keyframe model loaded on its own compresses a frame to a record; the
    one [quiet.json] embeds, with the parameters of the outer checkpoint,
    does not. *)
Example outer_checkpoint_reaches_keyframe_model :
  (Instance.compress (Examples.loaded "keyframe") Examples.video).2
  ≠ (Instance.compress
       (match Spec.iframe_model_of (MoreExamples.loaded "quiet.json") with
        | Some im => im | None => Examples.iframe end)
       Examples.video).2.
Proof. vm_compute. discriminate. Qed.

(** X12, witness: [loop.json] names itself as its keyframe model. *)
Lemma load_model_self_reference_witness :
  ∃ log, Loader.load_model 5 MoreExamples.store "loop.json" = (log, Raise RecursionError).
Proof.
  refine (load_model_self_reference Z MoreExamples.store "loop.json" "loop.json"
    (Examples.description "PFrame" "WindowEncoder" "ResidualCodec" "p.pth"
       MoreExamples.loop_args) _ _ _ _ _ _ _ 5).
  - vm_compute. reflexivity.
  - left. reflexivity.
  - vm_compute. reflexivity.
  - reflexivity.
  - vm_compute. by eexists.
  - vm_compute. by eexists.
  - repeat split; vm_compute; reflexivity.
Defined.

(** ** How the loops read [keyframe_interval] and [adaptation] *)
Section Intervals.
Variable El : Type.
Import Spec Props.
Implicit Types (out : dict (list (pyval El))) (results : dict (pyval El)).

Lemma for_each_ext {E X St} (xs : list X) (body body' : X → St → M E St) (s : St) :
  (∀ x t, x ∈ xs → body x t = body' x t) → for_each xs body s = for_each xs body' s.
Proof.
  revert s. induction xs as [|x xs IH]; intros s Hext; [done|]. cbn [for_each].
  rewrite (Hext x s (list_elem_of_here _ _)). apply bind_ext. intros t.
  apply IH. intros y u Hy. apply Hext. by apply list_elem_of_further.
Qed.

(** [i % -k == 0] exactly when [i % k == 0]; also the error is the same. *)
Lemma is_keyframe_opp (i : nat) (k : Z) :
  is_keyframe i (JInt (- k)) = is_keyframe i (JInt k).
Proof.
  unfold is_keyframe, py_mod.
  destruct (Z.eqb_spec k 0) as [->|Hk]; [done|].
  destruct (Z.eqb_spec (- k) 0) as [H0|_]; [lia|]. cbn. f_equal.
  apply eq_iff_eq_true. rewrite !Z.eqb_eq, !Z.mod_divide by lia.
  apply Z.divide_opp_l.
Qed.

(** [True] is the integer 1. *)
Lemma is_keyframe_true (i : nat) : is_keyframe i (JBool true) = is_keyframe i (JInt 1).
Proof. reflexivity. Qed.

(** The models see the interval through the test [i % keyframe_interval == 0]
    and [adaptation] through its truth value. *)
Lemma same_tests_same_behaviour (b : BaseModel El) (im : model El) (k k' a a' : json) :
  (∀ i, is_keyframe i k = is_keyframe i k') → truthy a = truthy a' →
  same_behaviour (PFrame b im k a) (PFrame b im k' a')
  ∧ same_behaviour (PFrameWithMotion b im k a) (PFrameWithMotion b im k' a').
Proof.
  intros Hk Ha.
  assert (H1 : ∀ video i st, PFrameModel.adapt_frame b im k video i st
                             = PFrameModel.adapt_frame b im k' video i st).
  { intros video i [out pr]. unfold PFrameModel.adapt_frame. by rewrite Hk. }
  assert (H2 : ∀ video i out, PFrameModel.plain_frame b im k video i out
                              = PFrameModel.plain_frame b im k' video i out).
  { intros video i out. unfold PFrameModel.plain_frame. by rewrite Hk. }
  assert (H3 : ∀ i inp st, PFrameModel.decompress_frame b im k i inp st
                           = PFrameModel.decompress_frame b im k' i inp st).
  { intros i inp [rv pf]. unfold PFrameModel.decompress_frame. by rewrite Hk. }
  assert (H4 : ∀ video i st, PFrameModelWithMotion.adapt_frame b im k video i st
                             = PFrameModelWithMotion.adapt_frame b im k' video i st).
  { intros video i [out pr]. unfold PFrameModelWithMotion.adapt_frame. by rewrite Hk. }
  assert (H5 : ∀ video i out, PFrameModelWithMotion.plain_frame b im k video i out
                              = PFrameModelWithMotion.plain_frame b im k' video i out).
  { intros video i out. unfold PFrameModelWithMotion.plain_frame. by rewrite Hk. }
  assert (H6 : ∀ i inp st, PFrameModelWithMotion.decompress_frame b im k i inp st
                           = PFrameModelWithMotion.decompress_frame b im k' i inp st).
  { intros i inp [rv pf]. unfold PFrameModelWithMotion.decompress_frame. by rewrite Hk. }
  split; split.
  - intros video. cbn [Instance.compress]. unfold PFrameModel.compress. rewrite Ha.
    unfold PFrameModel.compress_with_adaptation, PFrameModel.compress_no_adaptation.
    destruct (truthy a'); apply bind_ext; intros n.
    + apply (f_equal (fun m => m ≫= _)). apply for_each_ext. intros i st _. by rewrite H1.
    + apply for_each_ext. intros i st _. by rewrite H2.
  - intros inputs. cbn [Instance.decompress]. unfold PFrameModel.decompress.
    apply (f_equal (fun m => m ≫= _)). apply for_each_ext. intros [i inp] st _.
    by rewrite H3.
  - intros video. cbn [Instance.compress]. unfold PFrameModelWithMotion.compress.
    rewrite Ha.
    unfold PFrameModelWithMotion.compress_with_adaptation,
      PFrameModelWithMotion.compress_no_adaptation.
    destruct (truthy a'); apply bind_ext; intros n.
    + apply (f_equal (fun m => m ≫= _)). apply for_each_ext. intros i st _. by rewrite H4.
    + apply for_each_ext. intros i st _. by rewrite H5.
  - intros inputs. cbn [Instance.decompress]. unfold PFrameModelWithMotion.decompress.
    apply (f_equal (fun m => m ≫= _)). apply for_each_ext. intros [i inp] st _.
    by rewrite H6.
Qed.

(** X13.  The predictive models read [keyframe_interval] only in the test
    [i % keyframe_interval == 0] and [adaptation] only as a condition: the
    interval -k makes the same calls and gives the same results as k, [True]
    the same as 1, and two values of [adaptation] with the same truth value
    (the string "no" and [True], for one) are the same to [compress] and
    [decompress]. *)
Theorem interval_and_adaptation_as_read (b : BaseModel El) (im : model El) (k : Z)
    (a a' : json) :
  truthy a = truthy a' →
  same_behaviour (PFrame b im (JInt (- k)) a) (PFrame b im (JInt k) a')
  ∧ same_behaviour (PFrameWithMotion b im (JInt (- k)) a)
      (PFrameWithMotion b im (JInt k) a')
  ∧ same_behaviour (PFrame b im (JBool true) a) (PFrame b im (JInt 1) a')
  ∧ same_behaviour (PFrameWithMotion b im (JBool true) a)
      (PFrameWithMotion b im (JInt 1) a').
Proof.
  intros Ha.
  destruct (same_tests_same_behaviour b im (JInt (- k)) (JInt k) a a'
              (fun i => is_keyframe_opp i k) Ha) as [H1 H2].
  destruct (same_tests_same_behaviour b im (JBool true) (JInt 1) a a'
              is_keyframe_true Ha) as [H3 H4].
  done.
Qed.

End Intervals.

(** X13, witness: the interval -2 and the string "no" against 2 and [True]. *)
Lemma interval_and_adaptation_as_read_witness :
  Props.same_behaviour
    (PFrame (Examples.base Examples.window_encoder Examples.residual_codec)
       Examples.keyframe_model (JInt (- 2)) (JStr "no"))
    (Examples.pframe 2 true)
  ∧ Props.same_behaviour
      (PFrameWithMotion (Examples.base Examples.window_encoder Examples.residual_codec)
         Examples.keyframe_model (JInt (- 2)) (JStr "no"))
      (PFrameWithMotion (Examples.base Examples.window_encoder Examples.residual_codec)
         Examples.keyframe_model (JInt 2) (JBool true))
  ∧ Props.same_behaviour
      (PFrame (Examples.base Examples.window_encoder Examples.residual_codec)
         Examples.keyframe_model (JBool true) (JStr "no"))
      (PFrame (Examples.base Examples.window_encoder Examples.residual_codec)
         Examples.keyframe_model (JInt 1) (JBool true))
  ∧ Props.same_behaviour
      (PFrameWithMotion (Examples.base Examples.window_encoder Examples.residual_codec)
         Examples.keyframe_model (JBool true) (JStr "no"))
      (PFrameWithMotion (Examples.base Examples.window_encoder Examples.residual_codec)
         Examples.keyframe_model (JInt 1) (JBool true)).
Proof.
  apply (interval_and_adaptation_as_read Z
           (Examples.base Examples.window_encoder Examples.residual_codec)
           Examples.keyframe_model 2 (JStr "no") (JBool true)).
  reflexivity.
Defined.

(** ** Keyframe interval 1 *)
Section IntervalOne.
Variable El : Type.
Import Spec Props.
Implicit Types (out : dict (list (pyval El))) (results : dict (pyval El)).

Lemma relabel_bind {E A B} (g : E → E) (m : M E A) (f : A → M E B) :
  relabel g (m ≫= f) = relabel g m ≫= (fun a => relabel g (f a)).
Proof.
  destruct m as [l [a|e]]; [|done].
  unfold relabel, mbind, M_bind. cbn [fst snd].
  destruct (f a) as [l' r]. cbn [fst snd]. by rewrite fmap_app.
Qed.

Lemma relabel_lift {E A} (g : E → E) (r : result A) : relabel g (lift r) = lift r.
Proof. done. Qed.

Lemma relabel_for_each {E X St} (g : E → E) (xs : list X) (body : X → St → M E St)
    (s : St) :
  relabel g (for_each xs body s) = for_each xs (fun x t => relabel g (body x t)) s.
Proof.
  revert s. induction xs as [|x xs IH]; intros s; [done|]. cbn [for_each].
  rewrite relabel_bind. apply bind_ext. intros t. apply IH.
Qed.

Lemma relabel_swap {A} (i : nat) (m : M (event El) A) :
  relabel (at_frame i) (relabel of_iframe_model m)
  = relabel of_iframe_model (relabel (at_frame i) m).
Proof.
  unfold relabel. cbn [fst snd]. f_equal. rewrite <- !list_fmap_compose.
  apply list_fmap_ext. intros j e _. done.
Qed.

Lemma is_keyframe_one (i : nat) : is_keyframe i (JInt 1) = Ok true.
Proof. unfold is_keyframe, py_mod. cbn. by rewrite Z.mod_1_r. Qed.

(** X14.  With a keyframe interval of 1 and without adaptation,
    [PFrameModel.compress] is [iframe_model.compress]: the same output (or the
    same exception) from the same calls, all of them on the keyframe model,
    when the two models have the same task names. *)
Theorem interval_one_is_keyframe_model (b b_i : BaseModel El) (a : json)
    (video : tensor El) :
  task_name b = task_name b_i → truthy a = false →
  Instance.compress (PFrame b (IFrame b_i) (JInt 1) a) video
  = relabel of_iframe_model (Instance.compress (IFrame b_i) video).
Proof.
  intros Htn Ha. cbn [Instance.compress]. unfold PFrameModel.compress. rewrite Ha.
  unfold PFrameModel.compress_no_adaptation, IFrameModel.compress.
  rewrite relabel_bind, relabel_lift. apply bind_ext. intros n.
  rewrite relabel_for_each. unfold empty_out. rewrite Htn.
  apply for_each_ext. intros i out _. rewrite <- relabel_swap. f_equal.
  unfold PFrameModel.plain_frame, IFrameModel.compress_frame.
  rewrite is_keyframe_one, bind_lift_Ok.
  rewrite relabel_bind, relabel_lift. apply bind_ext. intros inp.
  rewrite relabel_bind. cbn [PFrameModel.iframe_compress_one].
  apply bind_ext. intros results. by rewrite relabel_lift.
Qed.

End IntervalOne.

(** X14, witness: [Examples.pframe 1 false] and its keyframe model. *)
Lemma interval_one_is_keyframe_model_witness :
  Instance.compress (Examples.pframe 1 false) Examples.video
  = relabel of_iframe_model (Instance.compress Examples.keyframe_model Examples.video).
Proof.
  apply (interval_one_is_keyframe_model Z
           (Examples.base Examples.window_encoder Examples.residual_codec)
           (Examples.base Examples.frame_encoder Examples.list_codec)
           (JBool false) Examples.video).
  - reflexivity.
  - reflexivity.
Defined.

(** ** [decompress]: one frame per record *)
Section DecompressCount.
Variable El : Type.
Import Spec Props.

(** X15.  When [decompress] returns, the sequence of records was not empty
    and the tensor has as many frames along dimension 1 as there were records,
    for every model class. *)
Theorem decompress_one_frame_per_record (m : model El) (inputs : list (pyval El))
    l (t : tensor El) :
  Instance.decompress m inputs = (l, Ok t) →
  inputs ≠ [] ∧ ∃ b rest, shape t = b :: length inputs :: rest.
Proof.
  intros H.
  assert (Hfinish : ∀ vs, length vs = length inputs → stack_frames vs = Ok t →
            inputs ≠ [] ∧ ∃ b rest, shape t = b :: length inputs :: rest).
  { intros vs Hlen Hs. apply stack_frames_returns in Hs as (Hne & b & rest & Hshape).
    rewrite Hlen in Hshape. split; [|by exists b, rest].
    intros ->. by destruct vs. }
  destruct m as [self|self im k a|self im k a]; cbn [Instance.decompress] in H.
  - unfold IFrameModel.decompress in H. invert_bind H as l1 rv Hloop.
    apply lift_returns in H as [H ->]. apply (Hfinish rv); [|done].
    eapply (decode_loop_length El id) in Hloop; [done|done|].
    intros i inp s lb s' Hf. invert_bind Hf as l2 recon Hr.
    apply ret_returns in Hf as [<- ->]. unfold id. rewrite length_app. cbn. lia.
  - unfold PFrameModel.decompress in H. invert_bind H as l1 st Hloop.
    apply lift_returns in H as [H ->]. apply (Hfinish st.1); [|done].
    eapply (decode_loop_length El fst) in Hloop; [done|done|].
    intros i inp [rv pf] lb s' Hf. unfold PFrameModel.decompress_frame in Hf.
    invert_bind Hf as l2 key Hkey. invert_bind Hf as l3 recon Hr.
    invert_bind Hf as l4 pf' Hpf. apply ret_returns in Hf as [<- ->].
    cbn [fst]. rewrite length_app. cbn. lia.
  - unfold PFrameModelWithMotion.decompress in H. invert_bind H as l1 st Hloop.
    apply lift_returns in H as [H ->]. apply (Hfinish st.1); [|done].
    eapply (decode_loop_length El fst) in Hloop; [done|done|].
    intros i inp [rv pf] lb s' Hf. unfold PFrameModelWithMotion.decompress_frame in Hf.
    invert_bind Hf as l2 key Hkey. invert_bind Hf as l3 recon Hr.
    invert_bind Hf as l4 pf' Hpf. apply ret_returns in Hf as [<- ->].
    cbn [fst]. rewrite length_app. cbn. lia.
Qed.

End DecompressCount.

(** X15, witness: the four records [Examples.pframe 2 true] makes of a video
    of four frames. *)
Lemma decompress_one_frame_per_record_witness :
  MoreExamples.vc_records ≠ []
  ∧ ∃ b rest, shape MoreExamples.decoded = b :: length MoreExamples.vc_records :: rest.
Proof.
  apply (decompress_one_frame_per_record Z (Examples.pframe 2 true) MoreExamples.vc_records
           (Instance.decompress (Examples.pframe 2 true) MoreExamples.vc_records).1).
  vm_compute. reflexivity.
Defined.

(** ** [compress_one]: representations and heads by position and by name *)
Section CompressOneErrors.
Variable El : Type.
Import Spec Props.
Implicit Types (out : dict (list (pyval El))) (results : dict (pyval El)).

Lemma norm_index_beyond (n : nat) : norm_index n (Z.of_nat n) = Raise IndexError.
Proof.
  unfold norm_index.
  destruct (Z.ltb_spec (Z.of_nat n) 0) as [Hneg|_]; [lia|].
  destruct (Z.leb_spec 0 (Z.of_nat n)) as [_|Hneg]; [|lia].
  destruct (Z.ltb_spec (Z.of_nat n) (Z.of_nat n)) as [Hlt|_]; [lia|]. reflexivity.
Qed.

Lemma enumerate_lookup {A} (l : list A) (i : nat) (x : A) :
  l !! i = Some x → enumerate l !! i = Some (i, x).
Proof.
  intros Hx. unfold enumerate. apply lookup_zip_with_Some. exists i, x.
  split; [done|]. split; [|done]. apply lookup_seq. split; [done|].
  by eapply lookup_lt_Some.
Qed.

Lemma enumerate_lookup_inv {A} (l : list A) (i tn : nat) (x : A) :
  enumerate l !! i = Some (tn, x) → tn = i ∧ l !! i = Some x.
Proof.
  unfold enumerate. intros H.
  apply lookup_zip_with_Some in H as (j & y & [= -> ->] & Hj & Hy).
  apply lookup_seq in Hj as [Hj _]. cbn in Hj. by subst.
Qed.

(** A loop raises what its first failing iteration raises. *)
Lemma for_each_raises_at {E X St} (xs : list X) (body : X → St → M E St) (j : nat) (x : X)
    (e : exn) (s : St) :
  xs !! j = Some x →
  (∀ i y t, i < j → xs !! i = Some y → ∃ l t', body y t = (l, Ok t')) →
  (∀ t, ∃ l, body x t = (l, Raise e)) →
  ∃ l, for_each xs body s = (l, Raise e).
Proof.
  revert j s. induction xs as [|y xs IH]; intros j s Hx Hpre Hat; [done|].
  cbn [for_each]. destruct j as [|j].
  - injection Hx as ->. destruct (Hat s) as [l ->]. rewrite bind_Raise. by eexists.
  - destruct (Hpre 0 y s) as (l & t' & ->); [lia|done|]. rewrite bind_Ok.
    destruct (IH j t' Hx) as [l' Hl'].
    + intros i z t Hi Hz. apply (Hpre (S i) z t); [lia|done].
    + done.
    + rewrite Hl'. by eexists.
Qed.

(** The iteration of [compress_one] for one task. *)
Lemma compress_one_task_returns (self : BaseModel El) (s_rep : pyval El) (tn : nat)
    (task : string) results :
  is_Ok (task_rep self s_rep tn task) = true →
  is_Some (dict_get (decoders self) task) →
  ∃ l results',
    (ss_rep ← lift (task_rep self s_rep tn task);
     d ← decoder_of self task;
     value ← (if bool_decide (task = "vc")
              then call (decoder_compress task) (dec_compress d) [ss_rep]
              else call (decoder_forward task) (dec_forward d) [ss_rep]);
     mret (dict_set results task value)) = (l, Ok results').
Proof.
  intros Hrep [d Hd]. destruct (task_rep self s_rep tn task) as [ss|e]; [|done].
  rewrite bind_lift_Ok. unfold decoder_of, lookup_key. rewrite Hd, bind_lift_Ok.
  destruct (bool_decide (task = "vc")); unfold call; rewrite bind_Ok; by eexists _, _.
Qed.

Lemma task_rep_in_range (self : BaseModel El) (reps : list (pyval El)) (tn : nat)
    (task : string) :
  tn < length reps → is_Ok (task_rep self (PList reps) tn task) = true.
Proof.
  intros Htn. unfold task_rep. cbn [isinstance_list py_getitem].
  destruct (lookup_lt_is_Some_2 reps tn Htn) as [r Hr].
  by rewrite (getitem_nat reps tn r Hr).
Qed.

Lemma task_rep_not_list (self : BaseModel El) (s_rep : pyval El) (tn : nat)
    (task : string) :
  isinstance_list s_rep = false → is_Ok (task_rep self s_rep tn task) = true.
Proof. intros Hl. unfold task_rep. by rewrite Hl. Qed.

(** The call raises what the iteration of the first failing task raises. *)
Lemma compress_one_raises_at (self : BaseModel El) (inp : pyval El) (j : nat)
    (task : string) (e : exn) :
  let s_rep := enc_forward (the_encoder self) [inp] in
  task_name self !! j = Some task →
  (∀ tn t, tn < j → task_name self !! tn = Some t →
     is_Ok (task_rep self s_rep tn t) = true ∧ is_Some (dict_get (decoders self) t)) →
  (∀ results, ∃ l,
     (ss_rep ← lift (task_rep self s_rep j task);
      d ← decoder_of self task;
      value ← (if bool_decide (task = "vc")
               then call (decoder_compress task) (dec_compress d) [ss_rep]
               else call (decoder_forward task) (dec_forward d) [ss_rep]);
      mret (dict_set results task value)) = (l, Raise e)) →
  ∃ l, IFrameModel.compress_one self inp = (l, Raise e).
Proof.
  intros s_rep Hj Hbefore Hat. unfold IFrameModel.compress_one, call.
  rewrite bind_Ok. cbn [fst snd]. fold s_rep.
  match goal with
  | |- context [for_each ?xs ?body ?s] =>
      destruct (for_each_raises_at xs body j (j, task) e s) as [l Hl]
  end.
  - by apply enumerate_lookup.
  - intros i [tn t] results Hi Hy. apply enumerate_lookup_inv in Hy as [-> Hy].
    destruct (Hbefore i t Hi Hy) as [Hrep Hdec].
    by apply compress_one_task_returns.
  - exact Hat.
  - rewrite Hl. by eexists.
Qed.

(** X16.  [compress_one] hands the representations of the encoder to the
    heads by position: when the encoder returns a list of fewer
    representations than the model has tasks, and the tasks before have
    their heads, the call raises [IndexError] at the first task without a
    representation. *)
Theorem compress_one_short_list (self : BaseModel El) (inp : pyval El)
    (reps : list (pyval El)) :
  enc_forward (the_encoder self) [inp] = PList reps →
  length reps < length (task_name self) →
  (∀ tn t, tn < length reps → task_name self !! tn = Some t →
     is_Some (dict_get (decoders self) t)) →
  ∃ l, IFrameModel.compress_one self inp = (l, Raise IndexError).
Proof.
  intros Hreps Hlen Hheads.
  destruct (lookup_lt_is_Some_2 (task_name self) (length reps) Hlen) as [task Htask].
  apply (compress_one_raises_at self inp (length reps) task IndexError Htask).
  - intros tn t Htn Ht. rewrite Hreps. split; [by apply task_rep_in_range|].
    by apply (Hheads tn).
  - intros results. rewrite Hreps. unfold task_rep. cbn [isinstance_list py_getitem].
    unfold getitem. rewrite norm_index_beyond. by eexists.
Qed.

(** X17.  [compress_one] finds the head of a task under the name of the
    task: when a task has no head under its name, and the tasks before have
    theirs and every task up to it a representation, the call raises
    [KeyError] with the name of the task. *)
Theorem compress_one_missing_head (self : BaseModel El) (inp : pyval El) (j : nat)
    (task : string) :
  let s_rep := enc_forward (the_encoder self) [inp] in
  task_name self !! j = Some task →
  dict_get (decoders self) task = None →
  (∀ tn t, tn < j → task_name self !! tn = Some t →
     is_Some (dict_get (decoders self) t)) →
  (∀ tn t, tn ≤ j → task_name self !! tn = Some t →
     is_Ok (task_rep self s_rep tn t) = true) →
  ∃ l, IFrameModel.compress_one self inp = (l, Raise (KeyError task)).
Proof.
  intros s_rep Htask Hnone Hheads Hreps.
  apply (compress_one_raises_at self inp j task (KeyError task) Htask).
  - intros tn t Htn Ht. split; [apply Hreps; [lia|done]|by apply (Hheads tn)].
  - intros results. fold s_rep.
    pose proof (Hreps j task (Nat.le_refl j) Htask) as Hrep.
    destruct (task_rep self s_rep j task) as [ss|e]; [|done].
    rewrite bind_lift_Ok. unfold decoder_of, lookup_key. rewrite Hnone. by eexists.
Qed.

End CompressOneErrors.

(** X16, witness: an encoder that returns two representations, as
    [VSRVCEncoder] does, under a model of three tasks. *)
Lemma compress_one_short_list_witness :
  ∃ l, IFrameModel.compress_one MoreExamples.three_tasks (PTensor Examples.two_frames)
       = (l, Raise IndexError).
Proof.
  apply (compress_one_short_list Z MoreExamples.three_tasks (PTensor Examples.two_frames)
           [PTensor Examples.two_frames;
            PTuple [PTensor Examples.two_frames; PTensor Examples.two_frames]]).
  - reflexivity.
  - cbn. lia.
  - intros tn t Htn Ht. destruct tn as [|[|tn]]; [| |cbn in Htn; lia];
      injection Ht as <-; by eexists.
Defined.

(** X17, witness: the task "depth" of a model whose heads are those of "vc"
    and "vsr". *)
Lemma compress_one_missing_head_witness :
  ∃ l, IFrameModel.compress_one MoreExamples.no_depth_head (PTensor Examples.two_frames)
       = (l, Raise (KeyError "depth")).
Proof.
  apply (compress_one_missing_head Z MoreExamples.no_depth_head
           (PTensor Examples.two_frames) 1 "depth").
  - reflexivity.
  - reflexivity.
  - intros tn t Htn Ht. destruct tn as [|tn]; [|lia]. injection Ht as <-. by eexists.
  - intros tn t Htn Ht. destruct tn as [|[|tn]]; [| |lia]; injection Ht as <-; reflexivity.
Defined.

(** ** [decompress]: the frames in the order of the records *)
Section Blocks.
Context {A : Type}.
Implicit Types (l : list A).

Lemma block_0 (c : nat) l : block A 0 c l = take c l.
Proof. reflexivity. Qed.

Lemma block_S (i c : nat) l : block A (S i) c l = block A i c (drop c l).
Proof. unfold block. rewrite drop_drop. do 2 f_equal. Qed.

Lemma block_length (i c b : nat) l :
  length l = b * c → i < b → length (block A i c l) = c.
Proof.
  intros Hl Hi. unfold block. rewrite length_take, length_drop, Hl. nia.
Qed.

(** The chunk [i] of a sequence of chunks of the same length. *)
Lemma block_flat_map {X} (f : X → list A) (xs : list X) (c i : nat) (x : X) :
  (∀ y, y ∈ xs → length (f y) = c) → xs !! i = Some x →
  block A i c (flat_map f xs) = f x.
Proof.
  revert i. induction xs as [|y xs IH]; intros i Hlen Hx; [done|]. cbn [flat_map].
  pose proof (Hlen y (list_elem_of_here _ _)) as Hy.
  destruct i as [|i].
  - injection Hx as ->. rewrite block_0. by rewrite take_app_length'.
  - rewrite block_S, drop_app_length' by done. apply IH; [|done].
    intros z Hz. apply Hlen. by apply list_elem_of_further.
Qed.

Lemma flat_map_ext_in {X} (f g : X → list A) (xs : list X) :
  (∀ x, x ∈ xs → f x = g x) → flat_map f xs = flat_map g xs.
Proof.
  induction xs as [|x xs IH]; intros Hfg; [done|]. cbn [flat_map].
  rewrite (Hfg x (list_elem_of_here _ _)), IH; [done|].
  intros y Hy. apply Hfg. by apply list_elem_of_further.
Qed.

Lemma flat_map_length_const {X} (f : X → list A) (xs : list X) (c : nat) :
  (∀ y, y ∈ xs → length (f y) = c) → length (flat_map f xs) = length xs * c.
Proof.
  induction xs as [|x xs IH]; intros Hlen; [done|]. cbn [flat_map length].
  rewrite length_app, (Hlen x (list_elem_of_here _ _)), IH; [lia|].
  intros y Hy. apply Hlen. by apply list_elem_of_further.
Qed.

(** The chunks of a sequence, put one after the other, are the sequence. *)
Lemma flat_map_blocks (c b : nat) l :
  length l = b * c → flat_map (fun β => block A β c l) (seq 0 b) = l.
Proof.
  revert l. induction b as [|b IH]; intros l Hl.
  - cbn. destruct l; [done|]. cbn in Hl. lia.
  - cbn [seq flat_map]. rewrite <- seq_shift, flat_map_concat_map, map_map.
    rewrite <- flat_map_concat_map.
    rewrite (flat_map_ext_in _ (fun β => block A β c (drop c l)));
      [|intros β _; apply block_S].
    rewrite IH; [|rewrite length_drop, Hl; cbn; lia].
    rewrite block_0. apply take_drop.
Qed.

End Blocks.

Section FrameOrder.
Variable El : Type.
Import Spec Props.

(** Frame [k] of [torch.stack(ts, dim=1)] is [ts[k]]. *)
Lemma select1_stack1 (ts : list (tensor El)) (t u : tensor El) (k : nat) :
  stack1 ts = Ok t → Forall well_formed ts → ts !! k = Some u →
  select1 t (Z.of_nat k) = Ok u.
Proof.
  intros Hstack Hwf Hk. unfold stack1 in Hstack.
  destruct ts as [|t0 ts0] eqn:Hts; [done|]. rewrite <- Hts in *.
  destruct (forallb (same_shape (shape t0)) ts) eqn:Hsame; [|done].
  destruct (shape t0) as [|b rest] eqn:Hs0; [done|]. injection Hstack as <-.
  assert (Hshape : ∀ v, v ∈ ts → shape v = b :: rest).
  { intros v Hv. rewrite forallb_forall in Hsame. apply list_elem_of_In in Hv.
    specialize (Hsame v Hv). unfold same_shape in Hsame.
    by apply bool_decide_eq_true in Hsame. }
  assert (Hdata : ∀ v, v ∈ ts → length (data v) = b * numel rest).
  { intros v Hv. rewrite Forall_forall in Hwf. rewrite (Hwf v Hv), (Hshape v Hv). done. }
  set (c := numel rest) in *.
  assert (Hu : u ∈ ts) by by eapply list_elem_of_lookup_2.
  unfold select1. cbn [shape data]. rewrite norm_index_nat by by eapply lookup_lt_Some.
  rewrite result_bind_Ok. fold c. f_equal.
  destruct u as [su du]. pose proof (Hshape _ Hu) as Hsu. pose proof (Hdata _ Hu) as Hdu.
  cbn [shape data] in Hsu, Hdu. subst su. f_equal.
  etransitivity; [|exact (flat_map_blocks c b du Hdu)].
  apply flat_map_ext_in. intros β Hβ. apply list_elem_of_In, in_seq in Hβ.
  rewrite (block_flat_map (fun β' => flat_map (fun v => block El β' c (data v)) ts)
             (seq 0 b) (length ts * c) β β).
  - apply (block_flat_map (fun v => block El β c (data v)) ts c k (Tensor (b :: rest) du));
      [|done].
    intros v Hv. apply (block_length β c b); [by apply Hdata|lia].
  - intros β' Hβ'. apply list_elem_of_In, in_seq in Hβ'.
    apply flat_map_length_const. intros v Hv.
    apply (block_length β' c b); [by apply Hdata|lia].
  - apply lookup_seq. split; [done|lia].
Qed.

End FrameOrder.

Section DecodeOrder.
Variable El : Type.
Import Spec Props.

Lemma stack_frames_inv (vs : list (pyval El)) (t : tensor El) :
  stack_frames vs = Ok t → ∃ ts, vs = PTensor <$> ts ∧ stack1 ts = Ok t.
Proof.
  unfold stack_frames.
  assert (Hgen : ∀ (ws : list (pyval El)) (acc ts : list (tensor El)),
    for_each ws (fun v acc => t ← as_tensor v; Ok (acc ++ [t])) acc = Ok ts →
    ∃ us, ts = acc ++ us ∧ ws = PTensor <$> us).
  { induction ws as [|w ws IH]; intros acc ts H; cbn [for_each] in H.
    - injection H as <-. exists []. by rewrite app_nil_r.
    - destruct w; try discriminate H. cbn [as_tensor] in H. rewrite !result_bind_Ok in H.
      apply IH in H as (us & -> & ->). eexists (_ :: us).
      split; [by rewrite <- app_assoc|done]. }
  destruct (for_each vs _ []) as [ts|e] eqn:Hts; [|done]. rewrite result_bind_Ok.
  apply Hgen in Hts as (us & -> & ->). intros Hs. by exists us.
Qed.

(** What one decode of the independent model logs and returns. *)
Lemma decompress_one_decoded (self : BaseModel El) (inp : pyval El) l v :
  IFrameModel.decompress_one self inp = (l, Ok v) →
  ∃ args d, l = [Event 0 Self (decoder_decompress "vc") args]
    ∧ dict_get (decoders self) "vc" = Some d ∧ v = dec_decompress d args.
Proof.
  intros H. unfold IFrameModel.decompress_one, decoder_of in H.
  invert_bind H as l1 d Hd. apply lift_returns in Hd as [Hd ->].
  invert_bind H as l2 args Hargs. apply lift_returns in Hargs as [Hargs ->].
  apply call_returns in H as [-> ->]. exists args, d. split; [done|]. split; [|done].
  unfold lookup_key in Hd. destruct (dict_get _ _); [|done]. by injection Hd as ->.
Qed.

Lemma own_decode (m : model El) (args : list (pyval El)) (d : decoder El) :
  lookup_key (decoders (base_of m)) "vc" = Ok d →
  decode_of m (Event 0 Self (decoder_decompress "vc") args) (dec_decompress d args).
Proof.
  intros Hd. split; [done|]. exists d. split; [|done]. cbn.
  unfold lookup_key in Hd. destruct (dict_get _ _); [|done]. by injection Hd as ->.
Qed.

(** The decode of a keyframe goes to the head of the keyframe model. *)
Lemma iframe_decompress_one_decoded (m im : model El) (inp : result (pyval El)) l v :
  iframe_model_of m = Some im →
  PFrameModel.iframe_decompress_one im inp = (l, Ok v) →
  ∃ e, e ∈ l ∧ decode_of m e v.
Proof.
  intros Him H. unfold PFrameModel.iframe_decompress_one in H.
  destruct im as [b| |]; [|done|done].
  invert_bind H as l1 x Hx. apply lift_returns in Hx as [Hx ->].
  apply relabel_Ok in H as (l0 & H & ->).
  apply decompress_one_decoded in H as (args & d & -> & Hd & ->).
  eexists. split; [apply list_elem_of_here|]. split; [done|]. exists d.
  split; [|done]. cbn. by rewrite Him.
Qed.

Lemma pframe_decompress_frame_decoded (self : BaseModel El) (im : model El) (k a : json)
    (i : nat) (inp : pyval El) (st : list (pyval El) * pyval El) lb st' :
  PFrameModel.decompress_frame self im k i inp st = (lb, Ok st') →
  ∃ v e, st'.1 = st.1 ++ [v] ∧ e ∈ lb ∧ decode_of (PFrame self im k a) e v.
Proof.
  destruct st as [rv pf]. intros H. unfold PFrameModel.decompress_frame in H.
  invert_bind H as l1 key Hkey. apply lift_returns in Hkey as [Hkey ->].
  invert_bind H as l2 recon Hrecon. invert_bind H as l3 pf' Hpf.
  apply ret_returns in H as [<- ->]. exists recon. cbn [fst].
  assert (∃ e, e ∈ l2 ∧ decode_of (PFrame self im k a) e recon) as (e & He & Hdec).
  { destruct key.
    - by apply (iframe_decompress_one_decoded (PFrame self im k a) im) in Hrecon.
    - invert_bind Hrecon as l4 rec Hrec. invert_bind Hrecon as l5 inp' Hinp.
      invert_bind Hrecon as l6 d Hd. apply lift_returns in Hd as [Hd ->].
      invert_bind Hrecon as l7 args Hargs. apply call_returns in Hrecon as [-> ->].
      exists (Event 0 Self (decoder_decompress "vc") args).
      split; [set_solver|]. by apply (own_decode (PFrame self im k a)). }
  exists e. split; [done|]. split; [set_solver|done].
Qed.

Lemma motion_decompress_frame_decoded (self : BaseModel El) (im : model El) (k a : json)
    (i : nat) (inp : pyval El) (st : list (pyval El) * pyval El) lb st' :
  PFrameModelWithMotion.decompress_frame self im k i inp st = (lb, Ok st') →
  ∃ v e, st'.1 = st.1 ++ [v] ∧ e ∈ lb ∧ decode_of (PFrameWithMotion self im k a) e v.
Proof.
  destruct st as [rv pf]. intros H. unfold PFrameModelWithMotion.decompress_frame in H.
  invert_bind H as l1 key Hkey. apply lift_returns in Hkey as [Hkey ->].
  invert_bind H as l2 recon Hrecon. invert_bind H as l3 pf' Hpf.
  apply ret_returns in H as [<- ->]. exists recon. cbn [fst].
  assert (∃ e, e ∈ l2 ∧ decode_of (PFrameWithMotion self im k a) e recon)
    as (e & He & Hdec).
  { destruct key.
    - by apply (iframe_decompress_one_decoded (PFrameWithMotion self im k a) im) in Hrecon.
    - invert_bind Hrecon as m1 motion Hmotion. invert_bind Hrecon as m2 margs Hmargs.
      invert_bind Hrecon as m3 offsets Hoff. invert_bind Hrecon as m4 align Halign.
      invert_bind Hrecon as l4 rec Hrec. invert_bind Hrecon as l5 inp' Hinp.
      invert_bind Hrecon as l6 d Hd. apply lift_returns in Hd as [Hd ->].
      invert_bind Hrecon as l7 args Hargs. apply call_returns in Hrecon as [-> ->].
      exists (Event 0 Self (decoder_decompress "vc") args).
      split; [set_solver|]. by apply (own_decode (PFrameWithMotion self im k a)). }
  exists e. split; [done|]. split; [set_solver|done].
Qed.

(** A loop over the records whose iterations add the reconstruction of one
    decode call each. *)
Lemma decode_loop_order {St} (m : model El) (recons : St → list (pyval El))
    (frame : nat → pyval El → St → M (event El) St) (inputs : list (pyval El))
    (s0 : St) l s :
  recons s0 = [] →
  (∀ i inp s lb s', frame i inp s = (lb, Ok s') →
     ∃ v e, recons s' = recons s ++ [v] ∧ e ∈ lb ∧ decode_of m e v) →
  for_each (enumerate inputs) (fun '(i, inp) s => relabel (at_frame i) (frame i inp s)) s0
    = (l, Ok s) →
  length (recons s) = length inputs
  ∧ ∀ i v, recons s !! i = Some v → decoded_by m l i v.
Proof.
  intros H0 Hframe Hloop.
  apply (for_each_inv
    (fun done s (l : list (event El)) =>
       length (recons s) = length done
       ∧ ∀ i v, recons s !! i = Some v → decoded_by m l i v)) in Hloop.
  - by rewrite enumerate_length in Hloop.
  - rewrite H0. split; [done|]. intros i v Hv. by rewrite lookup_nil in Hv.
  - intros done [i inp] todo t l0 lb t' Hxs [Hlen Hdec] Hb.
    apply relabel_Ok in Hb as (lb0 & Hb & ->).
    destruct (Hframe _ _ _ _ _ Hb) as (v & e & Hrec & He & Hde).
    assert (i = length done) as ->.
    { assert (enumerate inputs !! length done = Some (i, inp)) as Hi.
      { rewrite Hxs. by apply list_lookup_middle. }
      by apply enumerate_lookup_inv in Hi as [-> _]. }
    rewrite Hrec, !length_app. split; [cbn; lia|]. intros j w Hw.
    apply lookup_app_Some in Hw as [Hw|[Hj Hw]].
    + destruct (Hdec j w Hw) as (e' & He' & Hf & Hd').
      exists e'. split; [|done]. apply elem_of_app. by left.
    + rewrite Hlen in Hj, Hw. apply list_lookup_singleton_Some in Hw as [Hj' <-].
      exists (at_frame (length done) e). split; [|split].
      * apply elem_of_app. right. by apply list_elem_of_fmap_2.
      * cbn. lia.
      * exact Hde.
Qed.

(** X18.  When [decompress] returns, frame [i] of the tensor is what the
    compression head returned for the decode call of record [i], for every
    model class: the head of the keyframe model for a keyframe, the model's
    own otherwise.  The tensors the heads return are taken to hold as many
    elements as their shape says. *)
Theorem decompress_frames_in_order (m : model El) (inputs : list (pyval El))
    l (t : tensor El) (i : nat) :
  decodes_well_formed m l →
  Instance.decompress m inputs = (l, Ok t) →
  i < length inputs →
  ∃ u, decoded_by m l i (PTensor u) ∧ select1 t (Z.of_nat i) = Ok u.
Proof.
  intros Hwf H Hi.
  assert (Hfinish : ∀ vs l1,
    (length vs = length inputs ∧ ∀ j v, vs !! j = Some v → decoded_by m l1 j v) →
    l = l1 ++ [] → stack_frames vs = Ok t →
    ∃ u, decoded_by m l i (PTensor u) ∧ select1 t (Z.of_nat i) = Ok u).
  { intros vs l1 [Hlen Hdec] Hl Hs. rewrite app_nil_r in Hl. subst l1.
    apply stack_frames_inv in Hs as (ts & -> & Hs). rewrite length_fmap in Hlen.
    destruct (lookup_lt_is_Some_2 ts i) as [u Hu]; [lia|]. exists u. split.
    - apply Hdec. by rewrite list_lookup_fmap, Hu.
    - apply (select1_stack1 El ts); [done| |done].
      apply Forall_lookup. intros j w Hw. apply (Hwf j), Hdec.
      by rewrite list_lookup_fmap, Hw. }
  destruct m as [self|self im k a|self im k a]; cbn [Instance.decompress] in H.
  - unfold IFrameModel.decompress in H. invert_bind H as l1 rv Hloop.
    apply lift_returns in H as [H ->]. apply (Hfinish rv l1); [|done|done].
    eapply (decode_loop_order (IFrame self) id) in Hloop; [done|done|].
    intros j inp s lb s' Hf. invert_bind Hf as l2 recon Hr.
    apply ret_returns in Hf as [<- ->].
    apply decompress_one_decoded in Hr as (args & d & -> & Hd & ->).
    eexists _, _. split; [done|]. split; [apply list_elem_of_here|].
    split; [done|]. by exists d.
  - unfold PFrameModel.decompress in H. invert_bind H as l1 st Hloop.
    apply lift_returns in H as [H ->]. apply (Hfinish st.1 l1); [|done|done].
    eapply (decode_loop_order (PFrame self im k a) fst) in Hloop; [done|done|].
    intros j inp s lb s'. apply pframe_decompress_frame_decoded.
  - unfold PFrameModelWithMotion.decompress in H. invert_bind H as l1 st Hloop.
    apply lift_returns in H as [H ->]. apply (Hfinish st.1 l1); [|done|done].
    eapply (decode_loop_order (PFrameWithMotion self im k a) fst) in Hloop; [done|done|].
    intros j inp s lb s'. apply motion_decompress_frame_decoded.
Qed.

End DecodeOrder.

(** X18, witness: the second frame of what [Examples.pframe 2 true] decodes
    from the four records it made, a predicted frame. *)
Lemma decompress_frames_in_order_witness :
  ∃ u, Props.decoded_by (Examples.pframe 2 true)
         (Instance.decompress (Examples.pframe 2 true) MoreExamples.vc_records).1 1
         (PTensor u)
       ∧ select1 MoreExamples.decoded 1 = Ok u.
Proof.
  apply (decompress_frames_in_order Z (Examples.pframe 2 true) MoreExamples.vc_records
           (Instance.decompress (Examples.pframe 2 true) MoreExamples.vc_records).1
           MoreExamples.decoded 1).
  - intros i u (e & He & _ & Hc & d & Hd & Hu).
    apply list_elem_of_In in He. vm_compute in He.
    repeat destruct He as [He|He]; try contradiction; subst e; try discriminate Hc;
      vm_compute in Hd; injection Hd as <-; vm_compute in Hu; injection Hu as ->;
      vm_compute; reflexivity.
  - vm_compute. reflexivity.
  - vm_compute. lia.
Defined.
